(** * NimbusRT: path storage and point-cloud environment

    A shallow embedding of [Nimbus/PathStorage.cpp] and of the control flow of
    [Nimbus/PointCloudEnvironment.cpp], with the properties of the aggregation
    store and of its two exporters.

    Conventions.
    - [uint32_t] and [size_t] values are binary naturals ([N]); a cast to
      [uint32_t], a [uint32_t] sum and a counter that can wrap have their
      reduction written out.  The strides and offsets of the dense export
      are plain products and sums: the widths of their operands are
      declared in [PathStorage.hpp], which is not among the translated
      files.
    - [float] and [double] are IEEE-754 values ([spec_float]); comparisons are
      the IEEE ones ([SFltb]), so a NaN compares false with everything.
    - [std::vector<A>] is [list A].  [operator[]] out of range is undefined
      behaviour in C++: every access is checked and the computation is
      [None] from there on.
    - [std::unordered_map<PathHashKey, ...>] is a [gmap] keyed by the hash. *)

From Stdlib Require Import ZArith NArith Lia SpecFloat String.
From stdpp Require Import base option list gmap.

Local Open Scope N_scope.

(** ** Vectors and loops *)

Definition vec_size {A} (v : list A) : N := N.of_nat (length v).

Definition vec_at {A} (v : list A) (i : N) : option A := v !! N.to_nat i.

Definition vec_set {A} (v : list A) (i : N) (x : A) : option (list A) :=
  if decide (i < vec_size v) then Some (<[N.to_nat i := x]> v) else None.

Definition emplace_back {A} (v : list A) (x : A) : list A := v ++ [x].

Arguments vec_size : simpl never.
Arguments vec_at : simpl never.
Arguments vec_set : simpl never.
Arguments emplace_back : simpl never.

(** [for (i = start; ...; ++i) body], run for [count] iterations over a
    state [S]; an iteration that is undefined makes the loop undefined. *)
Fixpoint for_loop {S} (count : nat) (i : N) (body : N → S → option S) (s : S)
  : option S :=
  match count with
  | O => Some s
  | Datatypes.S count' => s' ← body i s; for_loop count' (N.succ i) body s'
  end.

(** [for (i = 0; i < n; ++i) body]. *)
Definition for_upto {S} (n : N) (body : N → S → option S) (s : S) : option S :=
  for_loop (N.to_nat n) 0 body s.

(** ** Machine integers *)

Definition uint32_modulus : N := 2 ^ 32.

(** [static_cast<uint32_t>(x)] *)
Definition to_uint32 (x : N) : N := x mod uint32_modulus.

(** [static_cast<int32_t>(x)] of an unsigned value. *)
Definition to_int32 (x : N) : Z :=
  let y := Z.of_N (to_uint32 x) in
  if (y <? 2 ^ 31)%Z then y else (y - 2 ^ 32)%Z.

(** [~0u] *)
Definition all_bits_set : N := uint32_modulus - 1.

(** ** Floating point and glm::vec3 *)

Abbreviation float := spec_float.
Abbreviation double := spec_float.

(** [a > b] on IEEE values. *)
Definition fgt (a b : spec_float) : bool := SFltb b a.

Definition fsub (a b : float) : float := SFsub 24 128 a b.
Definition fadd (a b : float) : float := SFadd 24 128 a b.
Definition fmul (a b : float) : float := SFmul 24 128 a b.

Definition fzero : float := S754_zero false.

Module vec3.
Record t := mk { x : float; y : float; z : float }.
(** [glm::vec3(s)] *)
Definition splat (s : float) : t := mk s s s.
(** [a - b], [-a], [a - s], [a + s] *)
Definition sub (a b : t) : t := mk (fsub (x a) (x b)) (fsub (y a) (y b)) (fsub (z a) (z b)).
Definition neg (a : t) : t := mk (SFopp (x a)) (SFopp (y a)) (SFopp (z a)).
Definition sub_scalar (a : t) (s : float) : t := mk (fsub (x a) s) (fsub (y a) s) (fsub (z a) s).
Definition add_scalar (a : t) (s : float) : t := mk (fadd (x a) s) (fadd (y a) s) (fadd (z a) s).
(** [glm::min(a, b)] is [b < a ? b : a] per component, [glm::max(a, b)]
    is [a < b ? b : a]. *)
Definition fmin (a b : float) : float := if SFltb b a then b else a.
Definition fmax (a b : float) : float := if SFltb a b then b else a.
Definition min (a b : t) : t := mk (fmin (x a) (x b)) (fmin (y a) (y b)) (fmin (z a) (z b)).
Definition max (a b : t) : t := mk (fmax (x a) (x b)) (fmax (y a) (y b)) (fmax (z a) (z b)).
End vec3.

(** ** Enumerations *)

Module PathType.
Inductive t := LineOfSight | Specular | Diffraction | Scattering | RIS.
End PathType.

Module SionnaPathType.
Inductive t := Specular | Diffracted | Scattered | RIS.

Definition eqb (a b : t) : bool :=
  match a, b with
  | Specular, Specular | Diffracted, Diffracted
  | Scattered, Scattered | RIS, RIS => true
  | _, _ => false
  end.
End SionnaPathType.

(** [std::array<A, 4>] indexed by [static_cast<uint32_t>(SionnaPathType)]. *)
Module PerType.
Record t (A : Type) := mk { specular : A; diffracted : A; scattered : A; ris : A }.
Arguments mk {A}.
Arguments specular {A}.
Arguments diffracted {A}.
Arguments scattered {A}.
Arguments ris {A}.

Definition get {A} (a : t A) (ty : SionnaPathType.t) : A :=
  match ty with
  | SionnaPathType.Specular => specular a
  | SionnaPathType.Diffracted => diffracted a
  | SionnaPathType.Scattered => scattered a
  | SionnaPathType.RIS => ris a
  end.

Definition set {A} (a : t A) (ty : SionnaPathType.t) (v : A) : t A :=
  match ty with
  | SionnaPathType.Specular => mk v (diffracted a) (scattered a) (ris a)
  | SionnaPathType.Diffracted => mk (specular a) v (scattered a) (ris a)
  | SionnaPathType.Scattered => mk (specular a) (diffracted a) v (ris a)
  | SionnaPathType.RIS => mk (specular a) (diffracted a) (scattered a) v
  end.

(** [{}]: every element value-initialised. *)
Definition fill {A} (v : A) : t A := mk v v v v.
End PerType.

(** [PathStorage::GetSionnaPathType] *)
Definition GetSionnaPathType (type : PathType.t) : SionnaPathType.t :=
  match type with
  | PathType.LineOfSight | PathType.Specular => SionnaPathType.Specular
  | PathType.Diffraction => SionnaPathType.Diffracted
  | PathType.Scattering => SionnaPathType.Scattered
  | PathType.RIS => SionnaPathType.RIS
  end.

(** ** Point cloud: data *)

Module PointData.
Record t := mk { position : vec3.t; normal : vec3.t; label : N; material : N }.
End PointData.

Module PointNode.
Record t := mk {
  position : vec3.t;
  normal : vec3.t;
  label : N;
  materialID : N;
  ieNext : N
}.
End PointNode.

Module Aabb.
Record t := mk { min : vec3.t; max : vec3.t }.
End Aabb.

(** [VoxelWorldInfo(origin, voxelSize, dimensions)] *)
Module VoxelWorldInfo.
Record t := mk { origin : vec3.t; voxelSize : float; dimensions : N * N * N }.
End VoxelWorldInfo.

(** ** What the sources under study take from elsewhere

    [PathStorage.hpp], [Utils.hpp], [Types.hpp], glm and the device layer
    are not part of the translated files.  The functions and constants they
    provide are the fields of this class; nothing is assumed about them. *)
Class Externals := {
  (** [CalculateHash(txID, rxID, pathType)] *)
  CalculateHash : N → N → PathType.t → N;
  (** [CombineHash(hash, label)], returning the updated [hash] *)
  CombineHash : N → N → N;
  (** largest value of a per-link path counter (all bits set) *)
  counter_max : N;
  (** [glm::normalize], [glm::acos], [glm::atan(y, x)] *)
  normalize : vec3.t → vec3.t;
  acos : float → float;
  atan : float → float → float;
  (** [static_cast<float>(double)] *)
  double_to_float : double → float;
  (** [Constants::LightSpeedInVacuum] *)
  LightSpeedInVacuum : float;
  (** [glm::uvec3(glm::ceil((max - min) / voxelSize))] *)
  VoxelDimensions : vec3.t → vec3.t → float → N * N * N;
  (** [Constants::InvalidPointIndex] *)
  InvalidPointIndex : N;
  (** [Utils::WorldToVoxelID(position, voxelWorldInfo)] *)
  WorldToVoxelID : vec3.t → VoxelWorldInfo.t → N;
  (** [Utils::GetLaunchCount(count, blockSize)] *)
  GetLaunchCount : N → N → N;
  (** what the device hands back once the primitive kernel has run and the
      acceleration structure is built: [IsValid()] of the structure and
      the downloaded point count *)
  CreatePrimitives :
    list PointNode.t → list (N * N) → VoxelWorldInfo.t → N → float → bool * N
}.

(** [++c] and [--c] on an unsigned counter. *)
Definition counter_incr {ext : Externals} (c : N) : N :=
  if c =? counter_max then 0 else c + 1.
Definition counter_decr {ext : Externals} (c : N) : N :=
  if c =? 0 then counter_max else c - 1.

(** ** Path storage: data *)

Module PathInfo.
Record t := mk {
  txID : N;
  rxID : N;
  pathType : PathType.t;
  numInteractions : N;
  timeDelay : double
}.
End PathInfo.

Module InteractionData.
Record t := mk {
  interactions : list vec3.t;
  normals : list vec3.t;
  labels : list N;
  materials : list N
}.
Definition empty : t := mk [] [] [] [].
End InteractionData.

(** The value type of [m_PathMap]: built by
    [try_emplace(hash, timeDelay, pathIndex)]. *)
Module PathEntry.
Record t := mk { timeDelay : double; pathIndex : N }.
End PathEntry.

Record PathStorage := mkPathStorage {
  m_MaxNumInteractions : N;
  m_InteractionData : list InteractionData.t;
  m_Transmitters : list vec3.t;
  m_Receivers : list vec3.t;
  m_PathCounts : list (PerType.t N);
  m_MaxLinkPaths : PerType.t N;
  m_PathMap : gmap N PathEntry.t;
  m_TimeDelays : list double;
  m_TxIDs : list N;
  m_RxIDs : list N;
  m_PathTypes : list PathType.t;
  m_NumInteractions : list N
}.

(** [PathStorage::PathStorage]; [txCount] and [rxCount] are the lengths of
    [txs] and [rxs], and their sum is a [uint32_t] sum. *)
Definition PathStorage_new (maxNumInteractions : N) (txs rxs : list vec3.t)
  : PathStorage :=
  {| m_MaxNumInteractions := maxNumInteractions;
     m_InteractionData := replicate (N.to_nat maxNumInteractions) InteractionData.empty;
     m_Transmitters := txs;
     m_Receivers := rxs;
     m_PathCounts :=
       replicate (N.to_nat (to_uint32 (vec_size txs + vec_size rxs))) (PerType.fill 0);
     m_MaxLinkPaths := PerType.fill 0;
     m_PathMap := ∅;
     m_TimeDelays := [];
     m_TxIDs := [];
     m_RxIDs := [];
     m_PathTypes := [];
     m_NumInteractions := [] |}.

(** ** Path storage: AddPaths *)

Section AddPaths.
Context {ext : Externals}.

(** [PathStorage::GetPathHash(pathInfo, &labels[dataIndex])]: the label
    [labels[i]] of the callee is [labels[dataIndex + i]] of the caller. *)
Definition GetPathHash (pathInfo : PathInfo.t) (labels : list N) (dataIndex : N)
  : option N :=
  for_upto (PathInfo.numInteractions pathInfo)
    (λ i hash, l ← vec_at labels (dataIndex + i); Some (CombineHash hash l))
    (CalculateHash (PathInfo.txID pathInfo) (PathInfo.rxID pathInfo)
       (PathInfo.pathType pathInfo)).

(** Body of the loop of the [emplaced] branch (lines 43-59). *)
Definition emplace_interaction (pathInfo : PathInfo.t)
    (interactions normals : list vec3.t) (labels materials : list N)
    (dataIndex iaIndex : N) (data : list InteractionData.t)
  : option (list InteractionData.t) :=
  d ← vec_at data iaIndex;
  if iaIndex <? PathInfo.numInteractions pathInfo then
    p ← vec_at interactions (dataIndex + iaIndex);
    n ← vec_at normals (dataIndex + iaIndex);
    l ← vec_at labels (dataIndex + iaIndex);
    m ← vec_at materials (dataIndex + iaIndex);
    vec_set data iaIndex
      (InteractionData.mk
         (emplace_back (InteractionData.interactions d) p)
         (emplace_back (InteractionData.normals d) n)
         (emplace_back (InteractionData.labels d) l)
         (emplace_back (InteractionData.materials d) m))
  else
    vec_set data iaIndex
      (InteractionData.mk
         (emplace_back (InteractionData.interactions d) (vec3.splat fzero))
         (emplace_back (InteractionData.normals d) (vec3.splat fzero))
         (emplace_back (InteractionData.labels d) all_bits_set)
         (emplace_back (InteractionData.materials d) all_bits_set)).

(** Body of the loop of the overwrite branch (lines 71-77);
    [slot] is [it->second.pathIndex]. *)
Definition overwrite_interaction
    (interactions normals : list vec3.t) (labels materials : list N)
    (dataIndex slot iaIndex : N) (data : list InteractionData.t)
  : option (list InteractionData.t) :=
  d ← vec_at data iaIndex;
  p ← vec_at interactions (dataIndex + iaIndex);
  n ← vec_at normals (dataIndex + iaIndex);
  l ← vec_at labels (dataIndex + iaIndex);
  m ← vec_at materials (dataIndex + iaIndex);
  d1 ← vec_set (InteractionData.interactions d) slot p;
  d2 ← vec_set (InteractionData.normals d) slot n;
  d3 ← vec_set (InteractionData.labels d) slot l;
  d4 ← vec_set (InteractionData.materials d) slot m;
  vec_set data iaIndex (InteractionData.mk d1 d2 d3 d4).

(** One iteration of the loop of [AddPaths] (lines 37-80). *)
Definition AddPath (pathInfos : list PathInfo.t)
    (interactions normals : list vec3.t) (labels materials : list N)
    (pathIndex : N) (st : PathStorage) : option PathStorage :=
  pathInfo ← vec_at pathInfos pathIndex;
  let dataIndex := pathIndex * vec_size (m_InteractionData st) in
  (* [&labels[dataIndex]]: the element is accessed, whatever the number of
     interactions of the path *)
  _ ← vec_at labels dataIndex;
  hash ← GetPathHash pathInfo labels dataIndex;
  match m_PathMap st !! hash with
  | None =>
    let entry := PathEntry.mk (PathInfo.timeDelay pathInfo)
                              (to_uint32 (N.of_nat (size (m_PathMap st)))) in
    data ← for_upto (vec_size (m_InteractionData st))
              (emplace_interaction pathInfo interactions normals labels materials dataIndex)
              (m_InteractionData st);
    let typeIndex := GetSionnaPathType (PathInfo.pathType pathInfo) in
    let link := PathInfo.rxID pathInfo * vec_size (m_Transmitters st)
                + PathInfo.txID pathInfo in
    counts ← vec_at (m_PathCounts st) link;
    let count := counter_incr (PerType.get counts typeIndex) in
    pathCounts ← vec_set (m_PathCounts st) link (PerType.set counts typeIndex count);
    Some {| m_MaxNumInteractions := m_MaxNumInteractions st;
            m_InteractionData := data;
            m_Transmitters := m_Transmitters st;
            m_Receivers := m_Receivers st;
            m_PathCounts := pathCounts;
            m_MaxLinkPaths :=
              PerType.set (m_MaxLinkPaths st) typeIndex
                (N.max (PerType.get (m_MaxLinkPaths st) typeIndex) count);
            m_PathMap := <[hash := entry]> (m_PathMap st);
            m_TimeDelays := emplace_back (m_TimeDelays st) (PathInfo.timeDelay pathInfo);
            m_TxIDs := emplace_back (m_TxIDs st) (PathInfo.txID pathInfo);
            m_RxIDs := emplace_back (m_RxIDs st) (PathInfo.rxID pathInfo);
            m_PathTypes := emplace_back (m_PathTypes st) (PathInfo.pathType pathInfo);
            m_NumInteractions :=
              emplace_back (m_NumInteractions st) (PathInfo.numInteractions pathInfo) |}
  | Some entry =>
    if fgt (PathEntry.timeDelay entry) (PathInfo.timeDelay pathInfo) then
      let slot := PathEntry.pathIndex entry in
      data ← for_upto (PathInfo.numInteractions pathInfo)
                (overwrite_interaction interactions normals labels materials dataIndex slot)
                (m_InteractionData st);
      timeDelays ← vec_set (m_TimeDelays st) slot (PathInfo.timeDelay pathInfo);
      numInteractions ← vec_set (m_NumInteractions st) slot
                          (PathInfo.numInteractions pathInfo);
      Some {| m_MaxNumInteractions := m_MaxNumInteractions st;
              m_InteractionData := data;
              m_Transmitters := m_Transmitters st;
              m_Receivers := m_Receivers st;
              m_PathCounts := m_PathCounts st;
              m_MaxLinkPaths := m_MaxLinkPaths st;
              m_PathMap :=
                <[hash := PathEntry.mk (PathInfo.timeDelay pathInfo) slot]> (m_PathMap st);
              m_TimeDelays := timeDelays;
              m_TxIDs := m_TxIDs st;
              m_RxIDs := m_RxIDs st;
              m_PathTypes := m_PathTypes st;
              m_NumInteractions := numInteractions |}
    else Some st
  end.

(** [PathStorage::AddPaths] *)
Definition AddPaths (numPaths : N) (pathInfos : list PathInfo.t)
    (interactions normals : list vec3.t) (labels materials : list N)
    (st : PathStorage) : option PathStorage :=
  for_upto numPaths (AddPath pathInfos interactions normals labels materials) st.
End AddPaths.

(** ** Sequences of AddPaths calls *)

(** The arguments of one call of [AddPaths]. *)
Module Batch.
Record t := mk {
  numPaths : N;
  pathInfos : list PathInfo.t;
  interactions : list vec3.t;
  normals : list vec3.t;
  labels : list N;
  materials : list N
}.
End Batch.

Section Calls.
Context {ext : Externals}.

Definition AddPaths_call (b : Batch.t) (st : PathStorage) : option PathStorage :=
  AddPaths (Batch.numPaths b) (Batch.pathInfos b) (Batch.interactions b)
    (Batch.normals b) (Batch.labels b) (Batch.materials b) st.

(** The calls of the list, one after the other. *)
Fixpoint AddPaths_calls (calls : list Batch.t) (st : PathStorage)
  : option PathStorage :=
  match calls with
  | [] => Some st
  | b :: calls' => st' ← AddPaths_call b st; AddPaths_calls calls' st'
  end.
End Calls.

(** ** Path storage: ToPathData *)

Module PathData.
Record t := mk {
  maxNumIa : N;
  maxLinkPaths : N;
  transmitters : list vec3.t;
  receivers : list vec3.t;
  interactions : list vec3.t;
  normals : list vec3.t;
  labels : list N;
  materials : list N;
  timeDelays : list double;
  txIDs : list N;
  rxIDs : list N;
  pathTypes : list PathType.t;
  numInteractions : list N
}.
End PathData.

(** The four [insert(end, begin, end)] of lines 102-105: the arrays of one
    interaction slot are appended to the flat buffers. *)
Definition append_slot (data : PathData.t) (d : InteractionData.t) : PathData.t :=
  {| PathData.maxNumIa := PathData.maxNumIa data;
     PathData.maxLinkPaths := PathData.maxLinkPaths data;
     PathData.transmitters := PathData.transmitters data;
     PathData.receivers := PathData.receivers data;
     PathData.interactions :=
       PathData.interactions data ++ InteractionData.interactions d;
     PathData.normals := PathData.normals data ++ InteractionData.normals d;
     PathData.labels := PathData.labels data ++ InteractionData.labels d;
     PathData.materials := PathData.materials data ++ InteractionData.materials d;
     PathData.timeDelays := PathData.timeDelays data;
     PathData.txIDs := PathData.txIDs data;
     PathData.rxIDs := PathData.rxIDs data;
     PathData.pathTypes := PathData.pathTypes data;
     PathData.numInteractions := PathData.numInteractions data |}.

(** Body of the second loop of [ToPathData] (lines 100-106). *)
Definition append_interaction_slot (st : PathStorage) (i : N) (data : PathData.t)
  : option PathData.t :=
  d ← vec_at (m_InteractionData st) i;
  Some (append_slot data d).

(** [PathStorage::ToPathData].  The member function is not [const]: it
    takes the store and hands it back with its result.  The first loop
    (lines 92-98) only reserves capacity and changes no contents. *)
Definition ToPathData (st : PathStorage) : option (PathData.t * PathStorage) :=
  let data :=
    {| PathData.maxNumIa := m_MaxNumInteractions st;
       PathData.maxLinkPaths := 0;
       PathData.transmitters := m_Transmitters st;
       PathData.receivers := m_Receivers st;
       PathData.interactions := [];
       PathData.normals := [];
       PathData.labels := [];
       PathData.materials := [];
       PathData.timeDelays := [];
       PathData.txIDs := [];
       PathData.rxIDs := [];
       PathData.pathTypes := [];
       PathData.numInteractions := [] |} in
  data ← for_upto (vec_size (m_InteractionData st)) (append_interaction_slot st) data;
  Some ({| PathData.maxNumIa := PathData.maxNumIa data;
           PathData.maxLinkPaths := PathData.maxLinkPaths data;
           PathData.transmitters := PathData.transmitters data;
           PathData.receivers := PathData.receivers data;
           PathData.interactions := PathData.interactions data;
           PathData.normals := PathData.normals data;
           PathData.labels := PathData.labels data;
           PathData.materials := PathData.materials data;
           PathData.timeDelays := m_TimeDelays st;
           PathData.txIDs := m_TxIDs st;
           PathData.rxIDs := m_RxIDs st;
           PathData.pathTypes := m_PathTypes st;
           PathData.numInteractions := m_NumInteractions st |}, st).

(** ** Path storage: ToSionnaPathData *)

Module SionnaPaths.
Record t := mk {
  interactions : list vec3.t;
  normals : list vec3.t;
  materials : list N;
  incidentRays : list vec3.t;
  deflectedRays : list vec3.t;
  timeDelays : list float;
  totalDistance : list float;
  mask : list N;
  kTx : list vec3.t;
  kRx : list vec3.t;
  aodElevation : list float;
  aodAzimuth : list float;
  aoaElevation : list float;
  aoaAzimuth : list float
}.
End SionnaPaths.

Module SionnaPathData.
Record t := mk {
  transmitters : list vec3.t;
  receivers : list vec3.t;
  maxNumIa : N;
  maxLinkPaths : PerType.t N;
  paths : PerType.t SionnaPaths.t
}.
End SionnaPathData.

(** Modelled from the spec: [SionnaPathData::ReservePaths] is declared in
    [PathStorage.hpp], which is not among the translated files.  Per class,
    every array has [maxNumInteractions * numReceivers * numTransmitters *
    maxLinkPaths] elements, the incident-ray array one interaction slot more
    and the per-path arrays one slot only; the elements are at their
    allocation default (zero). *)
Definition reserve_class (maxNumIa numRx numTx maxLinkPaths : N) : SionnaPaths.t :=
  let pathElements := N.to_nat (numRx * numTx * maxLinkPaths) in
  let iaElements := N.to_nat (maxNumIa * numRx * numTx * maxLinkPaths) in
  let iaElementsIncident := N.to_nat ((maxNumIa + 1) * numRx * numTx * maxLinkPaths) in
  {| SionnaPaths.interactions := replicate iaElements (vec3.splat fzero);
     SionnaPaths.normals := replicate iaElements (vec3.splat fzero);
     SionnaPaths.materials := replicate iaElements 0;
     SionnaPaths.incidentRays := replicate iaElementsIncident (vec3.splat fzero);
     SionnaPaths.deflectedRays := replicate iaElements (vec3.splat fzero);
     SionnaPaths.timeDelays := replicate pathElements fzero;
     SionnaPaths.totalDistance := replicate pathElements fzero;
     SionnaPaths.mask := replicate pathElements 0;
     SionnaPaths.kTx := replicate pathElements (vec3.splat fzero);
     SionnaPaths.kRx := replicate pathElements (vec3.splat fzero);
     SionnaPaths.aodElevation := replicate pathElements fzero;
     SionnaPaths.aodAzimuth := replicate pathElements fzero;
     SionnaPaths.aoaElevation := replicate pathElements fzero;
     SionnaPaths.aoaAzimuth := replicate pathElements fzero |}.

Definition ReservePaths (transmitters receivers : list vec3.t) (maxNumIa : N)
    (maxLinkPaths : PerType.t N) : SionnaPathData.t :=
  let reserve ty :=
    reserve_class maxNumIa (vec_size receivers) (vec_size transmitters)
      (PerType.get maxLinkPaths ty) in
  {| SionnaPathData.transmitters := transmitters;
     SionnaPathData.receivers := receivers;
     SionnaPathData.maxNumIa := maxNumIa;
     SionnaPathData.maxLinkPaths := maxLinkPaths;
     SionnaPathData.paths :=
       PerType.mk (reserve SionnaPathType.Specular) (reserve SionnaPathType.Diffracted)
                  (reserve SionnaPathType.Scattered) (reserve SionnaPathType.RIS) |}.

Section ToSionnaPathData.
Context {ext : Externals}.

(** Body of the loop over the interaction slots (lines 160-171), on the
    arrays of the path's class. *)
Definition export_interaction (st : PathStorage) (pathIndex : N) (tx rx : vec3.t)
    (numInteractions stride rxOffset txOffset pathOffset : N)
    (ia : N) (p : SionnaPaths.t) : option SionnaPaths.t :=
  let iaOffset := ia * stride in
  let pathIaIndex := iaOffset + rxOffset + txOffset + pathOffset in
  d ← vec_at (m_InteractionData st) ia;
  iaPoint ← vec_at (InteractionData.interactions d) pathIndex;
  interactions ← vec_set (SionnaPaths.interactions p) pathIaIndex iaPoint;
  normal ← vec_at (InteractionData.normals d) pathIndex;
  normals ← vec_set (SionnaPaths.normals p) pathIaIndex normal;
  material ← vec_at (InteractionData.materials d) pathIndex;
  materials ← vec_set (SionnaPaths.materials p) pathIaIndex material;
  incident ←
    (if 0 <? ia then
       dPrev ← vec_at (m_InteractionData st) (ia - 1);
       prev ← vec_at (InteractionData.interactions dPrev) pathIndex;
       Some (normalize (vec3.sub iaPoint prev))
     else Some (normalize (vec3.sub iaPoint tx)));
  incidentRays ← vec_set (SionnaPaths.incidentRays p) pathIaIndex incident;
  deflected ←
    (if (to_int32 ia <? to_int32 numInteractions - 1)%Z then
       dNext ← vec_at (m_InteractionData st) (ia + 1);
       next ← vec_at (InteractionData.interactions dNext) pathIndex;
       Some (normalize (vec3.sub next iaPoint))
     else Some (normalize (vec3.sub rx iaPoint)));
  deflectedRays ← vec_set (SionnaPaths.deflectedRays p) pathIaIndex deflected;
  Some {| SionnaPaths.interactions := interactions;
          SionnaPaths.normals := normals;
          SionnaPaths.materials := materials;
          SionnaPaths.incidentRays := incidentRays;
          SionnaPaths.deflectedRays := deflectedRays;
          SionnaPaths.timeDelays := SionnaPaths.timeDelays p;
          SionnaPaths.totalDistance := SionnaPaths.totalDistance p;
          SionnaPaths.mask := SionnaPaths.mask p;
          SionnaPaths.kTx := SionnaPaths.kTx p;
          SionnaPaths.kRx := SionnaPaths.kRx p;
          SionnaPaths.aodElevation := SionnaPaths.aodElevation p;
          SionnaPaths.aodAzimuth := SionnaPaths.aodAzimuth p;
          SionnaPaths.aoaElevation := SionnaPaths.aoaElevation p;
          SionnaPaths.aoaAzimuth := SionnaPaths.aoaAzimuth p |}.

(** The writes of lines 173-186 for one path, on the arrays of its class. *)
Definition export_path_data (st : PathStorage) (pathIndex : N) (tx rx : vec3.t)
    (numInteractions stride rxOffset txOffset pathOffset : N)
    (p : SionnaPaths.t) : option SionnaPaths.t :=
  let pathDataIndex := txOffset + rxOffset + pathOffset in
  timeDelay ← vec_at (m_TimeDelays st) pathIndex;
  timeDelays ← vec_set (SionnaPaths.timeDelays p) pathDataIndex (double_to_float timeDelay);
  totalDistance ← vec_set (SionnaPaths.totalDistance p) pathDataIndex
                    (fmul (double_to_float timeDelay) LightSpeedInVacuum);
  mask ← vec_set (SionnaPaths.mask p) pathDataIndex 1;
  ktx ←
    (if 0 <? numInteractions then
       d ← vec_at (m_InteractionData st) 0;
       first ← vec_at (InteractionData.interactions d) pathIndex;
       Some (normalize (vec3.sub first tx))
     else Some (normalize (vec3.sub rx tx)));
  kTx ← vec_set (SionnaPaths.kTx p) pathDataIndex ktx;
  krx ←
    (if 0 <? numInteractions then
       d ← vec_at (m_InteractionData st) (numInteractions - 1);
       last ← vec_at (InteractionData.interactions d) pathIndex;
       Some (normalize (vec3.sub last rx))
     else Some (normalize (vec3.sub tx rx)));
  kRx ← vec_set (SionnaPaths.kRx p) pathDataIndex krx;
  let incidentToRxIndex := numInteractions * stride in
  krx' ← vec_at kRx pathDataIndex;
  incidentRays ← vec_set (SionnaPaths.incidentRays p)
                   (incidentToRxIndex + rxOffset + txOffset + pathOffset) (vec3.neg krx');
  ktx' ← vec_at kTx pathDataIndex;
  aodElevation ← vec_set (SionnaPaths.aodElevation p) pathDataIndex (acos (vec3.z ktx'));
  aodAzimuth ← vec_set (SionnaPaths.aodAzimuth p) pathDataIndex
                 (atan (vec3.y ktx') (vec3.x ktx'));
  aoaElevation ← vec_set (SionnaPaths.aoaElevation p) pathDataIndex (acos (vec3.z krx'));
  aoaAzimuth ← vec_set (SionnaPaths.aoaAzimuth p) pathDataIndex
                 (atan (vec3.y krx') (vec3.x krx'));
  Some {| SionnaPaths.interactions := SionnaPaths.interactions p;
          SionnaPaths.normals := SionnaPaths.normals p;
          SionnaPaths.materials := SionnaPaths.materials p;
          SionnaPaths.incidentRays := incidentRays;
          SionnaPaths.deflectedRays := SionnaPaths.deflectedRays p;
          SionnaPaths.timeDelays := timeDelays;
          SionnaPaths.totalDistance := totalDistance;
          SionnaPaths.mask := mask;
          SionnaPaths.kTx := kTx;
          SionnaPaths.kRx := kRx;
          SionnaPaths.aodElevation := aodElevation;
          SionnaPaths.aodAzimuth := aodAzimuth;
          SionnaPaths.aoaElevation := aoaElevation;
          SionnaPaths.aoaAzimuth := aoaAzimuth |}.

(** One iteration of the loop of [ToSionnaPathData] (lines 148-186), on
    the store (whose path counters it decrements) and the output. *)
Definition export_path (pathIndex : N) (s : PathStorage * SionnaPathData.t)
  : option (PathStorage * SionnaPathData.t) :=
  let '(st, sionnaData) := s in
  pathType ← vec_at (m_PathTypes st) pathIndex;
  let typeIndex := GetSionnaPathType pathType in
  txID ← vec_at (m_TxIDs st) pathIndex;
  rxID ← vec_at (m_RxIDs st) pathIndex;
  tx ← vec_at (m_Transmitters st) txID;
  rx ← vec_at (m_Receivers st) rxID;
  numInteractions ← vec_at (m_NumInteractions st) pathIndex;
  let link := rxID * vec_size (m_Transmitters st) + txID in
  counts ← vec_at (m_PathCounts st) link;
  let pathOffset := counter_decr (PerType.get counts typeIndex) in
  pathCounts ← vec_set (m_PathCounts st) link (PerType.set counts typeIndex pathOffset);
  let maxLinkPaths := PerType.get (m_MaxLinkPaths st) typeIndex in
  let txOffset := txID * maxLinkPaths in
  let rxOffset := rxID * vec_size (m_Transmitters st) * maxLinkPaths in
  let stride := vec_size (m_Receivers st) * vec_size (m_Transmitters st) * maxLinkPaths in
  p ← for_upto (m_MaxNumInteractions st)
        (export_interaction st pathIndex tx rx numInteractions stride
           rxOffset txOffset pathOffset)
        (PerType.get (SionnaPathData.paths sionnaData) typeIndex);
  p ← export_path_data st pathIndex tx rx numInteractions stride
        rxOffset txOffset pathOffset p;
  Some ({| m_MaxNumInteractions := m_MaxNumInteractions st;
           m_InteractionData := m_InteractionData st;
           m_Transmitters := m_Transmitters st;
           m_Receivers := m_Receivers st;
           m_PathCounts := pathCounts;
           m_MaxLinkPaths := m_MaxLinkPaths st;
           m_PathMap := m_PathMap st;
           m_TimeDelays := m_TimeDelays st;
           m_TxIDs := m_TxIDs st;
           m_RxIDs := m_RxIDs st;
           m_PathTypes := m_PathTypes st;
           m_NumInteractions := m_NumInteractions st |},
        {| SionnaPathData.transmitters := SionnaPathData.transmitters sionnaData;
           SionnaPathData.receivers := SionnaPathData.receivers sionnaData;
           SionnaPathData.maxNumIa := SionnaPathData.maxNumIa sionnaData;
           SionnaPathData.maxLinkPaths := SionnaPathData.maxLinkPaths sionnaData;
           SionnaPathData.paths :=
             PerType.set (SionnaPathData.paths sionnaData) typeIndex p |}).

(** [PathStorage::ToSionnaPathData]: the output, and the store with its
    path counters as the export leaves them. *)
Definition ToSionnaPathData (st : PathStorage)
  : option (SionnaPathData.t * PathStorage) :=
  let sionnaData :=
    ReservePaths (m_Transmitters st) (m_Receivers st)
      (m_MaxNumInteractions st) (m_MaxLinkPaths st) in
  let numTotalPaths := to_uint32 (vec_size (m_TxIDs st)) in
  s ← for_upto numTotalPaths export_path (st, sionnaData);
  Some (s.2, s.1).
End ToSionnaPathData.

(** ** Point cloud environment *)

(** What [Init] does outside the object: log lines and device work. *)
Inductive Event :=
| LOG (message : string)
| LaunchCreatePrimitivesKernel (gridCount blockSize : N)
| CreateFromAabbs (ieCount : N).

Definition is_device_event (e : Event) : bool :=
  match e with
  | LOG _ => false
  | LaunchCreatePrimitivesKernel _ _ | CreateFromAabbs _ => true
  end.

Record PointCloudEnvironment := mkPointCloudEnvironment {
  m_Aabb : Aabb.t;
  m_VoxelWorldInfo : VoxelWorldInfo.t;
  m_IeCount : N;
  m_PointCount : N;
  m_AccelerationStructureValid : bool;
  events : list Event
}.

(** [0.01f] *)
Definition bias_0_01 : float := S754_finite false 10737418 (-30).

Section PointCloudEnvironment.
Context {ext : Externals}.

Definition log (message : string) (env : PointCloudEnvironment)
  : PointCloudEnvironment :=
  {| m_Aabb := m_Aabb env;
     m_VoxelWorldInfo := m_VoxelWorldInfo env;
     m_IeCount := m_IeCount env;
     m_PointCount := m_PointCount env;
     m_AccelerationStructureValid := m_AccelerationStructureValid env;
     events := events env ++ [LOG message] |}.

(** [PointCloudEnvironment::LoadPoints] *)
Definition LoadPoints (points : list PointData.t) (numPoints : N)
    (env : PointCloudEnvironment)
  : option (list PointNode.t * PointCloudEnvironment) :=
  first ← vec_at points 0;
  r ← for_upto numPoints
        (λ i (s : list PointNode.t * Aabb.t),
           point ← vec_at points i;
           let node :=
             PointNode.mk (PointData.position point) (PointData.normal point)
               (PointData.label point) (PointData.material point) InvalidPointIndex in
           Some (emplace_back s.1 node,
                 Aabb.mk (vec3.min (Aabb.min s.2) (PointData.position point))
                         (vec3.max (Aabb.max s.2) (PointData.position point))))
        ([], Aabb.mk (PointData.position first) (PointData.position first));
  Some (r.1,
        {| m_Aabb := Aabb.mk (vec3.sub_scalar (Aabb.min r.2) bias_0_01)
                             (vec3.add_scalar (Aabb.max r.2) bias_0_01);
           m_VoxelWorldInfo := m_VoxelWorldInfo env;
           m_IeCount := m_IeCount env;
           m_PointCount := m_PointCount env;
           m_AccelerationStructureValid := m_AccelerationStructureValid env;
           events := events env |}).

(** [PointCloudEnvironment::ComputeVoxelWorld] *)
Definition ComputeVoxelWorld (voxelSize : float) (env : PointCloudEnvironment)
  : bool * PointCloudEnvironment :=
  let voxelDimensions :=
    VoxelDimensions (Aabb.max (m_Aabb env)) (Aabb.min (m_Aabb env)) voxelSize in
  let '(dx, dy, dz) := voxelDimensions in
  ((0 <? dx) && (0 <? dy) && (0 <? dz) && fgt voxelSize fzero,
   {| m_Aabb := m_Aabb env;
      m_VoxelWorldInfo :=
        VoxelWorldInfo.mk (Aabb.min (m_Aabb env)) voxelSize voxelDimensions;
      m_IeCount := m_IeCount env;
      m_PointCount := m_PointCount env;
      m_AccelerationStructureValid := m_AccelerationStructureValid env;
      events := events env |}).

(** State of the loop of [LinkPointNodes]. *)
Record LinkState := mkLinkState {
  voxelNodeIndices : list (N * N);
  primitiveHashMap : gmap N N;
  linkedNodes : list PointNode.t;
  ieCount : N
}.

(** Body of the loop of [LinkPointNodes] (lines 129-141);
    [voxelNodeIndices.at] throws when out of range. *)
Definition link_point_node (info : VoxelWorldInfo.t) (pointIndex : N) (s : LinkState)
  : option LinkState :=
  pointNode ← vec_at (linkedNodes s) pointIndex;
  let voxelID := WorldToVoxelID (PointNode.position pointNode) info in
  let id := N.lor (N.shiftl voxelID 32 mod 2 ^ 64) (PointNode.label pointNode) in
  let '(slot, map, indices, count) :=
    match primitiveHashMap s !! id with
    | Some slot => (slot, primitiveHashMap s, voxelNodeIndices s, ieCount s)
    | None => (ieCount s, <[id := ieCount s]> (primitiveHashMap s),
               emplace_back (voxelNodeIndices s) (InvalidPointIndex, 0),
               to_uint32 (ieCount s + 1))
    end in
  parent ← vec_at indices slot;
  let node :=
    PointNode.mk (PointNode.position pointNode) (PointNode.normal pointNode)
      (PointNode.label pointNode) (PointNode.materialID pointNode) parent.1 in
  nodes ← vec_set (linkedNodes s) pointIndex node;
  indices ← vec_set indices slot (pointIndex, to_uint32 (parent.2 + 1));
  Some (mkLinkState indices map nodes count).

(** [PointCloudEnvironment::LinkPointNodes] *)
Definition LinkPointNodes (pointNodes : list PointNode.t) (env : PointCloudEnvironment)
  : option (list (N * N) * list PointNode.t * PointCloudEnvironment) :=
  s ← for_upto (vec_size pointNodes) (link_point_node (m_VoxelWorldInfo env))
        (mkLinkState [] ∅ pointNodes (m_IeCount env));
  Some (voxelNodeIndices s, linkedNodes s,
        {| m_Aabb := m_Aabb env;
           m_VoxelWorldInfo := m_VoxelWorldInfo env;
           m_IeCount := ieCount s;
           m_PointCount := m_PointCount env;
           m_AccelerationStructureValid := m_AccelerationStructureValid env;
           events := events env |}).

(** [PointCloudEnvironment::GenerateRayTracingData] *)
Definition GenerateRayTracingData (pointNodes : list PointNode.t)
    (voxelNodeIndices : list (N * N)) (aabbBias : float) (env : PointCloudEnvironment)
  : bool * PointCloudEnvironment :=
  let blockSize := 32 in
  let gridCount := GetLaunchCount (m_IeCount env) blockSize in
  let device :=
    CreatePrimitives pointNodes voxelNodeIndices (m_VoxelWorldInfo env)
      (m_IeCount env) aabbBias in
  (device.1,
   {| m_Aabb := m_Aabb env;
      m_VoxelWorldInfo := m_VoxelWorldInfo env;
      m_IeCount := m_IeCount env;
      m_PointCount := device.2;
      m_AccelerationStructureValid := device.1;
      events := events env ++ [LaunchCreatePrimitivesKernel gridCount blockSize;
                               CreateFromAabbs (m_IeCount env)] |}).

(** [PointCloudEnvironment::Init] *)
Definition Init (points : list PointData.t) (numPoints : N)
    (voxelSize aabbBias : float) (env : PointCloudEnvironment)
  : option (bool * PointCloudEnvironment) :=
  if numPoints <=? 1 then Some (false, env)
  else
    loaded ← LoadPoints points numPoints env;
    let '(pointNodes, env) := loaded in
    let '(ok, env) := ComputeVoxelWorld voxelSize env in
    if negb ok then
      Some (false,
            log "Failed to compute voxel world. Voxel size is 0 or voxel world dimensions are 0." env)
    else
      linked ← LinkPointNodes pointNodes env;
      let '(voxelNodeIndices, pointNodes, env) := linked in
      let '(ok, env) := GenerateRayTracingData pointNodes voxelNodeIndices aabbBias env in
      if negb ok then Some (false, log "Failed to generate ray tracing data." env)
      else Some (true, env).
End PointCloudEnvironment.

(** * Vocabulary of the properties *)

(** The voxel configuration that [ComputeVoxelWorld] rejects: a voxel
    size equal to zero, or a voxel-world dimension equal to zero. *)
Definition degenerate_voxels (voxelSize : float) (dimensions : N * N * N) : Prop :=
  SFeqb voxelSize fzero = true
  ∨ dimensions.1.1 = 0 ∨ dimensions.1.2 = 0 ∨ dimensions.2 = 0.

(** The part of the environment that only the device stage of [Init]
    writes. *)
Definition ray_tracing_data (env : PointCloudEnvironment) : list Event * N * bool :=
  (List.filter is_device_event (events env), m_PointCount env,
   m_AccelerationStructureValid env).

Section Candidates.
Context {ext : Externals}.

(** Candidate [pathIndex] of a call, with its identity key, for a store
    of [maxNumIa] interaction slots. *)
Definition candidate (maxNumIa : N) (b : Batch.t) (pathIndex : N)
  : option (N * PathInfo.t) :=
  pathInfo ← vec_at (Batch.pathInfos b) pathIndex;
  hash ← GetPathHash pathInfo (Batch.labels b) (pathIndex * maxNumIa);
  Some (hash, pathInfo).

(** The candidates of the first [n] paths of a call, in order. *)
Definition candidates_upto (maxNumIa : N) (b : Batch.t) (n : nat)
  : list (N * PathInfo.t) :=
  omap (λ i, candidate maxNumIa b (N.of_nat i)) (seq 0 n).

Definition batch_candidates (maxNumIa : N) (b : Batch.t) : list (N * PathInfo.t) :=
  candidates_upto maxNumIa b (N.to_nat (Batch.numPaths b)).

(** All candidates submitted by a sequence of calls, in order. *)
Definition all_candidates (maxNumIa : N) (calls : list Batch.t)
  : list (N * PathInfo.t) :=
  concat (batch_candidates maxNumIa <$> calls).
End Candidates.

(** What the [emplaced] loop leaves in interaction slot [ia]: the old
    arrays with one element more, the candidate's below its interaction
    count and the sentinel from there on. *)
Definition emplaced_slot (pathInfo : PathInfo.t)
    (interactions normals : list vec3.t) (labels materials : list N)
    (dataIndex ia : N) (d d' : InteractionData.t) : Prop :=
  ∃ p n l m,
    d' = InteractionData.mk
           (emplace_back (InteractionData.interactions d) p)
           (emplace_back (InteractionData.normals d) n)
           (emplace_back (InteractionData.labels d) l)
           (emplace_back (InteractionData.materials d) m)
    ∧ if ia <? PathInfo.numInteractions pathInfo then
        vec_at interactions (dataIndex + ia) = Some p
        ∧ vec_at normals (dataIndex + ia) = Some n
        ∧ vec_at labels (dataIndex + ia) = Some l
        ∧ vec_at materials (dataIndex + ia) = Some m
      else
        p = vec3.splat fzero ∧ n = vec3.splat fzero
        ∧ l = all_bits_set ∧ m = all_bits_set.

(** What the overwrite loop leaves in an interaction slot it visits: the
    old arrays with element [slot] replaced by the candidate's. *)
Definition overwritten_slot
    (interactions normals : list vec3.t) (labels materials : list N)
    (dataIndex slot ia : N) (d d' : InteractionData.t) : Prop :=
  ∃ p n l m,
    vec_at interactions (dataIndex + ia) = Some p
    ∧ vec_at normals (dataIndex + ia) = Some n
    ∧ vec_at labels (dataIndex + ia) = Some l
    ∧ vec_at materials (dataIndex + ia) = Some m
    ∧ vec_set (InteractionData.interactions d) slot p
      = Some (InteractionData.interactions d')
    ∧ vec_set (InteractionData.normals d) slot n = Some (InteractionData.normals d')
    ∧ vec_set (InteractionData.labels d) slot l = Some (InteractionData.labels d')
    ∧ vec_set (InteractionData.materials d) slot m
      = Some (InteractionData.materials d').

(** Inversion of a monadic bind that is known to be defined. *)
Ltac bind_inv H :=
  repeat match type of H with
    | mbind _ ?m = Some _ =>
        let E := fresh "E" in
        destruct m eqn:E; simpl in H; [|discriminate H]
    end.

(** The three outcomes of one iteration of the loop of [AddPaths] on the
    candidate [pathInfo] with identity key [hash]. *)
Inductive AddPath_outcome {ext : Externals} (b : Batch.t) (pathIndex : N)
    (st : PathStorage) (hash : N) (pathInfo : PathInfo.t) (st' : PathStorage) : Prop :=
| outcome_emplaced data counts pathCounts :
    m_PathMap st !! hash = None →
    for_upto (vec_size (m_InteractionData st))
      (emplace_interaction pathInfo (Batch.interactions b) (Batch.normals b)
         (Batch.labels b) (Batch.materials b)
         (pathIndex * vec_size (m_InteractionData st)))
      (m_InteractionData st) = Some data →
    vec_at (m_PathCounts st)
      (PathInfo.rxID pathInfo * vec_size (m_Transmitters st) + PathInfo.txID pathInfo)
    = Some counts →
    vec_set (m_PathCounts st)
      (PathInfo.rxID pathInfo * vec_size (m_Transmitters st) + PathInfo.txID pathInfo)
      (PerType.set counts (GetSionnaPathType (PathInfo.pathType pathInfo))
         (counter_incr (PerType.get counts (GetSionnaPathType (PathInfo.pathType pathInfo)))))
    = Some pathCounts →
    st' = {| m_MaxNumInteractions := m_MaxNumInteractions st;
             m_InteractionData := data;
             m_Transmitters := m_Transmitters st;
             m_Receivers := m_Receivers st;
             m_PathCounts := pathCounts;
             m_MaxLinkPaths :=
               PerType.set (m_MaxLinkPaths st)
                 (GetSionnaPathType (PathInfo.pathType pathInfo))
                 (N.max (PerType.get (m_MaxLinkPaths st)
                           (GetSionnaPathType (PathInfo.pathType pathInfo)))
                    (counter_incr
                       (PerType.get counts (GetSionnaPathType (PathInfo.pathType pathInfo)))));
             m_PathMap :=
               <[hash := PathEntry.mk (PathInfo.timeDelay pathInfo)
                           (to_uint32 (N.of_nat (size (m_PathMap st))))]> (m_PathMap st);
             m_TimeDelays := emplace_back (m_TimeDelays st) (PathInfo.timeDelay pathInfo);
             m_TxIDs := emplace_back (m_TxIDs st) (PathInfo.txID pathInfo);
             m_RxIDs := emplace_back (m_RxIDs st) (PathInfo.rxID pathInfo);
             m_PathTypes := emplace_back (m_PathTypes st) (PathInfo.pathType pathInfo);
             m_NumInteractions :=
               emplace_back (m_NumInteractions st) (PathInfo.numInteractions pathInfo) |} →
    AddPath_outcome b pathIndex st hash pathInfo st'
| outcome_overwritten entry data timeDelays numInteractions :
    m_PathMap st !! hash = Some entry →
    fgt (PathEntry.timeDelay entry) (PathInfo.timeDelay pathInfo) = true →
    for_upto (PathInfo.numInteractions pathInfo)
      (overwrite_interaction (Batch.interactions b) (Batch.normals b)
         (Batch.labels b) (Batch.materials b)
         (pathIndex * vec_size (m_InteractionData st)) (PathEntry.pathIndex entry))
      (m_InteractionData st) = Some data →
    vec_set (m_TimeDelays st) (PathEntry.pathIndex entry) (PathInfo.timeDelay pathInfo)
    = Some timeDelays →
    vec_set (m_NumInteractions st) (PathEntry.pathIndex entry)
      (PathInfo.numInteractions pathInfo) = Some numInteractions →
    st' = {| m_MaxNumInteractions := m_MaxNumInteractions st;
             m_InteractionData := data;
             m_Transmitters := m_Transmitters st;
             m_Receivers := m_Receivers st;
             m_PathCounts := m_PathCounts st;
             m_MaxLinkPaths := m_MaxLinkPaths st;
             m_PathMap :=
               <[hash := PathEntry.mk (PathInfo.timeDelay pathInfo)
                           (PathEntry.pathIndex entry)]> (m_PathMap st);
             m_TimeDelays := timeDelays;
             m_TxIDs := m_TxIDs st;
             m_RxIDs := m_RxIDs st;
             m_PathTypes := m_PathTypes st;
             m_NumInteractions := numInteractions |} →
    AddPath_outcome b pathIndex st hash pathInfo st'
| outcome_discarded entry :
    m_PathMap st !! hash = Some entry →
    fgt (PathEntry.timeDelay entry) (PathInfo.timeDelay pathInfo) = false →
    st' = st →
    AddPath_outcome b pathIndex st hash pathInfo st'.

(** The aggregation invariant of the identity map, relative to the
    candidates [cs] submitted so far: the keys of the map are the keys of
    the candidates, there are as many retained paths as keys, and the
    delay kept for a key is the delay of one of its candidates, with no
    candidate of that key strictly below it. *)
Definition dedup_min (cs : list (N * PathInfo.t)) (st : PathStorage) : Prop :=
  (∀ key, is_Some (m_PathMap st !! key) ↔ ∃ pathInfo, (key, pathInfo) ∈ cs)
  ∧ vec_size (m_TimeDelays st) = N.of_nat (size (m_PathMap st))
  ∧ ∀ key entry, m_PathMap st !! key = Some entry →
      (∃ pathInfo, (key, pathInfo) ∈ cs
                   ∧ PathInfo.timeDelay pathInfo = PathEntry.timeDelay entry)
      ∧ ∀ pathInfo, (key, pathInfo) ∈ cs →
          SFltb (PathInfo.timeDelay pathInfo) (PathEntry.timeDelay entry) = false.

(** Candidates that share an identity key have the same interaction
    count (as they do when the key stands for one sequence of labels). *)
Definition counts_agree (cs : list (N * PathInfo.t)) : Prop :=
  ∀ key pathInfo pathInfo',
    (key, pathInfo) ∈ cs → (key, pathInfo') ∈ cs →
    PathInfo.numInteractions pathInfo = PathInfo.numInteractions pathInfo'.

(** Every per-path array, and every array of every interaction slot, has
    one element per retained identity. *)
Definition aligned (st : PathStorage) : Prop :=
  let n := N.of_nat (size (m_PathMap st)) in
  vec_size (m_TimeDelays st) = n
  ∧ vec_size (m_TxIDs st) = n
  ∧ vec_size (m_RxIDs st) = n
  ∧ vec_size (m_PathTypes st) = n
  ∧ vec_size (m_NumInteractions st) = n
  ∧ ∀ ia d, vec_at (m_InteractionData st) ia = Some d →
      vec_size (InteractionData.interactions d) = n
      ∧ vec_size (InteractionData.normals d) = n
      ∧ vec_size (InteractionData.labels d) = n
      ∧ vec_size (InteractionData.materials d) = n.

(** The interaction count stored at the slot of an identity is the count
    of the candidates of that identity. *)
Definition counts_recorded (cs : list (N * PathInfo.t)) (st : PathStorage) : Prop :=
  ∀ key entry pathInfo,
    m_PathMap st !! key = Some entry → (key, pathInfo) ∈ cs →
    vec_at (m_NumInteractions st) (PathEntry.pathIndex entry)
    = Some (PathInfo.numInteractions pathInfo).

(** From the stored interaction count of a path on, its interaction slots
    hold the sentinel label and material. *)
Definition padded (st : PathStorage) : Prop :=
  ∀ k count ia d,
    vec_at (m_NumInteractions st) k = Some count →
    vec_at (m_InteractionData st) ia = Some d →
    count ≤ ia →
    vec_at (InteractionData.labels d) k = Some all_bits_set
    ∧ vec_at (InteractionData.materials d) k = Some all_bits_set.

(** The invariant behind the compact export. *)
Definition export_ready (cs : list (N * PathInfo.t)) (st : PathStorage) : Prop :=
  dedup_min cs st
  ∧ aligned st
  ∧ (counts_agree cs → N.of_nat (size (m_PathMap st)) ≤ uint32_modulus →
     counts_recorded cs st ∧ padded st).

(** ** Links and link-local slots *)

(** The retained paths as rows (transmitter, receiver, class), in slot
    order. *)
Definition path_rows (st : PathStorage) : list (N * N * SionnaPathType.t) :=
  zip_with (λ (ids : N * N) ty, (ids.1, ids.2, GetSionnaPathType ty))
    (zip (m_TxIDs st) (m_RxIDs st)) (m_PathTypes st).

Fixpoint count_if {A} (f : A → bool) (l : list A) : N :=
  match l with
  | [] => 0
  | x :: l' => (if f x then 1 else 0) + count_if f l'
  end.

(** The row is a path of the link (txID, rxID) and of class [c]. *)
Definition on_link (txID rxID : N) (c : SionnaPathType.t)
    (row : N * N * SionnaPathType.t) : bool :=
  (row.1.1 =? txID) && (row.1.2 =? rxID) && SionnaPathType.eqb row.2 c.

(** The row is counted in entry [link] of the path-count table, for
    [numTx] transmitters, under class [c]. *)
Definition at_index (numTx link : N) (c : SionnaPathType.t)
    (row : N * N * SionnaPathType.t) : bool :=
  (row.1.2 * numTx + row.1.1 =? link) && SionnaPathType.eqb row.2 c.

(** Number of retained paths of a link and class. *)
Definition link_count (st : PathStorage) (txID rxID : N) (c : SionnaPathType.t) : N :=
  count_if (on_link txID rxID c) (path_rows st).

(** Link-local slot of the retained path [k]: the number of paths of its
    link and class stored after it. *)
Definition link_slot (st : PathStorage) (k : N) : N :=
  match vec_at (path_rows st) k with
  | Some (txID, rxID, c) =>
      count_if (on_link txID rxID c) (drop (Datatypes.S (N.to_nat k)) (path_rows st))
  | None => 0
  end.

(** Per-path write index of the retained path [k] in the arrays of its
    class. *)
Definition write_index (st : PathStorage) (k : N) : N :=
  match vec_at (path_rows st) k with
  | Some (txID, rxID, c) =>
      let maxLinkPaths := PerType.get (m_MaxLinkPaths st) c in
      txID * maxLinkPaths + rxID * vec_size (m_Transmitters st) * maxLinkPaths
      + link_slot st k
  | None => 0
  end.

(** The path-count table records, per entry and class, the number of rows
    counted there, and the per-class maximum bounds every entry. *)
Definition counted (st : PathStorage) : Prop :=
  let numTx := vec_size (m_Transmitters st) in
  (∀ link counts c, vec_at (m_PathCounts st) link = Some counts →
     PerType.get counts c = count_if (at_index numTx link c) (path_rows st))
  ∧ (∀ link c, count_if (at_index numTx link c) (path_rows st)
               ≤ PerType.get (m_MaxLinkPaths st) c).

(** The invariant behind the dense export. *)
Definition dense_ready {ext : Externals} (st : PathStorage) : Prop :=
  aligned st ∧ (N.of_nat (size (m_PathMap st)) ≤ counter_max → counted st).

(** ** The dense export, path by path *)

(** What the export of one path with [numInteractions] interactions,
    transmitter position [tx] and receiver position [rx] does to the mask,
    departure, arrival and incident-ray arrays of its class, [index] being
    its per-path write index and [stride] the size of one interaction
    slot. *)
Definition path_written {ext : Externals} (maxNumIa stride index numInteractions : N)
    (tx rx : vec3.t) (p p' : SionnaPaths.t) : Prop :=
  vec_set (SionnaPaths.mask p) index 1 = Some (SionnaPaths.mask p')
  ∧ ∃ ktx krx,
      vec_set (SionnaPaths.kTx p) index ktx = Some (SionnaPaths.kTx p')
      ∧ vec_set (SionnaPaths.kRx p) index krx = Some (SionnaPaths.kRx p')
      ∧ vec_at (SionnaPaths.incidentRays p') (numInteractions * stride + index)
        = Some (vec3.neg krx)
      ∧ (∀ q, (∀ ia, ia < maxNumIa → q ≠ ia * stride + index) →
              q ≠ numInteractions * stride + index →
              vec_at (SionnaPaths.incidentRays p') q
              = vec_at (SionnaPaths.incidentRays p) q)
      ∧ (numInteractions = 0 →
         ktx = normalize (vec3.sub rx tx) ∧ krx = normalize (vec3.sub tx rx)).

(** Two stores that differ in the path-count table at most. *)
Definition same_but_counts (st st' : PathStorage) : Prop :=
  m_MaxNumInteractions st' = m_MaxNumInteractions st
  ∧ m_InteractionData st' = m_InteractionData st
  ∧ m_Transmitters st' = m_Transmitters st
  ∧ m_Receivers st' = m_Receivers st
  ∧ m_MaxLinkPaths st' = m_MaxLinkPaths st
  ∧ m_PathMap st' = m_PathMap st
  ∧ m_TimeDelays st' = m_TimeDelays st
  ∧ m_TxIDs st' = m_TxIDs st
  ∧ m_RxIDs st' = m_RxIDs st
  ∧ m_PathTypes st' = m_PathTypes st
  ∧ m_NumInteractions st' = m_NumInteractions st.

(** Link-local slot and write index of row [k], in terms of the entries of
    the path-count table: the number of later rows counted in the entry of
    row [k] under its class. *)
Definition slot_at (numTx : N) (rows : list (N * N * SionnaPathType.t)) (k : N) : N :=
  match vec_at rows k with
  | Some row =>
      count_if (at_index numTx (row.1.2 * numTx + row.1.1) row.2)
        (drop (Datatypes.S (N.to_nat k)) rows)
  | None => 0
  end.

Definition index_at (numTx : N) (maxLinkPaths : PerType.t N)
    (rows : list (N * N * SionnaPathType.t)) (k : N) : N :=
  match vec_at rows k with
  | Some row =>
      row.1.1 * PerType.get maxLinkPaths row.2
      + row.1.2 * numTx * PerType.get maxLinkPaths row.2
      + slot_at numTx rows k
  | None => 0
  end.

(** The state of the dense export of the store [st0] after its first [j]
    paths. *)
Definition exported {ext : Externals} (st0 : PathStorage) (j : N)
    (s : PathStorage * SionnaPathData.t) : Prop :=
  let numTx := vec_size (m_Transmitters st0) in
  let numRx := vec_size (m_Receivers st0) in
  let rows := path_rows st0 in
  let ix := index_at numTx (m_MaxLinkPaths st0) rows in
  let paths c := PerType.get (SionnaPathData.paths s.2) c in
  same_but_counts st0 s.1
  ∧ (∀ link counts c, vec_at (m_PathCounts s.1) link = Some counts →
       PerType.get counts c = count_if (at_index numTx link c) (drop (N.to_nat j) rows))
  ∧ (∀ k row, k < j → vec_at rows k = Some row → row.1.1 < numTx ∧ row.1.2 < numRx)
  ∧ (∀ k row, k < j → vec_at rows k = Some row →
       vec_at (SionnaPaths.mask (paths row.2)) (ix k) = Some 1)
  ∧ (∀ c q, (∀ k row, k < j → vec_at rows k = Some row → row.2 = c → ix k ≠ q) →
       vec_at (SionnaPaths.mask (paths c)) q
       = vec_at (SionnaPaths.mask
                   (reserve_class (m_MaxNumInteractions st0) numRx numTx
                      (PerType.get (m_MaxLinkPaths st0) c))) q)
  ∧ (∀ k row tx rx,
       k < j → vec_at rows k = Some row →
       vec_at (m_NumInteractions st0) k = Some 0 →
       vec_at (m_Transmitters st0) row.1.1 = Some tx →
       vec_at (m_Receivers st0) row.1.2 = Some rx →
       vec_at (SionnaPaths.kTx (paths row.2)) (ix k) = Some (normalize (vec3.sub rx tx))
       ∧ vec_at (SionnaPaths.kRx (paths row.2)) (ix k)
         = Some (normalize (vec3.sub tx rx))
       ∧ vec_at (SionnaPaths.incidentRays (paths row.2)) (ix k)
         = Some (vec3.neg (normalize (vec3.sub tx rx)))).

(** ** Well-formed calls *)

(** The slot index of every identity is the index of a retained path. *)
Definition indexed (st : PathStorage) : Prop :=
  ∀ key entry, m_PathMap st !! key = Some entry →
    PathEntry.pathIndex entry < N.of_nat (size (m_PathMap st)).

(** A store on which [AddPaths] can run: [maxNumIa] interaction slots,
    aligned arrays, slot indices in range. *)
Definition store_ok (maxNumIa : N) (st : PathStorage) : Prop :=
  vec_size (m_InteractionData st) = maxNumIa ∧ aligned st ∧ indexed st.

(** The arguments of a call that hold what they announce: [numPaths]
    path records, [numPaths * maxNumIa] interaction records, a label at
    the data index of every path (the element [labels[dataIndex]] is
    accessed for every path, also when the store has no interaction slot),
    interaction counts within [maxNumIa], and links inside a path-count
    table of [tableSize] entries for [numTx] transmitters. *)
Definition batch_ok (maxNumIa numTx tableSize : N) (b : Batch.t) : Prop :=
  Batch.numPaths b ≤ vec_size (Batch.pathInfos b)
  ∧ Batch.numPaths b * maxNumIa ≤ vec_size (Batch.interactions b)
  ∧ Batch.numPaths b * maxNumIa ≤ vec_size (Batch.normals b)
  ∧ Batch.numPaths b * maxNumIa ≤ vec_size (Batch.labels b)
  ∧ Batch.numPaths b * maxNumIa ≤ vec_size (Batch.materials b)
  ∧ (∀ i, i < Batch.numPaths b → i * maxNumIa < vec_size (Batch.labels b))
  ∧ ∀ i pathInfo, i < Batch.numPaths b →
      vec_at (Batch.pathInfos b) i = Some pathInfo →
      PathInfo.numInteractions pathInfo ≤ maxNumIa
      ∧ PathInfo.rxID pathInfo * numTx + PathInfo.txID pathInfo < tableSize.

(** ** Well-formed stores for the dense export *)

(** The arrays of one class have the sizes [ReservePaths] gives them. *)
Definition sized (maxNumIa stride : N) (p : SionnaPaths.t) : Prop :=
  vec_size (SionnaPaths.interactions p) = maxNumIa * stride
  ∧ vec_size (SionnaPaths.normals p) = maxNumIa * stride
  ∧ vec_size (SionnaPaths.materials p) = maxNumIa * stride
  ∧ vec_size (SionnaPaths.incidentRays p) = (maxNumIa + 1) * stride
  ∧ vec_size (SionnaPaths.deflectedRays p) = maxNumIa * stride
  ∧ vec_size (SionnaPaths.timeDelays p) = stride
  ∧ vec_size (SionnaPaths.totalDistance p) = stride
  ∧ vec_size (SionnaPaths.mask p) = stride
  ∧ vec_size (SionnaPaths.kTx p) = stride
  ∧ vec_size (SionnaPaths.kRx p) = stride
  ∧ vec_size (SionnaPaths.aodElevation p) = stride
  ∧ vec_size (SionnaPaths.aodAzimuth p) = stride
  ∧ vec_size (SionnaPaths.aoaElevation p) = stride
  ∧ vec_size (SionnaPaths.aoaAzimuth p) = stride.

(** A store on which the dense export can run: built as [AddPaths]
    builds it, with endpoints that exist, links inside the path-count
    table, interaction counts within the bound, and sizes that fit the
    machine integers of the export. *)
Definition exportable {ext : Externals} (st : PathStorage) : Prop :=
  aligned st ∧ counted st
  ∧ vec_size (m_InteractionData st) = m_MaxNumInteractions st
  ∧ m_MaxNumInteractions st < 2 ^ 31
  ∧ N.of_nat (size (m_PathMap st)) < uint32_modulus
  ∧ (∀ k row, vec_at (path_rows st) k = Some row →
       row.1.1 < vec_size (m_Transmitters st)
       ∧ row.1.2 < vec_size (m_Receivers st)
       ∧ row.1.2 * vec_size (m_Transmitters st) + row.1.1 < vec_size (m_PathCounts st))
  ∧ (∀ k count, vec_at (m_NumInteractions st) k = Some count →
       count ≤ m_MaxNumInteractions st).

(** A candidate whose endpoints exist, whose link is inside the
    path-count table and whose interaction count is within the bound. *)
Definition candidate_ok (maxNumIa numTx numRx tableSize : N) (pathInfo : PathInfo.t)
  : Prop :=
  PathInfo.txID pathInfo < numTx
  ∧ PathInfo.rxID pathInfo < numRx
  ∧ PathInfo.rxID pathInfo * numTx + PathInfo.txID pathInfo < tableSize
  ∧ PathInfo.numInteractions pathInfo ≤ maxNumIa.

(** * Vocabulary of the further properties *)

(** ** Slots and counters of the store *)

(** The slot indices of the identity map are the indices of the per-path
    arrays, one identity per index, and the delay array holds at the slot
    of an identity the delay that the map keeps for it. *)
Definition slots_one_to_one (st : PathStorage) : Prop :=
  let n := N.of_nat (size (m_PathMap st)) in
  (∀ key entry, m_PathMap st !! key = Some entry →
     PathEntry.pathIndex entry < n
     ∧ vec_at (m_TimeDelays st) (PathEntry.pathIndex entry)
       = Some (PathEntry.timeDelay entry))
  ∧ (∀ key key' entry entry',
       m_PathMap st !! key = Some entry → m_PathMap st !! key' = Some entry' →
       PathEntry.pathIndex entry = PathEntry.pathIndex entry' → key = key')
  ∧ (∀ k, k < n →
       ∃ key entry, m_PathMap st !! key = Some entry ∧ PathEntry.pathIndex entry = k).

(** The per-class maximum is zero or the count of some entry of the
    path-count table. *)
Definition max_attained (st : PathStorage) : Prop :=
  ∀ c, PerType.get (m_MaxLinkPaths st) c = 0
       ∨ ∃ link counts, vec_at (m_PathCounts st) link = Some counts
                        ∧ PerType.get counts c = PerType.get (m_MaxLinkPaths st) c.

(** ** What the dense export writes for one path *)

(** Point, normal and material that the store keeps for the retained
    path [k] in interaction slot [ia]. *)
Definition stored_point (data : list InteractionData.t) (ia k : N) : option vec3.t :=
  d ← vec_at data ia; vec_at (InteractionData.interactions d) k.
Definition stored_normal (data : list InteractionData.t) (ia k : N) : option vec3.t :=
  d ← vec_at data ia; vec_at (InteractionData.normals d) k.
Definition stored_material (data : list InteractionData.t) (ia k : N) : option N :=
  d ← vec_at data ia; vec_at (InteractionData.materials d) k.

(** [incident] is the ray into interaction slot [ia] of path [k]: from
    the transmitter for slot 0, from the point of the slot before
    otherwise. *)
Definition incident_of {ext : Externals} (data : list InteractionData.t) (k : N)
    (tx : vec3.t) (ia : N) (incident : vec3.t) : Prop :=
  ∃ point, stored_point data ia k = Some point
    ∧ if 0 <? ia
      then ∃ prev, stored_point data (ia - 1) k = Some prev
                   ∧ incident = normalize (vec3.sub point prev)
      else incident = normalize (vec3.sub point tx).

(** [deflected] is the ray out of interaction slot [ia] of path [k]: to
    the point of the next slot while [ia] is below the last interaction of
    the path (compared as signed 32-bit integers), to the receiver
    otherwise. *)
Definition deflected_of {ext : Externals} (data : list InteractionData.t) (k : N)
    (rx : vec3.t) (numInteractions ia : N) (deflected : vec3.t) : Prop :=
  ∃ point, stored_point data ia k = Some point
    ∧ if (to_int32 ia <? to_int32 numInteractions - 1)%Z
      then ∃ next, stored_point data (ia + 1) k = Some next
                   ∧ deflected = normalize (vec3.sub next point)
      else deflected = normalize (vec3.sub rx point).

(** The arrays of a class hold, at [position], what the export writes for
    interaction slot [ia] of path [k]. *)
Definition slot_written {ext : Externals} (data : list InteractionData.t) (k : N)
    (rx : vec3.t) (numInteractions ia position : N) (p : SionnaPaths.t) : Prop :=
  (∃ point, stored_point data ia k = Some point
            ∧ vec_at (SionnaPaths.interactions p) position = Some point)
  ∧ (∃ normal, stored_normal data ia k = Some normal
               ∧ vec_at (SionnaPaths.normals p) position = Some normal)
  ∧ (∃ material, stored_material data ia k = Some material
                 ∧ vec_at (SionnaPaths.materials p) position = Some material)
  ∧ ∃ deflected, vec_at (SionnaPaths.deflectedRays p) position = Some deflected
                 ∧ deflected_of data k rx numInteractions ia deflected.

Definition incident_written {ext : Externals} (data : list InteractionData.t) (k : N)
    (tx : vec3.t) (ia position : N) (p : SionnaPaths.t) : Prop :=
  ∃ incident, vec_at (SionnaPaths.incidentRays p) position = Some incident
              ∧ incident_of data k tx ia incident.

(** The arrays of a class hold, at [index], what the export writes once
    per path: delay and distance, departure and arrival vectors with their
    angles, and the negated arrival vector in the incident-ray slot after
    the last interaction. *)
Definition path_data_at {ext : Externals} (data : list InteractionData.t)
    (delay : double) (k : N) (tx rx : vec3.t) (numInteractions stride index : N)
    (p : SionnaPaths.t) : Prop :=
  vec_at (SionnaPaths.timeDelays p) index = Some (double_to_float delay)
  ∧ vec_at (SionnaPaths.totalDistance p) index
    = Some (fmul (double_to_float delay) LightSpeedInVacuum)
  ∧ ∃ ktx krx,
      vec_at (SionnaPaths.kTx p) index = Some ktx
      ∧ vec_at (SionnaPaths.kRx p) index = Some krx
      ∧ vec_at (SionnaPaths.incidentRays p) (numInteractions * stride + index)
        = Some (vec3.neg krx)
      ∧ vec_at (SionnaPaths.aodElevation p) index = Some (acos (vec3.z ktx))
      ∧ vec_at (SionnaPaths.aodAzimuth p) index
        = Some (atan (vec3.y ktx) (vec3.x ktx))
      ∧ vec_at (SionnaPaths.aoaElevation p) index = Some (acos (vec3.z krx))
      ∧ vec_at (SionnaPaths.aoaAzimuth p) index
        = Some (atan (vec3.y krx) (vec3.x krx))
      ∧ if 0 <? numInteractions
        then ∃ first last,
               stored_point data 0 k = Some first
               ∧ stored_point data (numInteractions - 1) k = Some last
               ∧ ktx = normalize (vec3.sub first tx)
               ∧ krx = normalize (vec3.sub last rx)
        else ktx = normalize (vec3.sub rx tx) ∧ krx = normalize (vec3.sub tx rx).

(** The per-path arrays of [p'] (the mask apart) are those of [p] at
    every position but [index]. *)
Definition per_path_frame (index : N) (p p' : SionnaPaths.t) : Prop :=
  ∀ q, q ≠ index →
    vec_at (SionnaPaths.timeDelays p') q = vec_at (SionnaPaths.timeDelays p) q
    ∧ vec_at (SionnaPaths.totalDistance p') q = vec_at (SionnaPaths.totalDistance p) q
    ∧ vec_at (SionnaPaths.kTx p') q = vec_at (SionnaPaths.kTx p) q
    ∧ vec_at (SionnaPaths.kRx p') q = vec_at (SionnaPaths.kRx p) q
    ∧ vec_at (SionnaPaths.aodElevation p') q = vec_at (SionnaPaths.aodElevation p) q
    ∧ vec_at (SionnaPaths.aodAzimuth p') q = vec_at (SionnaPaths.aodAzimuth p) q
    ∧ vec_at (SionnaPaths.aoaElevation p') q = vec_at (SionnaPaths.aoaElevation p) q
    ∧ vec_at (SionnaPaths.aoaAzimuth p') q = vec_at (SionnaPaths.aoaAzimuth p) q.

(** The per-interaction arrays of [p'] are those of [p] at every position
    that is not the one of [index] in one of the first [n] interaction
    slots. *)
Definition per_slot_frame (n stride index : N) (p p' : SionnaPaths.t) : Prop :=
  ∀ q, (∀ ia, ia < n → q ≠ ia * stride + index) →
    vec_at (SionnaPaths.interactions p') q = vec_at (SionnaPaths.interactions p) q
    ∧ vec_at (SionnaPaths.normals p') q = vec_at (SionnaPaths.normals p) q
    ∧ vec_at (SionnaPaths.materials p') q = vec_at (SionnaPaths.materials p) q
    ∧ vec_at (SionnaPaths.deflectedRays p') q = vec_at (SionnaPaths.deflectedRays p) q
    ∧ vec_at (SionnaPaths.incidentRays p') q = vec_at (SionnaPaths.incidentRays p) q.
(** The per-interaction arrays of [p'] are those of [p] at every position
    that is not the one of [index] in some interaction slot. *)
Definition all_slots_frame (stride index : N) (p p' : SionnaPaths.t) : Prop :=
  ∀ q, (∀ ia, q ≠ ia * stride + index) →
    vec_at (SionnaPaths.interactions p') q = vec_at (SionnaPaths.interactions p) q
    ∧ vec_at (SionnaPaths.normals p') q = vec_at (SionnaPaths.normals p) q
    ∧ vec_at (SionnaPaths.materials p') q = vec_at (SionnaPaths.materials p) q
    ∧ vec_at (SionnaPaths.deflectedRays p') q = vec_at (SionnaPaths.deflectedRays p) q
    ∧ vec_at (SionnaPaths.incidentRays p') q = vec_at (SionnaPaths.incidentRays p) q.

(** The data of the first [j] retained paths of the store [st0] are in
    the output [out], each at the write index of its path in the arrays of
    its class. *)
Definition exported_data {ext : Externals} (st0 : PathStorage) (j : N)
    (out : SionnaPathData.t) : Prop :=
  let numTx := vec_size (m_Transmitters st0) in
  let numRx := vec_size (m_Receivers st0) in
  let rows := path_rows st0 in
  let ix := index_at numTx (m_MaxLinkPaths st0) rows in
  ∀ k row tx rx numInteractions delay,
    k < j → vec_at rows k = Some row →
    vec_at (m_Transmitters st0) row.1.1 = Some tx →
    vec_at (m_Receivers st0) row.1.2 = Some rx →
    vec_at (m_NumInteractions st0) k = Some numInteractions →
    vec_at (m_TimeDelays st0) k = Some delay →
    let p := PerType.get (SionnaPathData.paths out) row.2 in
    let stride := numRx * numTx * PerType.get (m_MaxLinkPaths st0) row.2 in
    path_data_at (m_InteractionData st0) delay k tx rx numInteractions stride (ix k) p
    ∧ ∀ ia, ia < m_MaxNumInteractions st0 →
        slot_written (m_InteractionData st0) k rx numInteractions ia
          (ia * stride + ix k) p
        ∧ (ia ≠ numInteractions →
           incident_written (m_InteractionData st0) k tx ia (ia * stride + ix k) p).

(** ** Primitives of the point cloud *)

(** The 64-bit key of the primitive of a node: its voxel in the upper
    half, its label in the lower. *)
Definition node_id {ext : Externals} (info : VoxelWorldInfo.t) (node : PointNode.t) : N :=
  N.lor (N.shiftl (WorldToVoxelID (PointNode.position node) info) 32 mod 2 ^ 64)
    (PointNode.label node).

Definition primitive_ids {ext : Externals} (info : VoxelWorldInfo.t)
    (nodes : list PointNode.t) : list N :=
  node_id info <$> nodes.

(** The node with its link replaced by [next]. *)
Definition relinked (node : PointNode.t) (next : N) : PointNode.t :=
  PointNode.mk (PointNode.position node) (PointNode.normal node)
    (PointNode.label node) (PointNode.materialID node) next.

(** [next] is the link of node [i]: the closest node before [i] with the
    key of [i], or [invalid] when there is none. *)
Definition same_primitive_before (ids : list N) (invalid i next : N) : Prop :=
  (next = invalid ∧ ∀ k, k < i → vec_at ids k ≠ vec_at ids i)
  ∨ (next < i ∧ vec_at ids next = vec_at ids i
     ∧ ∀ k, next < k → k < i → vec_at ids k ≠ vec_at ids i).

(** [(head, count)] describes the primitive [id] among the first [j]
    nodes: [head] is its last node and [count] the number of its nodes. *)
Definition slot_of_primitive (ids : list N) (j id head count : N) : Prop :=
  head < j ∧ vec_at ids head = Some id
  ∧ (∀ k, head < k → k < j → vec_at ids k ≠ Some id)
  ∧ count = count_if (N.eqb id) (take (N.to_nat j) ids).

(** The state of the loop of [LinkPointNodes] over [pointNodes] after
    its first [j] nodes. *)
Definition linked_upto {ext : Externals} (info : VoxelWorldInfo.t)
    (pointNodes : list PointNode.t) (j : N) (s : LinkState) : Prop :=
  let ids := primitive_ids info pointNodes in
  vec_size (linkedNodes s) = vec_size pointNodes
  ∧ (∀ i, j ≤ i → vec_at (linkedNodes s) i = vec_at pointNodes i)
  ∧ (∀ i node, i < j → vec_at pointNodes i = Some node →
       ∃ next, vec_at (linkedNodes s) i = Some (relinked node next)
               ∧ same_primitive_before ids InvalidPointIndex i next)
  ∧ ieCount s = vec_size (voxelNodeIndices s)
  ∧ ieCount s ≤ j
  ∧ (∀ id slot, primitiveHashMap s !! id = Some slot →
       slot < ieCount s
       ∧ ∃ head count, vec_at (voxelNodeIndices s) slot = Some (head, count)
                       ∧ slot_of_primitive ids j id head count)
  ∧ (∀ k id, k < j → vec_at ids k = Some id → is_Some (primitiveHashMap s !! id))
  ∧ (∀ slot, slot < ieCount s → ∃ id, primitiveHashMap s !! id = Some slot)
  ∧ (∀ id id' slot, primitiveHashMap s !! id = Some slot →
       primitiveHashMap s !! id' = Some slot → id = id').

(** * A sample instance and sample inputs

    Concrete values on which the statements below are run.  The hash is a
    polynomial one, [normalize] is glm's [v * inversesqrt(dot(v, v))] in
    binary32; the trigonometric functions and the device are stand-ins. *)

Module Sample.
Definition type_code (ty : PathType.t) : N :=
  match ty with
  | PathType.LineOfSight => 0
  | PathType.Specular => 1
  | PathType.Diffraction => 2
  | PathType.Scattering => 3
  | PathType.RIS => 4
  end.

Definition fone : float := S754_finite false 8388608 (-23).

Definition glm_normalize (v : vec3.t) : vec3.t :=
  let dot := fadd (fadd (fmul (vec3.x v) (vec3.x v)) (fmul (vec3.y v) (vec3.y v)))
                  (fmul (vec3.z v) (vec3.z v)) in
  let inv := SFdiv 24 128 fone (SFsqrt 24 128 dot) in
  vec3.mk (fmul (vec3.x v) inv) (fmul (vec3.y v) inv) (fmul (vec3.z v) inv).

Definition round_to_float (d : double) : float :=
  match d with
  | S754_finite s m e => binary_round 24 128 s m e
  | _ => d
  end.

Definition voxel_dimensions (max min : vec3.t) (voxelSize : float) : N * N * N :=
  if SFeqb voxelSize fzero then (0, 0, 0) else (1, 1, 1).

#[export] Instance externals : Externals := {|
  CalculateHash tx rx ty := ((tx * 31 + rx) * 31 + type_code ty) mod 2 ^ 64;
  CombineHash hash label := (hash * 31 + label) mod 2 ^ 64;
  counter_max := 2 ^ 32 - 1;
  normalize := glm_normalize;
  acos _ := fzero;
  atan _ _ := fzero;
  double_to_float := round_to_float;
  LightSpeedInVacuum := S754_finite false 9368514 5;
  VoxelDimensions := voxel_dimensions;
  InvalidPointIndex := all_bits_set;
  WorldToVoxelID _ _ := 0;
  GetLaunchCount count blockSize := (count + blockSize - 1) / blockSize;
  CreatePrimitives nodes _ _ ieCount _ := (true, vec_size nodes)
|}.

(** Binary32 and binary64 values of small integers. *)
Definition f32 (n : positive) : float := binary_round 24 128 false n 0.
Definition f64 (n : positive) : double := binary_round 53 1024 false n 0.

Definition point (x y z : positive) : vec3.t := vec3.mk (f32 x) (f32 y) (f32 z).

Definition origin : vec3.t := vec3.splat fzero.

(** Three transmitters and two receivers. *)
Definition txs3 : list vec3.t := [point 1 1 1; point 2 1 1; point 3 1 1].
Definition rxs2 : list vec3.t := [point 1 5 1; point 2 5 1].

(** A line-of-sight candidate from the last transmitter to the last
    receiver. *)
Definition los_2_1 : PathInfo.t :=
  PathInfo.mk 2 1 PathType.LineOfSight 0 (f64 1).

(** One transmitter, one receiver, and two candidates of the same
    identity (specular, interaction label 5) with delays 3 and 2. *)
Definition tx1 : list vec3.t := [point 1 1 1].
Definition rx1 : list vec3.t := [point 9 1 1].

Definition specular_3 : PathInfo.t := PathInfo.mk 0 0 PathType.Specular 1 (f64 3).
Definition specular_2 : PathInfo.t := PathInfo.mk 0 0 PathType.Specular 1 (f64 2).

Definition same_identity_twice : Batch.t :=
  {| Batch.numPaths := 2;
     Batch.pathInfos := [specular_3; specular_2];
     Batch.interactions := [point 5 1 1; point 5 2 1];
     Batch.normals := [point 1 1 2; point 1 1 2];
     Batch.labels := [5; 5];
     Batch.materials := [1; 1] |}.

(** Two candidates that the sample hash gives one identity key: a
    line-of-sight path with one interaction of label 0 and delay 3, then
    one without interaction and delay 2. *)
Definition los_one_interaction : PathInfo.t :=
  PathInfo.mk 0 0 PathType.LineOfSight 1 (f64 3).
Definition los_no_interaction : PathInfo.t :=
  PathInfo.mk 0 0 PathType.LineOfSight 0 (f64 2).

Definition colliding_pair : Batch.t :=
  {| Batch.numPaths := 2;
     Batch.pathInfos := [los_one_interaction; los_no_interaction];
     Batch.interactions := [point 5 1 1; point 5 2 1];
     Batch.normals := [point 1 1 2; point 1 1 2];
     Batch.labels := [0; 0];
     Batch.materials := [4; 4] |}.

Definition first_of_pair : Batch.t :=
  {| Batch.numPaths := 1;
     Batch.pathInfos := Batch.pathInfos colliding_pair;
     Batch.interactions := Batch.interactions colliding_pair;
     Batch.normals := Batch.normals colliding_pair;
     Batch.labels := Batch.labels colliding_pair;
     Batch.materials := Batch.materials colliding_pair |}.

(** The store after the first candidate of the pair. *)
Definition retained_one : PathStorage :=
  default (PathStorage_new 1 tx1 rx1)
    (AddPaths_calls (ext := externals) [first_of_pair] (PathStorage_new 1 tx1 rx1)).

(** One transmitter, two receivers and three candidates: two specular
    paths on the link to receiver 0 and a direct path to receiver 1. *)
Definition rx2 : list vec3.t := [point 9 1 1; point 9 5 1].

Definition three_paths : Batch.t :=
  {| Batch.numPaths := 3;
     Batch.pathInfos :=
       [PathInfo.mk 0 0 PathType.Specular 1 (f64 3);
        PathInfo.mk 0 0 PathType.Specular 1 (f64 4);
        PathInfo.mk 0 1 PathType.LineOfSight 0 (f64 2)];
     Batch.interactions := [point 5 1 1; point 5 2 1; point 5 3 1];
     Batch.normals := [point 1 1 2; point 1 1 2; point 1 1 2];
     Batch.labels := [1; 2; 0];
     Batch.materials := [1; 1; 1] |}.

Definition dense_store : PathStorage :=
  default (PathStorage_new 1 tx1 rx2)
    (AddPaths_calls (ext := externals) [three_paths] (PathStorage_new 1 tx1 rx2)).

Definition two_points : list PointData.t :=
  [PointData.mk (point 1 1 1) (point 1 2 3) 7 0;
   PointData.mk (point 4 2 1) (point 1 2 3) 7 0].

Definition env0 : PointCloudEnvironment :=
  {| m_Aabb := Aabb.mk origin origin;
     m_VoxelWorldInfo := VoxelWorldInfo.mk origin fzero (0, 0, 0);
     m_IeCount := 0;
     m_PointCount := 0;
     m_AccelerationStructureValid := false;
     events := [] |}.
End Sample.

(** Three nodes of a point cloud: the first and the last carry the same
    label. *)
Module SampleCloud.
Definition three_nodes : list PointNode.t :=
  [PointNode.mk (Sample.point 1 1 1) (Sample.point 1 2 3) 7 0 0;
   PointNode.mk (Sample.point 4 2 1) (Sample.point 1 2 3) 8 0 0;
   PointNode.mk (Sample.point 2 2 1) (Sample.point 1 2 3) 7 0 0].
End SampleCloud.

Module SampleStores.
(** A candidate of the identity that [Sample.dense_store] keeps in slot 1
    (specular, interaction label 2), with a lower delay and another
    point, normal and material. *)
Definition overwrite_second : Batch.t :=
  {| Batch.numPaths := 1;
     Batch.pathInfos := [PathInfo.mk 0 0 PathType.Specular 1 (Sample.f64 1)];
     Batch.interactions := [Sample.point 7 7 7];
     Batch.normals := [Sample.point 2 1 1];
     Batch.labels := [2];
     Batch.materials := [9] |}.

(** Two candidates for a store of two interaction slots: the first has
    one interaction, the second two. *)
Definition two_lengths : Batch.t :=
  {| Batch.numPaths := 2;
     Batch.pathInfos :=
       [PathInfo.mk 0 0 PathType.Specular 1 (Sample.f64 3);
        PathInfo.mk 0 0 PathType.Specular 2 (Sample.f64 4)];
     Batch.interactions :=
       [Sample.point 5 1 1; Sample.point 1 1 1; Sample.point 5 2 1; Sample.point 5 3 1];
     Batch.normals :=
       [Sample.point 1 1 2; Sample.point 1 1 1; Sample.point 1 1 2; Sample.point 1 1 2];
     Batch.labels := [5; 0; 6; 7];
     Batch.materials := [1; 0; 2; 3] |}.

(** The store of two interaction slots after these two candidates. *)
Definition two_lengths_store : PathStorage :=
  default (PathStorage_new 2 Sample.tx1 Sample.rx1)
    (AddPaths_calls (ext := Sample.externals) [two_lengths]
       (PathStorage_new 2 Sample.tx1 Sample.rx1)).
End SampleStores.

(** * Properties *)

(** ** Vectors and loops *)

Lemma vec_at_Some {A} (v : list A) i x :
  vec_at v i = Some x → i < vec_size v.
Proof.
  unfold vec_at, vec_size. intros Hx. apply lookup_lt_Some in Hx. lia.
Qed.

Lemma vec_at_is_Some {A} (v : list A) i :
  i < vec_size v → is_Some (vec_at v i).
Proof.
  unfold vec_at, vec_size. intros Hi. apply lookup_lt_is_Some. lia.
Qed.

Lemma vec_at_of_nat {A} (v : list A) (i : nat) :
  vec_at v (N.of_nat i) = v !! i.
Proof. unfold vec_at. by rewrite Nat2N.id. Qed.

Lemma vec_set_Some {A} (v v' : list A) i x :
  vec_set v i x = Some v' → i < vec_size v ∧ v' = <[N.to_nat i := x]> v.
Proof. unfold vec_set. case_decide; naive_solver. Qed.

Lemma vec_set_in_range {A} (v : list A) i x :
  i < vec_size v → vec_set v i x = Some (<[N.to_nat i := x]> v).
Proof. unfold vec_set. intros Hi. by rewrite decide_True. Qed.

Lemma vec_set_size {A} (v v' : list A) i x :
  vec_set v i x = Some v' → vec_size v' = vec_size v.
Proof.
  intros [_ ->]%vec_set_Some. unfold vec_size. by rewrite length_insert.
Qed.

Lemma vec_set_at_same {A} (v v' : list A) i x :
  vec_set v i x = Some v' → vec_at v' i = Some x.
Proof.
  intros [Hi ->]%vec_set_Some. unfold vec_at, vec_size in *.
  apply list_lookup_insert_eq. lia.
Qed.

Lemma vec_set_at_other {A} (v v' : list A) i j x :
  vec_set v i x = Some v' → i ≠ j → vec_at v' j = vec_at v j.
Proof.
  intros [Hi ->]%vec_set_Some Hne. unfold vec_at.
  apply list_lookup_insert_ne. lia.
Qed.

Lemma vec_size_emplace_back {A} (v : list A) x :
  vec_size (emplace_back v x) = vec_size v + 1.
Proof. unfold vec_size, emplace_back. rewrite length_app. simpl. lia. Qed.

Lemma vec_at_emplace_back_old {A} (v : list A) x i :
  i < vec_size v → vec_at (emplace_back v x) i = vec_at v i.
Proof.
  unfold vec_at, vec_size, emplace_back. intros Hi.
  apply lookup_app_l. lia.
Qed.

Lemma vec_at_emplace_back_new {A} (v : list A) x :
  vec_at (emplace_back v x) (vec_size v) = Some x.
Proof.
  unfold vec_at, vec_size, emplace_back. rewrite Nat2N.id.
  rewrite lookup_app_r by lia. by rewrite Nat.sub_diag.
Qed.

(** The invariant rule of the loop. *)
Lemma for_loop_invariant {S} (P : N → S → Prop) (body : N → S → option S) count :
  ∀ i s s',
    P i s →
    (∀ j t t', i ≤ j < i + N.of_nat count → P j t → body j t = Some t' → P (j + 1) t') →
    for_loop count i body s = Some s' →
    P (i + N.of_nat count) s'.
Proof.
  induction count as [|count IH]; intros i s s' HP Hstep Hrun; simpl in Hrun.
  - injection Hrun as <-. by replace (i + N.of_nat 0) with i by lia.
  - destruct (body i s) as [t|] eqn:Hbody; [|done]. simpl in Hrun.
    replace (i + N.of_nat (Datatypes.S count)) with (N.succ i + N.of_nat count) by lia.
    apply (IH (N.succ i) t s'); [| |done].
    + replace (N.succ i) with (i + 1) by lia. apply (Hstep i s t); [lia|done..].
    + intros j u u' Hj. apply Hstep. lia.
Qed.

Lemma for_upto_invariant {S} (P : N → S → Prop) (body : N → S → option S) n s s' :
  P 0 s →
  (∀ j t t', j < n → P j t → body j t = Some t' → P (j + 1) t') →
  for_upto n body s = Some s' →
  P n s'.
Proof.
  intros HP Hstep Hrun. unfold for_upto in Hrun.
  replace n with (0 + N.of_nat (N.to_nat n)) by lia.
  eapply for_loop_invariant; [done| |done].
  intros j t t' Hj. apply Hstep. lia.
Qed.

(** A loop whose body is defined on every state it can meet is defined. *)
Lemma for_loop_defined {S} (P : N → S → Prop) (body : N → S → option S) count :
  ∀ i s,
    P i s →
    (∀ j t, i ≤ j < i + N.of_nat count → P j t →
            ∃ t', body j t = Some t' ∧ P (j + 1) t') →
    ∃ s', for_loop count i body s = Some s' ∧ P (i + N.of_nat count) s'.
Proof.
  induction count as [|count IH]; intros i s HP Hstep; simpl.
  - exists s. split; [done|]. by replace (i + N.of_nat 0) with i by lia.
  - destruct (Hstep i s) as (t & -> & HPt); [lia|done|]. simpl.
    replace (i + N.of_nat (Datatypes.S count)) with (N.succ i + N.of_nat count) by lia.
    apply IH.
    + by replace (N.succ i) with (i + 1) by lia.
    + intros j u Hj. apply Hstep. lia.
Qed.

Lemma for_upto_defined {S} (P : N → S → Prop) (body : N → S → option S) n s :
  P 0 s →
  (∀ j t, j < n → P j t → ∃ t', body j t = Some t' ∧ P (j + 1) t') →
  ∃ s', for_upto n body s = Some s' ∧ P n s'.
Proof.
  intros HP Hstep. unfold for_upto.
  destruct (for_loop_defined P body (N.to_nat n) 0 s) as (s' & Hrun & HP'); [done| |].
  - intros j t Hj. apply Hstep. lia.
  - exists s'. split; [done|]. by replace n with (0 + N.of_nat (N.to_nat n)) by lia.
Qed.

(** A loop that reads element [i] of a vector at iteration [i] is a left
    fold over the vector. *)
Lemma for_loop_fold {S A} (f : S → A → S) (body : N → S → option S) (v : list A) :
  (∀ i x s, v !! i = Some x → body (N.of_nat i) s = Some (f s x)) →
  ∀ s, for_upto (vec_size v) body s = Some (foldl f s v).
Proof.
  intros Hbody. unfold for_upto, vec_size. rewrite Nat2N.id.
  assert (Hgen : ∀ (back front : list A) s,
             v = front ++ back →
             for_loop (length back) (N.of_nat (length front)) body s
             = Some (foldl f s back)).
  { induction back as [|x back IH]; intros front s Hv; simpl; [done|].
    rewrite (Hbody _ x).
    - simpl. rewrite <- Nat2N.inj_succ.
      replace (Datatypes.S (length front)) with (length (front ++ [x])).
      + apply IH. by rewrite <- app_assoc.
      + rewrite length_app. simpl. lia.
    - rewrite Hv. by rewrite list_lookup_middle. }
  intros s. by apply (Hgen v []).
Qed.

(** ** IEEE comparison *)

Lemma SFltb_irrefl (a : spec_float) : SFltb a a = false.
Proof.
  unfold SFltb, SFcompare.
  destruct a as [[]|[]| |[] m e]; try done;
    rewrite Z.compare_refl;
    change (Pos.compare_cont Eq m m) with (Pos.compare m m);
    by rewrite Pos.compare_refl.
Qed.

Lemma SFltb_trans (a b c : spec_float) :
  SFltb a b = true → SFltb b c = true → SFltb a c = true.
Proof.
  unfold SFltb, SFcompare.
  destruct a as [[]|[]| |[] ma ea], b as [[]|[]| |[] mb eb],
           c as [[]|[]| |[] mc ec]; try done;
    change (Pos.compare_cont Eq ma mb) with (Pos.compare ma mb);
    change (Pos.compare_cont Eq mb mc) with (Pos.compare mb mc);
    change (Pos.compare_cont Eq ma mc) with (Pos.compare ma mc);
    destruct (Z.compare_spec ea eb), (Z.compare_spec eb ec), (Z.compare_spec ea ec);
    try done; try lia;
    destruct (Pos.compare_spec ma mb), (Pos.compare_spec mb mc),
             (Pos.compare_spec ma mc); try done; lia.
Qed.

(** On numbers, "not less" is "greater or equal". *)
Lemma SFleb_of_not_SFltb (a b : spec_float) :
  a ≠ S754_nan → b ≠ S754_nan → SFltb b a = false → SFleb a b = true.
Proof.
  unfold SFltb, SFleb, SFcompare.
  destruct a as [[]|[]| |[] ma ea], b as [[]|[]| |[] mb eb]; try done;
    intros _ _;
    change (Pos.compare_cont Eq ma mb) with (Pos.compare ma mb);
    change (Pos.compare_cont Eq mb ma) with (Pos.compare mb ma);
    destruct (Z.compare_spec ea eb), (Z.compare_spec eb ea); try done; try lia;
    destruct (Pos.compare_spec ma mb), (Pos.compare_spec mb ma); try done; lia.
Qed.

(** ** ToPathData *)

Lemma foldl_append_slot (slots : list InteractionData.t) (data : PathData.t) :
  foldl append_slot data slots
  = {| PathData.maxNumIa := PathData.maxNumIa data;
       PathData.maxLinkPaths := PathData.maxLinkPaths data;
       PathData.transmitters := PathData.transmitters data;
       PathData.receivers := PathData.receivers data;
       PathData.interactions :=
         PathData.interactions data ++ concat (InteractionData.interactions <$> slots);
       PathData.normals :=
         PathData.normals data ++ concat (InteractionData.normals <$> slots);
       PathData.labels :=
         PathData.labels data ++ concat (InteractionData.labels <$> slots);
       PathData.materials :=
         PathData.materials data ++ concat (InteractionData.materials <$> slots);
       PathData.timeDelays := PathData.timeDelays data;
       PathData.txIDs := PathData.txIDs data;
       PathData.rxIDs := PathData.rxIDs data;
       PathData.pathTypes := PathData.pathTypes data;
       PathData.numInteractions := PathData.numInteractions data |}.
Proof.
  revert data. induction slots as [|d slots IH]; intros data; simpl.
  - rewrite !app_nil_r. by destruct data.
  - rewrite IH. unfold append_slot. simpl. by rewrite <- !app_assoc.
Qed.

(** [ToPathData] in closed form: it is defined on every store, hands the
    store back as it got it, and its buffers are the slot arrays one after
    the other. *)
Lemma ToPathData_eq (st : PathStorage) :
  ToPathData st
  = Some ({| PathData.maxNumIa := m_MaxNumInteractions st;
             PathData.maxLinkPaths := 0;
             PathData.transmitters := m_Transmitters st;
             PathData.receivers := m_Receivers st;
             PathData.interactions :=
               concat (InteractionData.interactions <$> m_InteractionData st);
             PathData.normals :=
               concat (InteractionData.normals <$> m_InteractionData st);
             PathData.labels :=
               concat (InteractionData.labels <$> m_InteractionData st);
             PathData.materials :=
               concat (InteractionData.materials <$> m_InteractionData st);
             PathData.timeDelays := m_TimeDelays st;
             PathData.txIDs := m_TxIDs st;
             PathData.rxIDs := m_RxIDs st;
             PathData.pathTypes := m_PathTypes st;
             PathData.numInteractions := m_NumInteractions st |}, st).
Proof.
  unfold ToPathData.
  rewrite (for_loop_fold append_slot (append_interaction_slot st) (m_InteractionData st)).
  - simpl. by rewrite foldl_append_slot.
  - intros i d data Hd. unfold append_interaction_slot.
    rewrite vec_at_of_nat, Hd. done.
Qed.

(** C10.  On every store, [ToPathData] returns a record whose
    [maxLinkPaths] field is 0, whatever the per-link counts and
    [m_MaxLinkPaths] of the store are. *)
Theorem ToPathData_maxLinkPaths_zero (st : PathStorage) :
  ∃ data st', ToPathData st = Some (data, st') ∧ PathData.maxLinkPaths data = 0.
Proof. rewrite ToPathData_eq. eauto. Qed.

(** C8.  [ToPathData] is defined on every store and returns the store
    unchanged (path counters included); a second call right after the
    first returns the same record, and a dense export run after it sees
    the store it would have seen without it. *)
Theorem ToPathData_read_only_idempotent {ext : Externals} (st : PathStorage) :
  ∃ data,
    ToPathData st = Some (data, st)
    ∧ (r ← ToPathData st; ToPathData r.2) = Some (data, st)
    ∧ (r ← ToPathData st; ToSionnaPathData r.2) = ToSionnaPathData st.
Proof.
  eexists. split; [apply ToPathData_eq|].
  rewrite !ToPathData_eq. simpl. by rewrite ToPathData_eq.
Qed.

(** ** The per-link path-count table *)

Lemma PathStorage_new_PathCounts_size maxNumIa (txs rxs : list vec3.t) :
  vec_size txs + vec_size rxs < uint32_modulus →
  vec_size (m_PathCounts (PathStorage_new maxNumIa txs rxs))
  = vec_size txs + vec_size rxs.
Proof.
  intros Hsmall. unfold PathStorage_new, m_PathCounts. unfold vec_size at 1.
  rewrite length_replicate, N2Nat.id. unfold to_uint32. by apply N.mod_small.
Qed.

(** The table of a fresh store covers the index of every link exactly when
    the product of the two counts does not exceed their sum. *)
Lemma link_table_covers_iff maxNumIa (txs rxs : list vec3.t) :
  0 < vec_size txs → 0 < vec_size rxs →
  vec_size txs + vec_size rxs < uint32_modulus →
  (∀ txID rxID, txID < vec_size txs → rxID < vec_size rxs →
     is_Some (vec_at (m_PathCounts (PathStorage_new maxNumIa txs rxs))
                     (rxID * vec_size txs + txID)))
  ↔ vec_size txs * vec_size rxs ≤ vec_size txs + vec_size rxs.
Proof.
  intros Htx Hrx Hsmall. split.
  - intros Hcover.
    destruct (Hcover (vec_size txs - 1) (vec_size rxs - 1)) as [c Hc]; [lia..|].
    apply vec_at_Some in Hc. rewrite PathStorage_new_PathCounts_size in Hc by done.
    remember (vec_size txs) as T. remember (vec_size rxs) as R.
    assert (∃ t, T = t + 1) as [t ->] by (exists (T - 1); lia).
    assert (∃ r, R = r + 1) as [r ->] by (exists (R - 1); lia).
    replace (t + 1 - 1) with t in Hc by lia.
    replace (r + 1 - 1) with r in Hc by lia. nia.
  - intros Hle txID rxID HtxID HrxID. apply vec_at_is_Some.
    rewrite PathStorage_new_PathCounts_size by done.
    assert (rxID * vec_size txs + vec_size txs ≤ vec_size rxs * vec_size txs) by nia.
    lia.
Qed.

(** C2 (the code at the failing input).  With three transmitters and two
    receivers the table has five entries; a path from transmitter 2 to
    receiver 1 has link index 5, which is outside it, and [AddPaths] on
    that path is undefined.  The buffers of the call hold a record for the
    path, so that the access to the table is the one that fails: on the
    same store with a table of six entries the call is defined. *)
Theorem link_table_overrun :
  let st := PathStorage_new 0 Sample.txs3 Sample.rxs2 in
  let st6 :=
    {| m_MaxNumInteractions := m_MaxNumInteractions st;
       m_InteractionData := m_InteractionData st;
       m_Transmitters := m_Transmitters st;
       m_Receivers := m_Receivers st;
       m_PathCounts := replicate 6 (PerType.fill 0);
       m_MaxLinkPaths := m_MaxLinkPaths st;
       m_PathMap := m_PathMap st;
       m_TimeDelays := m_TimeDelays st;
       m_TxIDs := m_TxIDs st;
       m_RxIDs := m_RxIDs st;
       m_PathTypes := m_PathTypes st;
       m_NumInteractions := m_NumInteractions st |} in
  vec_size (m_PathCounts st) = 5
  ∧ PathInfo.rxID Sample.los_2_1 * vec_size (m_Transmitters st)
    + PathInfo.txID Sample.los_2_1 = 5
  ∧ vec_at (m_PathCounts st) 5 = None
  ∧ AddPaths (ext := Sample.externals) 1 [Sample.los_2_1]
      [Sample.origin] [Sample.origin] [0] [0] st = None
  ∧ is_Some (AddPaths (ext := Sample.externals) 1 [Sample.los_2_1]
               [Sample.origin] [Sample.origin] [0] [0] st6).
Proof.
  cbv zeta. do 4 (split; [vm_compute; done|]).
  destruct (AddPaths _ _ _ _ _ _ _) as [st'|] eqn:Hrun; [done|].
  vm_compute in Hrun. discriminate.
Qed.

(** ** Point cloud environment *)

Section PointCloudEnvironmentFacts.
Context {ext : Externals}.

(** [LoadPoints] writes the bounding box only. *)
Lemma LoadPoints_frame (points : list PointData.t) numPoints env nodes env' :
  LoadPoints points numPoints env = Some (nodes, env') →
  ray_tracing_data env' = ray_tracing_data env ∧ m_IeCount env' = m_IeCount env.
Proof.
  unfold LoadPoints. intros Hload.
  destruct (vec_at points 0) as [point0|]; [|done]. simpl in Hload.
  destruct (for_upto _ _ _) as [r|]; [|done]. simpl in Hload.
  by simplify_eq.
Qed.

(** [LoadPoints] is defined when the array holds the [numPoints] points
    it is said to hold. *)
Lemma LoadPoints_defined (points : list PointData.t) numPoints env :
  0 < numPoints → numPoints ≤ vec_size points →
  is_Some (LoadPoints points numPoints env).
Proof.
  intros Hpos Hsize. unfold LoadPoints.
  destruct (vec_at_is_Some points 0) as [point0 Hpoint0]; [lia|].
  rewrite Hpoint0. simpl.
  edestruct (for_upto_defined (λ _ (_ : list PointNode.t * Aabb.t), True))
    as (r & Hr & _); [done| |rewrite Hr; by simpl].
  intros j t Hj _.
  destruct (vec_at_is_Some points j) as [point Hpoint]; [lia|].
  rewrite Hpoint. simpl. eauto.
Qed.

Lemma ComputeVoxelWorld_degenerate voxelSize env :
  degenerate_voxels voxelSize
    (VoxelDimensions (Aabb.max (m_Aabb env)) (Aabb.min (m_Aabb env)) voxelSize) →
  (ComputeVoxelWorld voxelSize env).1 = false.
Proof.
  unfold ComputeVoxelWorld, degenerate_voxels.
  destruct (VoxelDimensions _ _ _) as [[dx dy] dz]. simpl.
  intros [Hzero | [-> | [-> | ->]]].
  - replace (fgt voxelSize fzero) with false; [by rewrite andb_false_r|].
    unfold fgt, SFeqb, SFltb, fzero in *.
    by destruct voxelSize as [[]|[]| |[]].
  - done.
  - by rewrite andb_false_r.
  - by rewrite !andb_false_r.
Qed.
End PointCloudEnvironmentFacts.

(** C9.  [Init] returns [false] when it is given at most one point, and
    when the voxel size is zero or a dimension of the voxel world computed
    from the loaded points is zero; in each case the device stage has not
    run: no kernel launch and no acceleration-structure build are added,
    and the point count and the state of the acceleration structure are
    those before the call. *)
Theorem Init_fails_on_degenerate_input {ext : Externals}
    (points : list PointData.t) (numPoints : N) (voxelSize aabbBias : float)
    (env : PointCloudEnvironment) :
  numPoints ≤ 1
  ∨ (∃ nodes env1,
       LoadPoints points numPoints env = Some (nodes, env1)
       ∧ degenerate_voxels voxelSize
           (VoxelDimensions (Aabb.max (m_Aabb env1)) (Aabb.min (m_Aabb env1)) voxelSize)) →
  ∃ env',
    Init points numPoints voxelSize aabbBias env = Some (false, env')
    ∧ ray_tracing_data env' = ray_tracing_data env
    ∧ m_IeCount env' = m_IeCount env.
Proof.
  intros [Hfew|(nodes & env1 & Hload & Hdeg)]; unfold Init.
  - apply N.leb_le in Hfew. rewrite Hfew. eauto.
  - destruct (numPoints <=? 1); [eauto|].
    rewrite Hload. simpl.
    apply ComputeVoxelWorld_degenerate in Hdeg.
    destruct (LoadPoints_frame _ _ _ _ _ Hload) as [Hrt Hie].
    destruct (ComputeVoxelWorld voxelSize env1) as [ok env2] eqn:Hvoxel.
    simpl in Hdeg. subst ok. simpl.
    eexists. split; [done|].
    unfold ComputeVoxelWorld in Hvoxel.
    destruct (VoxelDimensions _ _ _) as [[dx dy] dz].
    injection Hvoxel as _ <-.
    unfold ray_tracing_data in *. simpl.
    rewrite List.filter_app. simpl. rewrite app_nil_r. done.
Qed.

Lemma Init_fails_on_degenerate_input_witness :
  ∃ env',
    Init (ext := Sample.externals) Sample.two_points 2 fzero Sample.fone Sample.env0
    = Some (false, env')
    ∧ ray_tracing_data env' = ray_tracing_data Sample.env0
    ∧ m_IeCount env' = m_IeCount Sample.env0.
Proof.
  apply (Init_fails_on_degenerate_input (ext := Sample.externals)). right.
  eexists _, _. split; [vm_compute; reflexivity|].
  left. vm_compute. reflexivity.
Defined.

(** ** AddPaths: one candidate *)

Section AddPathFacts.
Context {ext : Externals}.

Lemma emplace_loop (pathInfo : PathInfo.t) interactions normals labels materials
    dataIndex (data data' : list InteractionData.t) :
  for_upto (vec_size data)
    (emplace_interaction pathInfo interactions normals labels materials dataIndex) data
  = Some data' →
  vec_size data' = vec_size data
  ∧ ∀ ia d, vec_at data ia = Some d →
      ∃ d', vec_at data' ia = Some d'
            ∧ emplaced_slot pathInfo interactions normals labels materials dataIndex ia d d'.
Proof.
  intros Hloop.
  pose (P := λ (j : N) (cur : list InteractionData.t),
          vec_size cur = vec_size data
          ∧ (∀ ia, j ≤ ia → vec_at cur ia = vec_at data ia)
          ∧ (∀ ia d, ia < j → vec_at data ia = Some d →
               ∃ d', vec_at cur ia = Some d'
                     ∧ emplaced_slot pathInfo interactions normals labels materials
                         dataIndex ia d d')).
  assert (HP : P (vec_size data) data').
  { eapply (for_upto_invariant P); [| |exact Hloop].
    - split; [done|]. split; [done|]. intros ia d Hia. lia.
    - intros j cur cur' Hj (Hsize & Hrest & Hdone) Hbody.
      unfold emplace_interaction in Hbody.
      destruct (vec_at cur j) as [d|] eqn:Hd; [|done]. simpl in Hbody.
      rewrite Hrest in Hd by lia.
      assert (Hnew : ∃ d', vec_set cur j d' = Some cur'
                ∧ emplaced_slot pathInfo interactions normals labels materials
                    dataIndex j d d').
      { unfold emplaced_slot.
        destruct (j <? PathInfo.numInteractions pathInfo) eqn:Hlt.
        - bind_inv Hbody. eexists. split; [exact Hbody|].
          eexists _, _, _, _. split; [done|]. done.
        - eexists. split; [exact Hbody|].
          eexists _, _, _, _. split; [done|]. done. }
      destruct Hnew as (d' & Hset & Hslot).
      split; [|split].
      + rewrite <- Hsize. by eapply vec_set_size.
      + intros ia Hia. rewrite <- Hrest by lia.
        eapply vec_set_at_other; [done|lia].
      + intros ia d0 Hia Hd0.
        destruct (decide (ia = j)) as [->|Hne].
        * exists d'. split; [by eapply vec_set_at_same|]. by simplify_eq.
        * destruct (Hdone ia d0) as (d0' & Hd0' & Hslot0); [lia|done|].
          exists d0'. split; [|done]. rewrite <- Hd0'.
          eapply vec_set_at_other; [done|lia]. }
  destruct HP as (Hsize & _ & Hdone). split; [done|].
  intros ia d Hd. apply Hdone; [|done]. by eapply vec_at_Some.
Qed.

Lemma overwrite_loop interactions normals labels materials dataIndex slot n
    (data data' : list InteractionData.t) :
  for_upto n
    (overwrite_interaction interactions normals labels materials dataIndex slot) data
  = Some data' →
  vec_size data' = vec_size data
  ∧ (∀ ia, n ≤ ia → vec_at data' ia = vec_at data ia)
  ∧ (∀ ia, ia < n →
       ∃ d d', vec_at data ia = Some d ∧ vec_at data' ia = Some d'
               ∧ overwritten_slot interactions normals labels materials
                   dataIndex slot ia d d').
Proof.
  intros Hloop.
  pose (P := λ (j : N) (cur : list InteractionData.t),
          vec_size cur = vec_size data
          ∧ (∀ ia, j ≤ ia → vec_at cur ia = vec_at data ia)
          ∧ (∀ ia, ia < j →
               ∃ d d', vec_at data ia = Some d ∧ vec_at cur ia = Some d'
                       ∧ overwritten_slot interactions normals labels materials
                           dataIndex slot ia d d')).
  eapply (for_upto_invariant P); [| |exact Hloop].
  - split; [done|]. split; [done|]. intros ia Hia. lia.
  - intros j cur cur' Hj (Hsize & Hrest & Hdone) Hbody.
    unfold overwrite_interaction in Hbody. bind_inv Hbody.
    match goal with Hd : vec_at cur j = Some _ |- _ => rewrite Hrest in Hd by lia end.
    split; [|split].
    + rewrite <- Hsize. by eapply vec_set_size.
    + intros ia Hia. rewrite <- Hrest by lia.
      eapply vec_set_at_other; [done|lia].
    + intros ia Hia.
      destruct (decide (ia = j)) as [->|Hne].
      * eexists _, _. split; [done|]. split; [by eapply vec_set_at_same|].
        eexists _, _, _, _. simpl. repeat split; done.
      * destruct (Hdone ia) as (d0 & d0' & Hd0 & Hd0' & Hslot0); [lia|].
        exists d0, d0'. split; [done|]. split; [|done]. rewrite <- Hd0'.
        eapply vec_set_at_other; [done|lia].
Qed.
End AddPathFacts.

Section AddPathOutcomes.
Context {ext : Externals}.

Lemma AddPath_outcomes (b : Batch.t) pathIndex st st' :
  AddPath (Batch.pathInfos b) (Batch.interactions b) (Batch.normals b)
    (Batch.labels b) (Batch.materials b) pathIndex st = Some st' →
  ∃ hash pathInfo,
    candidate (vec_size (m_InteractionData st)) b pathIndex = Some (hash, pathInfo)
    ∧ AddPath_outcome b pathIndex st hash pathInfo st'.
Proof.
  unfold AddPath, candidate. intros Hrun.
  destruct (vec_at (Batch.pathInfos b) pathIndex) as [pathInfo|]; [|done].
  simpl in Hrun |- *.
  destruct (vec_at (Batch.labels b) _) as [label|]; [|done]. simpl in Hrun.
  destruct (GetPathHash pathInfo (Batch.labels b) _) as [hash|]; [|done].
  simpl in Hrun |- *. exists hash, pathInfo. split; [done|].
  destruct (m_PathMap st !! hash) as [entry|] eqn:Hlookup.
  - destruct (fgt _ _) eqn:Hgt.
    + bind_inv Hrun. eapply outcome_overwritten; [done..|]. by simplify_eq.
    + eapply outcome_discarded; [done..|]. by simplify_eq.
  - bind_inv Hrun. eapply outcome_emplaced; [done..|]. by simplify_eq.
Qed.

(** A defined iteration has found a label at the data index of its path. *)
Lemma AddPath_label_access (b : Batch.t) pathIndex st st' :
  AddPath (Batch.pathInfos b) (Batch.interactions b) (Batch.normals b)
    (Batch.labels b) (Batch.materials b) pathIndex st = Some st' →
  is_Some (vec_at (Batch.labels b) (pathIndex * vec_size (m_InteractionData st))).
Proof.
  unfold AddPath. intros Hrun.
  destruct (vec_at (Batch.pathInfos b) pathIndex) as [pathInfo|]; [|done].
  simpl in Hrun. by destruct (vec_at (Batch.labels b) _).
Qed.

(** No outcome changes the number of interaction slots, the endpoint
    lists or the interaction bound of the store. *)
Lemma AddPath_outcome_frame b pathIndex st hash pathInfo st' :
  AddPath_outcome b pathIndex st hash pathInfo st' →
  vec_size (m_InteractionData st') = vec_size (m_InteractionData st)
  ∧ m_Transmitters st' = m_Transmitters st
  ∧ m_Receivers st' = m_Receivers st
  ∧ m_MaxNumInteractions st' = m_MaxNumInteractions st.
Proof.
  intros [data counts pathCounts _ Hloop _ _ ->
         |entry data timeDelays numInteractions _ _ Hloop _ _ ->
         |entry _ _ ->]; simpl; [| |done].
  - by apply emplace_loop in Hloop as [-> _].
  - by apply overwrite_loop in Hloop as [-> _].
Qed.

Lemma candidates_upto_succ maxNumIa b (n : nat) c :
  candidate maxNumIa b (N.of_nat n) = Some c →
  candidates_upto maxNumIa b (Datatypes.S n) = candidates_upto maxNumIa b n ++ [c].
Proof.
  intros Hc. unfold candidates_upto.
  rewrite seq_S, omap_app. simpl. by rewrite Hc.
Qed.

(** Induction over a sequence of calls, candidate by candidate: a
    property of the candidates seen so far and of the store that holds
    at the start and is kept by each outcome holds at the end. *)
Lemma AddPaths_calls_invariant
    (P : list (N * PathInfo.t) → PathStorage → Prop) maxNumIa :
  (∀ cs st b pathIndex hash pathInfo st',
     vec_size (m_InteractionData st) = maxNumIa →
     P cs st →
     candidate maxNumIa b pathIndex = Some (hash, pathInfo) →
     AddPath_outcome b pathIndex st hash pathInfo st' →
     P (cs ++ [(hash, pathInfo)]) st') →
  ∀ calls cs0 st0 st,
    vec_size (m_InteractionData st0) = maxNumIa →
    P cs0 st0 →
    AddPaths_calls calls st0 = Some st →
    P (cs0 ++ all_candidates maxNumIa calls) st
    ∧ vec_size (m_InteractionData st) = maxNumIa.
Proof.
  intros Hstep. induction calls as [|b calls IH]; intros cs0 st0 st Hsize HP Hrun.
  - simpl in Hrun. simplify_eq. unfold all_candidates. simpl.
    by rewrite app_nil_r.
  - simpl in Hrun. destruct (AddPaths_call b st0) as [st1|] eqn:Hcall; [|done].
    simpl in Hrun. unfold AddPaths_call, AddPaths in Hcall.
    pose (Q := λ (j : N) (cur : PathStorage),
            P (cs0 ++ candidates_upto maxNumIa b (N.to_nat j)) cur
            ∧ vec_size (m_InteractionData cur) = maxNumIa).
    assert (HQ : Q (Batch.numPaths b) st1).
    { eapply (for_upto_invariant Q); [| |exact Hcall].
      - split; [|done]. unfold candidates_upto. simpl. by rewrite app_nil_r.
      - intros j cur cur' Hj [HPcur Hcur] Hbody.
        apply AddPath_outcomes in Hbody as (hash & pathInfo & Hcand & Hout).
        rewrite Hcur in Hcand.
        destruct (AddPath_outcome_frame _ _ _ _ _ _ Hout) as (Hslots & _).
        split; [|congruence].
        replace (N.to_nat (j + 1)) with (Datatypes.S (N.to_nat j)) by lia.
        rewrite (candidates_upto_succ _ _ _ (hash, pathInfo))
          by (by rewrite N2Nat.id).
        rewrite app_assoc. by eapply Hstep. }
    destruct HQ as [HP1 Hsize1].
    destruct (IH _ _ _ Hsize1 HP1 Hrun) as [HPend Hend]. split; [|done].
    unfold all_candidates in *. simpl. by rewrite app_assoc.
Qed.
End AddPathOutcomes.

(** ** AddPaths: deduplication and minimum delay *)

Section Dedup.
Context {ext : Externals}.

Lemma PathStorage_new_slots maxNumIa (txs rxs : list vec3.t) :
  vec_size (m_InteractionData (PathStorage_new maxNumIa txs rxs)) = maxNumIa.
Proof.
  unfold PathStorage_new, m_InteractionData, vec_size.
  by rewrite length_replicate, N2Nat.id.
Qed.

Lemma dedup_min_step cs st b pathIndex hash pathInfo st' :
  dedup_min cs st →
  AddPath_outcome b pathIndex st hash pathInfo st' →
  dedup_min (cs ++ [(hash, pathInfo)]) st'.
Proof.
  intros (Hdom & Hsize & Hmin)
    [data counts pathCounts Hnew _ _ _ ->
    |entry data timeDelays numInteractions Hold Hgt _ Hdelays _ ->
    |entry Hold Hgt ->]; unfold dedup_min; simpl.
  - (* a new identity *)
    assert (Hfresh : ∀ pi, (hash, pi) ∉ cs).
    { intros pi Hin. assert (is_Some (m_PathMap st !! hash)) as [e He]
        by (apply Hdom; eauto). congruence. }
    split; [|split].
    + intros key. rewrite lookup_insert_is_Some, Hdom. split.
      * intros [->|[_ [pi Hpi]]]; [exists pathInfo|exists pi]; set_solver.
      * intros [pi [Hpi|Hpi%list_elem_of_singleton]%elem_of_app];
          [|simplify_eq; by left].
        destruct (decide (hash = key)) as [->|Hne]; [by left|right; eauto].
    + rewrite vec_size_emplace_back, Hsize, map_size_insert_None by done. lia.
    + intros key entry. rewrite lookup_insert. case_decide as Hkey.
      * subst key. intros [= <-]. simpl. split.
        -- exists pathInfo. split; [set_solver|done].
        -- intros pi [Hpi|Hpi%list_elem_of_singleton]%elem_of_app.
           ++ by destruct (Hfresh pi).
           ++ simplify_eq. apply SFltb_irrefl.
      * intros Hentry. destruct (Hmin key entry Hentry) as [[pi [Hpi Hpid]] Hlow].
        split; [exists pi; split; [set_solver|done]|].
        intros pi' [Hpi'|Hpi'%list_elem_of_singleton]%elem_of_app;
          [by apply Hlow|congruence].
  - (* a known identity with a lower delay *)
    unfold fgt in Hgt.
    destruct (Hmin hash entry Hold) as [[pi0 [Hpi0 _]] Hlow].
    split; [|split].
    + intros key. rewrite lookup_insert_is_Some, Hdom. split.
      * intros [->|[_ [pi Hpi]]]; [exists pi0|exists pi]; set_solver.
      * intros [pi [Hpi|Hpi%list_elem_of_singleton]%elem_of_app].
        -- destruct (decide (hash = key)) as [->|Hne]; [by left|right; eauto].
        -- simplify_eq. by left.
    + apply vec_set_size in Hdelays. rewrite Hdelays, Hsize.
      f_equal. symmetry. apply map_size_insert_Some. by rewrite Hold.
    + intros key e. rewrite lookup_insert. case_decide as Hkey.
      * subst key. intros [= <-]. simpl. split.
        -- exists pathInfo. split; [set_solver|done].
        -- intros pi [Hpi|Hpi%list_elem_of_singleton]%elem_of_app.
           ++ destruct (SFltb (PathInfo.timeDelay pi) (PathInfo.timeDelay pathInfo))
                eqn:Hlt; [|done].
              rewrite <- (Hlow pi Hpi). symmetry. by eapply SFltb_trans.
           ++ simplify_eq. apply SFltb_irrefl.
      * intros Hentry. destruct (Hmin key e Hentry) as [[pi [Hpi Hpid]] Hlow'].
        split; [exists pi; split; [set_solver|done]|].
        intros pi' [Hpi'|Hpi'%list_elem_of_singleton]%elem_of_app;
          [by apply Hlow'|congruence].
  - (* a known identity with a delay that is not lower *)
    unfold fgt in Hgt.
    destruct (Hmin hash entry Hold) as [[pi0 [Hpi0 _]] Hlow].
    split; [|split; [done|]].
    + intros key. rewrite Hdom. split.
      * intros [pi Hpi]. exists pi. set_solver.
      * intros [pi [Hpi|Hpi%list_elem_of_singleton]%elem_of_app]; [eauto|].
        simplify_eq. eauto.
    + intros key e Hentry.
      destruct (Hmin key e Hentry) as [[pi [Hpi Hpid]] Hlow'].
      split; [exists pi; split; [set_solver|done]|].
      intros pi' [Hpi'|Hpi'%list_elem_of_singleton]%elem_of_app; [by apply Hlow'|].
      simplify_eq. done.
Qed.

Lemma dedup_min_fresh maxNumIa (txs rxs : list vec3.t) :
  dedup_min [] (PathStorage_new maxNumIa txs rxs).
Proof.
  unfold dedup_min. simpl. split; [|split; [done|]].
  - intros key. rewrite lookup_empty. split.
    + by intros [? ?].
    + intros [pi Hpi]. by apply elem_of_nil in Hpi.
  - intros key entry. by rewrite lookup_empty.
Qed.

Lemma AddPaths_calls_dedup_min maxNumIa (txs rxs : list vec3.t) calls st :
  AddPaths_calls calls (PathStorage_new maxNumIa txs rxs) = Some st →
  dedup_min (all_candidates maxNumIa calls) st.
Proof.
  intros Hrun.
  eapply (AddPaths_calls_invariant dedup_min maxNumIa) with (cs0 := []) in Hrun
    as [Hinv _]; [done| | |].
  - intros. by eapply dedup_min_step.
  - apply PathStorage_new_slots.
  - apply dedup_min_fresh.
Qed.
End Dedup.

(** C1.  After any sequence of [AddPaths] calls on a fresh store, the
    identity map has exactly the identity keys of the submitted candidates
    (one entry each), there are as many retained paths as distinct keys,
    and the delay stored for a key is the delay of one of the candidates
    of that key, none of which is strictly lower; when the delays of the
    key's candidates are numbers, the stored delay is below or equal to
    each of them: it is their minimum. *)
Theorem AddPaths_one_entry_per_identity_min_delay {ext : Externals}
    (maxNumIa : N) (txs rxs : list vec3.t) (calls : list Batch.t) (st : PathStorage) :
  AddPaths_calls calls (PathStorage_new maxNumIa txs rxs) = Some st →
  (∀ key, is_Some (m_PathMap st !! key)
          ↔ ∃ pathInfo, (key, pathInfo) ∈ all_candidates maxNumIa calls)
  ∧ vec_size (m_TimeDelays st) = N.of_nat (size (m_PathMap st))
  ∧ ∀ key entry, m_PathMap st !! key = Some entry →
      (∃ pathInfo, (key, pathInfo) ∈ all_candidates maxNumIa calls
                   ∧ PathInfo.timeDelay pathInfo = PathEntry.timeDelay entry)
      ∧ (∀ pathInfo, (key, pathInfo) ∈ all_candidates maxNumIa calls →
           SFltb (PathInfo.timeDelay pathInfo) (PathEntry.timeDelay entry) = false)
      ∧ ((∀ pathInfo, (key, pathInfo) ∈ all_candidates maxNumIa calls →
            PathInfo.timeDelay pathInfo ≠ S754_nan) →
         ∀ pathInfo, (key, pathInfo) ∈ all_candidates maxNumIa calls →
           SFleb (PathEntry.timeDelay entry) (PathInfo.timeDelay pathInfo) = true).
Proof.
  intros Hrun. apply AddPaths_calls_dedup_min in Hrun as (Hdom & Hsize & Hmin).
  split; [done|]. split; [done|].
  intros key entry Hentry. destruct (Hmin key entry Hentry) as [[pi [Hpi Hpid]] Hlow].
  split; [eauto|]. split; [done|].
  intros Hnum pi' Hpi'. apply SFleb_of_not_SFltb; [|by apply Hnum|by apply Hlow].
  rewrite <- Hpid. by apply Hnum.
Qed.

Lemma AddPaths_one_entry_per_identity_min_delay_witness :
  ∃ st,
    AddPaths_calls (ext := Sample.externals) [Sample.same_identity_twice]
      (PathStorage_new 1 Sample.tx1 Sample.rx1) = Some st
    ∧ vec_size (m_TimeDelays st) = N.of_nat (size (m_PathMap st))
    ∧ m_TimeDelays st = [Sample.f64 2].
Proof.
  eexists. split; [vm_compute; reflexivity|]. split; [|vm_compute; reflexivity].
  eapply (AddPaths_one_entry_per_identity_min_delay (ext := Sample.externals)
            1 Sample.tx1 Sample.rx1 [Sample.same_identity_twice]).
  vm_compute. reflexivity.
Defined.

(** ** AddPaths: slot indices and in-place overwrite *)

Section StableIndex.
Context {ext : Externals}.

(** What a further candidate leaves of the retained paths of [st0]: each
    identity keeps its slot index, and the endpoints and the type stored
    at a slot stay. *)
Lemma slots_kept_step (st0 : PathStorage) b pathIndex st hash pathInfo st' :
  (∀ key entry, m_PathMap st0 !! key = Some entry →
     ∃ entry', m_PathMap st !! key = Some entry'
               ∧ PathEntry.pathIndex entry' = PathEntry.pathIndex entry) →
  AddPath_outcome b pathIndex st hash pathInfo st' →
  ∀ key entry, m_PathMap st0 !! key = Some entry →
    ∃ entry', m_PathMap st' !! key = Some entry'
              ∧ PathEntry.pathIndex entry' = PathEntry.pathIndex entry.
Proof.
  intros Hkept
    [data counts pathCounts Hnew _ _ _ ->
    |old data timeDelays numInteractions Hold _ _ _ _ ->
    |old _ _ ->] key entry Hentry; [| |by apply Hkept].
  - destruct (Hkept key entry Hentry) as (entry' & Hentry' & Hindex).
    exists entry'. split; [|done]. simpl.
    rewrite lookup_insert_ne; [done|]. congruence.
  - destruct (Hkept key entry Hentry) as (entry' & Hentry' & Hindex). simpl.
    destruct (decide (hash = key)) as [->|Hne].
    + rewrite lookup_insert_eq. eexists. split; [done|]. simpl. congruence.
    + rewrite lookup_insert_ne by done. eauto.
Qed.

Lemma rows_kept_step b pathIndex st hash pathInfo st' :
  AddPath_outcome b pathIndex st hash pathInfo st' →
  (∀ k x, vec_at (m_TxIDs st) k = Some x → vec_at (m_TxIDs st') k = Some x)
  ∧ (∀ k x, vec_at (m_RxIDs st) k = Some x → vec_at (m_RxIDs st') k = Some x)
  ∧ (∀ k x, vec_at (m_PathTypes st) k = Some x → vec_at (m_PathTypes st') k = Some x).
Proof.
  intros [data counts pathCounts _ _ _ _ ->
         |old data timeDelays numInteractions _ _ _ _ _ ->
         |old _ _ ->]; simpl; [|done..].
  repeat split; intros k x Hx;
    (rewrite vec_at_emplace_back_old; [done|by eapply vec_at_Some]).
Qed.
End StableIndex.

(** C6.  Across any further sequence of [AddPaths] calls, every identity
    key of the store keeps the slot index its entry holds, and the
    transmitter, receiver and path type stored at each slot stay where
    they are: no retained path is moved or renumbered.  And a later
    candidate of an identity the store holds mutates in place at that
    slot: every identity keeps its index, no path is added, the endpoint
    and type arrays and the counters are untouched; when its delay is
    strictly lower, the delay and the interaction count are replaced at
    the slot index of the identity and nowhere else, the interaction
    slots below its interaction count have the element at that index
    replaced by the candidate's and no other element touched, and the
    slots from its count on are as they were; otherwise nothing is
    written. *)
Theorem AddPaths_slot_index_stable {ext : Externals}
    (calls : list Batch.t) (st st' : PathStorage) :
  AddPaths_calls calls st = Some st' →
  ((∀ key entry, m_PathMap st !! key = Some entry →
      ∃ entry', m_PathMap st' !! key = Some entry'
                ∧ PathEntry.pathIndex entry' = PathEntry.pathIndex entry)
   ∧ (∀ k x, vec_at (m_TxIDs st) k = Some x → vec_at (m_TxIDs st') k = Some x)
   ∧ (∀ k x, vec_at (m_RxIDs st) k = Some x → vec_at (m_RxIDs st') k = Some x)
   ∧ (∀ k x, vec_at (m_PathTypes st) k = Some x → vec_at (m_PathTypes st') k = Some x))
  ∧ ∀ (b : Batch.t) (pathIndex key : N) (pathInfo : PathInfo.t) (entry : PathEntry.t)
      (st'' : PathStorage),
      candidate (vec_size (m_InteractionData st')) b pathIndex = Some (key, pathInfo) →
      m_PathMap st' !! key = Some entry →
      AddPath (Batch.pathInfos b) (Batch.interactions b) (Batch.normals b)
        (Batch.labels b) (Batch.materials b) pathIndex st' = Some st'' →
      let slot := PathEntry.pathIndex entry in
      let count := PathInfo.numInteractions pathInfo in
      (∀ key' entry', m_PathMap st' !! key' = Some entry' →
         ∃ entry'', m_PathMap st'' !! key' = Some entry''
                    ∧ PathEntry.pathIndex entry'' = PathEntry.pathIndex entry')
      ∧ size (m_PathMap st'') = size (m_PathMap st')
      ∧ m_TxIDs st'' = m_TxIDs st'
      ∧ m_RxIDs st'' = m_RxIDs st'
      ∧ m_PathTypes st'' = m_PathTypes st'
      ∧ m_PathCounts st'' = m_PathCounts st'
      ∧ m_MaxLinkPaths st'' = m_MaxLinkPaths st'
      ∧ if SFltb (PathInfo.timeDelay pathInfo) (PathEntry.timeDelay entry)
        then
          m_PathMap st''
          = <[key := PathEntry.mk (PathInfo.timeDelay pathInfo) slot]> (m_PathMap st')
          ∧ vec_set (m_TimeDelays st') slot (PathInfo.timeDelay pathInfo)
            = Some (m_TimeDelays st'')
          ∧ vec_set (m_NumInteractions st') slot count = Some (m_NumInteractions st'')
          ∧ (∀ ia, ia < count →
               ∃ d d', vec_at (m_InteractionData st') ia = Some d
                       ∧ vec_at (m_InteractionData st'') ia = Some d'
                       ∧ overwritten_slot (Batch.interactions b) (Batch.normals b)
                           (Batch.labels b) (Batch.materials b)
                           (pathIndex * vec_size (m_InteractionData st')) slot ia d d')
          ∧ (∀ ia, count ≤ ia →
               vec_at (m_InteractionData st'') ia = vec_at (m_InteractionData st') ia)
        else st'' = st'.
Proof.
  intros Hrun. split.
  - pose (P := λ (_ : list (N * PathInfo.t)) (cur : PathStorage),
            (∀ key entry, m_PathMap st !! key = Some entry →
               ∃ entry', m_PathMap cur !! key = Some entry'
                         ∧ PathEntry.pathIndex entry' = PathEntry.pathIndex entry)
            ∧ (∀ k x, vec_at (m_TxIDs st) k = Some x → vec_at (m_TxIDs cur) k = Some x)
            ∧ (∀ k x, vec_at (m_RxIDs st) k = Some x → vec_at (m_RxIDs cur) k = Some x)
            ∧ (∀ k x, vec_at (m_PathTypes st) k = Some x →
                 vec_at (m_PathTypes cur) k = Some x)).
    eapply (AddPaths_calls_invariant P (vec_size (m_InteractionData st)))
      with (cs0 := []) in Hrun as [Hinv _]; [done| |done|].
    + intros cs cur b pathIndex hash pathInfo cur' _ (Hmap & Htx & Hrx & Hty) _ Hout.
      destruct (rows_kept_step _ _ _ _ _ _ Hout) as (Htx' & Hrx' & Hty').
      split; [by eapply slots_kept_step|]. repeat split; eauto.
    + unfold P. repeat split; eauto.
  - clear Hrun. intros b pathIndex key pathInfo entry st'' Hcand Hentry Hstep slot count.
    apply AddPath_outcomes in Hstep as (key' & pathInfo' & Hcand' & Hout).
    rewrite Hcand in Hcand'. injection Hcand' as <- <-.
    split.
    { apply (slots_kept_step st' _ _ _ _ _ _ ltac:(eauto) Hout). }
    destruct Hout as [data counts pathCounts Hnew _ _ _ _
                     |old data timeDelays numInteractions Hold Hgt Hloop Hdelay Hcount ->
                     |old Hold Hgt ->]; [congruence| |].
    + assert (old = entry) as -> by congruence.
      unfold fgt in Hgt. rewrite Hgt. simpl.
      rewrite map_size_insert_Some by (by rewrite Hold).
      do 6 (split; [done|]). split; [done|]. split; [done|]. split; [done|].
      apply overwrite_loop in Hloop as (_ & Hrest & Hdone). split; done.
    + assert (old = entry) as -> by congruence.
      unfold fgt in Hgt. rewrite Hgt. done.
Qed.

Lemma AddPaths_slot_index_stable_witness :
  ∃ st'',
    AddPath (ext := Sample.externals)
      (Batch.pathInfos SampleStores.overwrite_second)
      (Batch.interactions SampleStores.overwrite_second)
      (Batch.normals SampleStores.overwrite_second)
      (Batch.labels SampleStores.overwrite_second)
      (Batch.materials SampleStores.overwrite_second) 0 Sample.dense_store = Some st''
    ∧ vec_set (m_TimeDelays Sample.dense_store) 1 (Sample.f64 1)
      = Some (m_TimeDelays st'')
    ∧ vec_set (m_NumInteractions Sample.dense_store) 1 1 = Some (m_NumInteractions st'')
    ∧ m_TxIDs st'' = m_TxIDs Sample.dense_store.
Proof.
  destruct (AddPath (ext := Sample.externals)
              (Batch.pathInfos SampleStores.overwrite_second)
              (Batch.interactions SampleStores.overwrite_second)
              (Batch.normals SampleStores.overwrite_second)
              (Batch.labels SampleStores.overwrite_second)
              (Batch.materials SampleStores.overwrite_second) 0 Sample.dense_store)
    as [st''|] eqn:Hstep; [|vm_compute in Hstep; discriminate].
  exists st''. split; [reflexivity|].
  destruct (AddPaths_slot_index_stable (ext := Sample.externals)
              [Sample.three_paths] (PathStorage_new 1 Sample.tx1 Sample.rx2)
              Sample.dense_store) as [_ Hplace]; [vm_compute; reflexivity|].
  edestruct (Hplace SampleStores.overwrite_second 0)
    as (_ & _ & Htx & _ & _ & _ & _ & Hwrite).
  - vm_compute. reflexivity.
  - vm_compute. reflexivity.
  - exact Hstep.
  - simpl in Hwrite.
    destruct Hwrite as (_ & Hdelay & Hcount & _).
    split; [exact Hdelay|]. split; [exact Hcount|exact Htx].
Defined.

(** C5.  When a candidate overwrites the retained path of its identity
    (the key is known and the candidate's delay is strictly lower), the
    interaction slots from the candidate's interaction count on are left
    exactly as they were, sentinel or not; the slots below it have the
    element at the path's slot index replaced by the candidate's and no
    other element touched; the stored interaction count becomes the
    candidate's. *)
Theorem AddPath_overwrite_keeps_slots_beyond_count {ext : Externals}
    (b : Batch.t) (pathIndex : N) (st st' : PathStorage)
    (hash : N) (pathInfo : PathInfo.t) (entry : PathEntry.t) :
  candidate (vec_size (m_InteractionData st)) b pathIndex = Some (hash, pathInfo) →
  m_PathMap st !! hash = Some entry →
  SFltb (PathInfo.timeDelay pathInfo) (PathEntry.timeDelay entry) = true →
  AddPath (Batch.pathInfos b) (Batch.interactions b) (Batch.normals b)
    (Batch.labels b) (Batch.materials b) pathIndex st = Some st' →
  (∀ ia, PathInfo.numInteractions pathInfo ≤ ia →
     vec_at (m_InteractionData st') ia = vec_at (m_InteractionData st) ia)
  ∧ (∀ ia, ia < PathInfo.numInteractions pathInfo →
       ∃ d d', vec_at (m_InteractionData st) ia = Some d
               ∧ vec_at (m_InteractionData st') ia = Some d'
               ∧ overwritten_slot (Batch.interactions b) (Batch.normals b)
                   (Batch.labels b) (Batch.materials b)
                   (pathIndex * vec_size (m_InteractionData st))
                   (PathEntry.pathIndex entry) ia d d')
  ∧ vec_at (m_NumInteractions st') (PathEntry.pathIndex entry)
    = Some (PathInfo.numInteractions pathInfo).
Proof.
  intros Hcand Hentry Hlower Hrun.
  apply AddPath_outcomes in Hrun as (hash' & pathInfo' & Hcand' & Hout).
  rewrite Hcand in Hcand'. injection Hcand' as <- <-.
  destruct Hout as [data counts pathCounts Hnew _ _ _ _
                   |old data timeDelays numInteractions Hold _ Hloop _ Hcount ->
                   |old Hold Hgt _].
  - congruence.
  - simplify_eq. simpl. apply overwrite_loop in Hloop as (_ & Hrest & Hdone).
    split; [done|]. split; [done|]. by eapply vec_set_at_same.
  - unfold fgt in Hgt. congruence.
Qed.

Lemma AddPath_overwrite_keeps_slots_beyond_count_witness :
  (InteractionData.labels <$> vec_at (m_InteractionData Sample.retained_one) 0) = Some [0]
  ∧ vec_at (m_NumInteractions Sample.retained_one) 0 = Some 1
  ∧ ∃ st',
      AddPath (ext := Sample.externals)
        (Batch.pathInfos Sample.colliding_pair) (Batch.interactions Sample.colliding_pair)
        (Batch.normals Sample.colliding_pair) (Batch.labels Sample.colliding_pair)
        (Batch.materials Sample.colliding_pair) 1 Sample.retained_one = Some st'
      ∧ vec_at (m_InteractionData st') 0 = vec_at (m_InteractionData Sample.retained_one) 0
      ∧ vec_at (m_NumInteractions st') 0 = Some 0.
Proof.
  split; [vm_compute; reflexivity|]. split; [vm_compute; reflexivity|].
  eexists. split; [vm_compute; reflexivity|].
  edestruct (AddPath_overwrite_keeps_slots_beyond_count (ext := Sample.externals)
               Sample.colliding_pair 1 Sample.retained_one)
    as (Hrest & _ & Hcount);
    [vm_compute; reflexivity|vm_compute; reflexivity|vm_compute; reflexivity
    |vm_compute; reflexivity|].
  split; [apply (Hrest 0); vm_compute; discriminate|exact Hcount].
Defined.

(** ** AddPaths: alignment and sentinel padding *)

Section Padding.
Context {ext : Externals}.

Lemma counts_agree_app_l (cs : list (N * PathInfo.t)) c :
  counts_agree (cs ++ [c]) → counts_agree cs.
Proof.
  intros Hagree key pi pi' Hpi Hpi'. apply (Hagree key); set_solver.
Qed.

Lemma emplaced_slot_sizes pathInfo interactions normals labels materials
    dataIndex ia d d' :
  emplaced_slot pathInfo interactions normals labels materials dataIndex ia d d' →
  vec_size (InteractionData.interactions d')
  = vec_size (InteractionData.interactions d) + 1
  ∧ vec_size (InteractionData.normals d') = vec_size (InteractionData.normals d) + 1
  ∧ vec_size (InteractionData.labels d') = vec_size (InteractionData.labels d) + 1
  ∧ vec_size (InteractionData.materials d')
    = vec_size (InteractionData.materials d) + 1.
Proof.
  intros (p & n & l & m & -> & _). simpl. by rewrite !vec_size_emplace_back.
Qed.

Lemma overwritten_slot_sizes interactions normals labels materials
    dataIndex slot ia d d' :
  overwritten_slot interactions normals labels materials dataIndex slot ia d d' →
  vec_size (InteractionData.interactions d') = vec_size (InteractionData.interactions d)
  ∧ vec_size (InteractionData.normals d') = vec_size (InteractionData.normals d)
  ∧ vec_size (InteractionData.labels d') = vec_size (InteractionData.labels d)
  ∧ vec_size (InteractionData.materials d') = vec_size (InteractionData.materials d).
Proof.
  intros (p & n & l & m & _ & _ & _ & _ & H1 & H2 & H3 & H4).
  by rewrite (vec_set_size _ _ _ _ H1), (vec_set_size _ _ _ _ H2),
       (vec_set_size _ _ _ _ H3), (vec_set_size _ _ _ _ H4).
Qed.

Lemma aligned_step b pathIndex st hash pathInfo st' :
  aligned st →
  AddPath_outcome b pathIndex st hash pathInfo st' →
  aligned st'.
Proof.
  intros (Hd & Htx & Hrx & Hty & Hni & Hslots)
    [data counts pathCounts Hnew Hloop _ _ ->
    |old data timeDelays numInteractions Hold _ Hloop Hdelays Hcounts ->
    |old _ _ ->]; [| |done].
  - unfold aligned. simpl.
    rewrite !vec_size_emplace_back, map_size_insert_None by done.
    rewrite Hd, Htx, Hrx, Hty, Hni.
    repeat split; try lia.
    all: apply emplace_loop in Hloop as [Hsize Hdone].
    all: assert (is_Some (vec_at (m_InteractionData st) ia)) as [d0 Hd0]
           by (apply vec_at_is_Some; rewrite <- Hsize; by eapply vec_at_Some).
    all: destruct (Hdone ia d0 Hd0) as (d' & Hd' & Hslot).
    all: assert (d' = d) as -> by congruence.
    all: apply emplaced_slot_sizes in Hslot as (H1 & H2 & H3 & H4).
    all: destruct (Hslots ia d0 Hd0) as (G1 & G2 & G3 & G4); lia.
  - unfold aligned. simpl.
    rewrite map_size_insert_Some by (by rewrite Hold).
    rewrite (vec_set_size _ _ _ _ Hdelays), (vec_set_size _ _ _ _ Hcounts).
    split; [done|]. split; [done|]. split; [done|]. split; [done|]. split; [done|].
    intros ia d Hdata.
    apply overwrite_loop in Hloop as (Hsize & Hrest & Hdone).
    destruct (decide (ia < PathInfo.numInteractions pathInfo)) as [Hlt|Hge].
    + destruct (Hdone ia Hlt) as (d0 & d' & Hd0 & Hd' & Hslot).
      assert (d' = d) as -> by congruence.
      apply overwritten_slot_sizes in Hslot as (-> & -> & -> & ->).
      by apply (Hslots ia).
    + rewrite Hrest in Hdata by lia. by apply (Hslots ia).
Qed.
End Padding.

Section PaddingStep.
Context {ext : Externals}.

Lemma retained_count_step b pathIndex st hash pathInfo st' :
  AddPath_outcome b pathIndex st hash pathInfo st' →
  (size (m_PathMap st) ≤ size (m_PathMap st'))%nat.
Proof.
  intros [data counts pathCounts Hnew _ _ _ ->
         |old data timeDelays numInteractions Hold _ _ _ _ ->
         |old _ _ ->]; simpl; [| |done].
  - rewrite map_size_insert_None by done. lia.
  - rewrite map_size_insert_Some by (by rewrite Hold). done.
Qed.

Lemma recorded_padded_step cs b pathIndex st hash pathInfo st' :
  dedup_min cs st → aligned st →
  counts_agree (cs ++ [(hash, pathInfo)]) →
  N.of_nat (size (m_PathMap st')) ≤ uint32_modulus →
  counts_recorded cs st → padded st →
  AddPath_outcome b pathIndex st hash pathInfo st' →
  counts_recorded (cs ++ [(hash, pathInfo)]) st' ∧ padded st'.
Proof.
  intros (Hdom & _ & Hmin) (Hd & Htx & Hrx & Hty & Hni & Hslots)
    Hagree Hbound Hrec Hpad
    [data counts pathCounts Hnew Hloop _ _ ->
    |old data timeDelays numInteractions Hold _ Hloop Hdelays Hcounts ->
    |old Hold _ ->].
  - (* a new identity, stored at the end of every array *)
    simpl in Hbound. rewrite map_size_insert_None in Hbound by done.
    assert (Hindex : to_uint32 (N.of_nat (size (m_PathMap st)))
                     = vec_size (m_NumInteractions st)).
    { rewrite Hni. unfold to_uint32. apply N.mod_small. lia. }
    assert (Hfresh : ∀ pi, (hash, pi) ∉ cs).
    { intros pi Hin. assert (is_Some (m_PathMap st !! hash)) as [e He]
        by (apply Hdom; eauto). congruence. }
    apply emplace_loop in Hloop as [Hsize Hdone].
    split.
    + intros key entry pi. simpl. rewrite lookup_insert. case_decide as Hkey.
      * subst key. intros [= <-]. simpl.
        intros [Hpi|Hpi%list_elem_of_singleton]%elem_of_app;
          [by destruct (Hfresh pi)|]. simplify_eq.
        rewrite Hindex. apply vec_at_emplace_back_new.
      * intros Hentry [Hpi|Hpi%list_elem_of_singleton]%elem_of_app; [|congruence].
        pose proof (Hrec key entry pi Hentry Hpi) as Hold.
        rewrite vec_at_emplace_back_old; [done|by eapply vec_at_Some].
    + intros k count ia d' Hk Hd' Hle. simpl in Hk, Hd'.
      assert (is_Some (vec_at (m_InteractionData st) ia)) as [d Hd0]
        by (apply vec_at_is_Some; rewrite <- Hsize; by eapply vec_at_Some).
      destruct (Hdone ia d Hd0) as (d'' & Hd'' & p & n & l & m & -> & Hvals).
      assert (d' = InteractionData.mk
                     (emplace_back (InteractionData.interactions d) p)
                     (emplace_back (InteractionData.normals d) n)
                     (emplace_back (InteractionData.labels d) l)
                     (emplace_back (InteractionData.materials d) m)) as -> by congruence.
      simpl. destruct (Hslots ia d Hd0) as (_ & _ & Hl & Hm).
      destruct (decide (k < vec_size (m_NumInteractions st))) as [Hlt|Hge].
      * rewrite vec_at_emplace_back_old in Hk by done.
        rewrite !vec_at_emplace_back_old by lia. by eapply Hpad.
      * assert (k = vec_size (m_NumInteractions st)) as ->.
        { apply vec_at_Some in Hk. rewrite vec_size_emplace_back in Hk. lia. }
        rewrite vec_at_emplace_back_new in Hk. injection Hk as <-.
        apply N.ltb_ge in Hle. rewrite Hle in Hvals.
        destruct Hvals as (_ & _ & -> & ->).
        rewrite Hni, <- Hl at 1. rewrite vec_at_emplace_back_new.
        rewrite Hni, <- Hm at 1. by rewrite vec_at_emplace_back_new.
  - (* a known identity, overwritten at its slot *)
    simpl in Hbound. rewrite map_size_insert_Some in Hbound by (by rewrite Hold).
    destruct (Hmin hash old Hold) as [[pi0 [Hpi0 _]] _].
    assert (Hsame : vec_at (m_NumInteractions st) (PathEntry.pathIndex old)
                    = Some (PathInfo.numInteractions pathInfo)).
    { rewrite (Hrec hash old pi0 Hold Hpi0). f_equal.
      apply (Hagree hash); set_solver. }
    assert (numInteractions = m_NumInteractions st) as ->.
    { apply vec_set_Some in Hcounts as [_ ->]. by apply list_insert_id. }
    apply overwrite_loop in Hloop as (Hsize & Hrest & Hdone).
    split.
    + intros key entry pi. simpl. rewrite lookup_insert. case_decide as Hkey.
      * subst key. intros [= <-]. simpl. intros Hpi.
        rewrite Hsame. f_equal. apply (Hagree hash); set_solver.
      * intros Hentry [Hpi|Hpi%list_elem_of_singleton]%elem_of_app; [|congruence].
        by apply (Hrec key).
    + intros k count ia d' Hk Hd' Hle. simpl in Hk, Hd'.
      destruct (decide (ia < PathInfo.numInteractions pathInfo)) as [Hlt|Hge].
      * destruct (Hdone ia Hlt)
          as (d & d'' & Hd0 & Hd'' & p & n & l & m & _ & _ & _ & _ & _ & _ & Hl & Hm).
        assert (d'' = d') as -> by congruence.
        assert (PathEntry.pathIndex old ≠ k) as Hne.
        { intros Heq. subst k. rewrite Hsame in Hk. injection Hk as <-. lia. }
        rewrite (vec_set_at_other _ _ _ _ _ Hl Hne), (vec_set_at_other _ _ _ _ _ Hm Hne).
        by eapply Hpad.
      * rewrite Hrest in Hd' by lia. by eapply Hpad.
  - (* a known identity, candidate discarded *)
    split; [|done].
    destruct (Hmin hash old Hold) as [[pi0 [Hpi0 _]] _].
    intros key entry pi Hentry [Hpi|Hpi%list_elem_of_singleton]%elem_of_app;
      [by apply (Hrec key)|]. simplify_eq.
    rewrite (Hrec hash old pi0 Hold Hpi0). f_equal. apply (Hagree hash); set_solver.
Qed.

Lemma export_ready_step cs st b pathIndex hash pathInfo st' :
  export_ready cs st →
  AddPath_outcome b pathIndex st hash pathInfo st' →
  export_ready (cs ++ [(hash, pathInfo)]) st'.
Proof.
  intros (Hdedup & Haligned & Hcond) Hout.
  split; [by eapply dedup_min_step|]. split; [by eapply aligned_step|].
  intros Hagree Hbound.
  pose proof (retained_count_step _ _ _ _ _ _ Hout) as Hmono.
  destruct Hcond as [Hrec Hpad]; [by eapply counts_agree_app_l|lia|].
  by eapply recorded_padded_step.
Qed.

Lemma export_ready_fresh maxNumIa (txs rxs : list vec3.t) :
  export_ready [] (PathStorage_new maxNumIa txs rxs).
Proof.
  split; [apply dedup_min_fresh|]. split.
  - unfold aligned. simpl. repeat split; try done.
    all: unfold vec_at in *.
    all: match goal with H : replicate _ _ !! _ = Some _ |- _ =>
           apply lookup_replicate in H as [-> _] end; done.
  - intros _ _. split.
    + intros key entry pi Hentry. simpl in Hentry. by rewrite lookup_empty in Hentry.
    + intros k count ia d Hk. by simpl in Hk.
Qed.

Lemma AddPaths_calls_export_ready maxNumIa (txs rxs : list vec3.t) calls st :
  AddPaths_calls calls (PathStorage_new maxNumIa txs rxs) = Some st →
  export_ready (all_candidates maxNumIa calls) st
  ∧ vec_size (m_InteractionData st) = maxNumIa.
Proof.
  intros Hrun.
  eapply (AddPaths_calls_invariant export_ready maxNumIa) with (cs0 := []) in Hrun;
    [done| | |].
  - intros. by eapply export_ready_step.
  - apply PathStorage_new_slots.
  - apply export_ready_fresh.
Qed.
End PaddingStep.

(** ** AddPaths is defined on well-formed calls *)

Section Defined.
Context {ext : Externals}.

Lemma GetPathHash_defined (pathInfo : PathInfo.t) (labels : list N) dataIndex :
  dataIndex + PathInfo.numInteractions pathInfo ≤ vec_size labels →
  is_Some (GetPathHash pathInfo labels dataIndex).
Proof.
  intros Hlabels. unfold GetPathHash.
  edestruct (for_upto_defined (λ _ (_ : N), True)) as (hash & Hhash & _);
    [done| |by rewrite Hhash].
  intros i hash Hi _.
  destruct (vec_at_is_Some labels (dataIndex + i)) as [l Hl]; [lia|].
  rewrite Hl. simpl. eauto.
Qed.

Lemma emplace_loop_defined pathInfo interactions normals labels materials dataIndex
    (data : list InteractionData.t) :
  dataIndex + PathInfo.numInteractions pathInfo ≤ vec_size interactions →
  dataIndex + PathInfo.numInteractions pathInfo ≤ vec_size normals →
  dataIndex + PathInfo.numInteractions pathInfo ≤ vec_size labels →
  dataIndex + PathInfo.numInteractions pathInfo ≤ vec_size materials →
  is_Some (for_upto (vec_size data)
             (emplace_interaction pathInfo interactions normals labels materials
                dataIndex) data).
Proof.
  intros Hi Hn Hl Hm.
  edestruct (for_upto_defined
               (λ _ (cur : list InteractionData.t), vec_size cur = vec_size data))
    as (data' & Hdata' & _); [done| |by rewrite Hdata'].
  intros ia cur Hia Hsize. unfold emplace_interaction.
  destruct (vec_at_is_Some cur ia) as [d Hd]; [lia|]. rewrite Hd. simpl.
  destruct (ia <? PathInfo.numInteractions pathInfo) eqn:Hlt.
  - apply N.ltb_lt in Hlt.
    destruct (vec_at_is_Some interactions (dataIndex + ia)) as [p ->]; [lia|].
    destruct (vec_at_is_Some normals (dataIndex + ia)) as [n ->]; [lia|].
    destruct (vec_at_is_Some labels (dataIndex + ia)) as [l ->]; [lia|].
    destruct (vec_at_is_Some materials (dataIndex + ia)) as [m ->]; [lia|].
    simpl. rewrite vec_set_in_range by lia. eexists. split; [done|].
    unfold vec_size in *. by rewrite length_insert.
  - rewrite vec_set_in_range by lia. eexists. split; [done|].
    unfold vec_size in *. by rewrite length_insert.
Qed.

Lemma overwrite_loop_defined interactions normals labels materials dataIndex slot n
    (data : list InteractionData.t) (count : N) :
  n ≤ vec_size data →
  dataIndex + n ≤ vec_size interactions → dataIndex + n ≤ vec_size normals →
  dataIndex + n ≤ vec_size labels → dataIndex + n ≤ vec_size materials →
  slot < count →
  (∀ ia d, vec_at data ia = Some d →
     vec_size (InteractionData.interactions d) = count
     ∧ vec_size (InteractionData.normals d) = count
     ∧ vec_size (InteractionData.labels d) = count
     ∧ vec_size (InteractionData.materials d) = count) →
  is_Some (for_upto n
             (overwrite_interaction interactions normals labels materials
                dataIndex slot) data).
Proof.
  intros Hdata Hi Hn Hl Hm Hslot Hsizes.
  edestruct (for_upto_defined
               (λ j (cur : list InteractionData.t),
                  vec_size cur = vec_size data
                  ∧ ∀ ia, j ≤ ia → vec_at cur ia = vec_at data ia))
    as (data' & Hdata' & _); [done| |by rewrite Hdata'].
  intros ia cur Hia [Hsize Hrest]. unfold overwrite_interaction.
  destruct (vec_at_is_Some cur ia) as [d Hd]; [lia|]. rewrite Hd. simpl.
  rewrite Hrest in Hd by lia. destruct (Hsizes ia d Hd) as (S1 & S2 & S3 & S4).
  destruct (vec_at_is_Some interactions (dataIndex + ia)) as [p ->]; [lia|].
  destruct (vec_at_is_Some normals (dataIndex + ia)) as [nm ->]; [lia|].
  destruct (vec_at_is_Some labels (dataIndex + ia)) as [l ->]; [lia|].
  destruct (vec_at_is_Some materials (dataIndex + ia)) as [m ->]; [lia|].
  simpl. rewrite !vec_set_in_range by lia. simpl.
  rewrite vec_set_in_range by lia. eexists. split; [done|]. split.
  - unfold vec_size in *. by rewrite length_insert.
  - intros ia' Hia'. rewrite <- Hrest by lia. unfold vec_at.
    apply list_lookup_insert_ne. lia.
Qed.

Lemma indexed_step b pathIndex st hash pathInfo st' :
  indexed st → AddPath_outcome b pathIndex st hash pathInfo st' → indexed st'.
Proof.
  intros Hindexed
    [data counts pathCounts Hnew _ _ _ ->
    |old data timeDelays numInteractions Hold _ _ _ _ ->
    |old _ _ ->]; [| |done]; intros key entry; simpl.
  - rewrite map_size_insert_None by done. rewrite lookup_insert.
    case_decide.
    + intros [= <-]. simpl. unfold to_uint32.
      pose proof (N.Div0.mod_le (N.of_nat (size (m_PathMap st))) uint32_modulus). lia.
    + intros Hentry. apply Hindexed in Hentry. lia.
  - rewrite map_size_insert_Some by (by rewrite Hold). rewrite lookup_insert.
    case_decide.
    + intros [= <-]. simpl. by apply (Hindexed hash).
    + apply Hindexed.
Qed.

Lemma AddPath_defined maxNumIa (b : Batch.t) pathIndex st :
  store_ok maxNumIa st →
  batch_ok maxNumIa (vec_size (m_Transmitters st)) (vec_size (m_PathCounts st)) b →
  pathIndex < Batch.numPaths b →
  is_Some (AddPath (Batch.pathInfos b) (Batch.interactions b) (Batch.normals b)
             (Batch.labels b) (Batch.materials b) pathIndex st).
Proof.
  intros (Hslots & Haligned & Hindexed) (Hinfos & Hi & Hn & Hl & Hm & Hat & Hpaths)
    Hindex.
  unfold AddPath.
  destruct (vec_at_is_Some (Batch.pathInfos b) pathIndex) as [pathInfo HpathInfo];
    [lia|].
  rewrite HpathInfo. simpl.
  destruct (Hpaths pathIndex pathInfo Hindex HpathInfo) as [Hcount Hlink].
  rewrite Hslots.
  destruct (vec_at_is_Some (Batch.labels b) (pathIndex * maxNumIa)) as [label ->];
    [by apply Hat|].
  simpl.
  assert (Hrange : pathIndex * maxNumIa + PathInfo.numInteractions pathInfo
                   ≤ Batch.numPaths b * maxNumIa) by nia.
  destruct (GetPathHash_defined pathInfo (Batch.labels b) (pathIndex * maxNumIa))
    as [hash Hhash]; [lia|].
  rewrite Hhash. simpl.
  destruct (m_PathMap st !! hash) as [entry|] eqn:Hentry.
  - destruct (fgt _ _); [|done].
    destruct Haligned as (Hd & _ & _ & _ & Hni & Harrays).
    destruct (overwrite_loop_defined (Batch.interactions b) (Batch.normals b)
                (Batch.labels b) (Batch.materials b) (pathIndex * maxNumIa)
                (PathEntry.pathIndex entry) (PathInfo.numInteractions pathInfo)
                (m_InteractionData st) (N.of_nat (size (m_PathMap st))))
      as [data ->]; [lia..|by apply (Hindexed hash)|done|].
    simpl. rewrite !vec_set_in_range; [done|..].
    + rewrite Hd. by apply (Hindexed hash).
    + rewrite Hni. by apply (Hindexed hash).
  - rewrite <- Hslots at 1.
    destruct (emplace_loop_defined pathInfo (Batch.interactions b) (Batch.normals b)
                (Batch.labels b) (Batch.materials b) (pathIndex * maxNumIa)
                (m_InteractionData st)) as [data ->]; [lia..|].
    simpl. destruct (vec_at_is_Some (m_PathCounts st) _ Hlink) as [counts ->].
    simpl. by rewrite vec_set_in_range.
Qed.

(** [AddPaths] is defined on a well-formed call, and leaves a store on
    which the next well-formed call is defined. *)
Lemma AddPaths_call_defined maxNumIa (b : Batch.t) st :
  store_ok maxNumIa st →
  batch_ok maxNumIa (vec_size (m_Transmitters st)) (vec_size (m_PathCounts st)) b →
  ∃ st', AddPaths_call b st = Some st'
         ∧ store_ok maxNumIa st'
         ∧ m_Transmitters st' = m_Transmitters st
         ∧ vec_size (m_PathCounts st') = vec_size (m_PathCounts st).
Proof.
  intros Hstore Hbatch. unfold AddPaths_call, AddPaths.
  apply (for_upto_defined
           (λ _ cur, store_ok maxNumIa cur
                     ∧ m_Transmitters cur = m_Transmitters st
                     ∧ vec_size (m_PathCounts cur) = vec_size (m_PathCounts st)));
    [done|].
  intros j cur Hj ((Hslots & Haligned & Hindexed) & Htx & Htable).
  destruct (AddPath_defined maxNumIa b j cur) as [cur' Hcur'];
    [done|by rewrite Htx, Htable|done|].
  exists cur'. split; [done|].
  apply AddPath_outcomes in Hcur' as (hash & pathInfo & _ & Hout).
  destruct (AddPath_outcome_frame _ _ _ _ _ _ Hout) as (Hslots' & Htx' & _ & _).
  split; [|split; [congruence|]].
  - split; [congruence|]. split; [by eapply aligned_step|by eapply indexed_step].
  - destruct Hout as [data counts pathCounts _ _ _ Hset ->
                     |old data timeDelays numInteractions _ _ _ _ _ ->
                     |old _ _ ->]; simpl; [|done..].
    rewrite <- Htable. by eapply vec_set_size.
Qed.

Lemma store_ok_fresh maxNumIa (txs rxs : list vec3.t) :
  store_ok maxNumIa (PathStorage_new maxNumIa txs rxs).
Proof.
  split; [apply PathStorage_new_slots|].
  destruct (export_ready_fresh maxNumIa txs rxs) as (_ & Haligned & _).
  split; [done|]. intros key entry Hentry. simpl in Hentry.
  by rewrite lookup_empty in Hentry.
Qed.
End Defined.

(** ** ToPathData: dimensions and padding *)

Lemma concat_length_uniform {A} (ls : list (list A)) (n : nat) :
  (∀ i l, ls !! i = Some l → length l = n) →
  length (concat ls) = (length ls * n)%nat.
Proof.
  induction ls as [|l ls IH]; intros Hlen; simpl; [done|].
  rewrite length_app, (Hlen 0%nat l), IH; [lia| |done].
  intros i l' Hl'. by apply (Hlen (Datatypes.S i)).
Qed.

Lemma concat_lookup_uniform {A} (ls : list (list A)) (n i k : nat) (l : list A) :
  (∀ j l', ls !! j = Some l' → length l' = n) →
  ls !! i = Some l → (k < n)%nat →
  concat ls !! (i * n + k)%nat = l !! k.
Proof.
  revert i. induction ls as [|l0 ls IH]; intros i Hlen Hl Hk; [done|].
  pose proof (Hlen 0%nat l0 eq_refl) as Hl0. simpl.
  destruct i as [|i].
  - simpl in Hl. injection Hl as ->. simpl. apply lookup_app_l. lia.
  - simpl in Hl. rewrite lookup_app_r by (rewrite Hl0; lia).
    replace (Datatypes.S i * n + k - length l0)%nat with (i * n + k)%nat
      by (rewrite Hl0; lia).
    apply IH; [|done..]. intros j l' Hl'. by apply (Hlen (Datatypes.S j)).
Qed.

Section FlatSlots.
Context {A : Type} (proj : InteractionData.t → list A).

(** A flat buffer of [ToPathData], for slot arrays of [n] elements each:
    its length, and the element of path [k] in interaction slot [ia]. *)
Lemma flat_size (data : list InteractionData.t) (n : N) :
  (∀ ia d, vec_at data ia = Some d → vec_size (proj d) = n) →
  vec_size (concat (proj <$> data)) = vec_size data * n.
Proof.
  intros Hlen. unfold vec_size.
  rewrite (concat_length_uniform _ (N.to_nat n)), length_fmap; [lia|].
  intros i l. rewrite list_lookup_fmap.
  destruct (data !! i) as [d|] eqn:Hd; [|done]. intros [= <-].
  specialize (Hlen (N.of_nat i) d). rewrite vec_at_of_nat in Hlen.
  apply Hlen in Hd. unfold vec_size in Hd. lia.
Qed.

Lemma flat_at (data : list InteractionData.t) (n ia k : N) d :
  (∀ ia d, vec_at data ia = Some d → vec_size (proj d) = n) →
  vec_at data ia = Some d → k < n →
  vec_at (concat (proj <$> data)) (ia * n + k) = vec_at (proj d) k.
Proof.
  intros Hlen Hd Hk. unfold vec_at in *.
  replace (N.to_nat (ia * n + k)) with (N.to_nat ia * N.to_nat n + N.to_nat k)%nat by lia.
  apply concat_lookup_uniform; [|by rewrite list_lookup_fmap, Hd|lia].
  intros j l. rewrite list_lookup_fmap.
  destruct (data !! j) as [d'|] eqn:Hd'; [|done]. intros [= <-].
  specialize (Hlen (N.of_nat j) d'). rewrite Nat2N.id in Hlen.
  apply Hlen in Hd'. unfold vec_size in Hd'. lia.
Qed.
End FlatSlots.

(** X25.  For the store left by any sequence of [AddPaths] calls on a
    fresh store, with [n] the number of retained paths: the per-path
    arrays of the [ToPathData] record have [n] elements and its
    interaction arrays [maxNumInteractions * n]; and, provided the
    candidates that share an identity key have the same interaction count
    and [n] does not exceed 2^32, every interaction slot at or beyond the
    stored interaction count of a retained path holds the sentinel label
    and material. *)
Theorem ToPathData_dimensions_and_padding {ext : Externals}
    (maxNumIa : N) (txs rxs : list vec3.t) (calls : list Batch.t)
    (st st' : PathStorage) (data : PathData.t) :
  AddPaths_calls calls (PathStorage_new maxNumIa txs rxs) = Some st →
  ToPathData st = Some (data, st') →
  let n := N.of_nat (size (m_PathMap st)) in
  (vec_size (PathData.timeDelays data) = n
   ∧ vec_size (PathData.txIDs data) = n
   ∧ vec_size (PathData.rxIDs data) = n
   ∧ vec_size (PathData.pathTypes data) = n
   ∧ vec_size (PathData.numInteractions data) = n)
  ∧ (vec_size (PathData.interactions data) = maxNumIa * n
     ∧ vec_size (PathData.normals data) = maxNumIa * n
     ∧ vec_size (PathData.labels data) = maxNumIa * n
     ∧ vec_size (PathData.materials data) = maxNumIa * n)
  ∧ (counts_agree (all_candidates maxNumIa calls) → n ≤ uint32_modulus →
     ∀ k count ia,
       vec_at (PathData.numInteractions data) k = Some count →
       count ≤ ia → ia < maxNumIa →
       vec_at (PathData.labels data) (ia * n + k) = Some all_bits_set
       ∧ vec_at (PathData.materials data) (ia * n + k) = Some all_bits_set).
Proof.
  intros Hrun Hexport n.
  apply AddPaths_calls_export_ready in Hrun as [(_ & Haligned & Hcond) Hslots].
  rewrite ToPathData_eq in Hexport. injection Hexport as <- <-. simpl.
  destruct Haligned as (Hd & Htx & Hrx & Hty & Hni & Harrays). fold n in Harrays.
  split; [done|]. split.
  - rewrite <- Hslots. repeat split; apply flat_size; intros ia d Hdata;
      by destruct (Harrays ia d Hdata) as (? & ? & ? & ?).
  - intros Hagree Hbound k count ia Hk Hle Hia.
    destruct (Hcond Hagree Hbound) as [_ Hpad].
    assert (is_Some (vec_at (m_InteractionData st) ia)) as [d Hdata]
      by (apply vec_at_is_Some; lia).
    assert (k < n) by (unfold n; rewrite <- Hni; by eapply vec_at_Some).
    rewrite (flat_at InteractionData.labels _ n ia k d),
            (flat_at InteractionData.materials _ n ia k d); try done.
    + by eapply Hpad.
    + intros ia' d' Hd'. by destruct (Harrays ia' d' Hd') as (? & ? & ? & ?).
    + intros ia' d' Hd'. by destruct (Harrays ia' d' Hd') as (? & ? & ? & ?).
Qed.

Lemma ToPathData_dimensions_and_padding_witness :
  ∃ data,
    AddPaths_calls (ext := Sample.externals) [SampleStores.two_lengths]
      (PathStorage_new 2 Sample.tx1 Sample.rx1) = Some SampleStores.two_lengths_store
    ∧ ToPathData SampleStores.two_lengths_store
      = Some (data, SampleStores.two_lengths_store)
    ∧ N.of_nat (size (m_PathMap SampleStores.two_lengths_store)) = 2
    ∧ vec_size (PathData.labels data) = 2 * 2
    ∧ vec_at (PathData.numInteractions data) 0 = Some 1
    ∧ vec_at (PathData.labels data) (1 * 2 + 0) = Some all_bits_set
    ∧ vec_at (PathData.materials data) (1 * 2 + 0) = Some all_bits_set.
Proof.
  assert (Hrun : AddPaths_calls (ext := Sample.externals) [SampleStores.two_lengths]
                   (PathStorage_new 2 Sample.tx1 Sample.rx1)
                 = Some SampleStores.two_lengths_store) by (vm_compute; reflexivity).
  assert (Hagree : counts_agree
                     (all_candidates (ext := Sample.externals) 2
                        [SampleStores.two_lengths])).
  { intros key pathInfo pathInfo' Hin Hin'.
    apply list_elem_of_In in Hin, Hin'. vm_compute in Hin, Hin'.
    destruct Hin as [Hin|[Hin|[]]], Hin' as [Hin'|[Hin'|[]]]; congruence. }
  assert (Hsize : N.of_nat (size (m_PathMap SampleStores.two_lengths_store)) = 2)
    by (vm_compute; reflexivity).
  destruct (ToPathData SampleStores.two_lengths_store) as [[data st']|] eqn:Hexport;
    [|vm_compute in Hexport; discriminate].
  assert (st' = SampleStores.two_lengths_store) as ->.
  { rewrite ToPathData_eq in Hexport. by injection Hexport as _ <-. }
  exists data. split; [exact Hrun|]. split; [reflexivity|]. split; [exact Hsize|].
  destruct (ToPathData_dimensions_and_padding (ext := Sample.externals)
              2 Sample.tx1 Sample.rx1 [SampleStores.two_lengths]
              SampleStores.two_lengths_store SampleStores.two_lengths_store data
              Hrun Hexport) as (_ & (_ & _ & Hlabels & _) & Hpad).
  rewrite Hsize in Hlabels, Hpad.
  assert (Hcount : vec_at (PathData.numInteractions data) 0 = Some 1).
  { rewrite ToPathData_eq in Hexport. injection Hexport as <-. vm_compute. reflexivity. }
  split; [exact Hlabels|]. split; [exact Hcount|].
  apply (Hpad Hagree ltac:(vm_compute; discriminate) 0 1 1 Hcount); lia.
Defined.

(** X26.  The padding needs the agreement of the interaction counts:
    whenever folding a label into the seed of a link and type gives the
    seed back, a path with that one interaction and the path without
    interaction have one identity key, and when the second comes later
    with a strictly lower delay the retained path has interaction count 0
    and keeps the label and material of the first in its interaction
    slot 0 of the [ToPathData] record. *)
Theorem stale_slot_on_collision {ext : Externals}
    (tx rx p n p' n' : vec3.t) (label material label' material' : N)
    (ty : PathType.t) (d1 d2 : spec_float) :
  CombineHash (CalculateHash 0 0 ty) label = CalculateHash 0 0 ty →
  SFltb d2 d1 = true →
  let b := {| Batch.numPaths := 2;
              Batch.pathInfos := [PathInfo.mk 0 0 ty 1 d1; PathInfo.mk 0 0 ty 0 d2];
              Batch.interactions := [p; p'];
              Batch.normals := [n; n'];
              Batch.labels := [label; label'];
              Batch.materials := [material; material'] |} in
  ∃ st data,
    AddPaths_calls [b] (PathStorage_new 1 [tx] [rx]) = Some st
    ∧ ToPathData st = Some (data, st)
    ∧ vec_at (PathData.numInteractions data) 0 = Some 0
    ∧ vec_at (PathData.labels data) 0 = Some label
    ∧ vec_at (PathData.materials data) 0 = Some material.
Proof.
  intros Hcollide Hlower b.
  assert (Hfirst : ∃ st1,
            AddPath (Batch.pathInfos b) (Batch.interactions b) (Batch.normals b)
              (Batch.labels b) (Batch.materials b) 0 (PathStorage_new 1 [tx] [rx])
            = Some st1
            ∧ m_PathMap st1 = <[CalculateHash 0 0 ty := PathEntry.mk d1 0]> ∅
            ∧ m_InteractionData st1 = [InteractionData.mk [p] [n] [label] [material]]
            ∧ m_TimeDelays st1 = [d1] ∧ m_NumInteractions st1 = [1]).
  { unfold AddPath, GetPathHash.
    change (vec_at (Batch.pathInfos b) 0) with (Some (PathInfo.mk 0 0 ty 1 d1)).
    simpl. unfold for_upto. simpl.
    change (vec_at (Batch.labels b) _) with (Some label). simpl.
    rewrite Hcollide, lookup_empty.
    eexists. split; [reflexivity|]. simpl. by rewrite map_size_empty. }
  destruct Hfirst as (st1 & Hst1 & Hmap & Hdata & Hdelays & Hcounts).
  assert (Hsecond : ∃ st2,
            AddPath (Batch.pathInfos b) (Batch.interactions b) (Batch.normals b)
              (Batch.labels b) (Batch.materials b) 1 st1 = Some st2
            ∧ m_InteractionData st2 = [InteractionData.mk [p] [n] [label] [material]]
            ∧ m_NumInteractions st2 = [0]).
  { unfold AddPath, GetPathHash.
    change (vec_at (Batch.pathInfos b) 1) with (Some (PathInfo.mk 0 0 ty 0 d2)).
    simpl. unfold for_upto. simpl.
    rewrite Hmap, lookup_insert_eq. unfold fgt. simpl. rewrite Hlower. simpl.
    rewrite Hdelays, Hcounts, Hdata. simpl.
    eexists. split; [reflexivity|]. done. }
  destruct Hsecond as (st2 & Hst2 & Hdata2 & Hcounts2).
  exists st2. eexists. split; [|split; [apply ToPathData_eq|]].
  - unfold AddPaths_calls, AddPaths_call, AddPaths, for_upto.
    change (N.to_nat (Batch.numPaths b)) with 2%nat. unfold for_loop.
    rewrite Hst1. cbn [mbind option_bind]. change (N.succ 0) with 1.
    rewrite Hst2. reflexivity.
  - simpl. rewrite Hdata2, Hcounts2. done.
Qed.

Lemma stale_slot_on_collision_witness :
  ∃ st data,
    AddPaths_calls (ext := Sample.externals) [Sample.colliding_pair]
      (PathStorage_new 1 Sample.tx1 Sample.rx1) = Some st
    ∧ ToPathData st = Some (data, st)
    ∧ vec_at (PathData.numInteractions data) 0 = Some 0
    ∧ vec_at (PathData.labels data) 0 = Some 0
    ∧ vec_at (PathData.materials data) 0 = Some 4.
Proof.
  apply (stale_slot_on_collision (ext := Sample.externals)
           (Sample.point 1 1 1) (Sample.point 9 1 1) (Sample.point 5 1 1)
           (Sample.point 1 1 2) (Sample.point 5 2 1) (Sample.point 1 1 2) 0 4 0 4
           PathType.LineOfSight (Sample.f64 3) (Sample.f64 2));
    vm_compute; reflexivity.
Defined.

(** ** AddPaths: the path-count table *)

Lemma SionnaPathType_eqb_eq (a b : SionnaPathType.t) :
  SionnaPathType.eqb a b = true ↔ a = b.
Proof. by destruct a, b. Qed.

Lemma SionnaPathType_eqb_refl (a : SionnaPathType.t) : SionnaPathType.eqb a a = true.
Proof. by destruct a. Qed.

Lemma PerType_get_set {A} (a : PerType.t A) (ty ty' : SionnaPathType.t) (v : A) :
  PerType.get (PerType.set a ty v) ty'
  = if SionnaPathType.eqb ty ty' then v else PerType.get a ty'.
Proof. by destruct ty, ty'. Qed.

Lemma count_if_app {A} (f : A → bool) (l1 l2 : list A) :
  count_if f (l1 ++ l2) = count_if f l1 + count_if f l2.
Proof. induction l1 as [|x l1 IH]; simpl; [done|]. rewrite IH. lia. Qed.

Lemma count_if_le_length {A} (f : A → bool) (l : list A) :
  count_if f l ≤ vec_size l.
Proof.
  unfold vec_size. induction l as [|x l IH]; simpl; [done|].
  destruct (f x); lia.
Qed.

Lemma count_if_ext {A} (f g : A → bool) (l : list A) :
  (∀ x, x ∈ l → f x = g x) → count_if f l = count_if g l.
Proof.
  induction l as [|x l IH]; intros Hfg; simpl; [done|].
  rewrite (Hfg x), IH; [done| |]; set_solver.
Qed.

Lemma path_rows_size (st : PathStorage) :
  aligned st → vec_size (path_rows st) = N.of_nat (size (m_PathMap st)).
Proof.
  intros (_ & Htx & Hrx & Hty & _). unfold path_rows, vec_size in *.
  rewrite length_zip_with, length_zip. lia.
Qed.

Lemma path_rows_emplace_back (st : PathStorage) txs rxs tys txID rxID ty :
  vec_size txs = vec_size rxs → vec_size txs = vec_size tys →
  zip_with (λ (ids : N * N) ty, (ids.1, ids.2, GetSionnaPathType ty))
    (zip (emplace_back txs txID) (emplace_back rxs rxID)) (emplace_back tys ty)
  = zip_with (λ (ids : N * N) ty, (ids.1, ids.2, GetSionnaPathType ty))
      (zip txs rxs) tys ++ [(txID, rxID, GetSionnaPathType ty)].
Proof.
  unfold vec_size, emplace_back. intros Hrx Hty.
  rewrite (zip_with_app pair) by lia. rewrite zip_with_app; [done|].
  rewrite length_zip_with. lia.
Qed.

Section Counts.
Context {ext : Externals}.

Lemma counted_step b pathIndex st hash pathInfo st' :
  aligned st →
  N.of_nat (size (m_PathMap st')) ≤ counter_max →
  counted st →
  AddPath_outcome b pathIndex st hash pathInfo st' →
  counted st'.
Proof.
  intros Haligned Hbound [Htable Hmax]
    [data counts pathCounts Hnew _ Hcounts Hset ->
    |old data timeDelays numInteractions Hold _ _ _ _ ->
    |old _ _ ->]; [|done..].
  simpl in Hbound. rewrite map_size_insert_None in Hbound by done.
  pose proof (path_rows_size st Haligned) as Hrows.
  destruct Haligned as (_ & Htx & Hrx & Hty & _).
  unfold counted, path_rows. simpl.
  rewrite (path_rows_emplace_back st) by congruence.
  fold (path_rows st).
  set (numTx := vec_size (m_Transmitters st)) in *.
  set (cls := GetSionnaPathType (PathInfo.pathType pathInfo)) in *.
  set (link := PathInfo.rxID pathInfo * numTx + PathInfo.txID pathInfo) in *.
  assert (Hcount : PerType.get counts cls
                   = count_if (at_index numTx link cls) (path_rows st))
    by (by apply Htable).
  assert (Hincr : counter_incr (PerType.get counts cls) = PerType.get counts cls + 1).
  { unfold counter_incr.
    pose proof (count_if_le_length (at_index numTx link cls) (path_rows st)).
    destruct (N.eqb_spec (PerType.get counts cls) counter_max); lia. }
  rewrite Hincr in *.
  assert (Hnew_row : ∀ link' c,
            count_if (at_index numTx link' c) (path_rows st ++ [(PathInfo.txID pathInfo,
                        PathInfo.rxID pathInfo, cls)])
            = count_if (at_index numTx link' c) (path_rows st)
              + (if (link =? link') && SionnaPathType.eqb cls c then 1 else 0)).
  { intros link' c. rewrite count_if_app. simpl. unfold at_index at 2. simpl.
    fold link. lia. }
  split.
  - intros link' counts' c Hcounts'. rewrite Hnew_row.
    destruct (N.eqb_spec link link') as [<-|Hne]; simpl.
    + rewrite (vec_set_at_same _ _ _ _ Hset) in Hcounts'. injection Hcounts' as <-.
      rewrite PerType_get_set.
      destruct (SionnaPathType.eqb cls c) eqn:Hc.
      * apply SionnaPathType_eqb_eq in Hc as <-. lia.
      * rewrite (Htable link counts c Hcounts). lia.
    + rewrite (vec_set_at_other _ _ _ _ _ Hset Hne) in Hcounts'.
      rewrite (Htable link' counts' c Hcounts'). lia.
  - intros link' c. rewrite Hnew_row, PerType_get_set.
    pose proof (Hmax link' c) as Hle.
    destruct (SionnaPathType.eqb cls c) eqn:Hc.
    + apply SionnaPathType_eqb_eq in Hc as <-.
      destruct (N.eqb_spec link link') as [<-|Hne]; simpl; lia.
    + rewrite andb_false_r. lia.
Qed.

Lemma dense_ready_step st b pathIndex hash pathInfo st' :
  dense_ready st →
  AddPath_outcome b pathIndex st hash pathInfo st' →
  dense_ready st'.
Proof.
  intros [Haligned Hcond] Hout. split; [by eapply aligned_step|].
  intros Hbound. pose proof (retained_count_step _ _ _ _ _ _ Hout) as Hmono.
  eapply counted_step; [done..| |done]. apply Hcond. lia.
Qed.

Lemma dense_ready_fresh maxNumIa (txs rxs : list vec3.t) :
  dense_ready (PathStorage_new maxNumIa txs rxs).
Proof.
  destruct (export_ready_fresh maxNumIa txs rxs) as (_ & Haligned & _).
  split; [done|]. intros _. split.
  - intros link counts c Hcounts. unfold vec_at in Hcounts. simpl in Hcounts.
    apply lookup_replicate in Hcounts as [-> _]. by destruct c.
  - intros link c. simpl. lia.
Qed.

Lemma AddPaths_calls_dense_ready maxNumIa (txs rxs : list vec3.t) calls st :
  AddPaths_calls calls (PathStorage_new maxNumIa txs rxs) = Some st →
  dense_ready st
  ∧ vec_size (m_InteractionData st) = maxNumIa
  ∧ m_Transmitters st = txs ∧ m_Receivers st = rxs
  ∧ m_MaxNumInteractions st = maxNumIa.
Proof.
  intros Hrun.
  pose (P := λ (_ : list (N * PathInfo.t)) (cur : PathStorage),
          dense_ready cur ∧ m_Transmitters cur = txs ∧ m_Receivers cur = rxs
          ∧ m_MaxNumInteractions cur = maxNumIa).
  eapply (AddPaths_calls_invariant P maxNumIa) with (cs0 := []) in Hrun
    as [(Hready & Htx & Hrx & Hmax) Hslots]; [done| | |].
  - intros cs cur b pathIndex hash pathInfo cur' _ (Hready & Htx & Hrx & Hmax) _ Hout.
    destruct (AddPath_outcome_frame _ _ _ _ _ _ Hout) as (_ & Ht & Hr & Hm).
    split; [by eapply dense_ready_step|]. by rewrite Ht, Hr, Hm.
  - apply PathStorage_new_slots.
  - split; [apply dense_ready_fresh|done].
Qed.
End Counts.

(** ** ToSionnaPathData: one path *)

Section DenseStep.
Context {ext : Externals}.

Lemma export_interaction_loop st pathIndex tx rx numInteractions stride
    rxOffset txOffset pathOffset n (p p' : SionnaPaths.t) :
  for_upto n
    (export_interaction st pathIndex tx rx numInteractions stride
       rxOffset txOffset pathOffset) p = Some p' →
  SionnaPaths.mask p' = SionnaPaths.mask p
  ∧ SionnaPaths.kTx p' = SionnaPaths.kTx p
  ∧ SionnaPaths.kRx p' = SionnaPaths.kRx p
  ∧ vec_size (SionnaPaths.incidentRays p') = vec_size (SionnaPaths.incidentRays p)
  ∧ ∀ q, (∀ ia, ia < n → q ≠ ia * stride + rxOffset + txOffset + pathOffset) →
         vec_at (SionnaPaths.incidentRays p') q = vec_at (SionnaPaths.incidentRays p) q.
Proof.
  intros Hloop.
  pose (P := λ (j : N) (cur : SionnaPaths.t),
          SionnaPaths.mask cur = SionnaPaths.mask p
          ∧ SionnaPaths.kTx cur = SionnaPaths.kTx p
          ∧ SionnaPaths.kRx cur = SionnaPaths.kRx p
          ∧ vec_size (SionnaPaths.incidentRays cur)
            = vec_size (SionnaPaths.incidentRays p)
          ∧ ∀ q, (∀ ia, ia < j → q ≠ ia * stride + rxOffset + txOffset + pathOffset) →
                 vec_at (SionnaPaths.incidentRays cur) q
                 = vec_at (SionnaPaths.incidentRays p) q).
  eapply (for_upto_invariant P); [| |exact Hloop].
  - unfold P. by repeat split.
  - intros j cur cur' Hj (Hmask & Hktx & Hkrx & Hsize & Hrays) Hbody.
    unfold export_interaction in Hbody. cbv zeta in Hbody.
    bind_inv Hbody. injection Hbody as <-.
    unfold P. simpl. split; [done|]. split; [done|]. split; [done|].
    match goal with
    | Hset : vec_set (SionnaPaths.incidentRays cur) _ _ = Some _ |- _ =>
        pose proof (vec_set_size _ _ _ _ Hset) as Hsize';
        pose proof (λ q, vec_set_at_other _ _ _ q _ Hset) as Hother
    end.
    split; [by rewrite Hsize'|]. intros q Hq. rewrite Hother.
    + apply Hrays. intros ia Hia. apply Hq. lia.
    + intros Heq. apply (Hq j); [lia|done].
Qed.

Lemma export_path_data_written st pathIndex tx rx numInteractions stride
    rxOffset txOffset pathOffset (p p' : SionnaPaths.t) :
  export_path_data st pathIndex tx rx numInteractions stride
    rxOffset txOffset pathOffset p = Some p' →
  vec_set (SionnaPaths.mask p) (txOffset + rxOffset + pathOffset) 1
  = Some (SionnaPaths.mask p')
  ∧ ∃ ktx krx,
      vec_set (SionnaPaths.kTx p) (txOffset + rxOffset + pathOffset) ktx
      = Some (SionnaPaths.kTx p')
      ∧ vec_set (SionnaPaths.kRx p) (txOffset + rxOffset + pathOffset) krx
        = Some (SionnaPaths.kRx p')
      ∧ vec_set (SionnaPaths.incidentRays p)
          (numInteractions * stride + rxOffset + txOffset + pathOffset) (vec3.neg krx)
        = Some (SionnaPaths.incidentRays p')
      ∧ (numInteractions = 0 →
         ktx = normalize (vec3.sub rx tx) ∧ krx = normalize (vec3.sub tx rx)).
Proof.
  unfold export_path_data. cbv zeta. intros Hrun.
  destruct (vec_at (m_TimeDelays st) pathIndex) as [timeDelay|]; [|done].
  simpl in Hrun.
  destruct (vec_set (SionnaPaths.timeDelays p) _ _) as [timeDelays|]; [|done].
  simpl in Hrun.
  destruct (vec_set (SionnaPaths.totalDistance p) _ _) as [totalDistance|]; [|done].
  simpl in Hrun.
  destruct (vec_set (SionnaPaths.mask p) _ _) as [mask|] eqn:Hmask; [|done].
  simpl in Hrun.
  match type of Hrun with
  | mbind _ ?m = Some _ => destruct m as [ktx|] eqn:Hktx; [|done]
  end. simpl in Hrun.
  destruct (vec_set (SionnaPaths.kTx p) _ _) as [kTx|] eqn:HkTx; [|done].
  simpl in Hrun.
  match type of Hrun with
  | mbind _ ?m = Some _ => destruct m as [krx|] eqn:Hkrx; [|done]
  end. simpl in Hrun.
  destruct (vec_set (SionnaPaths.kRx p) _ _) as [kRx|] eqn:HkRx; [|done].
  simpl in Hrun.
  rewrite (vec_set_at_same _ _ _ _ HkRx) in Hrun. simpl in Hrun.
  destruct (vec_set (SionnaPaths.incidentRays p) _ _) as [incidentRays|] eqn:Hrays;
    [|done].
  simpl in Hrun.
  rewrite (vec_set_at_same _ _ _ _ HkTx) in Hrun. simpl in Hrun.
  bind_inv Hrun. injection Hrun as <-. simpl.
  split; [done|]. exists ktx, krx.
  split; [done|]. split; [done|]. split; [done|].
  intros ->. simpl in Hktx, Hkrx. by simplify_eq.
Qed.
End DenseStep.

Section DensePath.
Context {ext : Externals}.

Lemma export_path_step j st out st' out' :
  export_path j (st, out) = Some (st', out') →
  ∃ ty txID rxID tx rx numInteractions counts p',
    vec_at (m_PathTypes st) j = Some ty
    ∧ vec_at (m_TxIDs st) j = Some txID
    ∧ vec_at (m_RxIDs st) j = Some rxID
    ∧ vec_at (m_Transmitters st) txID = Some tx
    ∧ vec_at (m_Receivers st) rxID = Some rx
    ∧ vec_at (m_NumInteractions st) j = Some numInteractions
    ∧ vec_at (m_PathCounts st) (rxID * vec_size (m_Transmitters st) + txID) = Some counts
    ∧ vec_set (m_PathCounts st) (rxID * vec_size (m_Transmitters st) + txID)
        (PerType.set counts (GetSionnaPathType ty)
           (counter_decr (PerType.get counts (GetSionnaPathType ty))))
      = Some (m_PathCounts st')
    ∧ same_but_counts st st'
    ∧ SionnaPathData.paths out'
      = PerType.set (SionnaPathData.paths out) (GetSionnaPathType ty) p'
    ∧ path_written (m_MaxNumInteractions st)
        (vec_size (m_Receivers st) * vec_size (m_Transmitters st)
         * PerType.get (m_MaxLinkPaths st) (GetSionnaPathType ty))
        (txID * PerType.get (m_MaxLinkPaths st) (GetSionnaPathType ty)
         + rxID * vec_size (m_Transmitters st)
           * PerType.get (m_MaxLinkPaths st) (GetSionnaPathType ty)
         + counter_decr (PerType.get counts (GetSionnaPathType ty)))
        numInteractions tx rx
        (PerType.get (SionnaPathData.paths out) (GetSionnaPathType ty)) p'.
Proof.
  unfold export_path. cbv zeta. intros Hrun.
  destruct (vec_at (m_PathTypes st) j) as [ty|] eqn:Hty; [|done]. simpl in Hrun.
  destruct (vec_at (m_TxIDs st) j) as [txID|] eqn:HtxID; [|done]. simpl in Hrun.
  destruct (vec_at (m_RxIDs st) j) as [rxID|] eqn:HrxID; [|done]. simpl in Hrun.
  destruct (vec_at (m_Transmitters st) txID) as [tx|] eqn:Htx; [|done].
  simpl in Hrun.
  destruct (vec_at (m_Receivers st) rxID) as [rx|] eqn:Hrx; [|done]. simpl in Hrun.
  destruct (vec_at (m_NumInteractions st) j) as [numInteractions|] eqn:Hni; [|done].
  simpl in Hrun.
  destruct (vec_at (m_PathCounts st) _) as [counts|] eqn:Hat; [|done].
  simpl in Hrun.
  destruct (vec_set (m_PathCounts st) _ _) as [pathCounts|] eqn:Hcounts; [|done].
  simpl in Hrun.
  destruct (for_upto _ _ _) as [p1|] eqn:Hloop; [|done]. simpl in Hrun.
  destruct (export_path_data _ _ _ _ _ _ _ _ _ _) as [p'|] eqn:Hdata; [|done].
  simpl in Hrun. injection Hrun as <- <-. simpl.
  exists ty, txID, rxID, tx, rx, numInteractions, counts, p'.
  do 8 (split; [done|]). split; [by repeat split|]. split; [done|].
  apply export_interaction_loop in Hloop as (Hmask & HkTx & HkRx & Hsize & Hframe).
  apply export_path_data_written in Hdata
    as (Hmask' & ktx & krx & HkTx' & HkRx' & Hrays & Hlos).
  rewrite Hmask in Hmask'. rewrite HkTx in HkTx'. rewrite HkRx in HkRx'.
  split; [done|]. exists ktx, krx.
  split; [done|]. split; [done|]. split; [|split; [|done]].
  - rewrite <- (vec_set_at_same _ _ _ _ Hrays). f_equal. lia.
  - intros q Hq Hq'.
    rewrite (vec_set_at_other _ _ _ q _ Hrays) by lia.
    apply Hframe. intros ia Hia. specialize (Hq ia Hia). lia.
Qed.
End DensePath.

(** ** Rows, counts and write indices *)

Lemma path_rows_at (st : PathStorage) k txID rxID ty :
  vec_at (m_TxIDs st) k = Some txID → vec_at (m_RxIDs st) k = Some rxID →
  vec_at (m_PathTypes st) k = Some ty →
  vec_at (path_rows st) k = Some (txID, rxID, GetSionnaPathType ty).
Proof.
  unfold vec_at, path_rows. intros Htx Hrx Hty.
  apply lookup_zip_with_Some. exists (txID, rxID), ty. split; [done|].
  split; [|done]. apply lookup_zip_with_Some. by exists txID, rxID.
Qed.

Lemma path_rows_at_inv (st : PathStorage) k row :
  vec_at (path_rows st) k = Some row →
  ∃ ty, vec_at (m_TxIDs st) k = Some row.1.1 ∧ vec_at (m_RxIDs st) k = Some row.1.2
        ∧ vec_at (m_PathTypes st) k = Some ty ∧ row.2 = GetSionnaPathType ty.
Proof.
  unfold vec_at, path_rows. intros Hrow.
  apply lookup_zip_with_Some in Hrow as (ids & ty & -> & Hids & Hty).
  apply lookup_zip_with_Some in Hids as (txID & rxID & -> & Htx & Hrx).
  by exists ty.
Qed.

Lemma count_if_drop {A} (f : A → bool) (l : list A) (k : nat) x :
  l !! k = Some x →
  count_if f (drop k l) = (if f x then 1 else 0) + count_if f (drop (Datatypes.S k) l).
Proof. intros Hx. by rewrite (drop_S l x k Hx). Qed.

Lemma count_if_drop_le {A} (f : A → bool) (l : list A) (k : nat) :
  count_if f (drop k l) ≤ count_if f l.
Proof.
  rewrite <- (take_drop k l) at 2. rewrite count_if_app. lia.
Qed.

Lemma count_if_drop_mono {A} (f : A → bool) (l : list A) (k j : nat) :
  (k ≤ j)%nat → count_if f (drop j l) ≤ count_if f (drop k l).
Proof.
  intros Hkj. replace j with (k + (j - k))%nat by lia.
  rewrite <- drop_drop. apply count_if_drop_le.
Qed.

(** A later row of the same kind makes the count after row [k] exceed
    the count after that row. *)
Lemma count_if_drop_lt {A} (f : A → bool) (l : list A) (k j : nat) x :
  (k < j)%nat → l !! j = Some x → f x = true →
  count_if f (drop (Datatypes.S j) l) < count_if f (drop (Datatypes.S k) l).
Proof.
  intros Hkj Hx Hf.
  pose proof (count_if_drop_mono f l (Datatypes.S k) j ltac:(lia)) as Hmono.
  rewrite (count_if_drop f l j x Hx), Hf in Hmono. lia.
Qed.

(** Among the rows of a kind, every number below their count is the
    number of later rows of that kind for one of them. *)
Lemma count_if_slot_exists {A} (f : A → bool) (l : list A) (s : N) :
  s < count_if f l →
  ∃ k x, l !! k = Some x ∧ f x = true ∧ count_if f (drop (Datatypes.S k) l) = s.
Proof.
  induction l as [|y l IH]; simpl; [lia|].
  destruct (f y) eqn:Hy; intros Hs.
  2: { destruct (IH ltac:(lia)) as (k & x & Hx & Hf & Hcount).
       by exists (Datatypes.S k), x. }
  destruct (decide (s < count_if f l)) as [Hlt|Hge].
  - destruct (IH Hlt) as (k & x & Hx & Hf & Hcount).
    by exists (Datatypes.S k), x.
  - exists 0%nat, y. simpl. rewrite drop_0.
    split; [done|]. split; [done|]. lia.
Qed.

Lemma entry_slot_unique (maxLinkPaths a b s s' : N) :
  s < maxLinkPaths → s' < maxLinkPaths →
  a * maxLinkPaths + s = b * maxLinkPaths + s' → a = b ∧ s = s'.
Proof.
  intros Hs Hs' Heq. apply (N.div_mod_unique maxLinkPaths); [done..|].
  by rewrite !(N.mul_comm maxLinkPaths).
Qed.

Lemma at_index_on_link numTx txID rxID c (row : N * N * SionnaPathType.t) :
  txID < numTx → row.1.1 < numTx →
  at_index numTx (rxID * numTx + txID) c row = on_link txID rxID c row.
Proof.
  intros Htx Hrow. unfold at_index, on_link. f_equal.
  destruct (N.eqb_spec (row.1.2 * numTx + row.1.1) (rxID * numTx + txID)) as [Heq|Hne].
  - apply entry_slot_unique in Heq as [-> ->]; [|done..].
    by rewrite !N.eqb_refl.
  - destruct (N.eqb_spec row.1.1 txID) as [Htx'|]; [|done].
    destruct (N.eqb_spec row.1.2 rxID) as [Hrx'|]; [|done].
    destruct Hne. by rewrite Htx', Hrx'.
Qed.

(** A write index splits into the table entry of the row and its slot. *)
Lemma write_index_split (numTx numRx maxLinkPaths txID rxID slot : N) :
  txID < numTx → rxID < numRx → slot < maxLinkPaths →
  txID * maxLinkPaths + rxID * numTx * maxLinkPaths + slot
  = (rxID * numTx + txID) * maxLinkPaths + slot
  ∧ txID * maxLinkPaths + rxID * numTx * maxLinkPaths + slot
    < numRx * numTx * maxLinkPaths.
Proof.
  intros Htx Hrx Hslot. split; [lia|].
  assert (rxID * numTx + txID + 1 ≤ numRx * numTx) as Hlink by nia.
  assert ((rxID * numTx + txID + 1) * maxLinkPaths ≤ numRx * numTx * maxLinkPaths)
    by (by apply N.mul_le_mono_r).
  lia.
Qed.

Lemma at_index_self (numTx : N) (row : N * N * SionnaPathType.t) :
  at_index numTx (row.1.2 * numTx + row.1.1) row.2 row = true.
Proof. unfold at_index. by rewrite N.eqb_refl, SionnaPathType_eqb_refl. Qed.

Lemma index_at_split (st0 : PathStorage) k row :
  counted st0 → vec_at (path_rows st0) k = Some row →
  row.1.1 < (vec_size (m_Transmitters st0)) → row.1.2 < (vec_size (m_Receivers st0)) →
  slot_at (vec_size (m_Transmitters st0)) (path_rows st0) k < PerType.get (m_MaxLinkPaths st0) row.2
  ∧ index_at (vec_size (m_Transmitters st0)) (m_MaxLinkPaths st0) (path_rows st0) k
    = (row.1.2 * (vec_size (m_Transmitters st0)) + row.1.1) * PerType.get (m_MaxLinkPaths st0) row.2
      + slot_at (vec_size (m_Transmitters st0)) (path_rows st0) k
  ∧ index_at (vec_size (m_Transmitters st0)) (m_MaxLinkPaths st0) (path_rows st0) k
    < (vec_size (m_Receivers st0)) * (vec_size (m_Transmitters st0)) * PerType.get (m_MaxLinkPaths st0) row.2.
Proof.
  intros [_ Hmax] Hrow Htx Hrx.
  assert (Hslot : slot_at (vec_size (m_Transmitters st0)) (path_rows st0) k < PerType.get (m_MaxLinkPaths st0) row.2).
  { unfold slot_at. rewrite Hrow.
    pose proof (Hmax (row.1.2 * (vec_size (m_Transmitters st0)) + row.1.1) row.2) as Hle.
    pose proof (count_if_drop_le
                  (at_index (vec_size (m_Transmitters st0)) (row.1.2 * (vec_size (m_Transmitters st0)) + row.1.1) row.2) (path_rows st0) (N.to_nat k))
      as Hdrop.
    rewrite (count_if_drop _ (path_rows st0) (N.to_nat k) row Hrow), at_index_self in Hdrop.
    lia. }
  split; [done|]. unfold index_at. rewrite Hrow.
  by apply write_index_split.
Qed.

Lemma index_at_injective (st0 : PathStorage) k j row row' :
  counted st0 → k < j →
  vec_at (path_rows st0) k = Some row → vec_at (path_rows st0) j = Some row' → row.2 = row'.2 →
  row.1.1 < (vec_size (m_Transmitters st0)) → row.1.2 < (vec_size (m_Receivers st0)) → row'.1.1 < (vec_size (m_Transmitters st0)) → row'.1.2 < (vec_size (m_Receivers st0)) →
  index_at (vec_size (m_Transmitters st0)) (m_MaxLinkPaths st0) (path_rows st0) k
  ≠ index_at (vec_size (m_Transmitters st0)) (m_MaxLinkPaths st0) (path_rows st0) j.
Proof.
  intros Hcounted Hkj Hrow Hrow' Hclass Htx Hrx Htx' Hrx' Heq.
  destruct (index_at_split st0 k row Hcounted Hrow Htx Hrx) as (Hslot & Hsplit & _).
  destruct (index_at_split st0 j row' Hcounted Hrow' Htx' Hrx') as (Hslot' & Hsplit' & _).
  rewrite Hsplit, Hsplit', <- Hclass in Heq. rewrite <- Hclass in Hslot'.
  apply entry_slot_unique in Heq as [Hlink Hslots]; [|done..].
  unfold slot_at in Hslots. rewrite Hrow, Hrow', <- Hlink, <- Hclass in Hslots.
  pose proof (count_if_drop_lt
                (at_index (vec_size (m_Transmitters st0)) (row.1.2 * (vec_size (m_Transmitters st0)) + row.1.1) row.2) (path_rows st0)
                (N.to_nat k) (N.to_nat j) row' ltac:(lia) Hrow') as Hlt.
  rewrite Hlink, Hclass, at_index_self in Hlt. specialize (Hlt eq_refl).
  rewrite <- Hlink, <- Hclass in Hlt. lia.
Qed.


Lemma slot_at_lt_count numTx (rows : list (N * N * SionnaPathType.t)) k row :
  vec_at rows k = Some row →
  slot_at numTx rows k
  < count_if (at_index numTx (row.1.2 * numTx + row.1.1) row.2) rows.
Proof.
  intros Hrow. unfold slot_at. rewrite Hrow.
  pose proof (count_if_drop_le
                (at_index numTx (row.1.2 * numTx + row.1.1) row.2) rows (N.to_nat k))
    as Hdrop.
  rewrite (count_if_drop _ rows (N.to_nat k) row Hrow) in Hdrop.
  unfold at_index at 1 in Hdrop.
  rewrite N.eqb_refl, SionnaPathType_eqb_refl in Hdrop. simpl in Hdrop. lia.
Qed.

Lemma at_index_true numTx link c (row : N * N * SionnaPathType.t) :
  at_index numTx link c row = true → row.1.2 * numTx + row.1.1 = link ∧ row.2 = c.
Proof.
  unfold at_index. intros [Hlink Hc]%andb_true_iff.
  split; [by apply N.eqb_eq|by apply SionnaPathType_eqb_eq].
Qed.

(** ** ToSionnaPathData: the loop invariant *)

Section DenseInvariant.
Context {ext : Externals}.

Lemma exported_step st0 j s s' :
  counted st0 → exported st0 j s → export_path j s = Some s' →
  exported st0 (j + 1) s'.
Proof.
  intros Hcounted Hexp Hrun. destruct s as [st out], s' as [st' out'].
  destruct Hexp as (Hsame & Htable & Hrange & Hone & Hdefault & Hlos).
  simpl in Hsame, Htable, Hone, Hdefault, Hlos.
  apply export_path_step in Hrun
    as (ty & txID & rxID & tx & rx & nI & counts & p' & Hty & HtxID & HrxID & Htx & Hrx
        & HnI & Hat & Hset & Hsame' & Hpaths & Hwritten).
  pose proof Hsame as (E1 & E2 & E3 & E4 & E5 & E6 & E7 & E8 & E9 & E10 & E11).
  rewrite E1, E3, E4, E5 in Hwritten.
  rewrite E3 in Hat, Hset, Htx. rewrite E4 in Hrx.
  rewrite E8 in HtxID. rewrite E9 in HrxID. rewrite E10 in Hty. rewrite E11 in HnI.
  set (numTx := vec_size (m_Transmitters st0)) in *.
  set (numRx := vec_size (m_Receivers st0)) in *.
  set (rows := path_rows st0) in *.
  set (cls := GetSionnaPathType ty) in *.
  set (maxLinkPaths := PerType.get (m_MaxLinkPaths st0) cls) in *.
  assert (Hrow : vec_at rows j = Some (txID, rxID, cls)) by (by apply path_rows_at).
  assert (HtxR : txID < numTx) by (by eapply vec_at_Some).
  assert (HrxR : rxID < numRx) by (by eapply vec_at_Some).
  assert (Hcount : PerType.get counts cls = 1 + slot_at numTx rows j).
  { rewrite (Htable _ _ _ Hat), (count_if_drop _ rows (N.to_nat j) _ Hrow).
    pose proof (at_index_self numTx (txID, rxID, cls)) as Hself.
    simpl in Hself. rewrite Hself.
    unfold slot_at. by rewrite Hrow. }
  assert (Hdecr : counter_decr (PerType.get counts cls) = slot_at numTx rows j).
  { unfold counter_decr. rewrite Hcount.
    destruct (N.eqb_spec (1 + slot_at numTx rows j) 0); lia. }
  rewrite Hdecr in Hset, Hwritten.
  assert (Hix : txID * maxLinkPaths + rxID * numTx * maxLinkPaths + slot_at numTx rows j
                = index_at numTx (m_MaxLinkPaths st0) rows j).
  { unfold index_at. by rewrite Hrow. }
  rewrite Hix in Hwritten.
  destruct (index_at_split st0 j _ Hcounted Hrow HtxR HrxR) as (_ & _ & Hbound).
  simpl in Hbound. fold numTx numRx rows cls maxLinkPaths in Hbound.
  destruct Hwritten as (Hmask & ktx & krx & HkTx & HkRx & Hray & Hframe & Hdirect).
  assert (Hget : ∀ c, PerType.get (SionnaPathData.paths out') c
                      = if SionnaPathType.eqb cls c then p'
                        else PerType.get (SionnaPathData.paths out) c).
  { intros c. rewrite Hpaths. apply PerType_get_set. }
  unfold exported. simpl. fold numTx numRx rows.
  split; [|split; [|split; [|split; [|split]]]].
  - (* the store *)
    destruct Hsame' as (F1 & F2 & F3 & F4 & F5 & F6 & F7 & F8 & F9 & F10 & F11).
    unfold same_but_counts. by rewrite F1, F2, F3, F4, F5, F6, F7, F8, F9, F10, F11.
  - (* the counters are the numbers of paths still to export *)
    intros link counts' c Hcounts'.
    replace (N.to_nat (j + 1)) with (Datatypes.S (N.to_nat j)) by lia.
    destruct (decide (rxID * numTx + txID = link)) as [<-|Hne].
    + rewrite (vec_set_at_same _ _ _ _ Hset) in Hcounts'. injection Hcounts' as <-.
      rewrite PerType_get_set.
      destruct (SionnaPathType.eqb cls c) eqn:Hc.
      * apply SionnaPathType_eqb_eq in Hc as <-. unfold slot_at. by rewrite Hrow.
      * rewrite (Htable _ _ c Hat), (count_if_drop _ rows (N.to_nat j) _ Hrow).
        unfold at_index at 1. simpl. rewrite Hc, andb_false_r. lia.
    + rewrite (vec_set_at_other _ _ _ _ _ Hset Hne) in Hcounts'.
      rewrite (Htable _ _ c Hcounts'), (count_if_drop _ rows (N.to_nat j) _ Hrow).
      unfold at_index at 1. simpl.
      destruct (N.eqb_spec (rxID * numTx + txID) link); [done|]. simpl. lia.
  - (* the endpoints of the exported paths exist *)
    intros k row Hk Hrowk. destruct (decide (k = j)) as [->|Hne].
    + rewrite Hrow in Hrowk. by injection Hrowk as <-.
    + apply (Hrange k); [lia|done].
  - (* their mask is set *)
    intros k row Hk Hrowk. rewrite Hget.
    destruct (decide (k = j)) as [->|Hne].
    + rewrite Hrow in Hrowk. injection Hrowk as <-. simpl.
      rewrite SionnaPathType_eqb_refl. by eapply vec_set_at_same.
    + destruct (SionnaPathType.eqb cls row.2) eqn:Hc; [|apply Hone; [lia|done]].
      apply SionnaPathType_eqb_eq in Hc.
      destruct (decide (index_at numTx (m_MaxLinkPaths st0) rows j
                        = index_at numTx (m_MaxLinkPaths st0) rows k)) as [Heq|Hneq].
      * rewrite <- Heq. by eapply vec_set_at_same.
      * rewrite (vec_set_at_other _ _ _ _ _ Hmask Hneq). rewrite Hc.
        apply Hone; [lia|done].
  - (* no other mask is *)
    intros c q Hq. rewrite Hget.
    destruct (SionnaPathType.eqb cls c) eqn:Hc.
    + apply SionnaPathType_eqb_eq in Hc. subst c.
      rewrite (vec_set_at_other _ _ _ q _ Hmask) by (by apply (Hq j _ ltac:(lia) Hrow)).
      apply Hdefault. intros k row Hk. apply Hq. lia.
    + apply Hdefault. intros k row Hk. apply Hq. lia.
  - (* the direct paths keep their directions *)
    intros k row tx' rx' Hk Hrowk Hzero Htx' Hrx'. rewrite Hget.
    destruct (decide (k = j)) as [->|Hne].
    + rewrite Hrow in Hrowk. injection Hrowk as <-. simpl in Htx', Hrx' |- *.
      rewrite SionnaPathType_eqb_refl.
      assert (nI = 0) as -> by congruence.
      assert (tx' = tx) as -> by congruence. assert (rx' = rx) as -> by congruence.
      destruct (Hdirect eq_refl) as [-> ->].
      split; [by eapply vec_set_at_same|]. split; [by eapply vec_set_at_same|].
      rewrite <- Hray. f_equal; lia.
    + destruct (SionnaPathType.eqb cls row.2) eqn:Hc;
        [|apply (Hlos k); [lia|done..]].
      apply SionnaPathType_eqb_eq in Hc.
      destruct (Hrange k row ltac:(lia) Hrowk) as [HtxRk HrxRk].
      assert (Hneq : index_at numTx (m_MaxLinkPaths st0) rows k
                     ≠ index_at numTx (m_MaxLinkPaths st0) rows j).
      { apply (index_at_injective st0 k j row (txID, rxID, cls)); try done; lia. }
      destruct (index_at_split st0 k row Hcounted Hrowk HtxRk HrxRk)
        as (_ & _ & Hboundk).
      fold numTx numRx rows in Hboundk. rewrite <- Hc in Hboundk.
      fold maxLinkPaths in Hboundk.
      destruct (Hlos k row tx' rx' ltac:(lia) Hrowk Hzero Htx' Hrx')
        as (Hk1 & Hk2 & Hk3). rewrite <- Hc in Hk1, Hk2, Hk3.
      rewrite (vec_set_at_other _ _ _ _ _ HkTx (not_eq_sym Hneq)).
      rewrite (vec_set_at_other _ _ _ _ _ HkRx (not_eq_sym Hneq)).
      split; [done|]. split; [done|].
      rewrite Hframe; [done| |].
      * intros ia Hia Heq. destruct (decide (ia = 0)) as [->|Hpos]; [lia|].
        assert (numRx * numTx * maxLinkPaths ≤ ia * (numRx * numTx * maxLinkPaths))
          by nia. lia.
      * intros Heq. destruct (decide (nI = 0)) as [->|Hpos]; [lia|].
        assert (numRx * numTx * maxLinkPaths ≤ nI * (numRx * numTx * maxLinkPaths))
          by nia. lia.
Qed.
End DenseInvariant.

Section DenseRun.
Context {ext : Externals}.

Lemma exported_start st0 :
  counted st0 →
  exported st0 0
    (st0, ReservePaths (m_Transmitters st0) (m_Receivers st0)
            (m_MaxNumInteractions st0) (m_MaxLinkPaths st0)).
Proof.
  intros [Htable _]. unfold exported. simpl.
  split; [by repeat split|]. split; [done|].
  split; [intros k row Hk; lia|]. split; [intros k row Hk; lia|].
  split; [|intros k row tx rx Hk; lia].
  intros c q _. by destruct c.
Qed.

(** The whole export: the invariant after all retained paths. *)
Lemma exported_end st0 out st' :
  counted st0 →
  vec_size (m_TxIDs st0) < uint32_modulus →
  ToSionnaPathData st0 = Some (out, st') →
  exported st0 (vec_size (m_TxIDs st0)) (st', out).
Proof.
  intros Hcounted Hsmall Hrun. unfold ToSionnaPathData in Hrun. cbv zeta in Hrun.
  destruct (for_upto _ _ _) as [[st1 out1]|] eqn:Hloop; [|done].
  simpl in Hrun. injection Hrun as <- <-.
  unfold to_uint32 in Hloop. rewrite N.mod_small in Hloop by done.
  eapply (for_upto_invariant (exported st0)); [| |exact Hloop].
  - by apply exported_start.
  - intros j s s' _ Hexp Hbody. by eapply exported_step.
Qed.
End DenseRun.

(** When every transmitter index of the rows exists, the slots and write
    indices counted by table entry are those counted by link. *)
Lemma slot_at_link_slot (st : PathStorage) k :
  (∀ i row, vec_at (path_rows st) i = Some row → row.1.1 < vec_size (m_Transmitters st)) →
  slot_at (vec_size (m_Transmitters st)) (path_rows st) k = link_slot st k.
Proof.
  intros Hrange. unfold slot_at, link_slot.
  destruct (vec_at (path_rows st) k) as [[[txID rxID] c]|] eqn:Hrow; [|done].
  simpl. apply count_if_ext. intros row Hin.
  apply list_elem_of_lookup in Hin as [i Hi]. rewrite lookup_drop in Hi.
  apply at_index_on_link.
  - apply (Hrange k _ Hrow).
  - apply (Hrange (N.of_nat (Datatypes.S (N.to_nat k) + i))).
    by rewrite vec_at_of_nat.
Qed.

Lemma index_at_write_index (st : PathStorage) k :
  (∀ i row, vec_at (path_rows st) i = Some row → row.1.1 < vec_size (m_Transmitters st)) →
  index_at (vec_size (m_Transmitters st)) (m_MaxLinkPaths st) (path_rows st) k
  = write_index st k.
Proof.
  intros Hrange. unfold index_at, write_index.
  destruct (vec_at (path_rows st) k) as [[[txID rxID] c]|] eqn:Hrow; [|done].
  simpl. by rewrite slot_at_link_slot.
Qed.

Lemma link_count_at_index (st : PathStorage) txID rxID c :
  (∀ i row, vec_at (path_rows st) i = Some row → row.1.1 < vec_size (m_Transmitters st)) →
  txID < vec_size (m_Transmitters st) →
  count_if (at_index (vec_size (m_Transmitters st))
              (rxID * vec_size (m_Transmitters st) + txID) c) (path_rows st)
  = link_count st txID rxID c.
Proof.
  intros Hrange Htx. unfold link_count. apply count_if_ext. intros row Hin.
  apply list_elem_of_lookup in Hin as [i Hi].
  apply at_index_on_link; [done|].
  apply (Hrange (N.of_nat i)). by rewrite vec_at_of_nat.
Qed.

(** ** ToSionnaPathData: mask, counters and direct paths *)

Section DenseFacts.
Context {ext : Externals}.

(** What the dense export of a store built by [AddPaths] leaves. *)
Lemma ToSionnaPathData_exported maxNumIa (txs rxs : list vec3.t) calls st out st' :
  AddPaths_calls calls (PathStorage_new maxNumIa txs rxs) = Some st →
  N.of_nat (size (m_PathMap st)) < uint32_modulus →
  N.of_nat (size (m_PathMap st)) ≤ counter_max →
  ToSionnaPathData st = Some (out, st') →
  counted st
  ∧ m_Transmitters st = txs ∧ m_Receivers st = rxs
  ∧ vec_size (path_rows st) = N.of_nat (size (m_PathMap st))
  ∧ exported st (N.of_nat (size (m_PathMap st))) (st', out)
  ∧ (∀ i row, vec_at (path_rows st) i = Some row → row.1.1 < vec_size (m_Transmitters st)).
Proof.
  intros Hrun Hsmall Hcounters Hexport.
  apply AddPaths_calls_dense_ready in Hrun as ([Haligned Hcond] & _ & Htxs & Hrxs & _).
  pose proof (Hcond Hcounters) as Hcounted.
  pose proof (path_rows_size st Haligned) as Hrows.
  destruct Haligned as (_ & Hn & _).
  apply exported_end in Hexport; [|done|by rewrite Hn]. rewrite Hn in Hexport.
  split; [done|]. split; [done|]. split; [done|]. split; [done|]. split; [done|].
  intros i row Hrow. destruct Hexport as (_ & _ & Hrange & _).
  apply (Hrange i row); [|done]. rewrite <- Hrows. by eapply vec_at_Some.
Qed.
End DenseFacts.

(** C3 (amended).  After one complete run of [ToSionnaPathData] over a
    store built by [AddPaths] (fewer than 2^32 retained paths, no more than
    a path counter can hold), every per-link per-class counter is 0 and,
    for every class and link, the mask of the link-local slots below the
    number K of retained paths of that link and class is 1, and the mask
    of the slots from K up to the per-class maximum is 0: the K populated
    slots are the lowest ones, 0 to K-1. *)
Theorem ToSionnaPathData_mask_and_counters {ext : Externals}
    (maxNumIa : N) (txs rxs : list vec3.t) (calls : list Batch.t)
    (st st' : PathStorage) (out : SionnaPathData.t) :
  AddPaths_calls calls (PathStorage_new maxNumIa txs rxs) = Some st →
  N.of_nat (size (m_PathMap st)) < uint32_modulus →
  N.of_nat (size (m_PathMap st)) ≤ counter_max →
  ToSionnaPathData st = Some (out, st') →
  (∀ link counts c, vec_at (m_PathCounts st') link = Some counts →
     PerType.get counts c = 0)
  ∧ ∀ c txID rxID slot,
      txID < vec_size txs → rxID < vec_size rxs →
      slot < PerType.get (m_MaxLinkPaths st) c →
      vec_at (SionnaPaths.mask (PerType.get (SionnaPathData.paths out) c))
        (txID * PerType.get (m_MaxLinkPaths st) c
         + rxID * vec_size txs * PerType.get (m_MaxLinkPaths st) c + slot)
      = Some (if slot <? link_count st txID rxID c then 1 else 0).
Proof.
  intros Hrun Hsmall Hcounters Hexport.
  destruct (ToSionnaPathData_exported _ _ _ _ _ _ _ Hrun Hsmall Hcounters Hexport)
    as (Hcounted & Htxs & Hrxs & Hrows & Hexp & Hrange).
  destruct Hexp as (_ & Htable & Hrange' & Hone & Hdefault & _).
  simpl in Htable, Hone, Hdefault. rewrite Htxs, Hrxs in *.
  set (rows := path_rows st) in *. set (numTx := vec_size txs) in *.
  split.
  - intros link counts c Hcounts. rewrite (Htable _ _ c Hcounts).
    rewrite drop_ge; [done|]. unfold vec_size in Hrows. lia.
  - intros c txID rxID slot Htx Hrx Hslot.
    set (maxLinkPaths := PerType.get (m_MaxLinkPaths st) c) in *.
    destruct (write_index_split numTx (vec_size rxs) maxLinkPaths txID rxID slot
                Htx Hrx Hslot) as [Hsplit Hbound].
    pose proof (link_count_at_index st txID rxID c) as Hcount.
    rewrite Htxs in Hcount. specialize (Hcount Hrange Htx). fold rows numTx in Hcount.
    destruct (N.ltb_spec slot (link_count st txID rxID c)) as [Hlt|Hge].
    + (* a populated slot *)
      rewrite <- Hcount in Hlt.
      apply count_if_slot_exists in Hlt as (k & row & Hrow & Hat & Hafter).
      apply at_index_true in Hat as [Hlink Hc].
      rewrite <- vec_at_of_nat in Hrow.
      destruct (Hrange' (N.of_nat k) row) as [Htx' Hrx']; [|done|].
      { rewrite <- Hrows. by eapply vec_at_Some. }
      apply entry_slot_unique in Hlink as [Hrx'' Htx'']; [|done..].
      specialize (Hone (N.of_nat k) row). rewrite Hc in Hone.
      replace (index_at numTx (m_MaxLinkPaths st) rows (N.of_nat k))
        with (txID * maxLinkPaths + rxID * numTx * maxLinkPaths + slot) in Hone.
      * apply Hone; [|done]. rewrite <- Hrows. by eapply vec_at_Some.
      * unfold index_at, slot_at. rewrite Hrow, Nat2N.id, Htx'', Hrx'', Hc.
        fold maxLinkPaths. by rewrite Hafter.
    + (* a slot beyond the paths of the link *)
      rewrite (Hdefault c).
      * unfold reserve_class, vec_at. simpl. apply lookup_replicate_2.
        fold maxLinkPaths. lia.
      * intros k row Hk Hrow Hc Heq.
        destruct (Hrange' k row Hk Hrow) as [Htx' Hrx'].
        destruct (index_at_split st k row Hcounted) as (Hslot' & Hsplit' & _);
          [done|by rewrite Htxs|by rewrite Hrxs|].
        rewrite Htxs in Hslot', Hsplit'. fold rows numTx in Hslot', Hsplit'.
        rewrite Hc in Hslot', Hsplit'. fold maxLinkPaths in Hslot', Hsplit'.
        rewrite Hsplit', Hsplit in Heq.
        apply entry_slot_unique in Heq as [Hlink Hslots]; [|done..].
        pose proof (slot_at_lt_count numTx rows k row Hrow) as Hbelow.
        rewrite Hlink, Hc, Hcount in Hbelow. lia.
Qed.

Lemma ToSionnaPathData_mask_and_counters_witness :
  ∃ out st',
    ToSionnaPathData (ext := Sample.externals) Sample.dense_store = Some (out, st')
    ∧ vec_at (SionnaPaths.mask
                (PerType.get (SionnaPathData.paths out) SionnaPathType.Specular))
        (0 * PerType.get (m_MaxLinkPaths Sample.dense_store) SionnaPathType.Specular
         + 0 * vec_size Sample.tx1
           * PerType.get (m_MaxLinkPaths Sample.dense_store) SionnaPathType.Specular
         + 1)
      = Some (if 1 <? link_count Sample.dense_store 0 0 SionnaPathType.Specular
              then 1 else 0).
Proof.
  eexists _, _. split; [vm_compute; reflexivity|].
  eapply (ToSionnaPathData_mask_and_counters (ext := Sample.externals)
            1 Sample.tx1 Sample.rx2 [Sample.three_paths] Sample.dense_store);
    try (vm_compute; reflexivity).
  vm_compute. discriminate.
Defined.

(** C3 (counterexample).  One transmitter, two receivers; the link to
    receiver 0 holds two specular-class paths and the link to receiver 1
    one, so each link has two slots (indices 2 and 3 for the second link).
    After the export the one path of the second link is in its slot 0 and
    its highest slot holds 0. *)
Lemma ToSionnaPathData_highest_slot_empty :
  AddPaths_calls (ext := Sample.externals) [Sample.three_paths]
    (PathStorage_new 1 Sample.tx1 Sample.rx2) = Some Sample.dense_store
  ∧ PerType.get (m_MaxLinkPaths Sample.dense_store) SionnaPathType.Specular = 2
  ∧ link_count Sample.dense_store 0 1 SionnaPathType.Specular = 1
  ∧ ∃ out st',
      ToSionnaPathData (ext := Sample.externals) Sample.dense_store = Some (out, st')
      ∧ vec_at (SionnaPaths.mask
                  (PerType.get (SionnaPathData.paths out) SionnaPathType.Specular))
          (0 * 2 + 1 * 1 * 2 + 1) = Some 0
      ∧ vec_at (SionnaPaths.mask
                  (PerType.get (SionnaPathData.paths out) SionnaPathType.Specular))
          (0 * 2 + 1 * 1 * 2 + 0) = Some 1.
Proof.
  split; [vm_compute; reflexivity|]. split; [vm_compute; reflexivity|].
  split; [vm_compute; reflexivity|].
  eexists _, _. split; [vm_compute; reflexivity|].
  split; vm_compute; reflexivity.
Qed.

(** C7.  For a retained path without interactions, the complete dense
    export of a store built by [AddPaths] holds, at the per-path write
    index of that path in the arrays of its class, the departure vector
    normalize(rx - tx) and the arrival vector normalize(tx - rx), and at
    interaction slot 0 of the incident-ray array (offset 0 times the slot
    stride plus the write index) the negated arrival vector. *)
Theorem ToSionnaPathData_direct_path {ext : Externals}
    (maxNumIa : N) (txs rxs : list vec3.t) (calls : list Batch.t)
    (st st' : PathStorage) (out : SionnaPathData.t)
    (k txID rxID : N) (ty : PathType.t) (tx rx : vec3.t) :
  AddPaths_calls calls (PathStorage_new maxNumIa txs rxs) = Some st →
  N.of_nat (size (m_PathMap st)) < uint32_modulus →
  N.of_nat (size (m_PathMap st)) ≤ counter_max →
  ToSionnaPathData st = Some (out, st') →
  vec_at (m_TxIDs st) k = Some txID →
  vec_at (m_RxIDs st) k = Some rxID →
  vec_at (m_PathTypes st) k = Some ty →
  vec_at (m_NumInteractions st) k = Some 0 →
  vec_at txs txID = Some tx →
  vec_at rxs rxID = Some rx →
  let p := PerType.get (SionnaPathData.paths out) (GetSionnaPathType ty) in
  let stride := vec_size rxs * vec_size txs
                * PerType.get (m_MaxLinkPaths st) (GetSionnaPathType ty) in
  vec_at (SionnaPaths.kTx p) (write_index st k) = Some (normalize (vec3.sub rx tx))
  ∧ vec_at (SionnaPaths.kRx p) (write_index st k) = Some (normalize (vec3.sub tx rx))
  ∧ vec_at (SionnaPaths.incidentRays p) (0 * stride + write_index st k)
    = Some (vec3.neg (normalize (vec3.sub tx rx))).
Proof.
  intros Hrun Hsmall Hcounters Hexport HtxID HrxID Hty Hzero Htx Hrx p stride.
  destruct (ToSionnaPathData_exported _ _ _ _ _ _ _ Hrun Hsmall Hcounters Hexport)
    as (Hcounted & Htxs & Hrxs & Hrows & Hexp & Hrange).
  destruct Hexp as (_ & _ & _ & _ & _ & Hlos). simpl in Hlos.
  pose proof (path_rows_at st k txID rxID ty HtxID HrxID Hty) as Hrow.
  replace (0 * stride + write_index st k) with (write_index st k) by lia.
  rewrite <- (index_at_write_index st k Hrange).
  apply (Hlos k (txID, rxID, GetSionnaPathType ty) tx rx); try done.
  - rewrite <- Hrows. by eapply vec_at_Some.
  - by rewrite Htxs.
  - by rewrite Hrxs.
Qed.

Lemma ToSionnaPathData_direct_path_witness :
  ∃ out st',
    ToSionnaPathData (ext := Sample.externals) Sample.dense_store = Some (out, st')
    ∧ write_index Sample.dense_store 2 = 2
    ∧ vec_at (SionnaPaths.kTx
                (PerType.get (SionnaPathData.paths out) SionnaPathType.Specular))
        (write_index Sample.dense_store 2)
      = Some (Sample.glm_normalize
                (vec3.sub (Sample.point 9 5 1) (Sample.point 1 1 1))).
Proof.
  eexists _, _. split; [vm_compute; reflexivity|].
  split; [vm_compute; reflexivity|].
  eapply (ToSionnaPathData_direct_path (ext := Sample.externals)
            1 Sample.tx1 Sample.rx2 [Sample.three_paths] Sample.dense_store _ _
            2 0 1 PathType.LineOfSight);
    try (vm_compute; reflexivity).
  vm_compute. discriminate.
Defined.

(** ** ToSionnaPathData is defined on well-formed stores *)

Lemma to_int32_small (x : N) : x < 2 ^ 31 → to_int32 x = Z.of_N x.
Proof.
  intros Hx. unfold to_int32, to_uint32, uint32_modulus.
  rewrite N.mod_small by (change (2 ^ 32) with (2 * 2 ^ 31); lia).
  destruct (Z.ltb_spec (Z.of_N x) (2 ^ 31)) as [|Hge]; [done|].
  change (2 ^ 31)%Z with (Z.of_N (2 ^ 31)) in Hge. lia.
Qed.

Lemma slot_index_in_range (maxNumIa stride ia index : N) :
  ia < maxNumIa → index < stride → ia * stride + index < maxNumIa * stride.
Proof.
  intros Hia Hindex.
  assert ((ia + 1) * stride ≤ maxNumIa * stride) by (apply N.mul_le_mono_r; lia).
  lia.
Qed.

Lemma sized_reserve_class maxNumIa numRx numTx maxLinkPaths :
  sized maxNumIa (numRx * numTx * maxLinkPaths)
    (reserve_class maxNumIa numRx numTx maxLinkPaths).
Proof.
  unfold sized, reserve_class, vec_size. simpl. rewrite !length_replicate.
  repeat split; lia.
Qed.

Section DenseDefined.
Context {ext : Externals}.

Lemma export_interaction_defined st pathIndex tx rx numInteractions stride
    rxOffset txOffset pathOffset ia (p : SionnaPaths.t) :
  sized (m_MaxNumInteractions st) stride p →
  rxOffset + txOffset + pathOffset < stride →
  ia < m_MaxNumInteractions st →
  vec_size (m_InteractionData st) = m_MaxNumInteractions st →
  m_MaxNumInteractions st < 2 ^ 31 →
  numInteractions ≤ m_MaxNumInteractions st →
  (∀ ia d, vec_at (m_InteractionData st) ia = Some d →
     pathIndex < vec_size (InteractionData.interactions d)
     ∧ pathIndex < vec_size (InteractionData.normals d)
     ∧ pathIndex < vec_size (InteractionData.materials d)) →
  ∃ p', export_interaction st pathIndex tx rx numInteractions stride
          rxOffset txOffset pathOffset ia p = Some p'
        ∧ sized (m_MaxNumInteractions st) stride p'.
Proof.
  intros Hsized Hindex Hia Hslots Hsmall Hcount Hpath.
  pose proof Hsized
    as (S1 & S2 & S3 & S4 & S5 & S6 & S7 & S8 & S9 & S10 & S11 & S12 & S13 & S14).
  unfold export_interaction. cbv zeta.
  pose proof (slot_index_in_range (m_MaxNumInteractions st) stride ia
                (rxOffset + txOffset + pathOffset) Hia Hindex) as Hrange.
  replace (ia * stride + (rxOffset + txOffset + pathOffset))
    with (ia * stride + rxOffset + txOffset + pathOffset) in Hrange by lia.
  assert (Hread : ∀ i, i < m_MaxNumInteractions st →
            ∃ d point, vec_at (m_InteractionData st) i = Some d
                       ∧ vec_at (InteractionData.interactions d) pathIndex = Some point).
  { intros i Hi. destruct (vec_at_is_Some (m_InteractionData st) i) as [d Hd]; [lia|].
    destruct (Hpath i d Hd) as (Hp & _).
    destruct (vec_at_is_Some _ _ Hp) as [point Hpoint]. eauto. }
  destruct (Hread ia Hia) as (d & iaPoint & Hd & HiaPoint).
  rewrite Hd. simpl. rewrite HiaPoint. simpl.
  destruct (Hpath ia d Hd) as (_ & Hn & Hm).
  destruct (vec_at_is_Some _ _ Hn) as [normal ->].
  destruct (vec_at_is_Some _ _ Hm) as [material ->].
  rewrite vec_set_in_range by lia. simpl.
  rewrite vec_set_in_range by lia. simpl.
  rewrite vec_set_in_range by lia. simpl.
  assert (Hincident : ∃ incident,
            (if 0 <? ia
             then dPrev ← vec_at (m_InteractionData st) (ia - 1);
                  prev ← vec_at (InteractionData.interactions dPrev) pathIndex;
                  Some (normalize (vec3.sub iaPoint prev))
             else Some (normalize (vec3.sub iaPoint tx))) = Some incident).
  { destruct (0 <? ia); [|eauto].
    destruct (Hread (ia - 1)) as (dPrev & prev & -> & Hprev); [lia|].
    simpl. rewrite Hprev. simpl. eauto. }
  destruct Hincident as [incident ->]. simpl.
  rewrite vec_set_in_range by lia. simpl.
  assert (Hdeflected : ∃ deflected,
            (if (to_int32 ia <? to_int32 numInteractions - 1)%Z
             then dNext ← vec_at (m_InteractionData st) (ia + 1);
                  next ← vec_at (InteractionData.interactions dNext) pathIndex;
                  Some (normalize (vec3.sub next iaPoint))
             else Some (normalize (vec3.sub rx iaPoint))) = Some deflected).
  { rewrite !to_int32_small by lia.
    destruct (Z.ltb_spec (Z.of_N ia) (Z.of_N numInteractions - 1)); [|eauto].
    destruct (Hread (ia + 1)) as (dNext & next & -> & Hnext); [lia|].
    simpl. rewrite Hnext. simpl. eauto. }
  destruct Hdeflected as [deflected ->]. simpl.
  rewrite vec_set_in_range by lia. simpl.
  eexists. split; [done|].
  unfold sized, vec_size in *. simpl. rewrite !length_insert. repeat split; done.
Qed.

Lemma export_path_data_defined st pathIndex tx rx numInteractions stride
    rxOffset txOffset pathOffset (p : SionnaPaths.t) :
  sized (m_MaxNumInteractions st) stride p →
  txOffset + rxOffset + pathOffset < stride →
  vec_size (m_InteractionData st) = m_MaxNumInteractions st →
  numInteractions ≤ m_MaxNumInteractions st →
  pathIndex < vec_size (m_TimeDelays st) →
  (∀ ia d, vec_at (m_InteractionData st) ia = Some d →
     pathIndex < vec_size (InteractionData.interactions d)) →
  ∃ p', export_path_data st pathIndex tx rx numInteractions stride
          rxOffset txOffset pathOffset p = Some p'
        ∧ sized (m_MaxNumInteractions st) stride p'.
Proof.
  intros Hsized Hindex Hslots Hcount Hdelay Hpath.
  pose proof Hsized
    as (S1 & S2 & S3 & S4 & S5 & S6 & S7 & S8 & S9 & S10 & S11 & S12 & S13 & S14).
  unfold export_path_data. cbv zeta.
  assert (Hread : ∀ i, i < m_MaxNumInteractions st →
            ∃ d point, vec_at (m_InteractionData st) i = Some d
                       ∧ vec_at (InteractionData.interactions d) pathIndex = Some point).
  { intros i Hi. destruct (vec_at_is_Some (m_InteractionData st) i) as [d Hd]; [lia|].
    destruct (vec_at_is_Some _ _ (Hpath i d Hd)) as [point Hpoint]. eauto. }
  destruct (vec_at_is_Some _ _ Hdelay) as [timeDelay ->]. simpl.
  rewrite vec_set_in_range by lia. simpl.
  rewrite vec_set_in_range by lia. simpl.
  rewrite vec_set_in_range by lia. simpl.
  assert (Hktx : ∃ ktx,
            (if 0 <? numInteractions
             then d ← vec_at (m_InteractionData st) 0;
                  first ← vec_at (InteractionData.interactions d) pathIndex;
                  Some (normalize (vec3.sub first tx))
             else Some (normalize (vec3.sub rx tx))) = Some ktx).
  { destruct (N.ltb_spec 0 numInteractions); [|eauto].
    destruct (Hread 0) as (d & point & -> & Hpoint); [lia|].
    simpl. rewrite Hpoint. simpl. eauto. }
  destruct Hktx as [ktx ->]. simpl.
  destruct (vec_set (SionnaPaths.kTx p) _ ktx) as [kTx|] eqn:HkTx;
    [|rewrite vec_set_in_range in HkTx by lia; done].
  simpl.
  assert (Hkrx : ∃ krx,
            (if 0 <? numInteractions
             then d ← vec_at (m_InteractionData st) (numInteractions - 1);
                  last ← vec_at (InteractionData.interactions d) pathIndex;
                  Some (normalize (vec3.sub last rx))
             else Some (normalize (vec3.sub tx rx))) = Some krx).
  { destruct (N.ltb_spec 0 numInteractions); [|eauto].
    destruct (Hread (numInteractions - 1)) as (d & point & -> & Hpoint); [lia|].
    simpl. rewrite Hpoint. simpl. eauto. }
  destruct Hkrx as [krx ->]. simpl.
  destruct (vec_set (SionnaPaths.kRx p) _ krx) as [kRx|] eqn:HkRx;
    [|rewrite vec_set_in_range in HkRx by lia; done].
  simpl. rewrite (vec_set_at_same _ _ _ _ HkRx). simpl.
  assert (numInteractions * stride + rxOffset + txOffset + pathOffset
          < (m_MaxNumInteractions st + 1) * stride) as Hray.
  { pose proof (slot_index_in_range (m_MaxNumInteractions st + 1) stride numInteractions
                  (txOffset + rxOffset + pathOffset) ltac:(lia) Hindex). lia. }
  rewrite vec_set_in_range by lia. simpl.
  rewrite (vec_set_at_same _ _ _ _ HkTx). simpl.
  rewrite vec_set_in_range by lia. simpl.
  rewrite vec_set_in_range by lia. simpl.
  rewrite vec_set_in_range by lia. simpl.
  rewrite vec_set_in_range by lia. simpl.
  eexists. split; [done|].
  apply vec_set_size in HkTx, HkRx.
  unfold sized, vec_size in *. simpl. rewrite !length_insert. repeat split; try done; lia.
Qed.
End DenseDefined.

Section DenseDefinedRun.
Context {ext : Externals}.

Lemma export_path_defined st0 j s :
  exportable st0 →
  j < N.of_nat (size (m_PathMap st0)) →
  exported st0 j s →
  vec_size (m_PathCounts s.1) = vec_size (m_PathCounts st0) →
  (∀ c, sized (m_MaxNumInteractions st0)
          (vec_size (m_Receivers st0) * vec_size (m_Transmitters st0)
           * PerType.get (m_MaxLinkPaths st0) c)
          (PerType.get (SionnaPathData.paths s.2) c)) →
  ∃ s', export_path j s = Some s'
        ∧ vec_size (m_PathCounts s'.1) = vec_size (m_PathCounts st0)
        ∧ ∀ c, sized (m_MaxNumInteractions st0)
                 (vec_size (m_Receivers st0) * vec_size (m_Transmitters st0)
                  * PerType.get (m_MaxLinkPaths st0) c)
                 (PerType.get (SionnaPathData.paths s'.2) c).
Proof.
  intros (Haligned & Hcounted & Hslots & Hsmall & _ & Hrows & Hcounts) Hj Hexp
         Htable Hsized.
  destruct s as [st out]. simpl in Htable, Hsized.
  destruct Hexp as (Hsame & Hcounter & _). simpl in Hsame, Hcounter.
  destruct Hsame as (E1 & E2 & E3 & E4 & E5 & E6 & E7 & E8 & E9 & E10 & E11).
  destruct Haligned as (Hd & Htx & Hrx & Hty & Hni & Harrays).
  unfold export_path. cbv zeta. rewrite E1, E2, E3, E4, E5, E7, E8, E9, E10, E11.
  destruct (vec_at_is_Some (m_PathTypes st0) j) as [ty HtyAt]; [lia|].
  destruct (vec_at_is_Some (m_TxIDs st0) j) as [txID HtxAt]; [lia|].
  destruct (vec_at_is_Some (m_RxIDs st0) j) as [rxID HrxAt]; [lia|].
  destruct (vec_at_is_Some (m_NumInteractions st0) j) as [nI HnI]; [lia|].
  rewrite HtyAt, HtxAt, HrxAt. simpl.
  pose proof (path_rows_at st0 j txID rxID ty HtxAt HrxAt HtyAt) as Hrow.
  destruct (Hrows j _ Hrow) as (HtxR & HrxR & Hlink). simpl in HtxR, HrxR, Hlink.
  destruct (vec_at_is_Some _ _ HtxR) as [tx ->].
  destruct (vec_at_is_Some _ _ HrxR) as [rx ->]. simpl.
  rewrite HnI. simpl.
  destruct (vec_at_is_Some (m_PathCounts st)
              (rxID * vec_size (m_Transmitters st0) + txID)) as [counts Hat]; [lia|].
  rewrite Hat. simpl. rewrite vec_set_in_range by lia. simpl.
  set (cls := GetSionnaPathType ty) in *.
  set (numTx := vec_size (m_Transmitters st0)) in *.
  set (numRx := vec_size (m_Receivers st0)) in *.
  set (maxLinkPaths := PerType.get (m_MaxLinkPaths st0) cls) in *.
  assert (Hcount : PerType.get counts cls = 1 + slot_at numTx (path_rows st0) j).
  { rewrite (Hcounter _ _ _ Hat), (count_if_drop _ _ (N.to_nat j) _ Hrow).
    pose proof (at_index_self numTx (txID, rxID, cls)) as Hself.
    simpl in Hself. rewrite Hself.
    unfold slot_at. by rewrite Hrow. }
  assert (Hdecr : counter_decr (PerType.get counts cls)
                  = slot_at numTx (path_rows st0) j).
  { unfold counter_decr. rewrite Hcount.
    destruct (N.eqb_spec (1 + slot_at numTx (path_rows st0) j) 0); lia. }
  rewrite Hdecr.
  destruct (index_at_split st0 j _ Hcounted Hrow HtxR HrxR) as (_ & _ & Hbound).
  unfold index_at in Hbound. rewrite Hrow in Hbound. simpl in Hbound.
  fold numTx numRx cls maxLinkPaths in Hbound.
  assert (Hpath : ∀ ia d, vec_at (m_InteractionData st0) ia = Some d →
            j < vec_size (InteractionData.interactions d)
            ∧ j < vec_size (InteractionData.normals d)
            ∧ j < vec_size (InteractionData.materials d)).
  { intros ia d Hdata. destruct (Harrays ia d Hdata) as (-> & -> & _ & ->). done. }
  destruct (for_upto_defined
              (λ _ p, sized (m_MaxNumInteractions st0)
                        (numRx * numTx * maxLinkPaths) p)
              (export_interaction st j tx rx nI (numRx * numTx * maxLinkPaths)
                 (rxID * numTx * maxLinkPaths) (txID * maxLinkPaths)
                 (slot_at numTx (path_rows st0) j))
              (m_MaxNumInteractions st0)
              (PerType.get (SionnaPathData.paths out) cls))
    as (p1 & Hloop & Hsized1); [apply Hsized| |].
  { intros ia p Hia Hp.
    destruct (export_interaction_defined st j tx rx nI (numRx * numTx * maxLinkPaths)
                (rxID * numTx * maxLinkPaths) (txID * maxLinkPaths)
                (slot_at numTx (path_rows st0) j) ia p) as (p' & Hp' & Hsized');
      rewrite ?E1, ?E2; try done; [lia|by apply (Hcounts j)|].
    rewrite E1 in Hsized'. eauto. }
  rewrite Hloop. simpl.
  destruct (export_path_data_defined st j tx rx nI (numRx * numTx * maxLinkPaths)
              (rxID * numTx * maxLinkPaths) (txID * maxLinkPaths)
              (slot_at numTx (path_rows st0) j) p1) as (p2 & Hp2 & Hsized2);
    rewrite ?E1, ?E2, ?E7; try done;
    [by apply (Hcounts j)|lia|by intros ia d [? _]%Hpath|].
  rewrite E1 in Hsized2.
  rewrite Hp2. simpl. eexists. split; [done|]. simpl. split.
  - unfold vec_size. rewrite length_insert. apply Htable.
  - intros c. rewrite PerType_get_set.
    destruct (SionnaPathType.eqb cls c) eqn:Hc; [|apply Hsized].
    apply SionnaPathType_eqb_eq in Hc as <-. apply Hsized2.
Qed.

(** The dense export is defined on every store that is well formed for
    it. *)
Lemma ToSionnaPathData_defined st :
  exportable st → is_Some (ToSionnaPathData st).
Proof.
  intros Hexportable.
  pose proof Hexportable as (Haligned & Hcounted & _ & _ & Hsmall & _).
  pose proof Haligned as (_ & Hn & _).
  unfold ToSionnaPathData. cbv zeta.
  unfold to_uint32. rewrite Hn, N.mod_small by done.
  destruct (for_upto_defined
              (λ j s, exported st j s
                      ∧ vec_size (m_PathCounts s.1) = vec_size (m_PathCounts st)
                      ∧ ∀ c, sized (m_MaxNumInteractions st)
                               (vec_size (m_Receivers st) * vec_size (m_Transmitters st)
                                * PerType.get (m_MaxLinkPaths st) c)
                               (PerType.get (SionnaPathData.paths s.2) c))
              export_path (N.of_nat (size (m_PathMap st)))
              (st, ReservePaths (m_Transmitters st) (m_Receivers st)
                     (m_MaxNumInteractions st) (m_MaxLinkPaths st)))
    as (s & Hs & _).
  - split; [by apply exported_start|]. split; [done|].
    intros c. simpl. destruct c; apply sized_reserve_class.
  - intros j s Hj (Hexp & Htable & Hsized).
    destruct (export_path_defined st j s Hexportable Hj Hexp Htable Hsized)
      as (s' & Hs' & Htable' & Hsized').
    exists s'. split; [done|]. split; [by eapply exported_step|done].
  - rewrite Hs. by simpl.
Qed.
End DenseDefinedRun.

Section Exportable.
Context {ext : Externals}.

Lemma AddPaths_calls_defined maxNumIa (calls : list Batch.t) st :
  store_ok maxNumIa st →
  (∀ b, b ∈ calls →
     batch_ok maxNumIa (vec_size (m_Transmitters st)) (vec_size (m_PathCounts st)) b) →
  is_Some (AddPaths_calls calls st).
Proof.
  revert st. induction calls as [|b calls IH]; intros st Hstore Hcalls; simpl; [done|].
  destruct (AddPaths_call_defined maxNumIa b st Hstore) as (st' & -> & Hstore' & Htx & Htable).
  { apply Hcalls. by left. }
  simpl. apply IH; [done|]. intros b' Hb'. rewrite Htx, Htable. apply Hcalls. by right.
Qed.

(** A store built by [AddPaths] from candidates that are all in range is
    well formed for the dense export. *)
Lemma AddPaths_calls_exportable maxNumIa (txs rxs : list vec3.t) calls st :
  AddPaths_calls calls (PathStorage_new maxNumIa txs rxs) = Some st →
  (∀ key pathInfo, (key, pathInfo) ∈ all_candidates maxNumIa calls →
     candidate_ok maxNumIa (vec_size txs) (vec_size rxs)
       (to_uint32 (vec_size txs + vec_size rxs)) pathInfo) →
  maxNumIa < 2 ^ 31 →
  N.of_nat (size (m_PathMap st)) < uint32_modulus →
  N.of_nat (size (m_PathMap st)) ≤ counter_max →
  exportable st.
Proof.
  intros Hrun Hok Hsmall Hpaths Hcounters.
  pose (tableSize := to_uint32 (vec_size txs + vec_size rxs)).
  pose (P := λ (cs : list (N * PathInfo.t)) (cur : PathStorage),
          aligned cur
          ∧ m_Transmitters cur = txs ∧ m_Receivers cur = rxs
          ∧ vec_size (m_PathCounts cur) = tableSize
          ∧ ((∀ key pathInfo, (key, pathInfo) ∈ cs →
                candidate_ok maxNumIa (vec_size txs) (vec_size rxs) tableSize pathInfo) →
             (∀ k row, vec_at (path_rows cur) k = Some row →
                row.1.1 < vec_size txs ∧ row.1.2 < vec_size rxs
                ∧ row.1.2 * vec_size txs + row.1.1 < tableSize)
             ∧ (∀ k count, vec_at (m_NumInteractions cur) k = Some count →
                  count ≤ maxNumIa))).
  pose proof Hrun as Hready.
  apply AddPaths_calls_dense_ready in Hready as ([Haligned Hcond] & Hslots & _ & _ & Hmax).
  eapply (AddPaths_calls_invariant P maxNumIa) with (cs0 := []) in Hrun
    as [(_ & Htx & Hrx & Htable & Hrange) _].
  - destruct (Hrange Hok) as [Hrows Hcounts].
    split; [done|]. split; [by apply Hcond|]. split; [congruence|].
    split; [by rewrite Hmax|]. split; [done|]. rewrite Htx, Hrx, Htable, Hmax. done.
  - intros cs cur b pathIndex hash pathInfo cur' _
      (Hal & Htx & Hrx & Htable & Hrange) _ Hout.
    pose proof (aligned_step _ _ _ _ _ _ Hal Hout) as Hal'.
    destruct (AddPath_outcome_frame _ _ _ _ _ _ Hout) as (_ & Htx' & Hrx' & _).
    split; [done|]. split; [congruence|]. split; [congruence|].
    destruct Hal as (_ & Hat & Har & Hay & Hani & _).
    destruct Hout as [data counts pathCounts _ _ _ Hset ->
                     |old data timeDelays numInteractions _ _ _ _ Hcount ->
                     |old _ _ ->]; simpl.
    + split; [rewrite <- Htable; by eapply vec_set_size|].
      intros Hcs. destruct Hrange as [Hrows Hcounts]; [intros; apply (Hcs key); set_solver|].
      destruct (Hcs hash pathInfo ltac:(set_solver)) as (C1 & C2 & C3 & C4).
      split.
      * intros k row. unfold path_rows. simpl.
        rewrite (path_rows_emplace_back cur) by congruence. fold (path_rows cur).
        destruct (decide (k < vec_size (path_rows cur))) as [Hlt|Hge].
        -- unfold vec_at. rewrite lookup_app_l by (unfold vec_size in Hlt; lia).
           apply Hrows.
        -- unfold vec_at. rewrite lookup_app_r by (unfold vec_size in Hge; lia).
           intros Hrow. apply list_lookup_singleton_Some in Hrow as [_ <-]. done.
      * intros k count Hk.
        destruct (decide (k < vec_size (m_NumInteractions cur))) as [Hlt|Hge].
        -- rewrite vec_at_emplace_back_old in Hk by done. by apply (Hcounts k).
        -- assert (k = vec_size (m_NumInteractions cur)) as ->.
           { apply vec_at_Some in Hk. rewrite vec_size_emplace_back in Hk. lia. }
           rewrite vec_at_emplace_back_new in Hk. by injection Hk as <-.
    + split; [done|].
      intros Hcs. destruct Hrange as [Hrows Hcounts]; [intros; apply (Hcs key); set_solver|].
      destruct (Hcs hash pathInfo ltac:(set_solver)) as (C1 & C2 & C3 & C4).
      split; [done|]. intros k count Hk.
      destruct (decide (PathEntry.pathIndex old = k)) as [<-|Hne].
      * rewrite (vec_set_at_same _ _ _ _ Hcount) in Hk. by injection Hk as <-.
      * rewrite (vec_set_at_other _ _ _ _ _ Hcount Hne) in Hk. by apply (Hcounts k).
    + split; [done|]. intros Hcs. apply Hrange. intros; apply (Hcs key); set_solver.
  - apply PathStorage_new_slots.
  - split; [by destruct (export_ready_fresh maxNumIa txs rxs) as (_ & ? & _)|].
    split; [done|]. split; [done|]. split.
    + unfold PathStorage_new, m_PathCounts, vec_size at 1.
      by rewrite length_replicate, N2Nat.id.
    + intros _. split; [intros k row Hrow|intros k count Hk]; by unfold vec_at in *.
Qed.
End Exportable.

(** The dense export is defined on every store that [AddPaths] builds
    from candidates that are in range. *)
Lemma ToSionnaPathData_defined_after_AddPaths {ext : Externals}
    maxNumIa (txs rxs : list vec3.t) calls st :
  AddPaths_calls calls (PathStorage_new maxNumIa txs rxs) = Some st →
  (∀ key pathInfo, (key, pathInfo) ∈ all_candidates maxNumIa calls →
     candidate_ok maxNumIa (vec_size txs) (vec_size rxs)
       (to_uint32 (vec_size txs + vec_size rxs)) pathInfo) →
  maxNumIa < 2 ^ 31 →
  N.of_nat (size (m_PathMap st)) < uint32_modulus →
  N.of_nat (size (m_PathMap st)) ≤ counter_max →
  is_Some (ToSionnaPathData st).
Proof.
  intros Hrun Hok Hsmall Hpaths Hcounters.
  apply ToSionnaPathData_defined. by eapply AddPaths_calls_exportable.
Qed.

(** * Further properties of the code *)

(** ** The identity key *)

Section PathHash.
Context {ext : Externals}.

Lemma hash_loop_fold (labels : list N) (count : nat) :
  ∀ (i : N) (hash : N),
    (N.to_nat i + count ≤ length labels)%nat →
    for_loop count i (λ j h, l ← vec_at labels j; Some (CombineHash h l)) hash
    = Some (foldl CombineHash hash (take count (drop (N.to_nat i) labels))).
Proof.
  induction count as [|count IH]; intros i hash Hrange; simpl; [done|].
  destruct (vec_at labels i) as [l|] eqn:Hl; unfold vec_at in Hl.
  - simpl. rewrite IH by lia. rewrite (drop_S labels l (N.to_nat i) Hl). simpl.
    by rewrite N2Nat.inj_succ.
  - apply lookup_ge_None in Hl. lia.
Qed.

Lemma hash_loop_shift (labels : list N) dataIndex (count : nat) :
  ∀ (i : N) (hash : N),
    for_loop count i (λ j h, l ← vec_at labels (dataIndex + j); Some (CombineHash h l))
      hash
    = for_loop count (dataIndex + i)
        (λ j h, l ← vec_at labels j; Some (CombineHash h l)) hash.
Proof.
  induction count as [|count IH]; intros i hash; simpl; [done|].
  destruct (vec_at labels (dataIndex + i)) as [l|]; simpl; [|done].
  rewrite IH. f_equal. lia.
Qed.

(** X1.  When the labels of the path lie inside the buffer, the identity
    key is the seed [CalculateHash(txID, rxID, pathType)] with the first
    [numInteractions] labels from [dataIndex] on folded in, in order, by
    [CombineHash]; no other label of the buffer enters it. *)
Theorem GetPathHash_is_fold (pathInfo : PathInfo.t) (labels : list N) (dataIndex : N) :
  dataIndex + PathInfo.numInteractions pathInfo ≤ vec_size labels →
  GetPathHash pathInfo labels dataIndex
  = Some (foldl CombineHash
            (CalculateHash (PathInfo.txID pathInfo) (PathInfo.rxID pathInfo)
               (PathInfo.pathType pathInfo))
            (take (N.to_nat (PathInfo.numInteractions pathInfo))
               (drop (N.to_nat dataIndex) labels))).
Proof.
  intros Hrange. unfold GetPathHash, for_upto.
  rewrite hash_loop_shift, hash_loop_fold.
  - by rewrite N.add_0_r.
  - unfold vec_size in Hrange. lia.
Qed.

(** X2.  The identity key is defined exactly when the path has no
    interaction or its [numInteractions] labels from [dataIndex] on lie
    inside the buffer: a label read past the end is undefined
    behaviour. *)
Theorem GetPathHash_defined_iff (pathInfo : PathInfo.t) (labels : list N) (dataIndex : N) :
  is_Some (GetPathHash pathInfo labels dataIndex)
  ↔ PathInfo.numInteractions pathInfo = 0
    ∨ dataIndex + PathInfo.numInteractions pathInfo ≤ vec_size labels.
Proof.
  split.
  - intros [hash Hhash]. unfold GetPathHash in Hhash.
    eapply (for_upto_invariant
              (λ j (_ : N), j = 0 ∨ dataIndex + j ≤ vec_size labels)) in Hhash;
      [done|by left|].
    intros j h h' _ _ Hbody. right.
    destruct (vec_at labels (dataIndex + j)) as [l|] eqn:Hl; [|done].
    apply vec_at_Some in Hl. lia.
  - intros [Hzero|Hrange].
    + unfold GetPathHash, for_upto. rewrite Hzero. by simpl.
    + by apply GetPathHash_defined.
Qed.
End PathHash.

Lemma GetPathHash_is_fold_witness :
  GetPathHash (ext := Sample.externals) Sample.specular_2 [7; 5; 9] 1
  = Some (foldl (CombineHash (Externals := Sample.externals))
            (CalculateHash (Externals := Sample.externals) 0 0 PathType.Specular) [5]).
Proof.
  apply (GetPathHash_is_fold (ext := Sample.externals) Sample.specular_2 [7; 5; 9] 1).
  vm_compute. discriminate.
Defined.

Lemma GetPathHash_defined_iff_witness :
  GetPathHash (ext := Sample.externals) Sample.specular_2 [7; 5; 9] 3 = None.
Proof.
  apply eq_None_not_Some. intros Hdefined.
  apply (GetPathHash_defined_iff (ext := Sample.externals)) in Hdefined
    as [Hzero|Hrange]; vm_compute in *; [discriminate|by apply Hrange].
Defined.

(** ** AddPaths: bounds, known identities, resubmission *)

Lemma for_upto_fixed {S} (body : N → S → option S) (n : N) (s : S) :
  (∀ j, j < n → body j s = Some s) → for_upto n body s = Some s.
Proof.
  intros Hbody.
  destruct (for_upto_defined (λ _ t, t = s) body n s) as (s' & Hs' & ->); [done| |done].
  intros j t Hj ->. exists s. split; [by apply Hbody|done].
Qed.

Section AddPathsBounds.
Context {ext : Externals}.

Lemma AddPaths_calls_defined_ok maxNumIa (calls : list Batch.t) st :
  store_ok maxNumIa st →
  (∀ b, b ∈ calls →
     batch_ok maxNumIa (vec_size (m_Transmitters st)) (vec_size (m_PathCounts st)) b) →
  ∃ st', AddPaths_calls calls st = Some st' ∧ store_ok maxNumIa st'.
Proof.
  revert st. induction calls as [|b calls IH]; intros st Hstore Hcalls; simpl; [eauto|].
  destruct (AddPaths_call_defined maxNumIa b st Hstore) as (st1 & -> & Hstore1 & Htx & Htable).
  { apply Hcalls. by left. }
  simpl. apply IH; [done|]. intros b' Hb'. rewrite Htx, Htable. apply Hcalls. by right.
Qed.

Lemma AddPaths_call_slots (b : Batch.t) st st' :
  AddPaths_call b st = Some st' →
  vec_size (m_InteractionData st') = vec_size (m_InteractionData st).
Proof.
  intros Hcall.
  assert (Hcalls : AddPaths_calls [b] st = Some st') by (simpl; by rewrite Hcall).
  eapply (AddPaths_calls_invariant (λ _ _, True)) with (cs0 := []) in Hcalls
    as [_ Hslots]; done.
Qed.

(** Every path record of a call that went through has an identity key and
    a label at its data index. *)
Lemma AddPaths_call_candidates maxNumIa (b : Batch.t) st st' :
  vec_size (m_InteractionData st) = maxNumIa →
  AddPaths_call b st = Some st' →
  ∀ i, i < Batch.numPaths b →
    is_Some (candidate maxNumIa b i)
    ∧ is_Some (vec_at (Batch.labels b) (i * maxNumIa)).
Proof.
  intros Hslots Hcall. unfold AddPaths_call, AddPaths in Hcall.
  eapply (for_upto_invariant
            (λ j cur, vec_size (m_InteractionData cur) = maxNumIa
                      ∧ ∀ i, i < j →
                          is_Some (candidate maxNumIa b i)
                          ∧ is_Some (vec_at (Batch.labels b) (i * maxNumIa)))) in Hcall
    as [_ Hall]; [done| |].
  - split; [done|]. intros i Hi. lia.
  - intros j cur cur' Hj [Hcur Hdone] Hbody.
    pose proof (AddPath_label_access _ _ _ _ Hbody) as Hlabel.
    apply AddPath_outcomes in Hbody as (hash & pathInfo & Hcand & Hout).
    destruct (AddPath_outcome_frame _ _ _ _ _ _ Hout) as (Hslots' & _).
    split; [congruence|]. intros i Hi.
    destruct (decide (i = j)) as [->|Hne]; [|apply Hdone; lia].
    rewrite Hcur in Hcand, Hlabel. by rewrite Hcand.
Qed.

Lemma AddPaths_calls_candidates maxNumIa (calls : list Batch.t) b st st' :
  vec_size (m_InteractionData st) = maxNumIa →
  AddPaths_calls calls st = Some st' → b ∈ calls →
  ∀ i, i < Batch.numPaths b →
    is_Some (candidate maxNumIa b i)
    ∧ is_Some (vec_at (Batch.labels b) (i * maxNumIa)).
Proof.
  revert st. induction calls as [|b0 calls IH]; intros st Hslots Hrun Hb.
  - by apply elem_of_nil in Hb.
  - simpl in Hrun. destruct (AddPaths_call b0 st) as [st1|] eqn:Hcall; [|done].
    simpl in Hrun. apply elem_of_cons in Hb as [->|Hb].
    + by eapply AddPaths_call_candidates.
    + apply (IH st1); [|done..]. apply AddPaths_call_slots in Hcall. congruence.
Qed.

Lemma candidate_submitted maxNumIa (calls : list Batch.t) b i c :
  b ∈ calls → i < Batch.numPaths b → candidate maxNumIa b i = Some c →
  c ∈ all_candidates maxNumIa calls.
Proof.
  intros Hb Hi Hc. unfold all_candidates.
  apply list_elem_of_In, in_concat. exists (batch_candidates maxNumIa b).
  split; [by apply list_elem_of_In, list_elem_of_fmap_2|]. apply list_elem_of_In.
  unfold batch_candidates, candidates_upto. apply list_elem_of_omap.
  exists (N.to_nat i). split; [|by rewrite N2Nat.id].
  apply elem_of_seq. lia.
Qed.
End AddPathsBounds.

(** X3.  On a fresh store, a sequence of calls whose arguments hold what
    they announce (enough path and interaction records, a label at the
    data index [pathIndex * maxNumInteractions] of every path, which the
    call accesses also for a path without interaction, interaction counts
    within the bound, link indices inside the path-count table) is
    defined: no access of [AddPaths] leaves its vector.  The store it
    leaves has aligned arrays and slot indices in range. *)
Theorem AddPaths_defined_on_well_formed_calls {ext : Externals}
    (maxNumIa : N) (txs rxs : list vec3.t) (calls : list Batch.t) :
  (∀ b, b ∈ calls →
     batch_ok maxNumIa (vec_size txs) (to_uint32 (vec_size txs + vec_size rxs)) b) →
  ∃ st, AddPaths_calls calls (PathStorage_new maxNumIa txs rxs) = Some st
        ∧ store_ok maxNumIa st.
Proof.
  intros Hcalls. apply AddPaths_calls_defined_ok; [apply store_ok_fresh|].
  intros b Hb. simpl.
  replace (vec_size (replicate _ _)) with (to_uint32 (vec_size txs + vec_size rxs));
    [by apply Hcalls|].
  unfold vec_size at 3. by rewrite length_replicate, N2Nat.id.
Qed.

Lemma AddPaths_defined_on_well_formed_calls_witness :
  ∃ st, AddPaths_calls (ext := Sample.externals) [Sample.three_paths]
          (PathStorage_new 1 Sample.tx1 Sample.rx2) = Some st
        ∧ store_ok 1 st.
Proof.
  apply (AddPaths_defined_on_well_formed_calls (ext := Sample.externals)).
  intros b ->%list_elem_of_singleton.
  do 5 (split; [vm_compute; discriminate|]).
  split.
  - intros i Hi. simpl in Hi |- *. unfold vec_size. simpl. lia.
  - intros i pathInfo Hi HpathInfo.
    assert (i = 0 ∨ i = 1 ∨ i = 2) as [-> | [-> | ->]] by (simpl in Hi; lia).
    all: vm_compute in HpathInfo; injection HpathInfo as <-.
    all: split; [vm_compute; discriminate|vm_compute; reflexivity].
Defined.

(** X4.  A call that announces more paths than it has path records is
    undefined, whatever the store: the loop reads [pathInfos] past its
    end. *)
Theorem AddPaths_undefined_past_path_records {ext : Externals}
    (numPaths : N) (pathInfos : list PathInfo.t) (interactions normals : list vec3.t)
    (labels materials : list N) (st : PathStorage) :
  vec_size pathInfos < numPaths →
  AddPaths numPaths pathInfos interactions normals labels materials st = None.
Proof.
  intros Hshort.
  destruct (AddPaths _ _ _ _ _ _ _) as [st'|] eqn:Hrun; [|done]. exfalso.
  unfold AddPaths in Hrun.
  eapply (for_upto_invariant (λ j (_ : PathStorage), j ≤ vec_size pathInfos)) in Hrun;
    [lia|lia|].
  intros j cur cur' _ _ Hbody. unfold AddPath in Hbody.
  destruct (vec_at pathInfos j) as [pathInfo|] eqn:HpathInfo; [|done].
  apply vec_at_Some in HpathInfo. lia.
Qed.

Lemma AddPaths_undefined_past_path_records_witness :
  AddPaths (ext := Sample.externals) 3 [Sample.specular_3; Sample.specular_2]
    [Sample.point 5 1 1; Sample.point 5 2 1; Sample.point 5 3 1]
    [Sample.point 1 1 2; Sample.point 1 1 2; Sample.point 1 1 2]
    [5; 5; 5] [1; 1; 1] (PathStorage_new 1 Sample.tx1 Sample.rx1) = None.
Proof.
  apply AddPaths_undefined_past_path_records. vm_compute. reflexivity.
Defined.

(** X5.  A candidate whose identity key is already in the store never
    touches the path counters, the per-class maxima, the transmitter,
    receiver and type arrays or the number of retained identities; and
    when its delay is not strictly lower than the stored one the whole
    store is left as it was. *)
Theorem AddPath_known_identity_frame {ext : Externals}
    (b : Batch.t) (pathIndex : N) (st st' : PathStorage)
    (hash : N) (pathInfo : PathInfo.t) (entry : PathEntry.t) :
  candidate (vec_size (m_InteractionData st)) b pathIndex = Some (hash, pathInfo) →
  m_PathMap st !! hash = Some entry →
  AddPath (Batch.pathInfos b) (Batch.interactions b) (Batch.normals b)
    (Batch.labels b) (Batch.materials b) pathIndex st = Some st' →
  m_PathCounts st' = m_PathCounts st
  ∧ m_MaxLinkPaths st' = m_MaxLinkPaths st
  ∧ m_TxIDs st' = m_TxIDs st
  ∧ m_RxIDs st' = m_RxIDs st
  ∧ m_PathTypes st' = m_PathTypes st
  ∧ size (m_PathMap st') = size (m_PathMap st)
  ∧ (SFltb (PathInfo.timeDelay pathInfo) (PathEntry.timeDelay entry) = false →
     st' = st).
Proof.
  intros Hcand Hentry Hrun.
  apply AddPath_outcomes in Hrun as (hash' & pathInfo' & Hcand' & Hout).
  rewrite Hcand in Hcand'. injection Hcand' as <- <-.
  destruct Hout as [data counts pathCounts Hnew _ _ _ _
                   |old data timeDelays numInteractions Hold Hgt _ _ _ ->
                   |old Hold Hgt ->]; [congruence| |done].
  simpl. rewrite map_size_insert_Some by (by rewrite Hold).
  do 6 (split; [done|]). intros Hnot. unfold fgt in Hgt. congruence.
Qed.

Lemma AddPath_known_identity_frame_witness :
  ∃ st',
    AddPath (ext := Sample.externals)
      (Batch.pathInfos Sample.colliding_pair) (Batch.interactions Sample.colliding_pair)
      (Batch.normals Sample.colliding_pair) (Batch.labels Sample.colliding_pair)
      (Batch.materials Sample.colliding_pair) 1 Sample.retained_one = Some st'
    ∧ m_PathCounts st' = m_PathCounts Sample.retained_one
    ∧ m_TxIDs st' = m_TxIDs Sample.retained_one.
Proof.
  eexists. split; [vm_compute; reflexivity|].
  edestruct (AddPath_known_identity_frame (ext := Sample.externals)
               Sample.colliding_pair 1 Sample.retained_one)
    as (Hcounts & _ & Htx & _);
    [vm_compute; reflexivity|vm_compute; reflexivity|vm_compute; reflexivity|].
  split; [exact Hcounts|exact Htx].
Defined.

(** X6.  Submitting again a call that is part of the sequence that built
    the store changes nothing: every candidate finds its identity with a
    stored delay that is not above its own, and is discarded. *)
Theorem AddPaths_resubmission_no_effect {ext : Externals}
    (maxNumIa : N) (txs rxs : list vec3.t) (calls : list Batch.t)
    (b : Batch.t) (st : PathStorage) :
  AddPaths_calls calls (PathStorage_new maxNumIa txs rxs) = Some st →
  b ∈ calls →
  AddPaths_call b st = Some st.
Proof.
  intros Hrun Hb.
  pose proof (AddPaths_calls_dedup_min _ _ _ _ _ Hrun) as (Hdom & _ & Hmin).
  pose proof (AddPaths_calls_export_ready _ _ _ _ _ Hrun) as [_ Hslots].
  pose proof (AddPaths_calls_candidates maxNumIa calls b _ _
                (PathStorage_new_slots maxNumIa txs rxs) Hrun Hb) as Hcands.
  unfold AddPaths_call, AddPaths. apply for_upto_fixed. intros j Hj.
  destruct (Hcands j Hj) as [[[hash pathInfo] Hcand] [label Hlabel]].
  pose proof (candidate_submitted maxNumIa calls b j _ Hb Hj Hcand) as Hin.
  unfold candidate in Hcand. unfold AddPath. rewrite Hslots.
  destruct (vec_at (Batch.pathInfos b) j) as [pathInfo'|]; [|done]. simpl in Hcand |- *.
  rewrite Hlabel. simpl.
  destruct (GetPathHash pathInfo' (Batch.labels b) (j * maxNumIa)) as [hash'|]; [|done].
  simpl in Hcand |- *. injection Hcand as -> ->.
  assert (is_Some (m_PathMap st !! hash)) as [entry Hentry] by (apply Hdom; eauto).
  rewrite Hentry. destruct (Hmin hash entry Hentry) as [_ Hlow].
  unfold fgt. by rewrite (Hlow pathInfo Hin).
Qed.

Lemma AddPaths_resubmission_no_effect_witness :
  AddPaths_call (ext := Sample.externals) Sample.three_paths Sample.dense_store
  = Some Sample.dense_store.
Proof.
  apply (AddPaths_resubmission_no_effect (ext := Sample.externals)
           1 Sample.tx1 Sample.rx2 [Sample.three_paths]).
  - vm_compute. reflexivity.
  - by left.
Defined.

(** ** AddPaths: slots, delays and counters *)

Section SlotTable.
Context {ext : Externals}.

Lemma slots_one_to_one_step b pathIndex st hash pathInfo st' :
  vec_size (m_TimeDelays st) = N.of_nat (size (m_PathMap st)) →
  N.of_nat (size (m_PathMap st')) ≤ uint32_modulus →
  slots_one_to_one st →
  AddPath_outcome b pathIndex st hash pathInfo st' →
  slots_one_to_one st'.
Proof.
  intros Hdelays Hbound (Hslot & Hinj & Hsurj)
    [data counts pathCounts Hnew _ _ _ ->
    |old data timeDelays numInteractions Hold _ _ Hset _ ->
    |old _ _ ->]; [| |done].
  - simpl in Hbound. rewrite map_size_insert_None in Hbound by done.
    unfold slots_one_to_one. simpl. rewrite map_size_insert_None by done.
    set (n := N.of_nat (size (m_PathMap st))) in *.
    assert (Hn : to_uint32 n = n) by (unfold to_uint32; apply N.mod_small; lia).
    rewrite Hn.
    split; [|split].
    + intros key entry Hentry.
      destruct (decide (key = hash)) as [->|Hne].
      * rewrite lookup_insert_eq in Hentry. injection Hentry as <-. simpl.
        split; [lia|]. rewrite <- Hdelays. apply vec_at_emplace_back_new.
      * rewrite lookup_insert_ne in Hentry by done.
        destruct (Hslot key entry Hentry) as [Hlt Hdelay].
        split; [lia|]. rewrite vec_at_emplace_back_old by lia. done.
    + intros key key' entry entry' Hentry Hentry' Hsame.
      destruct (decide (key = hash)) as [->|Hne];
        destruct (decide (key' = hash)) as [->|Hne']; [done| | |].
      * rewrite lookup_insert_eq in Hentry. injection Hentry as <-.
        rewrite lookup_insert_ne in Hentry' by done.
        destruct (Hslot key' entry' Hentry') as [Hlt _]. simpl in Hsame. lia.
      * rewrite lookup_insert_eq in Hentry'. injection Hentry' as <-.
        rewrite lookup_insert_ne in Hentry by done.
        destruct (Hslot key entry Hentry) as [Hlt _]. simpl in Hsame. lia.
      * rewrite lookup_insert_ne in Hentry, Hentry' by done. by eapply Hinj.
    + intros k Hk. destruct (decide (k = n)) as [->|Hne].
      * exists hash, (PathEntry.mk (PathInfo.timeDelay pathInfo) n).
        by rewrite lookup_insert_eq.
      * destruct (Hsurj k) as (key & entry & Hentry & Hindex); [lia|].
        exists key, entry. split; [|done].
        rewrite lookup_insert_ne; [done|]. intros <-. congruence.
  - unfold slots_one_to_one. simpl. rewrite map_size_insert_Some by (by rewrite Hold).
    split; [|split].
    + intros key entry Hentry.
      destruct (decide (key = hash)) as [->|Hne].
      * rewrite lookup_insert_eq in Hentry. injection Hentry as <-. simpl.
        split; [by apply (Hslot hash old)|]. by eapply vec_set_at_same.
      * rewrite lookup_insert_ne in Hentry by done.
        destruct (Hslot key entry Hentry) as [Hlt Hdelay]. split; [done|].
        rewrite (vec_set_at_other _ _ _ (PathEntry.pathIndex entry) _ Hset); [done|].
        intros Hsame. apply Hne. symmetry. by eapply Hinj.
    + intros key key' entry entry' Hentry Hentry' Hsame.
      assert (Hback : ∀ q e, <[hash:=PathEntry.mk (PathInfo.timeDelay pathInfo)
                                       (PathEntry.pathIndex old)]> (m_PathMap st) !! q
                             = Some e →
                ∃ e0, m_PathMap st !! q = Some e0
                      ∧ PathEntry.pathIndex e0 = PathEntry.pathIndex e).
      { intros q e He. destruct (decide (q = hash)) as [->|Hne].
        - rewrite lookup_insert_eq in He. injection He as <-. by exists old.
        - rewrite lookup_insert_ne in He by done. by exists e. }
      destruct (Hback _ _ Hentry) as (e0 & He0 & Hi0).
      destruct (Hback _ _ Hentry') as (e0' & He0' & Hi0').
      eapply Hinj; [done..|]. congruence.
    + intros k Hk. destruct (Hsurj k Hk) as (key & entry & Hentry & Hindex).
      destruct (decide (key = hash)) as [->|Hne].
      * exists hash, (PathEntry.mk (PathInfo.timeDelay pathInfo) (PathEntry.pathIndex old)).
        rewrite lookup_insert_eq. split; [done|]. simpl. congruence.
      * exists key, entry. by rewrite lookup_insert_ne.
Qed.

Lemma slots_one_to_one_fresh maxNumIa (txs rxs : list vec3.t) :
  slots_one_to_one (PathStorage_new maxNumIa txs rxs).
Proof.
  split; [|split].
  - intros key entry Hentry. simpl in Hentry. by rewrite lookup_empty in Hentry.
  - intros key key' entry entry' Hentry. simpl in Hentry. by rewrite lookup_empty in Hentry.
  - intros k Hk. simpl in Hk. rewrite map_size_empty in Hk. lia.
Qed.

Lemma max_attained_step b pathIndex st hash pathInfo st' :
  aligned st →
  N.of_nat (size (m_PathMap st')) ≤ counter_max →
  counted st →
  max_attained st →
  AddPath_outcome b pathIndex st hash pathInfo st' →
  max_attained st'.
Proof.
  intros Haligned Hbound [Htable Hmax] Hattained
    [data counts pathCounts Hnew _ Hcounts Hset ->
    |old data timeDelays numInteractions Hold _ _ _ _ ->
    |old _ _ ->]; [|done..].
  simpl in Hbound. rewrite map_size_insert_None in Hbound by done.
  pose proof (path_rows_size st Haligned) as Hrows.
  unfold max_attained. simpl.
  set (numTx := vec_size (m_Transmitters st)) in *.
  set (cls := GetSionnaPathType (PathInfo.pathType pathInfo)) in *.
  set (link := PathInfo.rxID pathInfo * numTx + PathInfo.txID pathInfo) in *.
  assert (Hincr : counter_incr (PerType.get counts cls) = PerType.get counts cls + 1).
  { unfold counter_incr.
    pose proof (count_if_le_length (at_index numTx link cls) (path_rows st)).
    rewrite (Htable link counts cls Hcounts).
    destruct (N.eqb_spec (count_if (at_index numTx link cls) (path_rows st)) counter_max);
      lia. }
  rewrite Hincr in *. intros c. rewrite PerType_get_set.
  destruct (SionnaPathType.eqb cls c) eqn:Hc.
  - apply SionnaPathType_eqb_eq in Hc as <-.
    destruct (decide (PerType.get (m_MaxLinkPaths st) cls ≤ PerType.get counts cls + 1))
      as [Hle|Hgt].
    + right. eexists link, _. split; [by eapply vec_set_at_same|].
      rewrite PerType_get_set, SionnaPathType_eqb_refl. lia.
    + destruct (Hattained cls) as [Hzero|(link' & counts' & Hcounts' & Hsame)]; [lia|].
      right. exists link', counts'. split; [|lia].
      rewrite (vec_set_at_other _ _ _ link' _ Hset); [done|].
      intros <-. rewrite Hcounts in Hcounts'. injection Hcounts' as <-. lia.
  - destruct (Hattained c) as [Hzero|(link' & counts' & Hcounts' & Hsame)]; [by left|].
    right. destruct (decide (link = link')) as [<-|Hne].
    + eexists link, _. split; [by eapply vec_set_at_same|].
      rewrite PerType_get_set, Hc. congruence.
    + exists link', counts'. split; [|done].
      by rewrite (vec_set_at_other _ _ _ link' _ Hset).
Qed.
End SlotTable.

(** X7.  While the store holds at most 2^32 identities, the slot indices
    of the identity map and the indices of the per-path arrays correspond
    one to one: every slot index is below the number of identities, two
    identities never share a slot, every index below the number of
    identities is the slot of an identity, and the delay array holds at
    the slot of an identity the delay the map keeps for it. *)
Theorem AddPaths_slots_one_to_one {ext : Externals}
    (maxNumIa : N) (txs rxs : list vec3.t) (calls : list Batch.t) (st : PathStorage) :
  AddPaths_calls calls (PathStorage_new maxNumIa txs rxs) = Some st →
  N.of_nat (size (m_PathMap st)) ≤ uint32_modulus →
  (∀ key entry, m_PathMap st !! key = Some entry →
     PathEntry.pathIndex entry < N.of_nat (size (m_PathMap st))
     ∧ vec_at (m_TimeDelays st) (PathEntry.pathIndex entry)
       = Some (PathEntry.timeDelay entry))
  ∧ (∀ key key' entry entry',
       m_PathMap st !! key = Some entry → m_PathMap st !! key' = Some entry' →
       PathEntry.pathIndex entry = PathEntry.pathIndex entry' → key = key')
  ∧ (∀ k, k < N.of_nat (size (m_PathMap st)) →
       ∃ key entry, m_PathMap st !! key = Some entry ∧ PathEntry.pathIndex entry = k).
Proof.
  intros Hrun Hbound.
  pose (P := λ (_ : list (N * PathInfo.t)) (cur : PathStorage),
          vec_size (m_TimeDelays cur) = N.of_nat (size (m_PathMap cur))
          ∧ (N.of_nat (size (m_PathMap cur)) ≤ uint32_modulus → slots_one_to_one cur)).
  eapply (AddPaths_calls_invariant P maxNumIa) with (cs0 := []) in Hrun
    as [[_ Hinv] _]; [by apply Hinv| | |].
  - intros cs cur b pathIndex hash pathInfo cur' _ [Hdelays Hcond] _ Hout.
    pose proof (retained_count_step _ _ _ _ _ _ Hout) as Hmono.
    split.
    + destruct Hout as [data counts pathCounts Hnew _ _ _ ->
                       |old data timeDelays numInteractions Hold _ _ Hset _ ->
                       |old _ _ ->]; simpl; [| |done].
      * rewrite vec_size_emplace_back, map_size_insert_None by done. lia.
      * rewrite map_size_insert_Some by (by rewrite Hold).
        rewrite <- Hdelays. by eapply vec_set_size.
    + intros Hbound'. eapply slots_one_to_one_step; [done..| |done]. apply Hcond. lia.
  - apply PathStorage_new_slots.
  - split; [by simpl; rewrite map_size_empty|]. intros _. apply slots_one_to_one_fresh.
Qed.

Lemma AddPaths_slots_one_to_one_witness :
  ∃ key entry, m_PathMap Sample.dense_store !! key = Some entry
               ∧ PathEntry.pathIndex entry = 2.
Proof.
  destruct (AddPaths_slots_one_to_one (ext := Sample.externals)
              1 Sample.tx1 Sample.rx2 [Sample.three_paths] Sample.dense_store)
    as (_ & _ & Hevery).
  - vm_compute. reflexivity.
  - vm_compute. discriminate.
  - apply Hevery. vm_compute. reflexivity.
Defined.

(** X8.  While the store holds at most [counter_max] identities, the
    per-class maximum [m_MaxLinkPaths] is exactly the largest count of
    that class in the path-count table: no entry exceeds it, and unless
    it is zero some entry equals it. *)
Theorem AddPaths_max_link_paths_is_largest_count {ext : Externals}
    (maxNumIa : N) (txs rxs : list vec3.t) (calls : list Batch.t) (st : PathStorage)
    (c : SionnaPathType.t) :
  AddPaths_calls calls (PathStorage_new maxNumIa txs rxs) = Some st →
  N.of_nat (size (m_PathMap st)) ≤ counter_max →
  (∀ link counts, vec_at (m_PathCounts st) link = Some counts →
     PerType.get counts c ≤ PerType.get (m_MaxLinkPaths st) c)
  ∧ (PerType.get (m_MaxLinkPaths st) c = 0
     ∨ ∃ link counts, vec_at (m_PathCounts st) link = Some counts
                      ∧ PerType.get counts c = PerType.get (m_MaxLinkPaths st) c).
Proof.
  intros Hrun Hbound.
  pose (P := λ (_ : list (N * PathInfo.t)) (cur : PathStorage),
          dense_ready cur
          ∧ (N.of_nat (size (m_PathMap cur)) ≤ counter_max → max_attained cur)).
  eapply (AddPaths_calls_invariant P maxNumIa) with (cs0 := []) in Hrun
    as [[[_ Hcounted] Hattained] _].
  - destruct (Hcounted Hbound) as [Htable Hmax]. split; [|by apply Hattained].
    intros link counts Hcounts. rewrite (Htable link counts c Hcounts). apply Hmax.
  - intros cs cur b pathIndex hash pathInfo cur' _ [Hready Hcond] _ Hout.
    pose proof (retained_count_step _ _ _ _ _ _ Hout) as Hmono.
    split; [by eapply dense_ready_step|]. intros Hbound'.
    destruct Hready as [Haligned Hcounted].
    eapply max_attained_step; [done..|apply Hcounted; lia|apply Hcond; lia|done].
  - apply PathStorage_new_slots.
  - split; [apply dense_ready_fresh|]. intros _ c'. left. by destruct c'.
Qed.

Lemma AddPaths_max_link_paths_is_largest_count_witness :
  PerType.get (m_MaxLinkPaths Sample.dense_store) SionnaPathType.Specular = 0
  ∨ ∃ link counts, vec_at (m_PathCounts Sample.dense_store) link = Some counts
                   ∧ PerType.get counts SionnaPathType.Specular
                     = PerType.get (m_MaxLinkPaths Sample.dense_store)
                         SionnaPathType.Specular.
Proof.
  apply (AddPaths_max_link_paths_is_largest_count (ext := Sample.externals)
           1 Sample.tx1 Sample.rx2 [Sample.three_paths] Sample.dense_store).
  - vm_compute. reflexivity.
  - vm_compute. discriminate.
Defined.

(** X9.  The compact export of a store built by [AddPaths] is defined,
    hands the store back, and lays the interaction arrays out slot by
    slot: with [n] retained paths, the point, normal, label and material
    of path [k] in interaction slot [ia] are at position [ia * n + k]. *)
Theorem ToPathData_slot_major_layout {ext : Externals}
    (maxNumIa : N) (txs rxs : list vec3.t) (calls : list Batch.t) (st : PathStorage) :
  AddPaths_calls calls (PathStorage_new maxNumIa txs rxs) = Some st →
  ∃ data,
    ToPathData st = Some (data, st)
    ∧ ∀ ia k d,
        vec_at (m_InteractionData st) ia = Some d →
        k < N.of_nat (size (m_PathMap st)) →
        vec_at (PathData.interactions data) (ia * N.of_nat (size (m_PathMap st)) + k)
        = vec_at (InteractionData.interactions d) k
        ∧ vec_at (PathData.normals data) (ia * N.of_nat (size (m_PathMap st)) + k)
          = vec_at (InteractionData.normals d) k
        ∧ vec_at (PathData.labels data) (ia * N.of_nat (size (m_PathMap st)) + k)
          = vec_at (InteractionData.labels d) k
        ∧ vec_at (PathData.materials data) (ia * N.of_nat (size (m_PathMap st)) + k)
          = vec_at (InteractionData.materials d) k.
Proof.
  intros Hrun.
  apply AddPaths_calls_export_ready in Hrun as [(_ & Haligned & _) _].
  eexists. split; [apply ToPathData_eq|]. simpl.
  destruct Haligned as (_ & _ & _ & _ & _ & Harrays).
  intros ia k d Hd Hk.
  repeat split; apply flat_at; try done; intros ia' d' Hd';
    by destruct (Harrays ia' d' Hd') as (? & ? & ? & ?).
Qed.

Lemma ToPathData_slot_major_layout_witness :
  ∃ data, ToPathData Sample.dense_store = Some (data, Sample.dense_store)
          ∧ vec_at (PathData.labels data) 2 = Some all_bits_set.
Proof.
  destruct (ToPathData_slot_major_layout (ext := Sample.externals)
              1 Sample.tx1 Sample.rx2 [Sample.three_paths] Sample.dense_store)
    as (data & Hdata & Hlayout); [vm_compute; reflexivity|].
  exists data. split; [done|].
  destruct (Hlayout 0 2 (default InteractionData.empty
                           (vec_at (m_InteractionData Sample.dense_store) 0)))
    as (_ & _ & Hlabel & _); [vm_compute; reflexivity|vm_compute; reflexivity|].
  vm_compute in Hlabel |- *. exact Hlabel.
Defined.

(** ** The dense export runs on the stores that AddPaths builds *)

Section DenseRunFacts.
Context {ext : Externals}.

Lemma export_path_header j s s' :
  export_path j s = Some s' →
  SionnaPathData.transmitters s'.2 = SionnaPathData.transmitters s.2
  ∧ SionnaPathData.receivers s'.2 = SionnaPathData.receivers s.2
  ∧ SionnaPathData.maxNumIa s'.2 = SionnaPathData.maxNumIa s.2
  ∧ SionnaPathData.maxLinkPaths s'.2 = SionnaPathData.maxLinkPaths s.2.
Proof.
  destruct s as [st out]. unfold export_path. cbv zeta. intros Hrun.
  bind_inv Hrun. by injection Hrun as <-.
Qed.

Lemma ToSionnaPathData_run st :
  exportable st →
  ∃ out st',
    ToSionnaPathData st = Some (out, st')
    ∧ same_but_counts st st'
    ∧ (SionnaPathData.transmitters out = m_Transmitters st
       ∧ SionnaPathData.receivers out = m_Receivers st
       ∧ SionnaPathData.maxNumIa out = m_MaxNumInteractions st
       ∧ SionnaPathData.maxLinkPaths out = m_MaxLinkPaths st)
    ∧ ∀ c, sized (m_MaxNumInteractions st)
             (vec_size (m_Receivers st) * vec_size (m_Transmitters st)
              * PerType.get (m_MaxLinkPaths st) c)
             (PerType.get (SionnaPathData.paths out) c).
Proof.
  intros Hexportable.
  pose proof Hexportable as (Haligned & Hcounted & _ & _ & Hsmall & _).
  pose proof Haligned as (_ & Hn & _).
  unfold ToSionnaPathData. cbv zeta.
  unfold to_uint32. rewrite Hn, N.mod_small by done.
  destruct (for_upto_defined
              (λ j s, exported st j s
                      ∧ vec_size (m_PathCounts s.1) = vec_size (m_PathCounts st)
                      ∧ (∀ c, sized (m_MaxNumInteractions st)
                                (vec_size (m_Receivers st) * vec_size (m_Transmitters st)
                                 * PerType.get (m_MaxLinkPaths st) c)
                                (PerType.get (SionnaPathData.paths s.2) c))
                      ∧ (SionnaPathData.transmitters s.2 = m_Transmitters st
                         ∧ SionnaPathData.receivers s.2 = m_Receivers st
                         ∧ SionnaPathData.maxNumIa s.2 = m_MaxNumInteractions st
                         ∧ SionnaPathData.maxLinkPaths s.2 = m_MaxLinkPaths st))
              export_path (N.of_nat (size (m_PathMap st)))
              (st, ReservePaths (m_Transmitters st) (m_Receivers st)
                     (m_MaxNumInteractions st) (m_MaxLinkPaths st)))
    as (s & Hs & Hexp & _ & Hsized & Hheader).
  - split; [by apply exported_start|]. split; [done|]. split; [|done].
    intros c. simpl. destruct c; apply sized_reserve_class.
  - intros j s Hj (Hexp & Htable & Hsized & Hheader).
    destruct (export_path_defined st j s Hexportable Hj Hexp Htable Hsized)
      as (s' & Hs' & Htable' & Hsized').
    exists s'. split; [done|]. split; [by eapply exported_step|].
    split; [done|]. split; [done|].
    destruct (export_path_header _ _ _ Hs') as (-> & -> & -> & ->). done.
  - rewrite Hs. simpl. exists s.2, s.1. split; [done|].
    destruct Hexp as [Hsame _]. done.
Qed.
End DenseRunFacts.

(** X10.  On a store that [AddPaths] built from candidates whose
    endpoints exist, whose links are inside the path-count table and whose
    interaction counts are within the bound (with sizes that fit the
    machine integers of the export), the dense export is defined: no
    access leaves its vector.  It hands the store back changed in the
    path-count table at most, copies the endpoints, the interaction bound
    and the per-class maxima to the output, and leaves every per-path
    array of a class with [numRx * numTx * maxLinkPaths] elements and
    every per-interaction array with [maxNumIa] times as many (the
    incident rays one slot more). *)
Theorem ToSionnaPathData_defined_on_built_store {ext : Externals}
    (maxNumIa : N) (txs rxs : list vec3.t) (calls : list Batch.t) (st : PathStorage) :
  AddPaths_calls calls (PathStorage_new maxNumIa txs rxs) = Some st →
  (∀ key pathInfo, (key, pathInfo) ∈ all_candidates maxNumIa calls →
     candidate_ok maxNumIa (vec_size txs) (vec_size rxs)
       (to_uint32 (vec_size txs + vec_size rxs)) pathInfo) →
  maxNumIa < 2 ^ 31 →
  N.of_nat (size (m_PathMap st)) < uint32_modulus →
  N.of_nat (size (m_PathMap st)) ≤ counter_max →
  ∃ out st',
    ToSionnaPathData st = Some (out, st')
    ∧ same_but_counts st st'
    ∧ SionnaPathData.transmitters out = txs
    ∧ SionnaPathData.receivers out = rxs
    ∧ SionnaPathData.maxNumIa out = maxNumIa
    ∧ SionnaPathData.maxLinkPaths out = m_MaxLinkPaths st
    ∧ ∀ c,
        let p := PerType.get (SionnaPathData.paths out) c in
        let stride := vec_size rxs * vec_size txs * PerType.get (m_MaxLinkPaths st) c in
        vec_size (SionnaPaths.timeDelays p) = stride
        ∧ vec_size (SionnaPaths.mask p) = stride
        ∧ vec_size (SionnaPaths.kTx p) = stride
        ∧ vec_size (SionnaPaths.kRx p) = stride
        ∧ vec_size (SionnaPaths.interactions p) = maxNumIa * stride
        ∧ vec_size (SionnaPaths.materials p) = maxNumIa * stride
        ∧ vec_size (SionnaPaths.incidentRays p) = (maxNumIa + 1) * stride
        ∧ vec_size (SionnaPaths.totalDistance p) = stride
        ∧ vec_size (SionnaPaths.aodElevation p) = stride
        ∧ vec_size (SionnaPaths.aodAzimuth p) = stride
        ∧ vec_size (SionnaPaths.aoaElevation p) = stride
        ∧ vec_size (SionnaPaths.aoaAzimuth p) = stride
        ∧ vec_size (SionnaPaths.normals p) = maxNumIa * stride
        ∧ vec_size (SionnaPaths.deflectedRays p) = maxNumIa * stride.
Proof.
  intros Hrun Hok Hsmall Hpaths Hcounters.
  pose proof (AddPaths_calls_exportable _ _ _ _ _ Hrun Hok Hsmall Hpaths Hcounters)
    as Hexportable.
  apply AddPaths_calls_dense_ready in Hrun as (_ & _ & Htxs & Hrxs & Hmax).
  destruct (ToSionnaPathData_run st Hexportable)
    as (out & st' & Hexport & Hsame & (H1 & H2 & H3 & H4) & Hsized).
  exists out, st'. rewrite <- Htxs, <- Hrxs, <- Hmax.
  do 6 (split; [done|]). intros c p stride.
  destruct (Hsized c)
    as (S1 & S2 & S3 & S4 & S5 & S6 & S7 & S8 & S9 & S10 & S11 & S12 & S13 & S14).
  done.
Qed.

Lemma ToSionnaPathData_defined_on_built_store_witness :
  ∃ out st',
    ToSionnaPathData (ext := Sample.externals) Sample.dense_store = Some (out, st')
    ∧ same_but_counts Sample.dense_store st'
    ∧ SionnaPathData.transmitters out = Sample.tx1.
Proof.
  destruct (ToSionnaPathData_defined_on_built_store (ext := Sample.externals)
              1 Sample.tx1 Sample.rx2 [Sample.three_paths] Sample.dense_store)
    as (out & st' & Hexport & Hsame & Htxs & _).
  - vm_compute. reflexivity.
  - assert (Hall : Forall (λ c : N * PathInfo.t,
                      candidate_ok 1 (vec_size Sample.tx1) (vec_size Sample.rx2)
                        (to_uint32 (vec_size Sample.tx1 + vec_size Sample.rx2)) c.2)
                     (all_candidates (ext := Sample.externals) 1 [Sample.three_paths])).
    { vm_compute.
      repeat (constructor; [repeat split; try reflexivity; discriminate|]).
      constructor. }
    intros key pathInfo Hin. rewrite Forall_forall in Hall. apply (Hall _ Hin).
  - vm_compute. reflexivity.
  - vm_compute. reflexivity.
  - vm_compute. discriminate.
  - exists out, st'. split; [exact Hexport|]. split; [exact Hsame|exact Htxs].
Defined.

(** ** ToSionnaPathData: the data of every path *)

Lemma slot_position_unique (stride ia ia' index index' : N) :
  index < stride → index' < stride →
  ia * stride + index = ia' * stride + index' → ia = ia' ∧ index = index'.
Proof. apply entry_slot_unique. Qed.

Section DenseValues.
Context {ext : Externals}.

Lemma export_interaction_values st k tx rx numInteractions stride
    rxOffset txOffset pathOffset n (p p' : SionnaPaths.t) :
  rxOffset + txOffset + pathOffset < stride →
  for_upto n
    (export_interaction st k tx rx numInteractions stride
       rxOffset txOffset pathOffset) p = Some p' →
  (SionnaPaths.timeDelays p' = SionnaPaths.timeDelays p
   ∧ SionnaPaths.totalDistance p' = SionnaPaths.totalDistance p
   ∧ SionnaPaths.kTx p' = SionnaPaths.kTx p
   ∧ SionnaPaths.kRx p' = SionnaPaths.kRx p
   ∧ SionnaPaths.aodElevation p' = SionnaPaths.aodElevation p
   ∧ SionnaPaths.aodAzimuth p' = SionnaPaths.aodAzimuth p
   ∧ SionnaPaths.aoaElevation p' = SionnaPaths.aoaElevation p
   ∧ SionnaPaths.aoaAzimuth p' = SionnaPaths.aoaAzimuth p)
  ∧ (∀ ia, ia < n →
       slot_written (m_InteractionData st) k rx numInteractions ia
         (ia * stride + (rxOffset + txOffset + pathOffset)) p'
       ∧ incident_written (m_InteractionData st) k tx ia
           (ia * stride + (rxOffset + txOffset + pathOffset)) p')
  ∧ per_slot_frame n stride (rxOffset + txOffset + pathOffset) p p'.
Proof.
  intros Hindex Hloop.
  set (index := rxOffset + txOffset + pathOffset) in *.
  pose (P := λ (j : N) (cur : SionnaPaths.t),
          (SionnaPaths.timeDelays cur = SionnaPaths.timeDelays p
           ∧ SionnaPaths.totalDistance cur = SionnaPaths.totalDistance p
           ∧ SionnaPaths.kTx cur = SionnaPaths.kTx p
           ∧ SionnaPaths.kRx cur = SionnaPaths.kRx p
           ∧ SionnaPaths.aodElevation cur = SionnaPaths.aodElevation p
           ∧ SionnaPaths.aodAzimuth cur = SionnaPaths.aodAzimuth p
           ∧ SionnaPaths.aoaElevation cur = SionnaPaths.aoaElevation p
           ∧ SionnaPaths.aoaAzimuth cur = SionnaPaths.aoaAzimuth p)
          ∧ (∀ ia, ia < j →
               slot_written (m_InteractionData st) k rx numInteractions ia
                 (ia * stride + index) cur
               ∧ incident_written (m_InteractionData st) k tx ia
                   (ia * stride + index) cur)
          ∧ per_slot_frame j stride index p cur).
  eapply (for_upto_invariant P); [| |exact Hloop].
  - split; [done|]. split; [intros ia Hia; lia|]. by intros q _.
  - intros j cur cur' Hj (Hsame & Hslots & Hframe) Hbody.
    unfold export_interaction in Hbody. cbv zeta in Hbody.
    replace (j * stride + rxOffset + txOffset + pathOffset)
      with (j * stride + index) in Hbody by (unfold index; lia).
    destruct (vec_at (m_InteractionData st) j) as [d|] eqn:Hd; [|done].
    simpl in Hbody.
    destruct (vec_at (InteractionData.interactions d) k) as [iaPoint|] eqn:HiaPoint;
      [|done].
    simpl in Hbody.
    destruct (vec_set (SionnaPaths.interactions cur) _ _) as [interactions|] eqn:H1;
      [|done].
    simpl in Hbody.
    destruct (vec_at (InteractionData.normals d) k) as [normal|] eqn:Hnormal; [|done].
    simpl in Hbody.
    destruct (vec_set (SionnaPaths.normals cur) _ _) as [normals|] eqn:H2; [|done].
    simpl in Hbody.
    destruct (vec_at (InteractionData.materials d) k) as [material|] eqn:Hmaterial;
      [|done].
    simpl in Hbody.
    destruct (vec_set (SionnaPaths.materials cur) _ _) as [materials|] eqn:H3; [|done].
    simpl in Hbody.
    match type of Hbody with
    | mbind _ ?m = Some _ => destruct m as [incident|] eqn:Hincident; [|done]
    end. simpl in Hbody.
    destruct (vec_set (SionnaPaths.incidentRays cur) _ _) as [incidentRays|] eqn:H4;
      [|done].
    simpl in Hbody.
    match type of Hbody with
    | mbind _ ?m = Some _ => destruct m as [deflected|] eqn:Hdeflected; [|done]
    end. simpl in Hbody.
    destruct (vec_set (SionnaPaths.deflectedRays cur) _ _) as [deflectedRays|] eqn:H5;
      [|done].
    simpl in Hbody. injection Hbody as <-.
    assert (Hpoint : stored_point (m_InteractionData st) j k = Some iaPoint)
      by (unfold stored_point; by rewrite Hd).
    assert (Hother : ∀ ia, ia < j → ia * stride + index ≠ j * stride + index).
    { intros ia Hia Heq.
      apply slot_position_unique in Heq as [-> _]; [lia|done..]. }
    split; [done|]. split.
    + intros ia Hia. destruct (decide (ia = j)) as [->|Hne].
      * split.
        -- split; [exists iaPoint; split; [done|]; simpl; by eapply vec_set_at_same|].
           split; [exists normal; split;
                   [unfold stored_normal; by rewrite Hd|]; simpl;
                   by eapply vec_set_at_same|].
           split; [exists material; split;
                   [unfold stored_material; by rewrite Hd|]; simpl;
                   by eapply vec_set_at_same|].
           exists deflected. split; [simpl; by eapply vec_set_at_same|].
           exists iaPoint. split; [done|].
           destruct (to_int32 j <? to_int32 numInteractions - 1)%Z.
           ++ destruct (vec_at (m_InteractionData st) (j + 1)) as [dNext|] eqn:HdNext;
                [|done].
              simpl in Hdeflected.
              destruct (vec_at (InteractionData.interactions dNext) k)
                as [next|] eqn:Hnext; [|done].
              simpl in Hdeflected. injection Hdeflected as <-.
              exists next. split; [|done]. unfold stored_point. by rewrite HdNext.
           ++ by injection Hdeflected as <-.
        -- exists incident. split; [simpl; by eapply vec_set_at_same|].
           exists iaPoint. split; [done|].
           destruct (0 <? j).
           ++ destruct (vec_at (m_InteractionData st) (j - 1)) as [dPrev|] eqn:HdPrev;
                [|done].
              simpl in Hincident.
              destruct (vec_at (InteractionData.interactions dPrev) k)
                as [prev|] eqn:Hprev; [|done].
              simpl in Hincident. injection Hincident as <-.
              exists prev. split; [|done]. unfold stored_point. by rewrite HdPrev.
           ++ by injection Hincident as <-.
      * destruct (Hslots ia ltac:(lia))
          as [((pt & Hpt & Hpt') & (nm & Hnm & Hnm') & (mt & Hmt & Hmt')
               & (df & Hdf & Hdf')) (inc & Hinc & Hinc')].
        pose proof (Hother ia ltac:(lia)) as Hpos.
        split.
        -- split; [exists pt; split; [done|]; simpl;
                   by rewrite (vec_set_at_other _ _ _ _ _ H1 (not_eq_sym Hpos))|].
           split; [exists nm; split; [done|]; simpl;
                   by rewrite (vec_set_at_other _ _ _ _ _ H2 (not_eq_sym Hpos))|].
           split; [exists mt; split; [done|]; simpl;
                   by rewrite (vec_set_at_other _ _ _ _ _ H3 (not_eq_sym Hpos))|].
           exists df. split; [|done]. simpl.
           by rewrite (vec_set_at_other _ _ _ _ _ H5 (not_eq_sym Hpos)).
        -- exists inc. split; [|done]. simpl.
           by rewrite (vec_set_at_other _ _ _ _ _ H4 (not_eq_sym Hpos)).
    + intros q Hq.
      assert (Hqj : j * stride + index ≠ q) by (intros <-; apply (Hq j); [lia|done]).
      destruct (Hframe q) as (F1 & F2 & F3 & F4 & F5); [intros ia Hia; apply Hq; lia|].
      simpl.
      rewrite (vec_set_at_other _ _ _ _ _ H1 Hqj), (vec_set_at_other _ _ _ _ _ H2 Hqj),
        (vec_set_at_other _ _ _ _ _ H3 Hqj), (vec_set_at_other _ _ _ _ _ H4 Hqj),
        (vec_set_at_other _ _ _ _ _ H5 Hqj).
      done.
Qed.

Lemma export_path_data_values st k tx rx numInteractions stride
    rxOffset txOffset pathOffset (p p' : SionnaPaths.t) :
  export_path_data st k tx rx numInteractions stride
    rxOffset txOffset pathOffset p = Some p' →
  (SionnaPaths.interactions p' = SionnaPaths.interactions p
   ∧ SionnaPaths.normals p' = SionnaPaths.normals p
   ∧ SionnaPaths.materials p' = SionnaPaths.materials p
   ∧ SionnaPaths.deflectedRays p' = SionnaPaths.deflectedRays p)
  ∧ ∃ delay ktx krx,
      vec_at (m_TimeDelays st) k = Some delay
      ∧ vec_set (SionnaPaths.timeDelays p) (txOffset + rxOffset + pathOffset)
          (double_to_float delay) = Some (SionnaPaths.timeDelays p')
      ∧ vec_set (SionnaPaths.totalDistance p) (txOffset + rxOffset + pathOffset)
          (fmul (double_to_float delay) LightSpeedInVacuum)
        = Some (SionnaPaths.totalDistance p')
      ∧ vec_set (SionnaPaths.kTx p) (txOffset + rxOffset + pathOffset) ktx
        = Some (SionnaPaths.kTx p')
      ∧ vec_set (SionnaPaths.kRx p) (txOffset + rxOffset + pathOffset) krx
        = Some (SionnaPaths.kRx p')
      ∧ vec_set (SionnaPaths.incidentRays p)
          (numInteractions * stride + rxOffset + txOffset + pathOffset) (vec3.neg krx)
        = Some (SionnaPaths.incidentRays p')
      ∧ vec_set (SionnaPaths.aodElevation p) (txOffset + rxOffset + pathOffset)
          (acos (vec3.z ktx)) = Some (SionnaPaths.aodElevation p')
      ∧ vec_set (SionnaPaths.aodAzimuth p) (txOffset + rxOffset + pathOffset)
          (atan (vec3.y ktx) (vec3.x ktx)) = Some (SionnaPaths.aodAzimuth p')
      ∧ vec_set (SionnaPaths.aoaElevation p) (txOffset + rxOffset + pathOffset)
          (acos (vec3.z krx)) = Some (SionnaPaths.aoaElevation p')
      ∧ vec_set (SionnaPaths.aoaAzimuth p) (txOffset + rxOffset + pathOffset)
          (atan (vec3.y krx) (vec3.x krx)) = Some (SionnaPaths.aoaAzimuth p')
      ∧ if 0 <? numInteractions
        then ∃ first last,
               stored_point (m_InteractionData st) 0 k = Some first
               ∧ stored_point (m_InteractionData st) (numInteractions - 1) k = Some last
               ∧ ktx = normalize (vec3.sub first tx)
               ∧ krx = normalize (vec3.sub last rx)
        else ktx = normalize (vec3.sub rx tx) ∧ krx = normalize (vec3.sub tx rx).
Proof.
  unfold export_path_data. cbv zeta. intros Hrun.
  destruct (vec_at (m_TimeDelays st) k) as [timeDelay|] eqn:Hdelay; [|done].
  simpl in Hrun.
  destruct (vec_set (SionnaPaths.timeDelays p) _ _) as [timeDelays|] eqn:H1; [|done].
  simpl in Hrun.
  destruct (vec_set (SionnaPaths.totalDistance p) _ _) as [totalDistance|] eqn:H2;
    [|done].
  simpl in Hrun.
  destruct (vec_set (SionnaPaths.mask p) _ _) as [mask|] eqn:Hmask; [|done].
  simpl in Hrun.
  match type of Hrun with
  | mbind _ ?m = Some _ => destruct m as [ktx|] eqn:Hktx; [|done]
  end. simpl in Hrun.
  destruct (vec_set (SionnaPaths.kTx p) _ _) as [kTx|] eqn:HkTx; [|done].
  simpl in Hrun.
  match type of Hrun with
  | mbind _ ?m = Some _ => destruct m as [krx|] eqn:Hkrx; [|done]
  end. simpl in Hrun.
  destruct (vec_set (SionnaPaths.kRx p) _ _) as [kRx|] eqn:HkRx; [|done].
  simpl in Hrun.
  rewrite (vec_set_at_same _ _ _ _ HkRx) in Hrun. simpl in Hrun.
  destruct (vec_set (SionnaPaths.incidentRays p) _ _) as [incidentRays|] eqn:Hrays;
    [|done].
  simpl in Hrun.
  rewrite (vec_set_at_same _ _ _ _ HkTx) in Hrun. simpl in Hrun.
  destruct (vec_set (SionnaPaths.aodElevation p) _ _) as [aodElevation|] eqn:H3; [|done].
  simpl in Hrun.
  destruct (vec_set (SionnaPaths.aodAzimuth p) _ _) as [aodAzimuth|] eqn:H4; [|done].
  simpl in Hrun.
  destruct (vec_set (SionnaPaths.aoaElevation p) _ _) as [aoaElevation|] eqn:H5; [|done].
  simpl in Hrun.
  destruct (vec_set (SionnaPaths.aoaAzimuth p) _ _) as [aoaAzimuth|] eqn:H6; [|done].
  simpl in Hrun. injection Hrun as <-. simpl.
  split; [done|]. exists timeDelay, ktx, krx.
  do 10 (split; [done|]).
  destruct (0 <? numInteractions).
  - destruct (vec_at (m_InteractionData st) 0) as [dFirst|] eqn:HdFirst; [|done].
    simpl in Hktx.
    destruct (vec_at (InteractionData.interactions dFirst) k) as [first|] eqn:Hfirst;
      [|done].
    simpl in Hktx. injection Hktx as <-.
    destruct (vec_at (m_InteractionData st) (numInteractions - 1))
      as [dLast|] eqn:HdLast; [|done].
    simpl in Hkrx.
    destruct (vec_at (InteractionData.interactions dLast) k) as [last|] eqn:Hlast;
      [|done].
    simpl in Hkrx. injection Hkrx as <-.
    exists first, last. unfold stored_point. rewrite HdFirst, HdLast. done.
  - injection Hktx as <-. injection Hkrx as <-. done.
Qed.

(** One path of the export, on the arrays of its class: [p] before the
    path, [p'] after it. *)
Lemma export_path_values_class st k tx rx numInteractions stride
    rxOffset txOffset pathOffset (p p1 p' : SionnaPaths.t) :
  txOffset + rxOffset + pathOffset < stride →
  for_upto (m_MaxNumInteractions st)
    (export_interaction st k tx rx numInteractions stride
       rxOffset txOffset pathOffset) p = Some p1 →
  export_path_data st k tx rx numInteractions stride
    rxOffset txOffset pathOffset p1 = Some p' →
  (∃ delay, vec_at (m_TimeDelays st) k = Some delay
            ∧ path_data_at (m_InteractionData st) delay k tx rx numInteractions stride
                (txOffset + rxOffset + pathOffset) p')
  ∧ (∀ ia, ia < m_MaxNumInteractions st →
       slot_written (m_InteractionData st) k rx numInteractions ia
         (ia * stride + (txOffset + rxOffset + pathOffset)) p'
       ∧ (ia ≠ numInteractions →
          incident_written (m_InteractionData st) k tx ia
            (ia * stride + (txOffset + rxOffset + pathOffset)) p'))
  ∧ per_path_frame (txOffset + rxOffset + pathOffset) p p'
  ∧ all_slots_frame stride (txOffset + rxOffset + pathOffset) p p'.
Proof.
  intros Hindex Hloop Hdata.
  apply export_interaction_values in Hloop
    as ((L1 & L2 & L3 & L4 & L5 & L6 & L7 & L8) & Hslots & Hframe); [|lia].
  replace (rxOffset + txOffset + pathOffset) with (txOffset + rxOffset + pathOffset)
    in Hslots, Hframe by lia.
  apply export_path_data_values in Hdata
    as ((D1 & D2 & D3 & D4) & delay & ktx & krx & Hdelay & S1 & S2 & S3 & S4 & Hrays
        & S5 & S6 & S7 & S8 & Hends).
  replace (numInteractions * stride + rxOffset + txOffset + pathOffset)
    with (numInteractions * stride + (txOffset + rxOffset + pathOffset)) in Hrays by lia.
  set (index := txOffset + rxOffset + pathOffset) in *.
  rewrite L1 in S1. rewrite L2 in S2. rewrite L3 in S3. rewrite L4 in S4.
  rewrite L5 in S5. rewrite L6 in S6. rewrite L7 in S7. rewrite L8 in S8.
  split; [|split; [|split]].
  - exists delay. split; [done|].
    split; [by eapply vec_set_at_same|]. split; [by eapply vec_set_at_same|].
    exists ktx, krx.
    split; [by eapply vec_set_at_same|]. split; [by eapply vec_set_at_same|].
    split; [by eapply vec_set_at_same|]. split; [by eapply vec_set_at_same|].
    split; [by eapply vec_set_at_same|]. split; [by eapply vec_set_at_same|].
    split; [by eapply vec_set_at_same|]. done.
  - intros ia Hia.
    destruct (Hslots ia Hia)
      as [((pt & Hpt & Hpt') & (nm & Hnm & Hnm') & (mt & Hmt & Hmt')
           & (df & Hdf & Hdf')) (inc & Hinc & Hinc')].
    split.
    + unfold slot_written. rewrite D1, D2, D3, D4.
      split; [by exists pt|]. split; [by exists nm|]. split; [by exists mt|].
      by exists df.
    + intros Hne. exists inc. split; [|done].
      rewrite (vec_set_at_other _ _ _ (ia * stride + index) _ Hrays); [done|].
      intros Heq. apply slot_position_unique in Heq as [Heq _]; [|done..].
      by apply Hne.
  - intros q Hq.
    rewrite (vec_set_at_other _ _ _ q _ S1), (vec_set_at_other _ _ _ q _ S2),
      (vec_set_at_other _ _ _ q _ S3), (vec_set_at_other _ _ _ q _ S4),
      (vec_set_at_other _ _ _ q _ S5), (vec_set_at_other _ _ _ q _ S6),
      (vec_set_at_other _ _ _ q _ S7), (vec_set_at_other _ _ _ q _ S8) by done.
    done.
  - intros q Hq.
    destruct (Hframe q) as (F1 & F2 & F3 & F4 & F5); [intros ia _; apply Hq|].
    rewrite D1, D2, D3, D4.
    rewrite (vec_set_at_other _ _ _ q _ Hrays) by (apply not_eq_sym, Hq).
    done.
Qed.
End DenseValues.

Section DenseData.
Context {ext : Externals}.

Lemma export_path_values j st out st' out' :
  export_path j (st, out) = Some (st', out') →
  ∃ ty txID rxID tx rx numInteractions counts p1 p',
    vec_at (m_PathTypes st) j = Some ty
    ∧ vec_at (m_TxIDs st) j = Some txID
    ∧ vec_at (m_RxIDs st) j = Some rxID
    ∧ vec_at (m_Transmitters st) txID = Some tx
    ∧ vec_at (m_Receivers st) rxID = Some rx
    ∧ vec_at (m_NumInteractions st) j = Some numInteractions
    ∧ vec_at (m_PathCounts st) (rxID * vec_size (m_Transmitters st) + txID) = Some counts
    ∧ SionnaPathData.paths out'
      = PerType.set (SionnaPathData.paths out) (GetSionnaPathType ty) p'
    ∧ for_upto (m_MaxNumInteractions st)
        (export_interaction st j tx rx numInteractions
           (vec_size (m_Receivers st) * vec_size (m_Transmitters st)
            * PerType.get (m_MaxLinkPaths st) (GetSionnaPathType ty))
           (rxID * vec_size (m_Transmitters st)
            * PerType.get (m_MaxLinkPaths st) (GetSionnaPathType ty))
           (txID * PerType.get (m_MaxLinkPaths st) (GetSionnaPathType ty))
           (counter_decr (PerType.get counts (GetSionnaPathType ty))))
        (PerType.get (SionnaPathData.paths out) (GetSionnaPathType ty)) = Some p1
    ∧ export_path_data st j tx rx numInteractions
        (vec_size (m_Receivers st) * vec_size (m_Transmitters st)
         * PerType.get (m_MaxLinkPaths st) (GetSionnaPathType ty))
        (rxID * vec_size (m_Transmitters st)
         * PerType.get (m_MaxLinkPaths st) (GetSionnaPathType ty))
        (txID * PerType.get (m_MaxLinkPaths st) (GetSionnaPathType ty))
        (counter_decr (PerType.get counts (GetSionnaPathType ty))) p1 = Some p'.
Proof.
  unfold export_path. cbv zeta. intros Hrun.
  destruct (vec_at (m_PathTypes st) j) as [ty|] eqn:Hty; [|done]. simpl in Hrun.
  destruct (vec_at (m_TxIDs st) j) as [txID|] eqn:HtxID; [|done]. simpl in Hrun.
  destruct (vec_at (m_RxIDs st) j) as [rxID|] eqn:HrxID; [|done]. simpl in Hrun.
  destruct (vec_at (m_Transmitters st) txID) as [tx|] eqn:Htx; [|done].
  simpl in Hrun.
  destruct (vec_at (m_Receivers st) rxID) as [rx|] eqn:Hrx; [|done]. simpl in Hrun.
  destruct (vec_at (m_NumInteractions st) j) as [numInteractions|] eqn:Hni; [|done].
  simpl in Hrun.
  destruct (vec_at (m_PathCounts st) _) as [counts|] eqn:Hat; [|done].
  simpl in Hrun.
  destruct (vec_set (m_PathCounts st) _ _) as [pathCounts|] eqn:Hcounts; [|done].
  simpl in Hrun.
  destruct (for_upto _ _ _) as [p1|] eqn:Hloop; [|done]. simpl in Hrun.
  destruct (export_path_data _ _ _ _ _ _ _ _ _ _) as [p'|] eqn:Hdata; [|done].
  simpl in Hrun. injection Hrun as <- <-.
  exists ty, txID, rxID, tx, rx, numInteractions, counts, p1, p'. done.
Qed.

Lemma slot_written_frame data k rx numInteractions ia stride index index'
    (p p' : SionnaPaths.t) :
  index < stride → index' < stride → index ≠ index' →
  all_slots_frame stride index' p p' →
  slot_written data k rx numInteractions ia (ia * stride + index) p →
  slot_written data k rx numInteractions ia (ia * stride + index) p'.
Proof.
  intros Hindex Hindex' Hne Hframe
    ((pt & Hpt & Hpt') & (nm & Hnm & Hnm') & (mt & Hmt & Hmt') & (df & Hdf & Hdf')).
  destruct (Hframe (ia * stride + index)) as (F1 & F2 & F3 & F4 & _).
  { intros ia' Heq. by apply slot_position_unique in Heq as [_ Heq]. }
  unfold slot_written. rewrite F1, F2, F3, F4.
  split; [by exists pt|]. split; [by exists nm|]. split; [by exists mt|]. by exists df.
Qed.

Lemma incident_written_frame data k tx ia stride index index'
    (p p' : SionnaPaths.t) :
  index < stride → index' < stride → index ≠ index' →
  all_slots_frame stride index' p p' →
  incident_written data k tx ia (ia * stride + index) p →
  incident_written data k tx ia (ia * stride + index) p'.
Proof.
  intros Hindex Hindex' Hne Hframe (inc & Hinc & Hinc').
  destruct (Hframe (ia * stride + index)) as (_ & _ & _ & _ & F5).
  { intros ia' Heq. by apply slot_position_unique in Heq as [_ Heq]. }
  exists inc. by rewrite F5.
Qed.

Lemma path_data_at_frame data delay k tx rx numInteractions stride index index'
    (p p' : SionnaPaths.t) :
  index < stride → index' < stride → index ≠ index' →
  per_path_frame index' p p' →
  all_slots_frame stride index' p p' →
  path_data_at data delay k tx rx numInteractions stride index p →
  path_data_at data delay k tx rx numInteractions stride index p'.
Proof.
  intros Hindex Hindex' Hne Hpath Hslots
    (T1 & T2 & ktx & krx & T3 & T4 & T5 & T6 & T7 & T8 & T9 & Hends).
  destruct (Hpath index Hne) as (F1 & F2 & F3 & F4 & F5 & F6 & F7 & F8).
  destruct (Hslots (numInteractions * stride + index)) as (_ & _ & _ & _ & G5).
  { intros ia' Heq. by apply slot_position_unique in Heq as [_ Heq]. }
  unfold path_data_at. rewrite F1, F2, F3, F4, F5, F6, F7, F8, G5.
  split; [done|]. split; [done|]. exists ktx, krx. done.
Qed.

Lemma exported_data_step st0 j s s' :
  counted st0 → exported st0 j s → exported_data st0 j s.2 →
  export_path j s = Some s' →
  exported_data st0 (j + 1) s'.2.
Proof.
  intros Hcounted Hexp Hdata Hrun. destruct s as [st out], s' as [st' out'].
  destruct Hexp as (Hsame & Htable & Hrange & _).
  simpl in Hsame, Htable, Hrange, Hdata.
  apply export_path_values in Hrun
    as (ty & txID & rxID & tx & rx & nI & counts & p1 & p' & Hty & HtxID & HrxID & Htx
        & Hrx & HnI & Hat & Hpaths & Hloop & Hwrite).
  pose proof Hsame as (E1 & E2 & E3 & E4 & E5 & E6 & E7 & E8 & E9 & E10 & E11).
  rewrite E3 in Hat, Htx. rewrite E4 in Hrx.
  rewrite E8 in HtxID. rewrite E9 in HrxID. rewrite E10 in Hty. rewrite E11 in HnI.
  set (numTx := vec_size (m_Transmitters st0)) in *.
  set (numRx := vec_size (m_Receivers st0)) in *.
  set (rows := path_rows st0) in *.
  set (cls := GetSionnaPathType ty) in *.
  set (maxLinkPaths := PerType.get (m_MaxLinkPaths st0) cls) in *.
  assert (Hrow : vec_at rows j = Some (txID, rxID, cls)) by (by apply path_rows_at).
  assert (HtxR : txID < numTx) by (by eapply vec_at_Some).
  assert (HrxR : rxID < numRx) by (by eapply vec_at_Some).
  assert (Hcount : PerType.get counts cls = 1 + slot_at numTx rows j).
  { rewrite (Htable _ _ _ Hat), (count_if_drop _ rows (N.to_nat j) _ Hrow).
    pose proof (at_index_self numTx (txID, rxID, cls)) as Hself.
    simpl in Hself. rewrite Hself.
    unfold slot_at. by rewrite Hrow. }
  assert (Hdecr : counter_decr (PerType.get counts cls) = slot_at numTx rows j).
  { unfold counter_decr. rewrite Hcount.
    destruct (N.eqb_spec (1 + slot_at numTx rows j) 0); lia. }
  assert (Hix : txID * maxLinkPaths + rxID * numTx * maxLinkPaths + slot_at numTx rows j
                = index_at numTx (m_MaxLinkPaths st0) rows j).
  { unfold index_at. by rewrite Hrow. }
  destruct (index_at_split st0 j _ Hcounted Hrow HtxR HrxR) as (_ & _ & Hbound).
  simpl in Hbound. fold numTx numRx rows cls maxLinkPaths in Hbound.
  rewrite E3, E4, E5 in Hloop, Hwrite. fold numTx numRx cls maxLinkPaths in Hloop, Hwrite.
  rewrite Hdecr in Hloop, Hwrite.
  destruct (export_path_values_class _ _ _ _ _ _ _ _ _ _ _ _
              ltac:(rewrite Hix; exact Hbound) Hloop Hwrite)
    as ((delay & Hdelay & Hpath) & Hslots & Hpframe & Hsframe).
  rewrite Hix in Hpath, Hslots, Hpframe, Hsframe.
  rewrite E1 in Hslots. rewrite E2 in Hpath, Hslots. rewrite E7 in Hdelay.
  assert (Hget : ∀ c, PerType.get (SionnaPathData.paths out') c
                      = if SionnaPathType.eqb cls c then p'
                        else PerType.get (SionnaPathData.paths out) c).
  { intros c. rewrite Hpaths. apply PerType_get_set. }
  unfold exported_data. simpl. fold numTx numRx rows.
  intros k row tx' rx' nI' delay' Hk Hrowk Htx' Hrx' HnI' Hdelay'. rewrite Hget.
  destruct (decide (k = j)) as [->|Hne].
  - rewrite Hrow in Hrowk. injection Hrowk as <-. simpl in Htx', Hrx' |- *.
    rewrite SionnaPathType_eqb_refl. fold maxLinkPaths.
    assert (tx' = tx) as -> by congruence. assert (rx' = rx) as -> by congruence.
    assert (nI' = nI) as -> by congruence. assert (delay' = delay) as -> by congruence.
    done.
  - destruct (Hdata k row tx' rx' nI' delay' ltac:(lia) Hrowk Htx' Hrx' HnI' Hdelay')
      as [Hpathk Hslotsk].
    destruct (SionnaPathType.eqb cls row.2) eqn:Hc; [|done].
    apply SionnaPathType_eqb_eq in Hc.
    destruct (Hrange k row ltac:(lia) Hrowk) as [HtxRk HrxRk].
    assert (Hneq : index_at numTx (m_MaxLinkPaths st0) rows k
                   ≠ index_at numTx (m_MaxLinkPaths st0) rows j).
    { apply (index_at_injective st0 k j row (txID, rxID, cls)); try done; lia. }
    destruct (index_at_split st0 k row Hcounted Hrowk HtxRk HrxRk) as (_ & _ & Hboundk).
    fold numTx numRx rows in Hboundk. cbv zeta in Hpathk, Hslotsk.
    rewrite <- Hc in Hboundk, Hpathk, Hslotsk |- *.
    fold maxLinkPaths in Hboundk, Hpathk, Hslotsk |- *.
    split.
    + exact (path_data_at_frame _ _ _ _ _ _ _ _ _ _ _
               Hboundk Hbound Hneq Hpframe Hsframe Hpathk).
    + intros ia Hia. destruct (Hslotsk ia Hia) as [Hslot Hincident].
      split; [exact (slot_written_frame _ _ _ _ _ _ _ _ _ _
                       Hboundk Hbound Hneq Hsframe Hslot)|].
      intros Hnot.
      exact (incident_written_frame _ _ _ _ _ _ _ _ _
               Hboundk Hbound Hneq Hsframe (Hincident Hnot)).
Qed.

(** The whole export: the data of every retained path. *)
Lemma exported_data_end st0 out st' :
  counted st0 →
  vec_size (m_TxIDs st0) < uint32_modulus →
  ToSionnaPathData st0 = Some (out, st') →
  exported_data st0 (vec_size (m_TxIDs st0)) out.
Proof.
  intros Hcounted Hsmall Hrun. unfold ToSionnaPathData in Hrun. cbv zeta in Hrun.
  destruct (for_upto _ _ _) as [[st1 out1]|] eqn:Hloop; [|done].
  simpl in Hrun. injection Hrun as <- <-.
  unfold to_uint32 in Hloop. rewrite N.mod_small in Hloop by done.
  eapply (for_upto_invariant (λ j s, exported st0 j s ∧ exported_data st0 j s.2))
    in Hloop as [_ Hdata]; [done| |].
  - split; [by apply exported_start|]. intros k row tx rx nI delay Hk. lia.
  - intros j s s' _ [Hexp Hdata] Hbody.
    split; [by eapply exported_step|by eapply exported_data_step].
Qed.
End DenseData.

(** What the complete dense export of a store built by [AddPaths] holds
    for the retained path [k]. *)
Lemma ToSionnaPathData_path_data {ext : Externals}
    maxNumIa (txs rxs : list vec3.t) calls st out st' k txID rxID ty :
  AddPaths_calls calls (PathStorage_new maxNumIa txs rxs) = Some st →
  N.of_nat (size (m_PathMap st)) < uint32_modulus →
  N.of_nat (size (m_PathMap st)) ≤ counter_max →
  ToSionnaPathData st = Some (out, st') →
  vec_at (m_TxIDs st) k = Some txID →
  vec_at (m_RxIDs st) k = Some rxID →
  vec_at (m_PathTypes st) k = Some ty →
  ∃ tx rx numInteractions delay,
    vec_at txs txID = Some tx ∧ vec_at rxs rxID = Some rx
    ∧ vec_at (m_NumInteractions st) k = Some numInteractions
    ∧ vec_at (m_TimeDelays st) k = Some delay
    ∧ vec_size (m_InteractionData st) = maxNumIa
    ∧ path_data_at (m_InteractionData st) delay k tx rx numInteractions
        (vec_size rxs * vec_size txs
         * PerType.get (m_MaxLinkPaths st) (GetSionnaPathType ty))
        (write_index st k)
        (PerType.get (SionnaPathData.paths out) (GetSionnaPathType ty))
    ∧ ∀ ia, ia < maxNumIa →
        slot_written (m_InteractionData st) k rx numInteractions ia
          (ia * (vec_size rxs * vec_size txs
                 * PerType.get (m_MaxLinkPaths st) (GetSionnaPathType ty))
           + write_index st k)
          (PerType.get (SionnaPathData.paths out) (GetSionnaPathType ty))
        ∧ (ia ≠ numInteractions →
           incident_written (m_InteractionData st) k tx ia
             (ia * (vec_size rxs * vec_size txs
                    * PerType.get (m_MaxLinkPaths st) (GetSionnaPathType ty))
              + write_index st k)
             (PerType.get (SionnaPathData.paths out) (GetSionnaPathType ty))).
Proof.
  intros Hrun Hsmall Hcounters Hexport HtxID HrxID Hty.
  destruct (ToSionnaPathData_exported _ _ _ _ _ _ _ Hrun Hsmall Hcounters Hexport)
    as (Hcounted & Htxs & Hrxs & Hrows & Hexp & Hrange).
  apply AddPaths_calls_dense_ready in Hrun as ([Haligned _] & Hslots & _ & _ & Hmax).
  destruct Haligned as (Hdelays & Hn & _ & _ & Hcounts & _).
  apply exported_data_end in Hexport; [|done|by rewrite Hn]. rewrite Hn in Hexport.
  destruct Hexp as (_ & _ & Hends & _). simpl in Hends.
  pose proof (path_rows_at st k txID rxID ty HtxID HrxID Hty) as Hrow.
  assert (Hk : k < N.of_nat (size (m_PathMap st)))
    by (rewrite <- Hn; by eapply vec_at_Some).
  destruct (Hends k _ Hk Hrow) as [HtxR HrxR]. simpl in HtxR, HrxR.
  destruct (vec_at_is_Some _ _ HtxR) as [tx Htx].
  destruct (vec_at_is_Some _ _ HrxR) as [rx Hrx].
  destruct (vec_at_is_Some (m_NumInteractions st) k) as [nI HnI]; [by rewrite Hcounts|].
  destruct (vec_at_is_Some (m_TimeDelays st) k) as [delay Hdelay];
    [by rewrite Hdelays|].
  destruct (Hexport k _ tx rx nI delay Hk Hrow Htx Hrx HnI Hdelay) as [Hpath Hall].
  simpl in Hpath, Hall.
  rewrite (index_at_write_index st k Hrange) in Hpath, Hall.
  rewrite Htxs, Hrxs in *. rewrite Hmax in Hall.
  exists tx, rx, nI, delay. done.
Qed.

(** X11.  The complete dense export of a store built by [AddPaths] holds,
    at the write index of every retained path in the arrays of its class,
    the stored delay of the path converted to single precision, and as
    total distance that value times the speed of light. *)
Theorem ToSionnaPathData_delay_and_distance {ext : Externals}
    (maxNumIa : N) (txs rxs : list vec3.t) (calls : list Batch.t)
    (st st' : PathStorage) (out : SionnaPathData.t)
    (k txID rxID : N) (ty : PathType.t) (delay : double) :
  AddPaths_calls calls (PathStorage_new maxNumIa txs rxs) = Some st →
  N.of_nat (size (m_PathMap st)) < uint32_modulus →
  N.of_nat (size (m_PathMap st)) ≤ counter_max →
  ToSionnaPathData st = Some (out, st') →
  vec_at (m_TxIDs st) k = Some txID →
  vec_at (m_RxIDs st) k = Some rxID →
  vec_at (m_PathTypes st) k = Some ty →
  vec_at (m_TimeDelays st) k = Some delay →
  let p := PerType.get (SionnaPathData.paths out) (GetSionnaPathType ty) in
  vec_at (SionnaPaths.timeDelays p) (write_index st k) = Some (double_to_float delay)
  ∧ vec_at (SionnaPaths.totalDistance p) (write_index st k)
    = Some (fmul (double_to_float delay) LightSpeedInVacuum).
Proof.
  intros Hrun Hsmall Hcounters Hexport HtxID HrxID Hty Hdelay p.
  destruct (ToSionnaPathData_path_data _ _ _ _ _ _ _ _ _ _ _
              Hrun Hsmall Hcounters Hexport HtxID HrxID Hty)
    as (tx & rx & nI & delay' & _ & _ & _ & Hdelay' & _ & (T1 & T2 & _) & _).
  assert (delay' = delay) as -> by congruence. done.
Qed.

Lemma ToSionnaPathData_delay_and_distance_witness :
  ∃ out st',
    ToSionnaPathData (ext := Sample.externals) Sample.dense_store = Some (out, st')
    ∧ vec_at (SionnaPaths.timeDelays
                (PerType.get (SionnaPathData.paths out) SionnaPathType.Specular))
        (write_index Sample.dense_store 2)
      = Some (Sample.round_to_float (Sample.f64 2)).
Proof.
  eexists _, _. split; [vm_compute; reflexivity|].
  eapply (ToSionnaPathData_delay_and_distance (ext := Sample.externals)
            1 Sample.tx1 Sample.rx2 [Sample.three_paths] Sample.dense_store _ _
            2 0 1 PathType.LineOfSight);
    try (vm_compute; reflexivity).
  vm_compute. discriminate.
Defined.

(** X12.  The complete dense export of a store built by [AddPaths] holds,
    for every retained path and every interaction slot [ia] of the store,
    the stored point, normal and material of the path in that slot, at
    [ia] times the slot stride plus the write index of the path. *)
Theorem ToSionnaPathData_interaction_data {ext : Externals}
    (maxNumIa : N) (txs rxs : list vec3.t) (calls : list Batch.t)
    (st st' : PathStorage) (out : SionnaPathData.t)
    (k txID rxID : N) (ty : PathType.t) (ia : N) (d : InteractionData.t) :
  AddPaths_calls calls (PathStorage_new maxNumIa txs rxs) = Some st →
  N.of_nat (size (m_PathMap st)) < uint32_modulus →
  N.of_nat (size (m_PathMap st)) ≤ counter_max →
  ToSionnaPathData st = Some (out, st') →
  vec_at (m_TxIDs st) k = Some txID →
  vec_at (m_RxIDs st) k = Some rxID →
  vec_at (m_PathTypes st) k = Some ty →
  vec_at (m_InteractionData st) ia = Some d →
  let p := PerType.get (SionnaPathData.paths out) (GetSionnaPathType ty) in
  let stride := vec_size rxs * vec_size txs
                * PerType.get (m_MaxLinkPaths st) (GetSionnaPathType ty) in
  is_Some (vec_at (InteractionData.interactions d) k)
  ∧ vec_at (SionnaPaths.interactions p) (ia * stride + write_index st k)
    = vec_at (InteractionData.interactions d) k
  ∧ vec_at (SionnaPaths.normals p) (ia * stride + write_index st k)
    = vec_at (InteractionData.normals d) k
  ∧ vec_at (SionnaPaths.materials p) (ia * stride + write_index st k)
    = vec_at (InteractionData.materials d) k.
Proof.
  intros Hrun Hsmall Hcounters Hexport HtxID HrxID Hty Hd p stride.
  destruct (ToSionnaPathData_path_data _ _ _ _ _ _ _ _ _ _ _
              Hrun Hsmall Hcounters Hexport HtxID HrxID Hty)
    as (tx & rx & nI & delay & _ & _ & _ & _ & Hslots & _ & Hall).
  destruct (Hall ia) as [((pt & Hpt & Hpt') & (nm & Hnm & Hnm') & (mt & Hmt & Hmt') & _) _].
  { rewrite <- Hslots. by eapply vec_at_Some. }
  unfold stored_point, stored_normal, stored_material in Hpt, Hnm, Hmt.
  rewrite Hd in Hpt, Hnm, Hmt. simpl in Hpt, Hnm, Hmt.
  fold p stride in Hpt', Hnm', Hmt'.
  rewrite Hpt, Hnm, Hmt. done.
Qed.

Lemma ToSionnaPathData_interaction_data_witness :
  ∃ out st',
    ToSionnaPathData (ext := Sample.externals) Sample.dense_store = Some (out, st')
    ∧ vec_at (SionnaPaths.materials
                (PerType.get (SionnaPathData.paths out) SionnaPathType.Specular))
        (0 * (vec_size Sample.rx2 * vec_size Sample.tx1
              * PerType.get (m_MaxLinkPaths Sample.dense_store) SionnaPathType.Specular)
         + write_index Sample.dense_store 0)
      = Some 1.
Proof.
  destruct (ToSionnaPathData (ext := Sample.externals) Sample.dense_store)
    as [[out st']|] eqn:Hexport; [|vm_compute in Hexport; discriminate].
  exists out, st'. split; [done|].
  destruct (ToSionnaPathData_interaction_data (ext := Sample.externals)
              1 Sample.tx1 Sample.rx2 [Sample.three_paths] Sample.dense_store st' out
              0 0 0 PathType.Specular 0
              (default InteractionData.empty
                 (vec_at (m_InteractionData Sample.dense_store) 0)))
    as (_ & _ & _ & Hmaterial); try (vm_compute; reflexivity).
  - vm_compute. discriminate.
  - exact Hexport.
  - etrans; [exact Hmaterial|]. vm_compute. reflexivity.
Defined.

(** X13.  For a retained path with at least one interaction, the complete
    dense export of a store built by [AddPaths] holds, at the write index
    of the path, the departure vector from the transmitter to the stored
    point of interaction slot 0 and the arrival vector from the receiver
    to the stored point of the last interaction, and, in the incident-ray
    slot after the last interaction, the negated arrival vector. *)
Theorem ToSionnaPathData_path_with_interactions {ext : Externals}
    (maxNumIa : N) (txs rxs : list vec3.t) (calls : list Batch.t)
    (st st' : PathStorage) (out : SionnaPathData.t)
    (k txID rxID : N) (ty : PathType.t) (tx rx : vec3.t)
    (numInteractions : N) (point0 last : vec3.t) :
  AddPaths_calls calls (PathStorage_new maxNumIa txs rxs) = Some st →
  N.of_nat (size (m_PathMap st)) < uint32_modulus →
  N.of_nat (size (m_PathMap st)) ≤ counter_max →
  ToSionnaPathData st = Some (out, st') →
  vec_at (m_TxIDs st) k = Some txID →
  vec_at (m_RxIDs st) k = Some rxID →
  vec_at (m_PathTypes st) k = Some ty →
  vec_at (m_NumInteractions st) k = Some numInteractions →
  0 < numInteractions →
  vec_at txs txID = Some tx →
  vec_at rxs rxID = Some rx →
  stored_point (m_InteractionData st) 0 k = Some point0 →
  stored_point (m_InteractionData st) (numInteractions - 1) k = Some last →
  let p := PerType.get (SionnaPathData.paths out) (GetSionnaPathType ty) in
  let stride := vec_size rxs * vec_size txs
                * PerType.get (m_MaxLinkPaths st) (GetSionnaPathType ty) in
  vec_at (SionnaPaths.kTx p) (write_index st k) = Some (normalize (vec3.sub point0 tx))
  ∧ vec_at (SionnaPaths.kRx p) (write_index st k) = Some (normalize (vec3.sub last rx))
  ∧ vec_at (SionnaPaths.incidentRays p) (numInteractions * stride + write_index st k)
    = Some (vec3.neg (normalize (vec3.sub last rx))).
Proof.
  intros Hrun Hsmall Hcounters Hexport HtxID HrxID Hty HnI Hpos Htx Hrx Hfirst Hlast
    p stride.
  destruct (ToSionnaPathData_path_data _ _ _ _ _ _ _ _ _ _ _
              Hrun Hsmall Hcounters Hexport HtxID HrxID Hty)
    as (tx' & rx' & nI' & delay & Htx' & Hrx' & HnI' & _ & _ & Hpath & _).
  assert (tx' = tx) as -> by congruence. assert (rx' = rx) as -> by congruence.
  assert (nI' = numInteractions) as -> by congruence.
  destruct Hpath as (_ & _ & ktx & krx & T3 & T4 & T5 & _ & _ & _ & _ & Hends).
  fold p stride in T3, T4, T5.
  apply N.ltb_lt in Hpos. rewrite Hpos in Hends.
  destruct Hends as (first' & last' & Hfirst' & Hlast' & -> & ->).
  assert (first' = point0) as -> by congruence.
  assert (last' = last) as -> by congruence. done.
Qed.

Lemma ToSionnaPathData_path_with_interactions_witness :
  ∃ out st',
    ToSionnaPathData (ext := Sample.externals) Sample.dense_store = Some (out, st')
    ∧ vec_at (SionnaPaths.kTx
                (PerType.get (SionnaPathData.paths out) SionnaPathType.Specular))
        (write_index Sample.dense_store 0)
      = Some (Sample.glm_normalize
                (vec3.sub (Sample.point 5 1 1) (Sample.point 1 1 1))).
Proof.
  eexists _, _. split; [vm_compute; reflexivity|].
  eapply (ToSionnaPathData_path_with_interactions (ext := Sample.externals)
            1 Sample.tx1 Sample.rx2 [Sample.three_paths] Sample.dense_store _ _
            0 0 0 PathType.Specular (Sample.point 1 1 1) (Sample.point 9 1 1) 1
            (Sample.point 5 1 1) (Sample.point 5 1 1));
    try (vm_compute; reflexivity).
  vm_compute. discriminate.
Defined.

(** X14.  For every retained path, the angle arrays of the complete dense
    export of a store built by [AddPaths] are computed from the departure
    and arrival vectors stored at the same write index: the elevations are
    the arc cosines of the z components and the azimuths the two-argument
    arc tangents of the y and x components. *)
Theorem ToSionnaPathData_angles {ext : Externals}
    (maxNumIa : N) (txs rxs : list vec3.t) (calls : list Batch.t)
    (st st' : PathStorage) (out : SionnaPathData.t)
    (k txID rxID : N) (ty : PathType.t) :
  AddPaths_calls calls (PathStorage_new maxNumIa txs rxs) = Some st →
  N.of_nat (size (m_PathMap st)) < uint32_modulus →
  N.of_nat (size (m_PathMap st)) ≤ counter_max →
  ToSionnaPathData st = Some (out, st') →
  vec_at (m_TxIDs st) k = Some txID →
  vec_at (m_RxIDs st) k = Some rxID →
  vec_at (m_PathTypes st) k = Some ty →
  let p := PerType.get (SionnaPathData.paths out) (GetSionnaPathType ty) in
  ∃ ktx krx,
    vec_at (SionnaPaths.kTx p) (write_index st k) = Some ktx
    ∧ vec_at (SionnaPaths.kRx p) (write_index st k) = Some krx
    ∧ vec_at (SionnaPaths.aodElevation p) (write_index st k) = Some (acos (vec3.z ktx))
    ∧ vec_at (SionnaPaths.aodAzimuth p) (write_index st k)
      = Some (atan (vec3.y ktx) (vec3.x ktx))
    ∧ vec_at (SionnaPaths.aoaElevation p) (write_index st k) = Some (acos (vec3.z krx))
    ∧ vec_at (SionnaPaths.aoaAzimuth p) (write_index st k)
      = Some (atan (vec3.y krx) (vec3.x krx)).
Proof.
  intros Hrun Hsmall Hcounters Hexport HtxID HrxID Hty p.
  destruct (ToSionnaPathData_path_data _ _ _ _ _ _ _ _ _ _ _
              Hrun Hsmall Hcounters Hexport HtxID HrxID Hty)
    as (tx & rx & nI & delay & _ & _ & _ & _ & _ & Hpath & _).
  destruct Hpath as (_ & _ & ktx & krx & T3 & T4 & _ & T6 & T7 & T8 & T9 & _).
  exists ktx, krx. done.
Qed.

Lemma ToSionnaPathData_angles_witness :
  ∃ out st',
    ToSionnaPathData (ext := Sample.externals) Sample.dense_store = Some (out, st')
    ∧ ∃ ktx,
        vec_at (SionnaPaths.kTx
                  (PerType.get (SionnaPathData.paths out) SionnaPathType.Specular))
          (write_index Sample.dense_store 1) = Some ktx
        ∧ vec_at (SionnaPaths.aodElevation
                    (PerType.get (SionnaPathData.paths out) SionnaPathType.Specular))
            (write_index Sample.dense_store 1)
          = Some (acos (Externals := Sample.externals) (vec3.z ktx)).
Proof.
  destruct (ToSionnaPathData (ext := Sample.externals) Sample.dense_store)
    as [[out st']|] eqn:Hexport; [|vm_compute in Hexport; discriminate].
  exists out, st'. split; [done|].
  destruct (ToSionnaPathData_angles (ext := Sample.externals)
              1 Sample.tx1 Sample.rx2 [Sample.three_paths] Sample.dense_store st' out
              1 0 0 PathType.Specular)
    as (ktx & krx & HkTx & _ & Hangle & _); try (vm_compute; reflexivity).
  - vm_compute. discriminate.
  - exact Hexport.
  - exists ktx. split; [exact HkTx|exact Hangle].
Defined.

(** X15.  For interaction slot [ia] below the interaction count of a
    retained path (itself below 2^31), the complete dense export of a
    store built by [AddPaths] holds the chain of rays through the stored
    points of the path: the incident ray comes from the transmitter into
    slot 0 and from the point of the slot before into a later slot; the
    deflected ray goes to the point of the next slot, and to the receiver
    from the last interaction. *)
Theorem ToSionnaPathData_ray_chain {ext : Externals}
    (maxNumIa : N) (txs rxs : list vec3.t) (calls : list Batch.t)
    (st st' : PathStorage) (out : SionnaPathData.t)
    (k txID rxID : N) (ty : PathType.t) (tx rx : vec3.t)
    (numInteractions ia : N) (point : vec3.t) :
  AddPaths_calls calls (PathStorage_new maxNumIa txs rxs) = Some st →
  N.of_nat (size (m_PathMap st)) < uint32_modulus →
  N.of_nat (size (m_PathMap st)) ≤ counter_max →
  ToSionnaPathData st = Some (out, st') →
  vec_at (m_TxIDs st) k = Some txID →
  vec_at (m_RxIDs st) k = Some rxID →
  vec_at (m_PathTypes st) k = Some ty →
  vec_at (m_NumInteractions st) k = Some numInteractions →
  vec_at txs txID = Some tx →
  vec_at rxs rxID = Some rx →
  ia < numInteractions → numInteractions < 2 ^ 31 →
  stored_point (m_InteractionData st) ia k = Some point →
  let p := PerType.get (SionnaPathData.paths out) (GetSionnaPathType ty) in
  let position := ia * (vec_size rxs * vec_size txs
                        * PerType.get (m_MaxLinkPaths st) (GetSionnaPathType ty))
                  + write_index st k in
  (ia = 0 →
   vec_at (SionnaPaths.incidentRays p) position = Some (normalize (vec3.sub point tx)))
  ∧ (0 < ia →
     ∃ prev, stored_point (m_InteractionData st) (ia - 1) k = Some prev
             ∧ vec_at (SionnaPaths.incidentRays p) position
               = Some (normalize (vec3.sub point prev)))
  ∧ (ia + 1 < numInteractions →
     ∃ next, stored_point (m_InteractionData st) (ia + 1) k = Some next
             ∧ vec_at (SionnaPaths.deflectedRays p) position
               = Some (normalize (vec3.sub next point)))
  ∧ (ia + 1 = numInteractions →
     vec_at (SionnaPaths.deflectedRays p) position = Some (normalize (vec3.sub rx point))).
Proof.
  intros Hrun Hsmall Hcounters Hexport HtxID HrxID Hty HnI Htx Hrx Hia Hint Hpoint
    p position.
  destruct (ToSionnaPathData_path_data _ _ _ _ _ _ _ _ _ _ _
              Hrun Hsmall Hcounters Hexport HtxID HrxID Hty)
    as (tx' & rx' & nI' & delay & Htx' & Hrx' & HnI' & _ & Hslots & _ & Hall).
  assert (tx' = tx) as -> by congruence. assert (rx' = rx) as -> by congruence.
  assert (nI' = numInteractions) as -> by congruence.
  assert (Hslot : ia < maxNumIa).
  { unfold stored_point in Hpoint.
    destruct (vec_at (m_InteractionData st) ia) as [d|] eqn:Hd; [|done].
    rewrite <- Hslots. by eapply vec_at_Some. }
  destruct (Hall ia Hslot) as [(_ & _ & _ & df & Hdf & pt & Hpt & Hdeflected) Hincident].
  destruct Hincident as (inc & Hinc & pt' & Hpt' & Hincident); [lia|].
  fold p position in Hdf, Hinc.
  assert (pt = point) as -> by congruence. assert (pt' = point) as -> by congruence.
  rewrite !to_int32_small in Hdeflected by lia.
  split; [|split; [|split]].
  - intros ->. simpl in Hincident. by rewrite Hinc, Hincident.
  - intros Hpos. apply N.ltb_lt in Hpos. rewrite Hpos in Hincident.
    destruct Hincident as (prev & Hprev & ->). by exists prev.
  - intros Hnext.
    destruct (Z.ltb_spec (Z.of_N ia) (Z.of_N numInteractions - 1)) as [_|Hge]; [|lia].
    destruct Hdeflected as (next & Hnext' & ->). by exists next.
  - intros Hlast.
    destruct (Z.ltb_spec (Z.of_N ia) (Z.of_N numInteractions - 1)) as [Hlt|_]; [lia|].
    by rewrite Hdf, Hdeflected.
Qed.

Lemma ToSionnaPathData_ray_chain_witness :
  ∃ out st',
    ToSionnaPathData (ext := Sample.externals) Sample.dense_store = Some (out, st')
    ∧ vec_at (SionnaPaths.deflectedRays
                (PerType.get (SionnaPathData.paths out) SionnaPathType.Specular))
        (0 * (vec_size Sample.rx2 * vec_size Sample.tx1
              * PerType.get (m_MaxLinkPaths Sample.dense_store) SionnaPathType.Specular)
         + write_index Sample.dense_store 0)
      = Some (Sample.glm_normalize
                (vec3.sub (Sample.point 9 1 1) (Sample.point 5 1 1))).
Proof.
  destruct (ToSionnaPathData (ext := Sample.externals) Sample.dense_store)
    as [[out st']|] eqn:Hexport; [|vm_compute in Hexport; discriminate].
  exists out, st'. split; [done|].
  destruct (ToSionnaPathData_ray_chain (ext := Sample.externals)
              1 Sample.tx1 Sample.rx2 [Sample.three_paths] Sample.dense_store st' out
              0 0 0 PathType.Specular (Sample.point 1 1 1) (Sample.point 9 1 1) 1 0
              (Sample.point 5 1 1))
    as (_ & _ & _ & Hdeflected); try (vm_compute; reflexivity).
  - vm_compute. discriminate.
  - exact Hexport.
  - exact (Hdeflected eq_refl).
Defined.

(** ** AddPaths: what a new identity stores *)

(** X16.  On a store built by [AddPaths] with fewer than 2^32 identities,
    a candidate whose identity key is not in the store is stored in the
    next free slot [n] (the number of identities so far): the map gets the
    key with the candidate's delay and slot [n]; the per-path arrays hold
    the candidate's delay, endpoints, type and interaction count at [n];
    and every interaction slot holds at [n] the candidate's point, normal,
    label and material when it is below the candidate's interaction count,
    and the zero vector and the sentinel [~0u] from there on. *)
Theorem AddPath_new_identity_stored {ext : Externals}
    (maxNumIa : N) (txs rxs : list vec3.t) (calls : list Batch.t)
    (b : Batch.t) (pathIndex : N) (st st' : PathStorage)
    (hash : N) (pathInfo : PathInfo.t) :
  AddPaths_calls calls (PathStorage_new maxNumIa txs rxs) = Some st →
  N.of_nat (size (m_PathMap st)) < uint32_modulus →
  candidate maxNumIa b pathIndex = Some (hash, pathInfo) →
  m_PathMap st !! hash = None →
  AddPath (Batch.pathInfos b) (Batch.interactions b) (Batch.normals b)
    (Batch.labels b) (Batch.materials b) pathIndex st = Some st' →
  let n := N.of_nat (size (m_PathMap st)) in
  m_PathMap st' !! hash = Some (PathEntry.mk (PathInfo.timeDelay pathInfo) n)
  ∧ (vec_at (m_TimeDelays st') n = Some (PathInfo.timeDelay pathInfo)
     ∧ vec_at (m_TxIDs st') n = Some (PathInfo.txID pathInfo)
     ∧ vec_at (m_RxIDs st') n = Some (PathInfo.rxID pathInfo)
     ∧ vec_at (m_PathTypes st') n = Some (PathInfo.pathType pathInfo)
     ∧ vec_at (m_NumInteractions st') n = Some (PathInfo.numInteractions pathInfo))
  ∧ ∀ ia, ia < maxNumIa →
      ∃ d', vec_at (m_InteractionData st') ia = Some d'
        ∧ (ia < PathInfo.numInteractions pathInfo →
           is_Some (vec_at (InteractionData.labels d') n)
           ∧ vec_at (InteractionData.interactions d') n
             = vec_at (Batch.interactions b) (pathIndex * maxNumIa + ia)
           ∧ vec_at (InteractionData.normals d') n
             = vec_at (Batch.normals b) (pathIndex * maxNumIa + ia)
           ∧ vec_at (InteractionData.labels d') n
             = vec_at (Batch.labels b) (pathIndex * maxNumIa + ia)
           ∧ vec_at (InteractionData.materials d') n
             = vec_at (Batch.materials b) (pathIndex * maxNumIa + ia))
        ∧ (PathInfo.numInteractions pathInfo ≤ ia →
           vec_at (InteractionData.interactions d') n = Some (vec3.splat fzero)
           ∧ vec_at (InteractionData.normals d') n = Some (vec3.splat fzero)
           ∧ vec_at (InteractionData.labels d') n = Some all_bits_set
           ∧ vec_at (InteractionData.materials d') n = Some all_bits_set).
Proof.
  intros Hbuilt Hsmall Hcand Hnew Hrun n.
  apply AddPaths_calls_export_ready in Hbuilt as [(_ & Haligned & _) Hslots].
  destruct Haligned as (Hd & Htx & Hrx & Hty & Hni & Harrays).
  fold n in Hd, Htx, Hrx, Hty, Hni, Harrays.
  apply AddPath_outcomes in Hrun as (hash' & pathInfo' & Hcand' & Hout).
  rewrite Hslots, Hcand in Hcand'. injection Hcand' as <- <-.
  destruct Hout as [data counts pathCounts _ Hloop _ _ ->
                   |old data timeDelays numInteractions Hold _ _ _ _ _
                   |old Hold _ _]; [|congruence..].
  simpl. fold n.
  assert (Hn : to_uint32 n = n) by (unfold to_uint32; by apply N.mod_small).
  rewrite Hn, lookup_insert_eq. split; [done|]. split.
  - split; [rewrite <- Hd; apply vec_at_emplace_back_new|].
    split; [rewrite <- Htx; apply vec_at_emplace_back_new|].
    split; [rewrite <- Hrx; apply vec_at_emplace_back_new|].
    split; [rewrite <- Hty; apply vec_at_emplace_back_new|].
    rewrite <- Hni; apply vec_at_emplace_back_new.
  - intros ia Hia. apply emplace_loop in Hloop as [_ Hdone]. rewrite Hslots in Hdone.
    destruct (vec_at_is_Some (m_InteractionData st) ia) as [d Hdata]; [lia|].
    destruct (Hdone ia d Hdata) as (d' & Hd' & p & nm & l & m & -> & Hvalues).
    destruct (Harrays ia d Hdata) as (A1 & A2 & A3 & A4).
    eexists. split; [exact Hd'|]. simpl.
    assert (V1 : vec_at (emplace_back (InteractionData.interactions d) p) n = Some p)
      by (rewrite <- A1; apply vec_at_emplace_back_new).
    assert (V2 : vec_at (emplace_back (InteractionData.normals d) nm) n = Some nm)
      by (rewrite <- A2; apply vec_at_emplace_back_new).
    assert (V3 : vec_at (emplace_back (InteractionData.labels d) l) n = Some l)
      by (rewrite <- A3; apply vec_at_emplace_back_new).
    assert (V4 : vec_at (emplace_back (InteractionData.materials d) m) n = Some m)
      by (rewrite <- A4; apply vec_at_emplace_back_new).
    rewrite V1, V2, V3, V4.
    split.
    + intros Hlt. apply N.ltb_lt in Hlt. rewrite Hlt in Hvalues.
      destruct Hvalues as (-> & -> & -> & ->). done.
    + intros Hge. apply N.ltb_ge in Hge. rewrite Hge in Hvalues.
      destruct Hvalues as (-> & -> & -> & ->). done.
Qed.

Lemma AddPath_new_identity_stored_witness :
  ∃ st',
    AddPath (ext := Sample.externals)
      (Batch.pathInfos Sample.three_paths) (Batch.interactions Sample.three_paths)
      (Batch.normals Sample.three_paths) (Batch.labels Sample.three_paths)
      (Batch.materials Sample.three_paths) 0 Sample.retained_one = Some st'
    ∧ vec_at (m_TxIDs st') 1 = Some 0.
Proof.
  destruct (AddPath (ext := Sample.externals)
              (Batch.pathInfos Sample.three_paths) (Batch.interactions Sample.three_paths)
              (Batch.normals Sample.three_paths) (Batch.labels Sample.three_paths)
              (Batch.materials Sample.three_paths) 0 Sample.retained_one)
    as [st'|] eqn:Hrun; [|vm_compute in Hrun; discriminate].
  exists st'. split; [reflexivity|].
  edestruct (AddPath_new_identity_stored (ext := Sample.externals)
               1 Sample.tx1 Sample.rx1 [Sample.first_of_pair] Sample.three_paths 0
               Sample.retained_one st')
    as (_ & (_ & Htx & _) & _).
  - vm_compute. reflexivity.
  - vm_compute. reflexivity.
  - vm_compute. reflexivity.
  - vm_compute. reflexivity.
  - exact Hrun.
  - exact Htx.
Defined.

(** ** The dense export consumes the path counters *)

Lemma for_upto_first {S} (body : N → S → option S) (n : N) (s s' : S) :
  0 < n → for_upto n body s = Some s' → is_Some (body 0 s).
Proof.
  unfold for_upto. intros Hn Hrun.
  destruct (N.to_nat n) as [|count] eqn:Hcount; [lia|].
  simpl in Hrun. by destruct (body 0 s).
Qed.

Lemma vec_size_replicate {A} (n : N) (x : A) :
  vec_size (replicate (N.to_nat n) x) = n.
Proof. unfold vec_size. by rewrite length_replicate, N2Nat.id. Qed.

(** X17.  The dense export cannot be run twice on one store.  After a
    complete export of a store built by [AddPaths] that holds at least one
    path, every path counter is 0, so a second export decrements a counter
    below zero and takes the wrapped value as the link-local slot; when no
    array of the output has more than [counter_max] elements, its first
    write is past the end of its array and the export is undefined. *)
Theorem ToSionnaPathData_second_run_undefined {ext : Externals}
    (maxNumIa : N) (txs rxs : list vec3.t) (calls : list Batch.t)
    (st st' : PathStorage) (out : SionnaPathData.t) :
  AddPaths_calls calls (PathStorage_new maxNumIa txs rxs) = Some st →
  N.of_nat (size (m_PathMap st)) < uint32_modulus →
  N.of_nat (size (m_PathMap st)) ≤ counter_max →
  0 < N.of_nat (size (m_PathMap st)) →
  (∀ c, (maxNumIa + 1)
        * (vec_size rxs * vec_size txs * PerType.get (m_MaxLinkPaths st) c)
        ≤ counter_max) →
  ToSionnaPathData st = Some (out, st') →
  ToSionnaPathData st' = None.
Proof.
  intros Hrun Hsmall Hcounters Hsome Hsizes Hexport.
  destruct (ToSionnaPathData_exported _ _ _ _ _ _ _ Hrun Hsmall Hcounters Hexport)
    as (_ & Htxs & Hrxs & Hrows & Hexp & _).
  apply AddPaths_calls_dense_ready in Hrun as ([Haligned _] & _ & _ & _ & Hmax).
  destruct Haligned as (_ & Hn & _).
  destruct Hexp as (Hsame & Htable & _). simpl in Hsame, Htable.
  destruct Hsame as (E1 & E2 & E3 & E4 & E5 & E6 & E7 & E8 & E9 & E10 & E11).
  destruct (ToSionnaPathData st') as [[out2 st2]|] eqn:Hagain; [|done]. exfalso.
  unfold ToSionnaPathData in Hagain. cbv zeta in Hagain.
  destruct (for_upto _ _ _) as [s2|] eqn:Hloop; [|done]. clear Hagain.
  rewrite E8, Hn in Hloop. unfold to_uint32 in Hloop.
  rewrite N.mod_small in Hloop by done.
  apply for_upto_first in Hloop as [[st1 out1] Hfirst]; [|done].
  apply export_path_values in Hfirst
    as (ty & txID & rxID & tx & rx & nI & counts & p1 & p' & _ & _ & _ & _ & _ & _
        & Hat & _ & Hinner & Hwrite).
  assert (Hzero : PerType.get counts (GetSionnaPathType ty) = 0).
  { rewrite (Htable _ _ _ Hat). rewrite drop_ge; [done|].
    unfold vec_size in Hrows. lia. }
  rewrite Hzero in Hinner, Hwrite.
  assert (Hwrap : counter_decr 0 = counter_max) by done.
  rewrite Hwrap in Hinner, Hwrite.
  rewrite ?E1, ?E3, ?E4, ?E5, ?Hmax, ?Htxs, ?Hrxs in Hinner.
  rewrite ?E1, ?E3, ?E4, ?E5, ?Hmax, ?Htxs, ?Hrxs in Hwrite.
  set (cls := GetSionnaPathType ty) in *.
  set (maxLinkPaths := PerType.get (m_MaxLinkPaths st) cls) in *.
  set (stride := vec_size rxs * vec_size txs * maxLinkPaths) in *.
  assert (Hreserved : PerType.get
                        (SionnaPathData.paths
                           (ReservePaths txs rxs maxNumIa (m_MaxLinkPaths st))) cls
                      = reserve_class maxNumIa (vec_size rxs) (vec_size txs) maxLinkPaths).
  { by destruct cls. }
  rewrite Hreserved in Hinner.
  pose proof (sized_reserve_class maxNumIa (vec_size rxs) (vec_size txs) maxLinkPaths)
    as (S1 & _ & _ & _ & _ & S6 & _).
  fold stride in S1, S6. specialize (Hsizes cls). fold maxLinkPaths stride in Hsizes.
  destruct (decide (maxNumIa = 0)) as [Hnone|Hslots].
  - rewrite Hnone in Hinner, S6. unfold for_upto in Hinner. simpl in Hinner.
    injection Hinner as <-.
    apply export_path_data_values in Hwrite
      as (_ & delay & ktx & krx & _ & Hset & _).
    apply vec_set_Some in Hset as [Hrange _]. lia.
  - apply for_upto_first in Hinner as [p2 Hbody]; [|lia].
    unfold export_interaction in Hbody. cbv zeta in Hbody.
    destruct (vec_at (m_InteractionData st') 0) as [d|]; [|done]. simpl in Hbody.
    destruct (vec_at (InteractionData.interactions d) 0) as [iaPoint|]; [|done].
    simpl in Hbody.
    match type of Hbody with
    | mbind _ ?m = Some _ => destruct m as [interactions|] eqn:Hset; [|done]
    end.
    apply vec_set_Some in Hset as [Hrange _].
    rewrite vec_size_replicate in Hrange.
    assert (maxNumIa * stride ≤ (maxNumIa + 1) * stride)
      by (apply N.mul_le_mono_r; lia).
    unfold stride in *. lia.
Qed.

Lemma ToSionnaPathData_second_run_undefined_witness :
  ∃ out st',
    ToSionnaPathData (ext := Sample.externals) Sample.dense_store = Some (out, st')
    ∧ ToSionnaPathData (ext := Sample.externals) st' = None.
Proof.
  eexists _, _. split; [vm_compute; reflexivity|].
  eapply (ToSionnaPathData_second_run_undefined (ext := Sample.externals)
            1 Sample.tx1 Sample.rx2 [Sample.three_paths] Sample.dense_store).
  - vm_compute. reflexivity.
  - vm_compute. reflexivity.
  - vm_compute. discriminate.
  - vm_compute. reflexivity.
  - intros c. destruct c; vm_compute; discriminate.
  - vm_compute. reflexivity.
Defined.

(** ** LinkPointNodes: the primitives and their chains *)

Lemma count_if_none {A} (f : A → bool) (l : list A) :
  (∀ x, x ∈ l → f x = false) → count_if f l = 0.
Proof.
  induction l as [|x l IH]; intros Hnone; simpl; [done|].
  rewrite (Hnone x), IH; [done| |]; set_solver.
Qed.

Lemma count_if_take_succ {A} (f : A → bool) (l : list A) (j : N) x :
  vec_at l j = Some x →
  count_if f (take (N.to_nat (j + 1)) l)
  = count_if f (take (N.to_nat j) l) + (if f x then 1 else 0).
Proof.
  intros Hx. unfold vec_at in Hx.
  replace (N.to_nat (j + 1)) with (Datatypes.S (N.to_nat j)) by lia.
  rewrite (take_S_r _ _ _ Hx), count_if_app. simpl. lia.
Qed.

Lemma count_if_pos {A} (f : A → bool) (l : list A) i x :
  vec_at l i = Some x → f x = true → 0 < count_if f l.
Proof.
  unfold vec_at. generalize (N.to_nat i). clear i.
  induction l as [|y l IH]; intros [|i] Hx Hf; simpl in *; try done.
  - injection Hx as ->. rewrite Hf. lia.
  - specialize (IH i Hx Hf). destruct (f y); lia.
Qed.

Section Linking.
Context {ext : Externals}.

Lemma primitive_ids_at info (pointNodes : list PointNode.t) i node :
  vec_at pointNodes i = Some node →
  vec_at (primitive_ids info pointNodes) i = Some (node_id info node).
Proof.
  unfold vec_at, primitive_ids. intros Hnode. by rewrite list_lookup_fmap, Hnode.
Qed.

Lemma linked_upto_start info (pointNodes : list PointNode.t) :
  linked_upto info pointNodes 0 (mkLinkState [] ∅ pointNodes 0).
Proof.
  unfold linked_upto. simpl.
  split; [done|]. split; [done|]. split; [intros i node Hi; lia|].
  split; [done|]. split; [done|].
  split; [intros id slot Hid; by rewrite lookup_empty in Hid|].
  split; [intros k id Hk; lia|]. split; [intros slot Hslot; lia|].
  intros id id' slot Hid. by rewrite lookup_empty in Hid.
Qed.

Lemma linked_upto_step info (pointNodes : list PointNode.t) j s :
  vec_size pointNodes < uint32_modulus →
  j < vec_size pointNodes →
  linked_upto info pointNodes j s →
  ∃ s', link_point_node info j s = Some s' ∧ linked_upto info pointNodes (j + 1) s'.
Proof.
  intros Hsmall Hj (L1 & L2 & L3 & L4 & L4' & L5 & L6 & L7 & L8).
  cbv zeta in L3, L5, L6.
  set (ids := primitive_ids info pointNodes) in *.
  destruct (vec_at_is_Some pointNodes j Hj) as [node Hnode].
  pose proof (primitive_ids_at info _ _ _ Hnode) as Hid. fold ids in Hid.
  set (id := node_id info node) in *.
  assert (Hsame_node : ∀ i nd next, vec_at pointNodes i = Some nd →
            vec_at (<[N.to_nat j := relinked node next]> (linkedNodes s)) i
            = if decide (i = j) then Some (relinked node next)
              else vec_at (linkedNodes s) i).
  { intros i nd next Hnd. unfold vec_at. case_decide as Hi.
    - subst i. apply list_lookup_insert_eq. unfold vec_size in L1, Hj. lia.
    - apply list_lookup_insert_ne. lia. }
  unfold relinked in Hsame_node.
  unfold link_point_node. rewrite (L2 j) by lia. rewrite Hnode. simpl.
  change (N.lor (N.shiftl (WorldToVoxelID (PointNode.position node) info) 32 mod 2 ^ 64)
            (PointNode.label node)) with id.
  destruct (primitiveHashMap s !! id) as [slot|] eqn:Hslot.
  - (* a node of a known primitive *)
    destruct (L5 id slot Hslot) as (Hrange & head & count & Hparent & Hhead & Hidh
                                    & Hlast & Hcount).
    rewrite Hparent. simpl.
    rewrite vec_set_in_range by lia. simpl.
    rewrite vec_set_in_range by lia. simpl.
    eexists. split; [done|].
    assert (Hle : count ≤ j).
    { rewrite Hcount.
      pose proof (count_if_le_length (N.eqb id) (take (N.to_nat j) ids)) as Hlen.
      unfold vec_size in Hlen. rewrite length_take in Hlen. lia. }
    assert (Hwrap : to_uint32 (count + 1) = count + 1)
      by (unfold to_uint32; apply N.mod_small; lia).
    rewrite Hwrap.
    unfold linked_upto. simpl. fold ids.
    split; [unfold vec_size in *; by rewrite length_insert|].
    split; [intros i Hi; rewrite <- L2 by lia; unfold vec_at;
            apply list_lookup_insert_ne; lia|].
    split.
    { intros i nd Hi Hnd. rewrite (Hsame_node i nd head Hnd).
      case_decide as Hij.
      - subst i. assert (nd = node) as -> by congruence.
        exists head. split; [done|]. right.
        split; [done|]. split; [by rewrite Hidh, Hid|].
        intros k Hk Hk'. rewrite Hid. by apply Hlast.
      - apply L3; [lia|done]. }
    split; [unfold vec_size in *; by rewrite length_insert|].
    split; [lia|].
    split.
    { intros id' slot' Hslot'. 
      destruct (L5 id' slot' Hslot') as (Hrange' & head' & count' & Hparent' & Hhead'
                                         & Hidh' & Hlast' & Hcount').
      split; [done|].
      destruct (decide (slot' = slot)) as [->|Hne].
      - assert (id' = id) as -> by (by eapply L8).
        exists j, (count + 1). split.
        + unfold vec_at. apply list_lookup_insert_eq. unfold vec_size in *. lia.
        + split; [lia|]. split; [done|]. split; [intros k Hk Hk'; lia|].
          rewrite (count_if_take_succ _ _ _ _ Hid), N.eqb_refl. lia.
      - exists head', count'. split.
        + rewrite <- Hparent'. unfold vec_at. apply list_lookup_insert_ne. lia.
        + split; [lia|]. split; [done|]. split.
          * intros k Hk Hk'. destruct (decide (k = j)) as [->|Hkj].
            -- rewrite Hid. intros [= Heq]. apply Hne. subst id'.
               rewrite Hslot in Hslot'. by injection Hslot' as <-.
            -- apply Hlast'; lia.
          * rewrite (count_if_take_succ _ _ _ _ Hid).
            destruct (N.eqb_spec id' id) as [->|_]; [|lia].
            rewrite Hslot in Hslot'. by injection Hslot' as <-. }
    split.
    { intros k id' Hk Hid'. destruct (decide (k = j)) as [->|Hkj].
      - rewrite Hid in Hid'. injection Hid' as <-. by rewrite Hslot.
      - apply (L6 k); [lia|done]. }
    split; [done|done].
  - (* the first node of a primitive *)
    rewrite L4. rewrite vec_at_emplace_back_new. simpl.
    rewrite (vec_set_in_range (linkedNodes s)) by lia. simpl.
    rewrite (vec_set_in_range (emplace_back _ _))
      by (rewrite vec_size_emplace_back; lia).
    simpl.
    eexists. split; [done|].
    assert (Hnew : ∀ k, k < j → vec_at ids k ≠ Some id).
    { intros k Hk Hidk. destruct (L6 k id Hk Hidk) as [slot' Hslot']. congruence. }
    assert (Hwrap : to_uint32 (vec_size (voxelNodeIndices s) + 1)
                    = vec_size (voxelNodeIndices s) + 1)
      by (unfold to_uint32; apply N.mod_small; lia).
    rewrite Hwrap.
    assert (Hone : to_uint32 (0 + 1) = 1) by done. rewrite Hone.
    unfold linked_upto. simpl. fold ids.
    assert (Hsize : vec_size (<[N.to_nat (vec_size (voxelNodeIndices s)) := (j, 1)]>
                                (emplace_back (voxelNodeIndices s) (InvalidPointIndex, 0)))
                    = vec_size (voxelNodeIndices s) + 1).
    { unfold vec_size, emplace_back. rewrite length_insert, length_app. simpl. lia. }
    split; [unfold vec_size in *; by rewrite length_insert|].
    split; [intros i Hi; rewrite <- L2 by lia; unfold vec_at;
            apply list_lookup_insert_ne; lia|].
    split.
    { intros i nd Hi Hnd. rewrite (Hsame_node i nd InvalidPointIndex Hnd).
      case_decide as Hij.
      - subst i. assert (nd = node) as -> by congruence.
        exists InvalidPointIndex. split; [done|]. left.
        split; [done|]. intros k Hk. rewrite Hid. by apply Hnew.
      - apply L3; [lia|done]. }
    split; [by rewrite Hsize|]. split; [lia|].
    split.
    { intros id' slot' Hslot'.
      destruct (decide (id' = id)) as [->|Hne].
      - rewrite lookup_insert_eq in Hslot'. injection Hslot' as <-.
        split; [lia|]. exists j, 1. split.
        + unfold vec_at. apply list_lookup_insert_eq.
          unfold emplace_back. rewrite length_app. simpl. unfold vec_size. lia.
        + split; [lia|]. split; [done|]. split; [intros k Hk Hk'; lia|].
          rewrite (count_if_take_succ _ _ _ _ Hid), N.eqb_refl.
          rewrite count_if_none; [done|].
          intros x Hx. apply list_elem_of_lookup in Hx as [k Hk].
          apply lookup_take_Some in Hk as [Hk Hlt].
          apply N.eqb_neq. intros <-.
          apply (Hnew (N.of_nat k)); [lia|]. unfold vec_at. by rewrite Nat2N.id.
      - rewrite lookup_insert_ne in Hslot' by done.
        destruct (L5 id' slot' Hslot') as (Hrange' & head' & count' & Hparent' & Hhead'
                                           & Hidh' & Hlast' & Hcount').
        split; [lia|]. exists head', count'. split.
        + rewrite <- Hparent'. unfold vec_at.
          rewrite list_lookup_insert_ne by lia.
          unfold emplace_back. apply lookup_app_l. unfold vec_size in *. lia.
        + split; [lia|]. split; [done|]. split.
          * intros k Hk Hk'. destruct (decide (k = j)) as [->|Hkj].
            -- rewrite Hid. congruence.
            -- apply Hlast'; lia.
          * rewrite (count_if_take_succ _ _ _ _ Hid).
            destruct (N.eqb_spec id' id) as [|_]; [done|lia]. }
    split.
    { intros k id' Hk Hid'. destruct (decide (id' = id)) as [->|Hne].
      - by rewrite lookup_insert_eq.
      - rewrite lookup_insert_ne by done. apply (L6 k); [|done].
        destruct (decide (k = j)) as [->|Hkj]; [congruence|lia]. }
    split.
    { intros slot' Hslot'.
      destruct (decide (slot' = vec_size (voxelNodeIndices s))) as [->|Hne].
      - exists id. by rewrite lookup_insert_eq.
      - destruct (L7 slot') as [id' Hid']; [lia|]. exists id'.
        rewrite lookup_insert_ne; [done|]. intros <-. congruence. }
    intros id1 id2 slot' H1 H2.
    destruct (decide (id1 = id)) as [->|Hne1]; destruct (decide (id2 = id)) as [->|Hne2];
      [done| | |].
    + rewrite lookup_insert_eq in H1. injection H1 as <-.
      rewrite lookup_insert_ne in H2 by done.
      destruct (L5 _ _ H2) as [Hlt _]. lia.
    + rewrite lookup_insert_eq in H2. injection H2 as <-.
      rewrite lookup_insert_ne in H1 by done.
      destruct (L5 _ _ H1) as [Hlt _]. lia.
    + rewrite lookup_insert_ne in H1, H2 by done. by eapply L8.
Qed.
End Linking.

Section LinkingRun.
Context {ext : Externals}.

Lemma LinkPointNodes_linked (pointNodes : list PointNode.t) env :
  m_IeCount env = 0 → vec_size pointNodes < uint32_modulus →
  ∃ s, LinkPointNodes pointNodes env
       = Some (voxelNodeIndices s, linkedNodes s,
               {| m_Aabb := m_Aabb env;
                  m_VoxelWorldInfo := m_VoxelWorldInfo env;
                  m_IeCount := ieCount s;
                  m_PointCount := m_PointCount env;
                  m_AccelerationStructureValid := m_AccelerationStructureValid env;
                  events := events env |})
       ∧ linked_upto (m_VoxelWorldInfo env) pointNodes (vec_size pointNodes) s.
Proof.
  intros Hfresh Hsmall. unfold LinkPointNodes. rewrite Hfresh.
  destruct (for_upto_defined (linked_upto (m_VoxelWorldInfo env) pointNodes)
              (link_point_node (m_VoxelWorldInfo env)) (vec_size pointNodes)
              (mkLinkState [] ∅ pointNodes 0)) as (s & -> & Hlinked).
  - apply linked_upto_start.
  - intros j t Hj Hlinked. by apply linked_upto_step.
  - exists s. done.
Qed.

Lemma primitive_ids_inv info (pointNodes : list PointNode.t) i id :
  vec_at (primitive_ids info pointNodes) i = Some id →
  ∃ node, vec_at pointNodes i = Some node ∧ node_id info node = id.
Proof.
  unfold vec_at, primitive_ids. rewrite list_lookup_fmap.
  destruct (pointNodes !! N.to_nat i) as [node|]; [|done].
  intros [= <-]. by exists node.
Qed.
End LinkingRun.

(** X18.  On an environment whose primitive counter is 0 and for fewer
    than 2^32 nodes, [LinkPointNodes] is defined (its [at] never throws);
    it changes no node but in its link, and the link of every node is the
    index of the closest earlier node with the same primitive key (voxel
    and label), or the invalid index when the node is the first of its
    primitive. *)
Theorem LinkPointNodes_links_each_primitive {ext : Externals}
    (pointNodes : list PointNode.t) (env : PointCloudEnvironment) :
  m_IeCount env = 0 → vec_size pointNodes < uint32_modulus →
  let key := node_id (m_VoxelWorldInfo env) in
  ∃ voxelNodeIndices linked env',
    LinkPointNodes pointNodes env = Some (voxelNodeIndices, linked, env')
    ∧ vec_size linked = vec_size pointNodes
    ∧ ∀ i node, vec_at pointNodes i = Some node →
        ∃ next,
          vec_at linked i = Some (relinked node next)
          ∧ ((next = InvalidPointIndex
              ∧ ∀ k earlier, k < i → vec_at pointNodes k = Some earlier →
                  key earlier ≠ key node)
             ∨ (next < i
                ∧ (∃ previous, vec_at pointNodes next = Some previous
                               ∧ key previous = key node)
                ∧ ∀ k between, next < k → k < i →
                    vec_at pointNodes k = Some between → key between ≠ key node)).
Proof.
  intros Hfresh Hsmall key.
  destruct (LinkPointNodes_linked pointNodes env Hfresh Hsmall)
    as (s & Hrun & L1 & _ & L3 & _).
  eexists _, _, _. split; [exact Hrun|]. split; [done|].
  intros i node Hnode.
  destruct (L3 i node) as (next & Hnext & Hlink); [by eapply vec_at_Some|done|].
  exists next. split; [done|].
  pose proof (primitive_ids_at (m_VoxelWorldInfo env) _ _ _ Hnode) as Hid.
  destruct Hlink as [[-> Hnone]|(Hlt & Hsame & Hnone)]; [left|right].
  - split; [done|]. intros k earlier Hk Hearlier Hkey.
    apply (Hnone k Hk). rewrite Hid.
    rewrite (primitive_ids_at _ _ _ _ Hearlier). by f_equal.
  - split; [done|]. split.
    + rewrite Hid in Hsame. apply primitive_ids_inv in Hsame as (previous & Hp & Hkey).
      by exists previous.
    + intros k between Hk Hk' Hbetween Hkey.
      apply (Hnone k Hk Hk'). rewrite Hid.
      rewrite (primitive_ids_at _ _ _ _ Hbetween). by f_equal.
Qed.

(** X19.  Under the same conditions the table that [LinkPointNodes]
    returns has one entry per primitive and the primitive counter of the
    environment is its length: every entry holds the index of the last
    node of a primitive and the number of nodes of that primitive, which is
    not zero; every node belongs to the primitive of an entry; and two
    entries never stand for the same primitive. *)
Theorem LinkPointNodes_primitive_table {ext : Externals}
    (pointNodes : list PointNode.t) (env : PointCloudEnvironment) :
  m_IeCount env = 0 → vec_size pointNodes < uint32_modulus →
  let key := node_id (m_VoxelWorldInfo env) in
  ∃ voxelNodeIndices linked env',
    LinkPointNodes pointNodes env = Some (voxelNodeIndices, linked, env')
    ∧ m_IeCount env' = vec_size voxelNodeIndices
    ∧ (∀ slot, slot < vec_size voxelNodeIndices →
         ∃ head count last,
           vec_at voxelNodeIndices slot = Some (head, count)
           ∧ vec_at pointNodes head = Some last
           ∧ (∀ k later, head < k → vec_at pointNodes k = Some later →
                key later ≠ key last)
           ∧ count = count_if (N.eqb (key last)) (key <$> pointNodes)
           ∧ 0 < count)
    ∧ (∀ i node, vec_at pointNodes i = Some node →
         ∃ slot head count last,
           vec_at voxelNodeIndices slot = Some (head, count)
           ∧ vec_at pointNodes head = Some last
           ∧ key last = key node)
    ∧ (∀ slot slot' head head' count count' last last',
         vec_at voxelNodeIndices slot = Some (head, count) →
         vec_at voxelNodeIndices slot' = Some (head', count') →
         vec_at pointNodes head = Some last →
         vec_at pointNodes head' = Some last' →
         key last = key last' → slot = slot').
Proof.
  intros Hfresh Hsmall key.
  destruct (LinkPointNodes_linked pointNodes env Hfresh Hsmall)
    as (s & Hrun & _ & _ & _ & L4 & _ & L5 & L6 & L7 & L8).
  cbv zeta in L5, L6.
  set (ids := primitive_ids (m_VoxelWorldInfo env) pointNodes) in *.
  assert (Hentry : ∀ slot, slot < vec_size (voxelNodeIndices s) →
            ∃ id head count last,
              primitiveHashMap s !! id = Some slot
              ∧ vec_at (voxelNodeIndices s) slot = Some (head, count)
              ∧ vec_at pointNodes head = Some last ∧ key last = id
              ∧ (∀ k, head < k → k < vec_size pointNodes → vec_at ids k ≠ Some id)
              ∧ count = count_if (N.eqb id) ids).
  { intros slot Hslot. destruct (L7 slot) as [id Hid]; [by rewrite L4|].
    destruct (L5 id slot Hid)
      as (_ & head & count & Hparent & Hhead & Hidh & Hlast & Hcount).
    apply primitive_ids_inv in Hidh as (last & Hlast' & Hkey).
    exists id, head, count, last. do 5 (split; [done|]).
    rewrite Hcount. f_equal. apply take_ge.
    unfold ids, primitive_ids, vec_size. rewrite length_fmap. lia. }
  eexists _, _, _. split; [exact Hrun|]. simpl. split; [done|]. split; [|split].
  - intros slot Hslot.
    destruct (Hentry slot Hslot)
      as (id & head & count & last & Hid & Hparent & Hlast & Hkey & Hafter & Hcount).
    exists head, count, last. split; [done|]. split; [done|]. split; [|split].
    + intros k later Hk Hlater Heq. apply (Hafter k Hk); [by eapply vec_at_Some|].
      unfold ids. rewrite (primitive_ids_at _ _ _ _ Hlater). f_equal.
      unfold key in *. congruence.
    + by rewrite Hkey.
    + rewrite Hcount.
      pose proof (primitive_ids_at (m_VoxelWorldInfo env) _ _ _ Hlast) as Hidl.
      fold ids key in Hidl. rewrite Hkey in Hidl.
      apply (count_if_pos _ _ _ _ Hidl), N.eqb_refl.
  - intros i node Hnode.
    pose proof (primitive_ids_at (m_VoxelWorldInfo env) _ _ _ Hnode) as Hid.
    destruct (L6 i _ ltac:(by eapply vec_at_Some) Hid) as [slot Hslot].
    destruct (L5 _ slot Hslot)
      as (_ & head & count & Hparent & Hhead & Hidh & _).
    apply primitive_ids_inv in Hidh as (last & Hlast & Hkey).
    by exists slot, head, count, last.
  - intros slot slot' head head' count count' last last' Hs Hs' Hl Hl' Hkey.
    destruct (Hentry slot ltac:(by eapply vec_at_Some))
      as (id & h & c & l & Hid & Hparent & Hlast & Hk & _).
    destruct (Hentry slot' ltac:(by eapply vec_at_Some))
      as (id' & h' & c' & l' & Hid' & Hparent' & Hlast' & Hk' & _).
    assert (id = id') by congruence. subst id'. congruence.
Qed.

Lemma LinkPointNodes_links_each_primitive_witness :
  is_Some (LinkPointNodes (ext := Sample.externals) SampleCloud.three_nodes Sample.env0).
Proof.
  destruct (LinkPointNodes_links_each_primitive (ext := Sample.externals)
              SampleCloud.three_nodes Sample.env0)
    as (indices & linked & env' & Hrun & _).
  - vm_compute. reflexivity.
  - vm_compute. reflexivity.
  - rewrite Hrun. by eexists.
Defined.

Lemma LinkPointNodes_primitive_table_witness :
  ∃ voxelNodeIndices linked env',
    LinkPointNodes (ext := Sample.externals) SampleCloud.three_nodes Sample.env0
    = Some (voxelNodeIndices, linked, env')
    ∧ m_IeCount env' = vec_size voxelNodeIndices.
Proof.
  destruct (LinkPointNodes_primitive_table (ext := Sample.externals)
              SampleCloud.three_nodes Sample.env0)
    as (indices & linked & env' & Hrun & Hcount & _).
  - vm_compute. reflexivity.
  - vm_compute. reflexivity.
  - exists indices, linked, env'. split; [exact Hrun|exact Hcount].
Defined.

(** ** Point cloud: loading, linking and initialising *)

Section CloudFacts.
Context {ext : Externals}.

Lemma LoadPoints_nodes (points : list PointData.t) numPoints env nodes env' :
  LoadPoints points numPoints env = Some (nodes, env') →
  vec_size nodes = numPoints
  ∧ ∀ i, i < numPoints →
      ∃ point, vec_at points i = Some point
               ∧ vec_at nodes i
                 = Some (PointNode.mk (PointData.position point) (PointData.normal point)
                           (PointData.label point) (PointData.material point)
                           InvalidPointIndex).
Proof.
  unfold LoadPoints. intros Hload.
  destruct (vec_at points 0) as [point0|]; [|done]. simpl in Hload.
  destruct (for_upto _ _ _) as [r|] eqn:Hloop; [|done]. simpl in Hload.
  injection Hload as <- _.
  eapply (for_upto_invariant
            (λ j (s : list PointNode.t * Aabb.t),
               vec_size s.1 = j
               ∧ ∀ i, i < j →
                   ∃ point, vec_at points i = Some point
                            ∧ vec_at s.1 i
                              = Some (PointNode.mk (PointData.position point)
                                        (PointData.normal point) (PointData.label point)
                                        (PointData.material point) InvalidPointIndex)));
    [| |exact Hloop].
  - split; [done|]. intros i Hi. lia.
  - intros j s s' Hj [Hsize Hdone] Hbody.
    destruct (vec_at points j) as [point|] eqn:Hpoint; [|done].
    simpl in Hbody. injection Hbody as <-. simpl.
    split; [rewrite vec_size_emplace_back; lia|].
    intros i Hi. destruct (decide (i = j)) as [->|Hne].
    + exists point. split; [done|]. rewrite <- Hsize. apply vec_at_emplace_back_new.
    + destruct (Hdone i) as (point' & Hpoint' & Hnode); [lia|].
      exists point'. split; [done|]. rewrite vec_at_emplace_back_old by lia. done.
Qed.

Lemma LinkPointNodes_used (pointNodes : list PointNode.t) env :
  m_IeCount env ≠ 0 → 0 < vec_size pointNodes →
  LinkPointNodes pointNodes env = None.
Proof.
  intros Hused Hsome. unfold LinkPointNodes.
  destruct (for_upto _ _ _) as [s|] eqn:Hloop; [|done]. exfalso.
  apply for_upto_first in Hloop as [s1 Hfirst]; [|done].
  unfold link_point_node in Hfirst. simpl in Hfirst.
  destruct (vec_at pointNodes 0) as [node|]; [|done]. simpl in Hfirst.
  rewrite lookup_empty in Hfirst.
  destruct (vec_at (emplace_back [] (InvalidPointIndex, 0)) (m_IeCount env))
    as [parent|] eqn:Hparent; [|done].
  apply vec_at_Some in Hparent. rewrite vec_size_emplace_back in Hparent.
  unfold vec_size in Hparent. simpl in Hparent. lia.
Qed.

(** What a call of [Init] that returns [true] went through. *)
Lemma Init_true_inv (points : list PointData.t) numPoints voxelSize aabbBias env env' :
  Init points numPoints voxelSize aabbBias env = Some (true, env') →
  ∃ nodes env1 env2 indices linked env3,
    1 < numPoints
    ∧ LoadPoints points numPoints env = Some (nodes, env1)
    ∧ ComputeVoxelWorld voxelSize env1 = (true, env2)
    ∧ LinkPointNodes nodes env2 = Some (indices, linked, env3)
    ∧ GenerateRayTracingData linked indices aabbBias env3 = (true, env').
Proof.
  unfold Init. destruct (N.leb_spec numPoints 1) as [|Hmany]; [done|]. intros Hinit.
  destruct (LoadPoints points numPoints env) as [[nodes env1]|] eqn:Hload; [|done].
  simpl in Hinit.
  destruct (ComputeVoxelWorld voxelSize env1) as [[] env2] eqn:Hvoxel;
    simpl in Hinit; [|done].
  destruct (LinkPointNodes nodes env2) as [[[indices linked] env3]|] eqn:Hlink; [|done].
  simpl in Hinit.
  destruct (CreatePrimitives linked indices (m_VoxelWorldInfo env3) (m_IeCount env3)
              aabbBias).1 eqn:Hvalid; simpl in Hinit; [|done].
  injection Hinit as <-.
  exists nodes, env1, env2, indices, linked, env3.
  do 4 (split; [done|]). unfold GenerateRayTracingData. simpl. by rewrite Hvalid.
Qed.

Lemma ComputeVoxelWorld_frame voxelSize env ok env' :
  ComputeVoxelWorld voxelSize env = (ok, env') →
  m_IeCount env' = m_IeCount env ∧ events env' = events env
  ∧ m_PointCount env' = m_PointCount env
  ∧ m_AccelerationStructureValid env' = m_AccelerationStructureValid env
  ∧ m_Aabb env' = m_Aabb env.
Proof.
  unfold ComputeVoxelWorld. destruct (VoxelDimensions _ _ _) as [[dx dy] dz].
  by intros [= _ <-].
Qed.

Lemma LoadPoints_fields (points : list PointData.t) numPoints env nodes env' :
  LoadPoints points numPoints env = Some (nodes, env') →
  m_VoxelWorldInfo env' = m_VoxelWorldInfo env
  ∧ m_IeCount env' = m_IeCount env
  ∧ m_PointCount env' = m_PointCount env
  ∧ m_AccelerationStructureValid env' = m_AccelerationStructureValid env
  ∧ events env' = events env.
Proof.
  unfold LoadPoints. intros Hload.
  destruct (vec_at points 0) as [point0|]; [|done]. simpl in Hload.
  destruct (for_upto _ _ _) as [r|]; [|done]. simpl in Hload.
  by simplify_eq.
Qed.

Lemma LinkPointNodes_fields (pointNodes : list PointNode.t) env indices linked env' :
  LinkPointNodes pointNodes env = Some (indices, linked, env') →
  m_Aabb env' = m_Aabb env
  ∧ m_VoxelWorldInfo env' = m_VoxelWorldInfo env
  ∧ m_PointCount env' = m_PointCount env
  ∧ m_AccelerationStructureValid env' = m_AccelerationStructureValid env
  ∧ events env' = events env.
Proof.
  unfold LinkPointNodes. intros Hlink.
  destruct (for_upto _ _ _) as [s|]; [|done]. simpl in Hlink.
  by simplify_eq.
Qed.
End CloudFacts.

(** X20.  Given at least one point and an array that holds the
    [numPoints] points it is said to hold, [LoadPoints] is defined and
    returns one node per point, in order, with the position, normal,
    label and material of the point and the invalid index as link; of the
    environment it changes the bounding box only. *)
Theorem LoadPoints_copies_points {ext : Externals}
    (points : list PointData.t) (numPoints : N) (env : PointCloudEnvironment) :
  0 < numPoints → numPoints ≤ vec_size points →
  ∃ nodes env',
    LoadPoints points numPoints env = Some (nodes, env')
    ∧ vec_size nodes = numPoints
    ∧ (∀ i point, i < numPoints → vec_at points i = Some point →
         vec_at nodes i
         = Some (PointNode.mk (PointData.position point) (PointData.normal point)
                   (PointData.label point) (PointData.material point)
                   InvalidPointIndex))
    ∧ m_VoxelWorldInfo env' = m_VoxelWorldInfo env
    ∧ m_IeCount env' = m_IeCount env
    ∧ m_PointCount env' = m_PointCount env
    ∧ m_AccelerationStructureValid env' = m_AccelerationStructureValid env
    ∧ events env' = events env.
Proof.
  intros Hpos Hsize.
  destruct (LoadPoints_defined points numPoints env Hpos Hsize) as [[nodes env'] Hload].
  exists nodes, env'. split; [done|].
  destruct (LoadPoints_nodes _ _ _ _ _ Hload) as [Hnodes Hall].
  split; [done|]. split; [|by eapply LoadPoints_fields].
  intros i point Hi Hpoint. destruct (Hall i Hi) as (point' & Hpoint' & Hnode).
  by assert (point' = point) as -> by congruence.
Qed.

Lemma LoadPoints_copies_points_witness :
  ∃ nodes env',
    LoadPoints (ext := Sample.externals) Sample.two_points 2 Sample.env0
    = Some (nodes, env')
    ∧ vec_size nodes = 2.
Proof.
  destruct (LoadPoints_copies_points (ext := Sample.externals)
              Sample.two_points 2 Sample.env0) as (nodes & env' & Hload & Hsize & _).
  - vm_compute. reflexivity.
  - vm_compute. discriminate.
  - exists nodes, env'. split; [exact Hload|exact Hsize].
Defined.

(** X21.  On an environment whose primitive counter is not 0,
    [LinkPointNodes] throws as soon as it is given a node: the first node
    opens a primitive whose slot is the counter, and the table it then
    reads with [at] has one entry only. *)
Theorem LinkPointNodes_throws_on_used_environment {ext : Externals}
    (pointNodes : list PointNode.t) (env : PointCloudEnvironment) :
  m_IeCount env ≠ 0 → 0 < vec_size pointNodes →
  LinkPointNodes pointNodes env = None.
Proof. apply LinkPointNodes_used. Qed.

Lemma LinkPointNodes_throws_on_used_environment_witness :
  LinkPointNodes (ext := Sample.externals)
    [PointNode.mk Sample.origin Sample.origin 7 0 0]
    {| m_Aabb := m_Aabb Sample.env0;
       m_VoxelWorldInfo := m_VoxelWorldInfo Sample.env0;
       m_IeCount := 1;
       m_PointCount := 0;
       m_AccelerationStructureValid := false;
       events := [] |} = None.
Proof.
  apply (LinkPointNodes_throws_on_used_environment (ext := Sample.externals)).
  - vm_compute. discriminate.
  - vm_compute. reflexivity.
Defined.

(** X22.  An environment is initialised at most once.  When [Init] on an
    environment whose primitive counter is 0, with fewer than 2^32 points,
    returns [true], it leaves a primitive counter between 1 and the number
    of points; and no later [Init] on the environment it leaves returns
    [true]: a later call returns [false] or throws in [LinkPointNodes]. *)
Theorem Init_succeeds_once {ext : Externals}
    (points : list PointData.t) (numPoints : N) (voxelSize aabbBias : float)
    (env env1 : PointCloudEnvironment) :
  m_IeCount env = 0 → numPoints < uint32_modulus →
  Init points numPoints voxelSize aabbBias env = Some (true, env1) →
  (0 < m_IeCount env1 ∧ m_IeCount env1 ≤ numPoints)
  ∧ ∀ points' numPoints' voxelSize' aabbBias' result,
      Init points' numPoints' voxelSize' aabbBias' env1 = Some result →
      result.1 = false.
Proof.
  intros Hfresh Hsmall Hinit.
  apply Init_true_inv in Hinit
    as (nodes & e1 & e2 & indices & linked & e3 & Hmany & Hload & Hvoxel & Hlink & Hgen).
  destruct (LoadPoints_nodes _ _ _ _ _ Hload) as [Hnodes _].
  destruct (LoadPoints_fields _ _ _ _ _ Hload) as (_ & Hie1 & _).
  destruct (ComputeVoxelWorld_frame _ _ _ _ Hvoxel) as (Hie2 & _).
  destruct (LinkPointNodes_linked nodes e2) as (s & Hrun & Hlinked);
    [congruence|by rewrite Hnodes|].
  rewrite Hlink in Hrun. injection Hrun as -> -> ->.
  assert (Hcount : 0 < m_IeCount env1 ∧ m_IeCount env1 ≤ numPoints).
  { unfold GenerateRayTracingData in Hgen. injection Hgen as _ <-. simpl.
    destruct Hlinked as (_ & _ & _ & _ & Hle & L5 & L6 & _). cbv zeta in L5, L6.
    rewrite Hnodes in Hle, L5, L6. split; [|done].
    destruct (vec_at_is_Some nodes 0) as [node Hnode]; [lia|].
    destruct (L6 0 _ ltac:(lia) (primitive_ids_at _ _ _ _ Hnode)) as [slot Hslot].
    destruct (L5 _ slot Hslot) as [Hlt _]. lia. }
  split; [done|].
  intros points' numPoints' voxelSize' aabbBias' result Hagain.
  unfold Init in Hagain.
  destruct (N.leb_spec numPoints' 1) as [|Hmany']; [by injection Hagain as <-|].
  destruct (LoadPoints points' numPoints' env1) as [[nodes' e1']|] eqn:Hload'; [|done].
  simpl in Hagain.
  destruct (LoadPoints_nodes _ _ _ _ _ Hload') as [Hnodes' _].
  destruct (LoadPoints_fields _ _ _ _ _ Hload') as (_ & Hie1' & _).
  destruct (ComputeVoxelWorld voxelSize' e1') as [[] e2'] eqn:Hvoxel';
    cbn -[LinkPointNodes] in Hagain; [|by injection Hagain as <-].
  destruct (ComputeVoxelWorld_frame _ _ _ _ Hvoxel') as (Hie2' & _).
  rewrite (LinkPointNodes_used nodes' e2') in Hagain; [done| |lia].
  rewrite Hie2', Hie1'. lia.
Qed.

(** X23.  [Init] returns [true] only after the whole pipeline: more than
    one point, a voxel size above zero and a voxel world without an empty
    dimension, recorded in the environment; exactly one launch of the
    primitive kernel, with the launch count of the primitive counter for
    blocks of 32, followed by one build of the acceleration structure over
    that many primitives; no log line; and an acceleration structure that
    is valid. *)
Theorem Init_true_postcondition {ext : Externals}
    (points : list PointData.t) (numPoints : N) (voxelSize aabbBias : float)
    (env env' : PointCloudEnvironment) :
  Init points numPoints voxelSize aabbBias env = Some (true, env') →
  1 < numPoints
  ∧ fgt voxelSize fzero = true
  ∧ VoxelWorldInfo.voxelSize (m_VoxelWorldInfo env') = voxelSize
  ∧ (let '(dx, dy, dz) := VoxelWorldInfo.dimensions (m_VoxelWorldInfo env') in
     0 < dx ∧ 0 < dy ∧ 0 < dz)
  ∧ events env'
    = events env ++ [LaunchCreatePrimitivesKernel
                       (GetLaunchCount (m_IeCount env') 32) 32;
                     CreateFromAabbs (m_IeCount env')]
  ∧ m_AccelerationStructureValid env' = true.
Proof.
  intros Hinit.
  apply Init_true_inv in Hinit
    as (nodes & e1 & e2 & indices & linked & e3 & Hmany & Hload & Hvoxel & Hlink & Hgen).
  destruct (LoadPoints_fields _ _ _ _ _ Hload) as (_ & _ & _ & _ & Hev1).
  destruct (ComputeVoxelWorld_frame _ _ _ _ Hvoxel) as (_ & Hev2 & _).
  destruct (LinkPointNodes_fields _ _ _ _ _ Hlink) as (_ & Hinfo3 & _ & _ & Hev3).
  unfold GenerateRayTracingData in Hgen. injection Hgen as Hvalid <-. simpl.
  rewrite Hinfo3 in Hvalid. rewrite Hinfo3, Hev3, Hev2, Hev1.
  unfold ComputeVoxelWorld in Hvoxel.
  destruct (VoxelDimensions _ _ _) as [[dx dy] dz].
  injection Hvoxel as Hok <-. simpl.
  apply andb_true_iff in Hok as [Hok Hsize].
  apply andb_true_iff in Hok as [Hok Hz]. apply andb_true_iff in Hok as [Hx Hy].
  apply N.ltb_lt in Hx, Hy, Hz. simpl in Hvalid. done.
Qed.

Lemma Init_true_postcondition_witness :
  ∃ env',
    Init (ext := Sample.externals) Sample.two_points 2 Sample.fone Sample.fone Sample.env0
    = Some (true, env')
    ∧ m_AccelerationStructureValid env' = true.
Proof.
  destruct (Init (ext := Sample.externals) Sample.two_points 2 Sample.fone Sample.fone
              Sample.env0) as [[[] env']|] eqn:Hinit;
    [|vm_compute in Hinit; discriminate..].
  exists env'. split; [reflexivity|].
  by destruct (Init_true_postcondition (ext := Sample.externals) _ _ _ _ _ _ Hinit)
    as (_ & _ & _ & _ & _ & Hvalid).
Defined.

Lemma Init_succeeds_once_witness :
  ∃ env1,
    Init (ext := Sample.externals) Sample.two_points 2 Sample.fone Sample.fone Sample.env0
    = Some (true, env1)
    ∧ 0 < m_IeCount env1.
Proof.
  destruct (Init (ext := Sample.externals) Sample.two_points 2 Sample.fone Sample.fone
              Sample.env0) as [[[] env1]|] eqn:Hinit;
    [|vm_compute in Hinit; discriminate..].
  exists env1. split; [reflexivity|].
  destruct (Init_succeeds_once (ext := Sample.externals)
              Sample.two_points 2 Sample.fone Sample.fone Sample.env0 env1)
    as [[Hpos _] _].
  - vm_compute. reflexivity.
  - vm_compute. reflexivity.
  - exact Hinit.
  - exact Hpos.
Defined.

(** X24.  Given more than one point in an array that holds them, [Init]
    with a voxel size that is not above zero (zero, negative or not a
    number) is defined and returns [false]: it adds the one log line of
    the voxel world and nothing else to what happens outside the object,
    launches no kernel, builds no acceleration structure, and leaves the
    primitive counter, the point count and the state of the acceleration
    structure as they were. *)
Theorem Init_rejects_voxel_size_not_above_zero {ext : Externals}
    (points : list PointData.t) (numPoints : N) (voxelSize aabbBias : float)
    (env : PointCloudEnvironment) :
  1 < numPoints → numPoints ≤ vec_size points →
  fgt voxelSize fzero = false →
  ∃ env',
    Init points numPoints voxelSize aabbBias env = Some (false, env')
    ∧ events env'
      = events env
        ++ [LOG "Failed to compute voxel world. Voxel size is 0 or voxel world dimensions are 0."]
    ∧ m_IeCount env' = m_IeCount env
    ∧ m_PointCount env' = m_PointCount env
    ∧ m_AccelerationStructureValid env' = m_AccelerationStructureValid env.
Proof.
  intros Hmany Hsize Hnot. unfold Init.
  destruct (N.leb_spec numPoints 1) as [|_]; [lia|].
  destruct (LoadPoints_defined points numPoints env) as [[nodes env1] Hload];
    [lia|done|].
  rewrite Hload. simpl.
  destruct (LoadPoints_fields _ _ _ _ _ Hload) as (_ & Hie & Hpc & Hvalid & Hev).
  unfold ComputeVoxelWorld.
  destruct (VoxelDimensions _ _ _) as [[dx dy] dz].
  rewrite Hnot, andb_false_r. simpl.
  eexists. split; [done|]. simpl. by rewrite Hev.
Qed.

Lemma Init_rejects_voxel_size_not_above_zero_witness :
  ∃ env',
    Init (ext := Sample.externals) Sample.two_points 2 (SFopp Sample.fone) Sample.fone
      Sample.env0 = Some (false, env')
    ∧ m_IeCount env' = m_IeCount Sample.env0.
Proof.
  destruct (Init_rejects_voxel_size_not_above_zero (ext := Sample.externals)
              Sample.two_points 2 (SFopp Sample.fone) Sample.fone Sample.env0)
    as (env' & Hinit & _ & Hcount & _).
  - vm_compute. reflexivity.
  - vm_compute. discriminate.
  - vm_compute. reflexivity.
  - exists env'. split; [exact Hinit|exact Hcount].
Defined.
